(** * firecam: the detection engine of [smoke-classifier/detect_fire.py]

    A shallow embedding of the geolocation, deduplication, consensus-merging,
    alert-gating and deferred-evidence code of [detect_fire.py], and the
    theorems that settle the specification's claims about it.

    Conventions of the embedding.
    - Python integers are [Z]; Python floats (scores, wall-clock readings of
      [time.time()]) are idealised: scores are rationals [Q], clock readings
      are whole seconds in [Z], passed to each function that reads the clock.
    - Latitude/longitude pairs are pairs of rationals; the geometry library
      that computes on them is the interface [Shapely].
    - A Python exception that the program does not catch ends the process;
      fallible functions return [result], whose [Raise] carries the exception.
    - SQL tables are lists of rows in insertion order; a query is a [filter]
      over the list, [ORDER BY] a stable sort of the filtered rows. *)

From Stdlib Require Import ZArith QArith Qround List Bool String Ascii Lia Lqa.
From Stdlib Require Import Sorting.Sorted Sorting.Permutation.
Import ListNotations.

Open Scope Z_scope.

(** ** Python exceptions and fallible results *)

Module Py.

Inductive exn : Type :=
| AssertionError
| AttributeError
| JSONDecodeError
| ValueError
| IndexError
| KeyError
| TypeError.

Inductive result (A : Type) : Type :=
| Ok (a : A)
| Raise (e : exn).

Arguments Ok {A} a.
Arguments Raise {A} e.

Definition bind {A B : Type} (m : result A) (k : A -> result B) : result B :=
  match m with
  | Ok a => k a
  | Raise e => Raise e
  end.

(** Truthiness of a value that is [None] or a list: [if x:]. *)
Definition truthy_list {A : Type} (x : option (list A)) : bool :=
  match x with
  | Some (_ :: _) => true
  | _ => false
  end.

(** Truthiness of a value that is [None] or a string. *)
Definition truthy_str (x : option string) : bool :=
  match x with
  | Some s => negb (String.eqb s EmptyString)
  | None => false
  end.

(** Truthiness of an integer: [if n:]. *)
Definition truthy_int (n : Z) : bool := negb (n =? 0).

End Py.

Import Py.

Notation "x <- m ;; k" := (Py.bind m (fun x => k))
  (at level 61, m at next level, right associativity).

(** ** [sorted(l, key=...)]: Python's stable sort by an integer key

    Insertion from the right keeps equal keys in their original order, as
    Timsort does. *)

Section SortedByKey.

Context {A : Type} (key : A -> Z).

Fixpoint insert_by (x : A) (l : list A) : list A :=
  match l with
  | [] => [x]
  | y :: l' => if key x <=? key y then x :: l else y :: insert_by x l'
  end.

Fixpoint sorted_by (l : list A) : list A :=
  match l with
  | [] => []
  | x :: l' => insert_by x (sorted_by l')
  end.

Definition ascending : list A -> Prop :=
  StronglySorted (fun a b => key a <= key b).

End SortedByKey.

(** [l[-n:]] and [l[-1]]. *)
Definition lastn {A : Type} (n : nat) (l : list A) : list A :=
  skipn (List.length l - n) l.

Definition last_opt {A : Type} (l : list A) : option A :=
  match rev l with
  | [] => None
  | x :: _ => Some x
  end.

(** ** The geometry library

    [shapely] is an external library.  The program uses it through
    [Polygon(coords)], [Point(lat, long)], [intersects], [intersection],
    [area], [centroid] and [exterior.coords.xy]; the interface below lists
    exactly these.  [exterior_xy g] is [None] when [g] has no [exterior]
    attribute, which is shapely's answer for every geometry that is not a
    single polygon (the attribute access then raises [AttributeError]).
    [Polygon None] is the empty polygon.  [centroid_xy g] is [None] when the
    centroid of [g] is the empty point, which has no coordinates: shapely's
    answer for an empty geometry. *)

Definition coords : Type := list (Q * Q).

Class Shapely : Type := {
  geom : Type;
  Polygon : option coords -> geom;
  intersects : geom -> geom -> bool;
  intersection : geom -> geom -> geom;
  area : geom -> Q;
  exterior_xy : geom -> option coords;
  centroid_xy : geom -> option (Q * Q);
  intersects_Point : geom -> Q -> Q -> bool
}.

(** What the engine's geometric invariants rest on: every geometry covers a
    set of points, [intersection] covers the points both arguments cover, and
    the exterior ring of a polygon of non-zero area describes the same points
    when handed back to [Polygon]. *)
Record ShapelyRegions (S : Shapely) : Type := {
  covers : geom -> Q -> Q -> Prop;
  covers_intersection : forall (a b : geom) (x y : Q),
    covers (intersection a b) x y <-> covers a x y /\ covers b x y;
  covers_exterior : forall (g : geom) (ring : coords) (x y : Q),
    exterior_xy g = Some ring -> ~ (area g == 0)%Q ->
    (covers (Polygon (Some ring)) x y <-> covers g x y)
}.

Arguments covers {S} _ _ _ _.
Arguments covers_intersection {S} _ _ _ _ _.
Arguments covers_exterior {S} _ _ _ _ _ _ _.

(** ** Data *)

Definition POST_DETECTION_UPDATE_MINS : Z := 7.

(** The [fireSegment] dictionary of a detection policy; [fireDetected] adds
    the key ['weatherScore'] to it. *)
Record FireSegment : Type := {
  score : Q;
  AdjScore : option Q;
  MinX : Z;
  MinY : Z;
  MaxX : Z;
  MaxY : Z;
  weatherScore : option Q
}.

Definition set_weatherScore (fs : FireSegment) (ws : Q) : FireSegment :=
  {| score := score fs; AdjScore := AdjScore fs;
     MinX := MinX fs; MinY := MinY fs; MaxX := MaxX fs; MaxY := MaxY fs;
     weatherScore := Some ws |}.

(** [fireSegment['AdjScore'] if 'AdjScore' in fireSegment else fireSegment['score']] *)
Definition imgScoreOf (fs : FireSegment) : Q :=
  match AdjScore fs with
  | Some a => a
  | None => score fs
  end.

(** [fireSegment['weatherScore']]: a missing key raises [KeyError]. *)
Definition weatherScoreOf (fs : FireSegment) : result Q :=
  match weatherScore fs with
  | Some ws => Ok ws
  | None => Raise KeyError
  end.

(** An entry of [constants['fireUpdateQueue']]. *)
Module FireUpdate.
Record t : Type := {
  cameraID : string;
  cameraHeading : Z;
  timestamp : Z;
  finalTimestamp : Z;
  fireSegment : FireSegment
}.
End FireUpdate.

(** A row of the [detections] table; the [alerts] table has the same columns
    but [ImgSequence].  The [polygon] column holds [str(polygon)]: [None]
    stands for the text ['None'] that [str] gives for a null polygon, which
    [json.loads] does not parse. *)
Module Detection.
Record row : Type := {
  CameraName : string;
  Timestamp : Z;
  AdjScore : Q;
  ImageID : string;
  CroppedID : string;
  MapID : string;
  polygon : option coords;
  sourcePolygons : list (option coords);
  IsProto : Z;
  WeatherScore : Q;
  ImgSequence : list string;
  SortId : Z;
  FireHeading : Z;
  AngularWidth : Z
}.

Definition set_urls (r : row) (cropped annotated map : string) (imgIDs : list string) : row :=
  {| CameraName := CameraName r; Timestamp := Timestamp r; AdjScore := AdjScore r;
     ImageID := annotated; CroppedID := cropped; MapID := map;
     polygon := polygon r; sourcePolygons := sourcePolygons r;
     IsProto := IsProto r; WeatherScore := WeatherScore r;
     ImgSequence := imgIDs; SortId := SortId r;
     FireHeading := FireHeading r; AngularWidth := AngularWidth r |}.

Definition set_CroppedID (r : row) (cropped : string) : row :=
  set_urls r cropped (ImageID r) (MapID r) (ImgSequence r).
End Detection.

(** A row of the [probables] table. *)
Module Probable.
Record row : Type := {
  CameraName : string;
  Heading : Z;
  Timestamp : Z;
  MinX : Z;
  MinY : Z;
  MaxX : Z;
  MaxY : Z;
  Score : Q;
  ImageID : string;
  ModelId : string;
  ProtoNum : Z;
  Hostname : string
}.
End Probable.

(** A row of the [sources] table. *)
Module Source.
Record row : Type := {
  name : string;
  locationid : Z;
  type : option string
}.
End Source.

(** What [queryDetections] returns. *)
Module DetectData.
Record t : Type := {
  adjScore : Q;
  annotatedUrl : string;
  croppedUrl : string;
  mapUrl : string;
  polygon : coords;
  sourcePolygons : list coords;
  isProto : Z;
  weatherScore : Q;
  sortId : Z;
  fireHeading : Z;
  angularWidth : Z
}.
End DetectData.

(** What [isProto] returns: the prototype-model number when one is set, else
    the Boolean [not isProd]. *)
Inductive ProtoFlag : Type :=
| ProtoNumber (n : Z)
| ProtoBool (b : bool).

Definition truthy_flag (f : ProtoFlag) : bool :=
  match f with
  | ProtoNumber n => truthy_int n
  | ProtoBool b => b
  end.

(** [int(isProto(cameraID))] *)
Definition int_flag (f : ProtoFlag) : Z :=
  match f with
  | ProtoNumber n => n
  | ProtoBool true => 1
  | ProtoBool false => 0
  end.

(** The message handed to [goog_helper.publish]. *)
Module Message.
Record t : Type := {
  timestamp : Z;
  cameraID : string;
  adjScore : Q;
  annotatedUrl : string;
  croppedUrl : string;
  mapUrl : string;
  polygon : option coords;
  sourcePolygons : list (option coords);
  isProto : ProtoFlag;
  weatherScore : Q;
  sortId : Z;
  fireHeading : Z
}.
End Message.

Record Email : Type := {
  email_to : list string;
  email_camera : string;
  email_percent : Z
}.

Record Burn : Type := {
  latitude : Q;
  longitude : Q
}.

(** The function attributes of [isProto] once [main] has made its
    initialising call [isProto(None, sources=cameras, protoNum=protoNum)]. *)
Record IsProtoStatics : Type := {
  sourcesDict : list Source.row;
  prodTypesArr : list string;
  isProto_protoNum : Z
}.

(** ** Collaborators

    Everything [detect_fire.py] imports from [firecam.lib] and from third
    parties other than shapely, as far as the engine consults it: one record
    of settings, read-only tables and oracle answers.  An answer that depends
    on the outside world (the image archive, the burn feed) is the answer at
    the time of the call being modelled. *)

Record Env : Type := {
  (** [settings.weatherThreshold] and [constants['protoNum']] *)
  weatherThreshold : Q;
  protoNum : Z;
  (** [constants['googleServices']] is not [None] *)
  googleServices : bool;
  isProtoStatics : IsProtoStatics;
  hostname : string;
  (** [dbManager]: the [sources] table, camera locations, [getNotifications] *)
  sources : list Source.row;
  getCameraMapLocation : string -> string * Q * Q;
  activeEmails : list string;
  activePhones : list string;
  (** [rx_burns.getCurrentBurns(dbManager)] *)
  getCurrentBurns : list Burn;
  (** [img_archive] *)
  getHeadingRange : Z -> Z -> Z -> Z -> Z -> Z * Z;
  findIgnoredViewHeading : string -> Z -> Z -> option Z;
  intersectsAngleRange : Z -> Z -> Z -> Z -> bool;
  (** [getArchiveImages(..., cameraID, heading, start, end, 1)] as the list of
      the fetched files' [parseFilename(...)['unixTime']] *)
  getArchiveImages : string -> Z -> Z -> Z -> list Z;
  alignImage : Z -> bool;
  (** [Image.open(imgPath).size[0]] *)
  imageWidth : string -> Z;
  (** [math.sin(a*math.pi/180)] and [math.cos(a*math.pi/180)] *)
  sin_degrees : Q -> Q;
  cos_degrees : Q -> Q;
  (** [weather] and the weather model: [weatherModel] is
      [normalizeWeather] followed by [predict(...)[0][0]] *)
  Weather : Type;
  weatherModel : option (Q -> nat -> Weather -> Weather -> Q);
  getWeatherData : string -> Z -> Q * Q -> Q * Q -> option Weather * option Weather;
  (** [goog_helper]: uploads and public URLs *)
  copyFile : string -> string;
  copyImage : Z -> string;
  copyMovie : string -> Z -> Z -> option string;
  copyAnnotated : string -> Z -> option string;
  getUrlForFile : option string -> string;
  (** [genAnnotatedMaps]: map rendering, an image-only computation *)
  genAnnotatedMaps : string -> Q -> Q -> option coords -> list (option coords) -> list Burn -> result string
}.

(** ** The mutable state: tables, the queue, and what left the process *)

Record World : Type := {
  detections : list Detection.row;
  alerts : list Detection.row;
  probables : list Probable.row;
  fireUpdateQueue : list FireUpdate.t;
  published : list Message.t;
  emailed : list Email;
  texted : list (string * string);
  ignoreCounter : list (string * Z)
}.

Definition set_detections (w : World) (d : list Detection.row) : World :=
  {| detections := d; alerts := alerts w; probables := probables w;
     fireUpdateQueue := fireUpdateQueue w; published := published w;
     emailed := emailed w; texted := texted w; ignoreCounter := ignoreCounter w |}.

Definition set_alerts (w : World) (a : list Detection.row) : World :=
  {| detections := detections w; alerts := a; probables := probables w;
     fireUpdateQueue := fireUpdateQueue w; published := published w;
     emailed := emailed w; texted := texted w; ignoreCounter := ignoreCounter w |}.

Definition set_probables (w : World) (p : list Probable.row) : World :=
  {| detections := detections w; alerts := alerts w; probables := p;
     fireUpdateQueue := fireUpdateQueue w; published := published w;
     emailed := emailed w; texted := texted w; ignoreCounter := ignoreCounter w |}.

Definition set_fireUpdateQueue (w : World) (q : list FireUpdate.t) : World :=
  {| detections := detections w; alerts := alerts w; probables := probables w;
     fireUpdateQueue := q; published := published w;
     emailed := emailed w; texted := texted w; ignoreCounter := ignoreCounter w |}.

Definition set_published (w : World) (m : list Message.t) : World :=
  {| detections := detections w; alerts := alerts w; probables := probables w;
     fireUpdateQueue := fireUpdateQueue w; published := m;
     emailed := emailed w; texted := texted w; ignoreCounter := ignoreCounter w |}.

Definition set_emailed (w : World) (e : list Email) : World :=
  {| detections := detections w; alerts := alerts w; probables := probables w;
     fireUpdateQueue := fireUpdateQueue w; published := published w;
     emailed := e; texted := texted w; ignoreCounter := ignoreCounter w |}.

Definition set_texted (w : World) (t : list (string * string)) : World :=
  {| detections := detections w; alerts := alerts w; probables := probables w;
     fireUpdateQueue := fireUpdateQueue w; published := published w;
     emailed := emailed w; texted := t; ignoreCounter := ignoreCounter w |}.

Definition set_ignoreCounter (w : World) (c : list (string * Z)) : World :=
  {| detections := detections w; alerts := alerts w; probables := probables w;
     fireUpdateQueue := fireUpdateQueue w; published := published w;
     emailed := emailed w; texted := texted w; ignoreCounter := c |}.

(** Nothing has left the process between [w] and [w']: no alerts row, pubsub
    message, email or SMS was added. *)
Definition same_notifications (w w' : World) : Prop :=
  alerts w' = alerts w /\ published w' = published w /\
  emailed w' = emailed w /\ texted w' = texted w.

(** [constants['fireUpdateQueue']] and [constants['protoNum']] *)
Definition constants_fireUpdateQueue (w : World) : list FireUpdate.t := fireUpdateQueue w.

Definition constants_protoNum (E : Env) : Z := protoNum E.

(** ** Numbers *)

(** [int(x)]: truncation towards zero. *)
Definition Qtruncate (x : Q) : Z := Z.quot (Qnum x) (Zpos (Qden x)).

Definition Qltb (x y : Q) : bool := negb (Qle_bool y x).

(** [round(x)]: to the nearest integer, ties to the even one. *)
Definition round_half_even (x : Q) : Z :=
  let f := Qfloor x in
  let r := (x - inject_Z f)%Q in
  if Qltb r (1 # 2) then f
  else if Qltb (1 # 2) r then f + 1
  else if Z.even f then f else f + 1.

(** [round(x, 4)] *)
Definition round4 (x : Q) : Q :=
  (inject_Z (round_half_even (x * 10000)) / 10000)%Q.

(** [x % 360] on floats: the result has the sign of the divisor. *)
Definition fmod360 (x : Q) : Q :=
  (x - 360 * inject_Z (Qfloor (x / 360)))%Q.

(** ** [isProto] *)

Definition isProto (st : IsProtoStatics) (cameraID : string) : ProtoFlag :=
  if truthy_int (isProto_protoNum st) then ProtoNumber (isProto_protoNum st)
  else
    let type :=
      match find (fun s => String.eqb (Source.name s) cameraID) (rev (sourcesDict st)) with
      | Some s => Source.type s
      | None => None
      end in
    let isProd :=
      truthy_str type
      && negb (Nat.eqb (List.length (prodTypesArr st)) 0)
      && match type with
         | Some ty => existsb (String.eqb ty) (prodTypesArr st)
         | None => false
         end in
    ProtoBool (negb isProd).

(** ** Geometry of a detection *)

Definition getTriangleVertices (E : Env) (latitude longitude : Q) (heading rangeAngle : Z) : coords :=
  let distanceDegrees := 0.6%Q in
  let angle := 90 - heading in
  let minAngle := fmod360 (inject_Z angle - inject_Z rangeAngle / 2) in
  let maxAngle := fmod360 (inject_Z angle + inject_Z rangeAngle / 2) in
  let p0Lat := (latitude + sin_degrees E minAngle * distanceDegrees)%Q in
  let p0Long := (longitude + cos_degrees E minAngle * distanceDegrees)%Q in
  let p1Lat := (latitude + sin_degrees E maxAngle * distanceDegrees)%Q in
  let p1Long := (longitude + cos_degrees E maxAngle * distanceDegrees)%Q in
  [(latitude, longitude); (p0Lat, p0Long); (p1Lat, p1Long)].

Definition getPolygonIntersection {S : Shapely} (coords1 coords2 : option coords)
  : result (option coords) :=
  let poly1 := Polygon coords1 in
  let poly2 := Polygon coords2 in
  if negb (intersects poly1 poly2) then Ok None
  else
    let intPoly := intersection poly1 poly2 in
    if Qeq_bool (area intPoly) 0 then Ok None
    else
      match exterior_xy intPoly with
      | Some ring => Ok (Some ring)
      | None => Raise AttributeError
      end.

Definition landVertices : coords :=
  [ (42.252, -114.000); (42.252, -124.411);
    (41.996, -124.211); (41.814, -124.231); (41.784, -124.255); (41.746, -124.203); (41.737, -124.159);
    (41.657, -124.134); (41.593, -124.100); (41.562, -124.096); (41.546, -124.075); (41.531, -124.080);
    (41.437, -124.063); (41.286, -124.090); (41.228, -124.086); (41.226, -124.108); (41.157, -124.101);
    (41.156, -124.135); (41.138, -124.157); (41.100, -124.162); (41.070, -124.158); (41.031, -124.116);
    (40.931, -124.131); (40.868, -124.159); (40.844, -124.077); (40.802, -124.135); (40.796, -124.181);
    (40.754, -124.194); (40.723, -124.222); (40.688, -124.201); (40.691, -124.280); (40.443, -124.411);
    (40.242, -124.325); (39.750, -123.825); (39.494, -123.765); (39.362, -123.822); (39.285, -123.798);
    (38.936, -123.723); (38.236, -122.972); (38.026, -123.001); (37.908, -122.649); (37.767, -122.512);
    (37.497, -122.490); (37.327, -122.397); (37.213, -122.419); (36.946, -122.078); (36.946, -121.892);
    (36.788, -121.776); (36.660, -121.826); (36.576, -121.975); (36.546, -121.934); (36.515, -121.947);
    (36.408, -121.918); (36.306, -121.901); (36.237, -121.818); (36.156, -121.671); (36.020, -121.570);
    (36.003, -121.504); (35.881, -121.456); (35.770, -121.325); (35.714, -121.312); (35.671, -121.283);
    (35.642, -121.200); (35.631, -121.159); (35.461, -121.001); (35.445, -120.901); (35.366, -120.866);
    (35.255, -120.897); (35.163, -120.762); (35.164, -120.691); (35.114, -120.635); (35.010, -120.639);
    (34.903, -120.670); (34.884, -120.640); (34.859, -120.608); (34.758, -120.635); (34.705, -120.601);
    (34.568, -120.636); (34.540, -120.549); (34.457, -120.470); (34.464, -120.093); (34.434, -119.953);
    (34.407, -119.860); (34.395, -119.715); (34.420, -119.601); (34.353, -119.434); (34.276, -119.304);
    (34.153, -119.219); (34.084, -119.052); (34.009, -118.808); (34.037, -118.533); (33.824, -118.387);
    (33.773, -118.425); (33.707, -118.289); (33.768, -118.167); (33.617, -117.937); (33.546, -117.801);
    (33.460, -117.714); (33.428, -117.628); (33.378, -117.586); (33.204, -117.390); (33.026, -117.287);
    (32.916, -117.256); (32.849, -117.259); (32.843, -117.286); (32.771, -117.255); (32.664, -117.242);
    (32.592, -117.131); (32.536, -117.124);
    (32.100, -116.950); (32.100, -114.000) ]%Q.

Definition intersectLand {S : Shapely} (triangle : coords) : result (option coords) :=
  getPolygonIntersection (Some triangle) (Some landVertices).

(** The first pair of the coordinate arrays [poly.centroid.xy], zipped into
    a list: the list is empty when the centroid has no coordinates, and
    indexing it with [[0]] raises [IndexError]. *)
Definition getCentroid {S : Shapely} (polygonCoords : option coords) : result (Q * Q) :=
  let poly := Polygon polygonCoords in
  match centroid_xy poly with
  | Some latLong => Ok latLong
  | None => Raise IndexError
  end.

(** ** Probable observations *)

Definition recordProbables (E : Env) (w : World) (cameraID : string) (heading timestamp : Z)
    (imgPath : string) (fireSegment : FireSegment) (modelId : string)
    (stateless : bool) (protoNum : Z) : World :=
  let fileID := copyFile E imgPath in
  if negb stateless then
    let dbRow :=
      {| Probable.CameraName := cameraID;
         Probable.Heading := heading;
         Probable.Timestamp := timestamp;
         Probable.MinX := MinX fireSegment;
         Probable.MinY := MinY fireSegment;
         Probable.MaxX := MaxX fireSegment;
         Probable.MaxY := MaxY fireSegment;
         Probable.Score := score fireSegment;
         Probable.ImageID := fileID;
         Probable.ModelId := modelId;
         Probable.ProtoNum := protoNum;
         Probable.Hostname := hostname E |} in
    set_probables w (probables w ++ [dbRow])
  else w.

(** The [WHERE] clause of [isDuplicateProbables]. *)
Definition probable_matches (cameraID : string) (heading timestamp protoNum : Z)
    (r : Probable.row) : bool :=
  String.eqb (Probable.CameraName r) cameraID
  && (Probable.Heading r =? heading)
  && (Probable.Timestamp r >? timestamp - 60*60)
  && (Probable.Timestamp r <? timestamp)
  && (Probable.ProtoNum r =? protoNum).

Definition isDuplicateProbables (w : World) (cameraID : string) (heading timestamp protoNum : Z)
  : bool :=
  let dbResult := filter (probable_matches cameraID heading timestamp protoNum) (probables w) in
  Nat.ltb 0 (List.length dbResult).

(** ** Recent detections and confirmed-event dedup *)

(** [SELECT * FROM detections where timestamp > %s order by sortid desc] *)
Definition getRecentDetections (w : World) (timestamp : Z) : list Detection.row :=
  sorted_by (fun r => - Detection.SortId r)
    (filter (fun r => Detection.Timestamp r >? timestamp - 15*60) (detections w)).

(** [(SELECT locationid FROM sources WHERE name='%s')] *)
Definition locationOf (E : Env) (cameraID : string) : option Z :=
  match find (fun s => String.eqb (Source.name s) cameraID) (sources E) with
  | Some s => Some (Source.locationid s)
  | None => None
  end.

(** [CameraName in (SELECT name FROM sources WHERE locationid = ...)] *)
Definition sameLocation (E : Env) (cameraID cameraName : string) : bool :=
  match locationOf E cameraID with
  | Some loc =>
      existsb (fun s => String.eqb (Source.name s) cameraName && (Source.locationid s =? loc))
        (sources E)
  | None => false
  end.

(** The rows the query of [isDuplicateDetection] selects. *)
Definition dedup_window (E : Env) (cameraID : string) (timestamp : Z) (r : Detection.row) : bool :=
  (Detection.Timestamp r >? timestamp - 2*60*60)
  && (Detection.Timestamp r <? timestamp)
  && sameLocation E cameraID (Detection.CameraName r).

(** The [for entry in dbResult] loop of [isDuplicateDetection]. *)
Fixpoint dedup_scan (E : Env) (fireHeading rangeAngle protoNum : Z)
    (dbResult : list Detection.row) : bool :=
  match dbResult with
  | [] => false
  | entry :: rest =>
      if (protoNum =? 0) && (Detection.IsProto entry >? 1) then
        dedup_scan E fireHeading rangeAngle protoNum rest
      else if (protoNum >? 0) && negb (protoNum =? Detection.IsProto entry) then
        dedup_scan E fireHeading rangeAngle protoNum rest
      else if intersectsAngleRange E (Detection.FireHeading entry) (Detection.AngularWidth entry)
                fireHeading rangeAngle then true
      else dedup_scan E fireHeading rangeAngle protoNum rest
  end.

Definition isDuplicateDetection (E : Env) (w : World) (cameraID : string)
    (fireHeading rangeAngle timestamp protoNum : Z) : bool :=
  let dbResult := filter (dedup_window E cameraID timestamp) (detections w) in
  if Nat.eqb (List.length dbResult) 0 then false
  else dedup_scan E fireHeading rangeAngle protoNum dbResult.

(** ** Consensus merging *)

(** [json.loads] of a stored [polygon] and of a stored [sourcepolygons]. *)
Definition json_loads_polygon (text : option coords) : result coords :=
  match text with
  | Some c => Ok c
  | None => Raise JSONDecodeError
  end.

Fixpoint json_loads_polygons (text : list (option coords)) : result (list coords) :=
  match text with
  | [] => Ok []
  | p :: rest =>
      c <- json_loads_polygon p ;;
      cs <- json_loads_polygons rest ;;
      Ok (c :: cs)
  end.

(** The [for alert in recentDetections] loop of [intersectRecentDetections]. *)
Fixpoint intersect_scan {S : Shapely} (triangle : option coords)
    (recentDetections : list Detection.row) : result (option (coords * list coords)) :=
  match recentDetections with
  | [] => Ok None
  | alert :: rest =>
      alertCoords <- json_loads_polygon (Detection.polygon alert) ;;
      intersection <- getPolygonIntersection triangle (Some alertCoords) ;;
      match intersection with
      | Some (v :: vs) =>
          sourcePolygons <- json_loads_polygons (Detection.sourcePolygons alert) ;;
          Ok (Some (v :: vs, sourcePolygons))
      | _ => intersect_scan triangle rest
      end
  end.

Definition intersectRecentDetections {S : Shapely} (w : World) (timestamp : Z)
    (triangle : option coords) : result (option (coords * list coords)) :=
  intersect_scan triangle (getRecentDetections w timestamp).

(** Lines 1009-1015 of [fireDetected]: the new event's polygon and source
    polygons. *)
Definition consensus {S : Shapely} (w : World) (timestamp : Z) (cameraViewPoly : option coords)
  : result (option coords * list (option coords)) :=
  intersectionInfo <- intersectRecentDetections w timestamp cameraViewPoly ;;
  match intersectionInfo with
  | Some (polygon, sourcePolygons) =>
      Ok (Some polygon, map Some sourcePolygons ++ [cameraViewPoly])
  | None => Ok (cameraViewPoly, [cameraViewPoly])
  end.

(** ** Weather-adjusted score *)

Definition checkWeatherInfo {S : Shapely} (E : Env) (cameraID : string) (timestamp : Z)
    (fireSegment : FireSegment) (polygon : option coords)
    (sourcePolygons : list (option coords)) (cameraLatLong : Q * Q) : result Q :=
  match weatherModel E with
  | None => Ok 1%Q
  | Some model =>
      centroidLatLong <- getCentroid polygon ;;
      match getWeatherData E cameraID timestamp centroidLatLong cameraLatLong with
      | (Some weatherCentroid, Some weatherCamera) =>
          let numPolys := List.length sourcePolygons in
          let imgScore := imgScoreOf fireSegment in
          Ok (model imgScore numPolys weatherCentroid weatherCamera)
      | _ => Ok 1%Q
      end
  end.

(** ** The [detections] and [alerts] tables *)

Definition detection_row (E : Env) (cameraID : string) (timestamp : Z)
    (croppedUrl annotatedUrl mapUrl : string) (fireSegment : FireSegment)
    (polygon : option coords) (sourcePolygons : list (option coords))
    (imgIDs : list string) (sortId fireHeading rangeAngle : Z) : result Detection.row :=
  ws <- weatherScoreOf fireSegment ;;
  Ok {| Detection.CameraName := cameraID;
        Detection.Timestamp := timestamp;
        Detection.AdjScore := imgScoreOf fireSegment;
        Detection.ImageID := annotatedUrl;
        Detection.CroppedID := croppedUrl;
        Detection.MapID := mapUrl;
        Detection.polygon := polygon;
        Detection.sourcePolygons := sourcePolygons;
        Detection.IsProto := int_flag (isProto (isProtoStatics E) cameraID);
        Detection.WeatherScore := ws;
        Detection.ImgSequence := imgIDs;
        Detection.SortId := sortId;
        Detection.FireHeading := fireHeading;
        Detection.AngularWidth := rangeAngle |}.

Definition insertDetectionsDB (E : Env) (w : World) (cameraID : string) (timestamp : Z)
    (croppedUrl annotatedUrl mapUrl : string) (fireSegment : FireSegment)
    (polygon : option coords) (sourcePolygons : list (option coords))
    (imgIDs : list string) (sortId fireHeading rangeAngle : Z) : result World :=
  dbRow <- detection_row E cameraID timestamp croppedUrl annotatedUrl mapUrl fireSegment
             polygon sourcePolygons imgIDs sortId fireHeading rangeAngle ;;
  Ok (set_detections w (detections w ++ [dbRow])).

Definition insertAlertsDB (E : Env) (w : World) (cameraID : string) (timestamp : Z)
    (croppedUrl annotatedUrl mapUrl : string) (fireSegment : FireSegment)
    (polygon : option coords) (sourcePolygons : list (option coords))
    (sortId fireHeading rangeAngle : Z) : result World :=
  dbRow <- detection_row E cameraID timestamp croppedUrl annotatedUrl mapUrl fireSegment
             polygon sourcePolygons [] sortId fireHeading rangeAngle ;;
  Ok (set_alerts w (alerts w ++ [dbRow])).

(** [WHERE CameraName='%s' and timestamp = %s] *)
Definition row_key (cameraID : string) (timestamp : Z) (r : Detection.row) : bool :=
  String.eqb (Detection.CameraName r) cameraID && (Detection.Timestamp r =? timestamp).

Definition updateDetectionsDB (w : World) (cameraID : string) (timestamp : Z)
    (croppedUrl annotatedUrl mapUrl : string) (imgIDs : list string) : World :=
  set_detections w
    (map (fun r => if row_key cameraID timestamp r
                   then Detection.set_urls r croppedUrl annotatedUrl mapUrl imgIDs
                   else r)
         (detections w)).

Inductive TableName : Type :=
| detections_table
| alerts_table.

Definition update_CroppedID (cameraID : string) (timestamp : Z) (croppedUrl : string)
    (rows : list Detection.row) : list Detection.row :=
  map (fun r => if row_key cameraID timestamp r then Detection.set_CroppedID r croppedUrl else r)
      rows.

Definition updateDBMovie (w : World) (tableName : TableName) (cameraID : string)
    (timestamp : Z) (croppedUrl : string) : World :=
  match tableName with
  | detections_table =>
      set_detections w (update_CroppedID cameraID timestamp croppedUrl (detections w))
  | alerts_table =>
      set_alerts w (update_CroppedID cameraID timestamp croppedUrl (alerts w))
  end.

Definition queryDetections (w : World) (cameraID : string) (timestamp : Z)
  : result (option DetectData.t) :=
  match filter (row_key cameraID timestamp) (detections w) with
  | [] => Ok None
  | detectEntry :: _ =>
      polygon <- json_loads_polygon (Detection.polygon detectEntry) ;;
      sourcePolygons <- json_loads_polygons (Detection.sourcePolygons detectEntry) ;;
      Ok (Some {| DetectData.adjScore := Detection.AdjScore detectEntry;
                  DetectData.annotatedUrl := Detection.ImageID detectEntry;
                  DetectData.croppedUrl := Detection.CroppedID detectEntry;
                  DetectData.mapUrl := Detection.MapID detectEntry;
                  DetectData.polygon := polygon;
                  DetectData.sourcePolygons := sourcePolygons;
                  DetectData.isProto := Detection.IsProto detectEntry;
                  DetectData.weatherScore := Detection.WeatherScore detectEntry;
                  DetectData.sortId := Detection.SortId detectEntry;
                  DetectData.fireHeading := Detection.FireHeading detectEntry;
                  DetectData.angularWidth := Detection.AngularWidth detectEntry |})
  end.

(** ** Outward notifications *)

Definition pubsubFireNotification (E : Env) (w : World) (cameraID : string) (timestamp : Z)
    (croppedUrl annotatedUrl mapUrl : string) (fireSegment : FireSegment)
    (polygon : option coords) (sourcePolygons : list (option coords))
    (sortId fireHeading : Z) : result World :=
  ws <- weatherScoreOf fireSegment ;;
  let message :=
    {| Message.timestamp := timestamp;
       Message.cameraID := cameraID;
       Message.adjScore := imgScoreOf fireSegment;
       Message.annotatedUrl := annotatedUrl;
       Message.croppedUrl := croppedUrl;
       Message.mapUrl := mapUrl;
       Message.polygon := polygon;
       Message.sourcePolygons := sourcePolygons;
       Message.isProto := isProto (isProtoStatics E) cameraID;
       Message.weatherScore := ws;
       Message.sortId := sortId;
       Message.fireHeading := fireHeading |} in
  Ok (set_published w (published w ++ [message])).

(** The mail service is [constants['googleServices']['mail']]: subscripting
    [None] raises [TypeError]. *)
Definition emailFireNotification (E : Env) (w : World) (cameraID : string)
    (fireSegment : FireSegment) : result World :=
  let emails := activeEmails E in
  if Nat.ltb 0 (List.length emails) then
    if googleServices E then
      Ok (set_emailed w (emailed w ++
            [{| email_to := emails; email_camera := cameraID;
                email_percent := Qtruncate (score fireSegment * 100) |}]))
    else Raise TypeError
  else Ok w.

Definition smsFireNotification (E : Env) (w : World) (cameraID : string) : World :=
  let phones := activePhones E in
  set_texted w (texted w ++ map (fun phone => (phone, cameraID)) phones).

(** ** Alert gating *)

Definition publishAlert {S : Shapely} (E : Env) (w : World) (cameraID : string)
    (fireHeading rangeAngle timestamp : Z) (weatherScore : Q)
    (cameraViewPoly : option coords) (rxBurns : list Burn) (protoNum : Z) : bool :=
  if truthy_flag (isProto (isProtoStatics E) cameraID) then false
  else if Qltb weatherScore (weatherThreshold E) then false
  else if isDuplicateDetection E w cameraID fireHeading rangeAngle timestamp protoNum then false
  else
    let viewPolygon := Polygon cameraViewPoly in
    negb (existsb (fun burn => intersects_Point viewPolygon (latitude burn) (longitude burn))
            rxBurns).

(** ** Evidence: the cropped movie

    Images are identified by the [unixTime] of their file name; the image of
    the detection itself has [unixTime = timestamp].  Only what the engine
    reads is kept of [genMovie]: the movie's file, the uploaded images, the
    final timestamp and the number of images after the detection. *)

Definition genMovie (E : Env) (cameraID : string) (cameraHeading timestamp : Z)
    (saveFullImages : bool) : option string * list string * Z * nat :=
  let imgSequence :=
    getArchiveImages E cameraID cameraHeading
      (timestamp - 4*60) (timestamp + POST_DETECTION_UPDATE_MINS*60) in
  let preImages := filter (fun t => t <? timestamp) imgSequence in
  let postImages := filter (fun t => negb (t <? timestamp) && negb (t =? timestamp)) imgSequence in
  let finalTimestamp := last imgSequence timestamp in
  let postImages := firstn 3 postImages in
  let imgSequence := lastn 4 preImages ++ [timestamp] ++ postImages in
  let imgIDs :=
    if saveFullImages
    then map (copyImage E) (filter (fun t => (t =? timestamp) || alignImage E t) imgSequence)
    else [] in
  if saveFullImages && Nat.ltb (List.length imgIDs) 2 then
    (Some EmptyString, imgIDs, finalTimestamp, List.length postImages)
  else
    (copyMovie E cameraID timestamp finalTimestamp, imgIDs, finalTimestamp,
     List.length postImages).

Definition genAnnotatedImages (E : Env) (cameraID : string) (cameraHeading timestamp : Z)
  : option string * list string * option string * Z :=
  let '(movieID, imgIDs, finalTimestamp, _) := genMovie E cameraID cameraHeading timestamp true in
  if negb (truthy_str movieID) then (movieID, imgIDs, Some EmptyString, finalTimestamp)
  else (movieID, imgIDs, copyAnnotated E cameraID timestamp, finalTimestamp).

(** ** The deferred evidence queue *)

Definition same_event (cameraID : string) (timestamp : Z) (x : FireUpdate.t) : bool :=
  String.eqb (FireUpdate.cameraID x) cameraID && (FireUpdate.timestamp x =? timestamp).

(** [now] is the reading of [time.time()].  The sorted list replaces
    [constants['fireUpdateQueue']]; every function reads the queue from
    [constants] anew, so the list object left behind is not used again. *)
Definition enqueueFireUpdate (now : Z) (w : World) (cameraID : string)
    (cameraHeading timestamp finalTimestamp : Z) (fireSegment : FireSegment) : result World :=
  let fireUpdateQueue := constants_fireUpdateQueue w in
  let filtered := filter (same_event cameraID timestamp) fireUpdateQueue in
  if negb (Nat.eqb (List.length filtered) 0) then Raise AssertionError
  else if now >? timestamp + POST_DETECTION_UPDATE_MINS*60 then Ok w
  else
    let fireUpdateQueue :=
      fireUpdateQueue ++
        [{| FireUpdate.cameraID := cameraID;
            FireUpdate.cameraHeading := cameraHeading;
            FireUpdate.timestamp := timestamp;
            FireUpdate.finalTimestamp := finalTimestamp;
            FireUpdate.fireSegment := fireSegment |}] in
    Ok (set_fireUpdateQueue w (sorted_by FireUpdate.finalTimestamp fireUpdateQueue)).

(** [popFireUpdate] returns the popped entry, if any, and leaves the queue
    without it. *)
Definition popFireUpdate (now : Z) (fireUpdateQueue : list FireUpdate.t)
  : option FireUpdate.t * list FireUpdate.t :=
  match fireUpdateQueue with
  | fireEvent :: rest =>
      if now >? FireUpdate.finalTimestamp fireEvent + 60 then (Some fireEvent, rest)
      else (None, fireUpdateQueue)
  | [] => (None, fireUpdateQueue)
  end.

Definition checkNewImage (E : Env) (cameraID : string)
    (cameraHeading timestamp finalTimestamp : Z) : bool :=
  let images :=
    getArchiveImages E cameraID cameraHeading
      (finalTimestamp + 31) (timestamp + POST_DETECTION_UPDATE_MINS*60) in
  match last_opt images with
  | None => false
  | Some lastImage => lastImage >? finalTimestamp
  end.

(** [None] stands for the pair [(None, None)] that [updateMovie] returns when
    the archive has no image of the detection time. *)
Definition updateMovie (E : Env) (cameraID : string) (cameraHeading timestamp : Z)
  : option (option string * Z * bool) :=
  match getArchiveImages E cameraID cameraHeading timestamp timestamp with
  | [] => None
  | _ :: _ =>
      let '(movieID, _, finalTimestamp, postCount) :=
        genMovie E cameraID cameraHeading timestamp false in
      let isFinalMovie := Nat.ltb 2 postCount in
      Some (movieID, finalTimestamp, isFinalMovie)
  end.

(** [now_pop] and [now_enqueue] are the readings of [time.time()] in
    [popFireUpdate] and in the requeueing [enqueueFireUpdate]. *)
Definition processEnqueuedUpdates {S : Shapely} (E : Env) (now_pop now_enqueue : Z) (w : World)
  : result World :=
  let protoNum := constants_protoNum E in
  let '(fireEvent, queue) := popFireUpdate now_pop (constants_fireUpdateQueue w) in
  let w := set_fireUpdateQueue w queue in
  match fireEvent with
  | None => Ok w
  | Some fireEvent =>
      let cameraID := FireUpdate.cameraID fireEvent in
      let cameraHeading := FireUpdate.cameraHeading fireEvent in
      let timestamp := FireUpdate.timestamp fireEvent in
      let finalTimestamp := FireUpdate.finalTimestamp fireEvent in
      let fireSegment := FireUpdate.fireSegment fireEvent in
      detectData <- queryDetections w cameraID timestamp ;;
      match detectData with
      | Some detectData =>
          if checkNewImage E cameraID cameraHeading timestamp finalTimestamp then
            match updateMovie E cameraID cameraHeading timestamp with
            | None => Raise ValueError
            | Some (movieID, finalTimestamp, isFinalMovie) =>
                let reQueue := negb isFinalMovie in
                if truthy_str movieID && truthy_int finalTimestamp then
                  let movieUrl := getUrlForFile E movieID in
                  let movieUrls := (movieUrl ++ "," ++ DetectData.croppedUrl detectData)%string in
                  let w := updateDBMovie w detections_table cameraID timestamp movieUrls in
                  let sourcePolygons := DetectData.sourcePolygons detectData in
                  match last_opt sourcePolygons with
                  | None => Raise IndexError
                  | Some cameraViewPoly =>
                      let rxBurns := getCurrentBurns E in
                      w <- (if publishAlert E w cameraID
                                 (DetectData.fireHeading detectData)
                                 (DetectData.angularWidth detectData)
                                 timestamp (DetectData.weatherScore detectData)
                                 (Some cameraViewPoly) rxBurns protoNum
                            then
                              let w := updateDBMovie w alerts_table cameraID timestamp movieUrls in
                              pubsubFireNotification E w cameraID timestamp movieUrls
                                (DetectData.annotatedUrl detectData)
                                (DetectData.mapUrl detectData) fireSegment
                                (Some (DetectData.polygon detectData))
                                (map Some (DetectData.sourcePolygons detectData))
                                (DetectData.sortId detectData)
                                (DetectData.fireHeading detectData)
                            else Ok w) ;;
                      if reQueue then
                        enqueueFireUpdate now_enqueue w cameraID cameraHeading timestamp
                          finalTimestamp fireSegment
                      else Ok w
                  end
                else Ok w
            end
          else
            enqueueFireUpdate now_enqueue w cameraID cameraHeading timestamp
              finalTimestamp fireSegment
      | None =>
          enqueueFireUpdate now_enqueue w cameraID cameraHeading timestamp
            finalTimestamp fireSegment
      end
  end.

(** ** [fireDetected]

    [now_sortId] is the reading of [time.time()] that becomes the sort key,
    [now_enqueue] the one made by [enqueueFireUpdate]. *)

Definition fireDetected {S : Shapely} (E : Env) (now_sortId now_enqueue : Z) (w : World)
    (cameraID : string) (cameraHeading timestamp fov : Z) (imgPath : string)
    (fireSegment : FireSegment) : result World :=
  let protoNum := constants_protoNum E in
  let '(mapFiles, camLatitude, camLongitude) := getCameraMapLocation E cameraID in
  let imgSizeX := imageWidth E imgPath in
  let '(fireHeading, rangeAngle) :=
    getHeadingRange E cameraHeading fov (MinX fireSegment) (MaxX fireSegment) imgSizeX in
  match findIgnoredViewHeading E cameraID fireHeading rangeAngle with
  | Some ignoredHeading =>
      Ok (set_ignoreCounter w (ignoreCounter w ++ [(cameraID, ignoredHeading)]))
  | None =>
      let triangle := getTriangleVertices E camLatitude camLongitude fireHeading rangeAngle in
      cameraViewPoly <- intersectLand triangle ;;
      merged <- consensus w timestamp cameraViewPoly ;;
      let '(polygon, sourcePolygons) := merged in
      weatherScore <-
        checkWeatherInfo E cameraID timestamp fireSegment polygon sourcePolygons
          (camLatitude, camLongitude) ;;
      let fireSegment := set_weatherScore fireSegment (round4 weatherScore) in
      let sortId := now_sortId in
      w <- insertDetectionsDB E w cameraID timestamp EmptyString EmptyString EmptyString
             fireSegment polygon sourcePolygons [] sortId fireHeading rangeAngle ;;
      let rxBurns := getCurrentBurns E in
      mapUrl <- genAnnotatedMaps E mapFiles camLatitude camLongitude polygon sourcePolygons
                  rxBurns ;;
      let '(croppedID, imgIDs, annotatedID, finalTimestamp) :=
        genAnnotatedImages E cameraID cameraHeading timestamp in
      if negb (truthy_str croppedID) then Ok w
      else
        let croppedUrl := getUrlForFile E croppedID in
        let annotatedUrl := getUrlForFile E annotatedID in
        let w := updateDetectionsDB w cameraID timestamp croppedUrl annotatedUrl mapUrl imgIDs in
        w <- enqueueFireUpdate now_enqueue w cameraID cameraHeading timestamp finalTimestamp
               fireSegment ;;
        if publishAlert E w cameraID fireHeading rangeAngle timestamp weatherScore
             cameraViewPoly rxBurns protoNum
        then
          w <- insertAlertsDB E w cameraID timestamp croppedUrl annotatedUrl mapUrl fireSegment
                 polygon sourcePolygons sortId fireHeading rangeAngle ;;
          w <- pubsubFireNotification E w cameraID timestamp croppedUrl annotatedUrl mapUrl
                 fireSegment polygon sourcePolygons sortId fireHeading ;;
          w <- emailFireNotification E w cameraID fireSegment ;;
          Ok (smsFireNotification E w cameraID)
        else Ok w
  end.

(** ** The main loop, lines 1475-1482: what follows a detection result *)

Definition mainDetection {S : Shapely} (E : Env) (now_sortId now_enqueue : Z) (w : World)
    (cameraID : string) (heading timestamp fov : Z) (imgPath : string)
    (fireSegment : option FireSegment) (modelId : string)
    (stateless useArchivedImages : bool) : result World :=
  let protoNum := constants_protoNum E in
  match fireSegment with
  | Some fireSegment =>
      if negb useArchivedImages then
        let w := recordProbables E w cameraID heading timestamp imgPath fireSegment modelId
                   stateless protoNum in
        if negb (isDuplicateProbables w cameraID heading timestamp protoNum || stateless) then
          fireDetected E now_sortId now_enqueue w cameraID heading timestamp fov imgPath
            fireSegment
        else Ok w
      else Ok w
  | None => Ok w
  end.

(** ** A geometry to compute with: axis-parallel rectangles

    An implementation of the [Shapely] interface that is exact on polygons
    whose vertices are the corners of an axis-parallel rectangle: a geometry
    is a closed box (possibly a segment or a point) or empty, [Polygon] takes
    the bounding box of the vertices, and the intersection of two boxes is a
    box.  As in shapely, only a box of non-zero area is a polygon and has an
    exterior ring (five vertices, the first repeated).  It instantiates the
    general theorems on concrete inputs. *)

Module Rect.

Record box : Type := {
  xlo : Q;
  xhi : Q;
  ylo : Q;
  yhi : Q
}.

Definition qmin (a b : Q) : Q := if Qle_bool a b then a else b.

Definition qmax (a b : Q) : Q := if Qle_bool a b then b else a.

Definition nonempty (b : box) : bool :=
  Qle_bool (xlo b) (xhi b) && Qle_bool (ylo b) (yhi b).

Definition add_vertex (b : box) (v : Q * Q) : box :=
  {| xlo := qmin (xlo b) (fst v); xhi := qmax (xhi b) (fst v);
     ylo := qmin (ylo b) (snd v); yhi := qmax (yhi b) (snd v) |}.

Definition Polygon (c : option coords) : option box :=
  match c with
  | Some (v :: rest) =>
      Some (fold_left add_vertex rest
              {| xlo := fst v; xhi := fst v; ylo := snd v; yhi := snd v |})
  | _ => None
  end.

Definition intersection (a b : option box) : option box :=
  match a, b with
  | Some a, Some b =>
      let r := {| xlo := qmax (xlo a) (xlo b); xhi := qmin (xhi a) (xhi b);
                  ylo := qmax (ylo a) (ylo b); yhi := qmin (yhi a) (yhi b) |} in
      if nonempty a && nonempty b && nonempty r then Some r else None
  | _, _ => None
  end.

Definition intersects (a b : option box) : bool :=
  match intersection a b with
  | Some _ => true
  | None => false
  end.

Definition area (g : option box) : Q :=
  match g with
  | Some b => if nonempty b then ((xhi b - xlo b) * (yhi b - ylo b))%Q else 0%Q
  | None => 0%Q
  end.

Definition exterior_xy (g : option box) : option coords :=
  match g with
  | Some b =>
      if Qeq_bool (area g) 0 then None
      else Some [ (xlo b, ylo b); (xhi b, ylo b); (xhi b, yhi b); (xlo b, yhi b);
                  (xlo b, ylo b) ]
  | None => Some []
  end.

Definition centroid_xy (g : option box) : option (Q * Q) :=
  match g with
  | Some b => Some (((xlo b + xhi b) / 2)%Q, ((ylo b + yhi b) / 2)%Q)
  | None => None
  end.

Definition intersects_Point (g : option box) (x y : Q) : bool :=
  match g with
  | Some b =>
      Qle_bool (xlo b) x && Qle_bool x (xhi b) && Qle_bool (ylo b) y && Qle_bool y (yhi b)
  | None => false
  end.

Definition covers (g : option box) (x y : Q) : Prop :=
  match g with
  | Some b => (xlo b <= x /\ x <= xhi b /\ ylo b <= y /\ y <= yhi b)%Q
  | None => False
  end.

End Rect.

Definition RectShapely : Shapely :=
  {| geom := option Rect.box;
     Polygon := Rect.Polygon;
     intersects := Rect.intersects;
     intersection := Rect.intersection;
     area := Rect.area;
     exterior_xy := Rect.exterior_xy;
     centroid_xy := Rect.centroid_xy;
     intersects_Point := Rect.intersects_Point |}.

(** The corners of the rectangle [x0, x1] x [y0, y1]. *)
Definition rectangle (x0 x1 y0 y1 : Q) : coords :=
  [ (x0, y0); (x1, y0); (x1, y1); (x0, y1) ].

(** ** Notions the theorems are stated with *)

(** The polygon of an event covers exactly the points that every one of its
    source polygons covers. *)
Definition intersection_of_sources {S : Shapely} (L : ShapelyRegions S)
    (polygon : option coords) (sourcePolygons : list (option coords)) : Prop :=
  sourcePolygons <> [] /\
  forall x y : Q,
    covers L (Polygon polygon) x y <->
    (forall s, In s sourcePolygons -> covers L (Polygon s) x y).

Definition consistent_event {S : Shapely} (L : ShapelyRegions S) (r : Detection.row) : Prop :=
  intersection_of_sources L (Detection.polygon r) (Detection.sourcePolygons r).

(** A stored event that the consensus scan passes over: its polygon has no
    intersection with the view polygon, or one without area. *)
Definition passed_over {S : Shapely} (view : option coords) (alert : Detection.row) : Prop :=
  exists alertCoords,
    Detection.polygon alert = Some alertCoords /\
    (getPolygonIntersection view (Some alertCoords) = Ok None \/
     getPolygonIntersection view (Some alertCoords) = Ok (Some [])).

(** The decision [publishAlert] takes inside [fireDetected], computed from
    the state in which [fireDetected] is entered. *)
Definition alertGate {S : Shapely} (E : Env) (w : World) (cameraID : string)
    (cameraHeading timestamp fov : Z) (imgPath : string) (fireSegment : FireSegment)
  : result bool :=
  let '(mapFiles, camLatitude, camLongitude) := getCameraMapLocation E cameraID in
  let '(fireHeading, rangeAngle) :=
    getHeadingRange E cameraHeading fov (MinX fireSegment) (MaxX fireSegment)
      (imageWidth E imgPath) in
  cameraViewPoly <-
    intersectLand (getTriangleVertices E camLatitude camLongitude fireHeading rangeAngle) ;;
  merged <- consensus w timestamp cameraViewPoly ;;
  let '(polygon, sourcePolygons) := merged in
  weatherScore <-
    checkWeatherInfo E cameraID timestamp fireSegment polygon sourcePolygons
      (camLatitude, camLongitude) ;;
  Ok (publishAlert E w cameraID fireHeading rangeAngle timestamp weatherScore
        cameraViewPoly (getCurrentBurns E) (constants_protoNum E)).

(** Compatibility of an observation's prototype-model number with the number
    stored with an event.  A stored 0 or 1 comes from the production model
    (0: production camera, 1: non-production camera); the production model
    (number 0) is compatible with these, a prototype model with its own
    number only. *)
Definition compatible_protoNum (protoNum isproto : Z) : Prop :=
  (protoNum = 0 -> isproto <= 1) /\ (0 < protoNum -> isproto = protoNum).

(** The camera [cameraName] is at the location of the camera [cameraID],
    according to the [sources] table. *)
Definition shares_location (E : Env) (cameraID cameraName : string) : Prop :=
  exists loc s,
    locationOf E cameraID = Some loc /\
    In s (sources E) /\ Source.name s = cameraName /\ Source.locationid s = loc.

(** The order in which [getRecentDetections] hands the rows to the scan. *)
Definition descending_sortId : list Detection.row -> Prop :=
  StronglySorted (fun a b => Detection.SortId b <= Detection.SortId a).

(** Two rows agree on the columns the confirmed-event dedup reads. *)
Definition same_dedup_columns (r r' : Detection.row) : Prop :=
  Detection.CameraName r' = Detection.CameraName r /\
  Detection.Timestamp r' = Detection.Timestamp r /\
  Detection.IsProto r' = Detection.IsProto r /\
  Detection.FireHeading r' = Detection.FireHeading r /\
  Detection.AngularWidth r' = Detection.AngularWidth r.

(** The archived frames taken after the detection instant, among those
    [genMovie] fetches (from four minutes before the detection to
    [POST_DETECTION_UPDATE_MINS] minutes after it). *)
Definition postDetectionFrames (E : Env) (cameraID : string) (cameraHeading timestamp : Z)
  : list Z :=
  filter (fun t => timestamp <? t)
    (getArchiveImages E cameraID cameraHeading
       (timestamp - 4*60) (timestamp + POST_DETECTION_UPDATE_MINS*60)).

(** The queue entry [e] with its final timestamp advanced to [finalTimestamp]. *)
Definition advanced (e : FireUpdate.t) (finalTimestamp : Z) : FireUpdate.t :=
  {| FireUpdate.cameraID := FireUpdate.cameraID e;
     FireUpdate.cameraHeading := FireUpdate.cameraHeading e;
     FireUpdate.timestamp := FireUpdate.timestamp e;
     FireUpdate.finalTimestamp := finalTimestamp;
     FireUpdate.fireSegment := FireUpdate.fireSegment e |}.

(** The states of a deployment: it starts with an empty [detections] table
    and, as every process does, with an empty queue;
    each iteration of the main loop processes the queue and then follows up
    a detection result, the collaborators answering anew every time; a
    restart of the process loses the queue and keeps the tables. *)
Inductive reachable {S : Shapely} : World -> Prop :=
| reachable_start (w : World) :
    detections w = [] -> fireUpdateQueue w = [] -> reachable w
| reachable_restart (w : World) :
    reachable w -> reachable (set_fireUpdateQueue w [])
| reachable_update (E : Env) (now_pop now_enqueue : Z) (w w' : World) :
    reachable w ->
    processEnqueuedUpdates E now_pop now_enqueue w = Ok w' ->
    reachable w'
| reachable_detection (E : Env) (now_sortId now_enqueue : Z) (w w' : World)
    (cameraID : string) (heading timestamp fov : Z) (imgPath : string)
    (fireSegment : option FireSegment) (modelId : string)
    (stateless useArchivedImages : bool) :
    reachable w ->
    mainDetection E now_sortId now_enqueue w cameraID heading timestamp fov imgPath
      fireSegment modelId stateless useArchivedImages = Ok w' ->
    reachable w'.

(** Enqueueing a list of entries one after the other, all at clock reading
    [now]; polling a queue at each of a list of clock readings. *)
Definition enqueue_entry (now : Z) (w : World) (e : FireUpdate.t) : result World :=
  enqueueFireUpdate now w (FireUpdate.cameraID e) (FireUpdate.cameraHeading e)
    (FireUpdate.timestamp e) (FireUpdate.finalTimestamp e) (FireUpdate.fireSegment e).

Fixpoint poll_at (times : list Z) (queue : list FireUpdate.t) : list (option FireUpdate.t) :=
  match times with
  | [] => []
  | now :: times' =>
      let '(fireEvent, queue') := popFireUpdate now queue in
      fireEvent :: poll_at times' queue'
  end.

(** ** A small deployment to compute with

    Two cameras at one location and a third elsewhere, an archive given by
    the list of its image times, no burns, and the rectangle geometry.  The
    theorems are instantiated on it. *)

(** Modelled from the spec: [img_archive.intersectsAngleRange] is not among
    the sources; the spec describes it as [headingRangeOverlap(headingA,
    widthA, headingB, widthB)], true if the two angular sectors (centre
    heading and angular width, on a 360-degree wrap) overlap at all.  Two
    sectors overlap when the angular distance of their centres is at most
    half the sum of their widths. *)
Definition headingRangeOverlap (headingA widthA headingB widthB : Z) : bool :=
  let d := Z.abs ((headingA - headingB + 180) mod 360 - 180) in
  2 * d <=? widthA + widthB.

(** Bhaskara's rational approximation of the sine of an angle in degrees. *)
Definition demo_sin (a : Q) : Q :=
  let a := fmod360 a in
  let half (x : Q) := (4 * x * (180 - x) / (40500 - x * (180 - x)))%Q in
  if Qle_bool a 180 then half a else (- half (a - 180))%Q.

Definition demo_cos (a : Q) : Q := demo_sin (90 - a).

Definition demoSources : list Source.row :=
  [ {| Source.name := "camA"; Source.locationid := 1; Source.type := Some "hpwren"%string |};
    {| Source.name := "camB"; Source.locationid := 1; Source.type := Some "hpwren"%string |};
    {| Source.name := "camC"; Source.locationid := 2; Source.type := Some "test"%string |} ].

Definition demoEnv (images : list Z) (protoNum : Z) : Env :=
  {| weatherThreshold := 0.5%Q;
     protoNum := protoNum;
     googleServices := false;
     isProtoStatics :=
       {| sourcesDict := demoSources;
          prodTypesArr := ["hpwren"%string];
          isProto_protoNum := protoNum |};
     hostname := "host";
     sources := demoSources;
     getCameraMapLocation := fun _ => ("map640z9.jpg"%string, 34%Q, (-118)%Q);
     activeEmails := [];
     activePhones := ["5550100"%string];
     getCurrentBurns := [];
     getHeadingRange := fun cameraHeading fov _ _ _ => (cameraHeading, fov);
     findIgnoredViewHeading := fun _ _ _ => None;
     intersectsAngleRange := headingRangeOverlap;
     getArchiveImages :=
       fun _ _ startTime endTime =>
         filter (fun t => (startTime <=? t) && (t <=? endTime)) images;
     alignImage := fun _ => true;
     imageWidth := fun _ => 1920;
     sin_degrees := demo_sin;
     cos_degrees := demo_cos;
     Weather := unit;
     weatherModel := None;
     getWeatherData := fun _ _ _ _ => (None, None);
     copyFile := fun imgPath => imgPath;
     copyImage := fun _ => "image"%string;
     copyMovie := fun _ _ _ => Some "movie"%string;
     copyAnnotated := fun _ _ => Some "annotated"%string;
     getUrlForFile :=
       fun fileID => match fileID with Some f => f | None => EmptyString end;
     genAnnotatedMaps := fun _ _ _ _ _ _ => Ok "mapurl"%string |}.

Definition emptyWorld : World :=
  {| detections := []; alerts := []; probables := []; fireUpdateQueue := [];
     published := []; emailed := []; texted := []; ignoreCounter := [] |}.

Definition demoSegment : FireSegment :=
  {| score := 0.9%Q; AdjScore := None; MinX := 3; MinY := 13; MaxX := 7; MaxY := 17;
     weatherScore := Some 1%Q |}.

(** An event of camera [cameraID] at [timestamp], with the given consensus
    polygon, sources, sort key and sector. *)
Definition demoEvent (cameraID : string) (timestamp sortId fireHeading angularWidth : Z)
    (polygon : coords) (sourcePolygons : list coords) : Detection.row :=
  {| Detection.CameraName := cameraID;
     Detection.Timestamp := timestamp;
     Detection.AdjScore := 0.9%Q;
     Detection.ImageID := "annotated";
     Detection.CroppedID := "movie";
     Detection.MapID := "mapurl";
     Detection.polygon := Some polygon;
     Detection.sourcePolygons := map Some sourcePolygons;
     Detection.IsProto := 0;
     Detection.WeatherScore := 1%Q;
     Detection.ImgSequence := [];
     Detection.SortId := sortId;
     Detection.FireHeading := fireHeading;
     Detection.AngularWidth := angularWidth |}.

Definition demoUpdate (cameraID : string) (timestamp finalTimestamp : Z) : FireUpdate.t :=
  {| FireUpdate.cameraID := cameraID;
     FireUpdate.cameraHeading := 90;
     FireUpdate.timestamp := timestamp;
     FireUpdate.finalTimestamp := finalTimestamp;
     FireUpdate.fireSegment := demoSegment |}.

(** Camera A's event of time 1000 is stored and waits in the queue for its
    evidence to be completed. *)
Definition pendingWorld : World :=
  set_fireUpdateQueue
    (set_detections emptyWorld
       [demoEvent "camA" 1000 1001 90 20 (rectangle 0 2 0 2) [rectangle 0 2 0 2]])
    [demoUpdate "camA" 1000 1000].

(** Camera A's event of time 1000, whose evidence already reaches to time
    1380, waits in the queue. *)
Definition lateWorld : World :=
  set_fireUpdateQueue pendingWorld [demoUpdate "camA" 1000 1380].

(** The [detections] table holds one event of camera A, seen at time 900 in
    the sector of heading 10 and width 20, with the unit square as polygon. *)
Definition dedupWorld : World :=
  set_detections emptyWorld
    [demoEvent "camA" 900 901 10 20 (rectangle 0 1 0 1) [rectangle 0 1 0 1]].

(** What [queryDetections] returns for camera A's event in [pendingWorld]. *)
Definition pendingDetectData : DetectData.t :=
  {| DetectData.adjScore := 0.9%Q;
     DetectData.annotatedUrl := "annotated";
     DetectData.croppedUrl := "movie";
     DetectData.mapUrl := "mapurl";
     DetectData.polygon := rectangle 0 2 0 2;
     DetectData.sourcePolygons := [rectangle 0 2 0 2];
     DetectData.isProto := 0;
     DetectData.weatherScore := 1%Q;
     DetectData.sortId := 1001;
     DetectData.fireHeading := 90;
     DetectData.angularWidth := 20 |}.

(** ** Strings: [str.split(sep)] for a one-character separator

    The list is never empty: the empty string splits into one empty piece,
    and a separator at either end gives an empty piece there. *)

Fixpoint split_on (sep : ascii) (s : string) : list string :=
  match s with
  | EmptyString => [EmptyString]
  | String c s' =>
      if Ascii.eqb c sep then EmptyString :: split_on sep s'
      else
        match split_on sep s' with
        | piece :: pieces => String c piece :: pieces
        | [] => [String c EmptyString]
        end
  end.

(** ** [isProto] with its function attributes

    [isProto.sourcesDict], [isProto.prodTypesArr] and [isProto.protoNum] live
    on the function object and are set on demand by whichever call first
    provides them.  [IsProtoStatics] holds them; an attribute that is still
    [None] (or an empty dictionary), which the code tells apart from a set
    one by truthiness only, is the empty list.  [prodTypes] is
    [settings.prodTypes].  The call returns its answer and the attributes it
    leaves behind; [cameraID] is [None] in the initialising call of [main]. *)

Definition isProto_pristine : IsProtoStatics :=
  {| sourcesDict := []; prodTypesArr := []; isProto_protoNum := 0 |}.

Definition isProto_call (prodTypes : string) (st : IsProtoStatics) (cameraID : option string)
    (sources : option (list Source.row)) (protoNum : Z) : ProtoFlag * IsProtoStatics :=
  let prodTypesArr :=
    match prodTypesArr st with
    | [] => split_on "," prodTypes
    | _ :: _ => prodTypesArr st
    end in
  let sourcesDict :=
    match sources, sourcesDict st with
    | Some (entry :: entries), [] => entry :: entries
    | _, _ => sourcesDict st
    end in
  let protoNum :=
    if truthy_int protoNum && negb (truthy_int (isProto_protoNum st)) then protoNum
    else isProto_protoNum st in
  let st' :=
    {| sourcesDict := sourcesDict; prodTypesArr := prodTypesArr;
       isProto_protoNum := protoNum |} in
  match cameraID with
  | Some cameraID => (isProto st' cameraID, st')
  | None =>
      (if truthy_int protoNum then ProtoNumber protoNum else ProtoBool true, st')
  end.

(** ** Variants of the small deployment

    The deployment of [demoEnv] with subscribers to the email channel and
    with an ignored view: camera [ignoredCamera] is ignored around heading
    [ignoredHeading] whatever the sector. *)

Definition demoEnvWith (images : list Z) (protoNum : Z) (emails : list string)
    (ignoredCamera : string) (ignoredHeading : Z) : Env :=
  let E := demoEnv images protoNum in
  {| weatherThreshold := weatherThreshold E;
     protoNum := protoNum;
     googleServices := googleServices E;
     isProtoStatics := isProtoStatics E;
     hostname := hostname E;
     sources := sources E;
     getCameraMapLocation := getCameraMapLocation E;
     activeEmails := emails;
     activePhones := activePhones E;
     getCurrentBurns := getCurrentBurns E;
     getHeadingRange := getHeadingRange E;
     findIgnoredViewHeading :=
       fun cameraID _ _ =>
         if String.eqb cameraID ignoredCamera then Some ignoredHeading else None;
     intersectsAngleRange := intersectsAngleRange E;
     getArchiveImages := getArchiveImages E;
     alignImage := alignImage E;
     imageWidth := imageWidth E;
     sin_degrees := sin_degrees E;
     cos_degrees := cos_degrees E;
     Weather := Weather E;
     weatherModel := weatherModel E;
     getWeatherData := getWeatherData E;
     copyFile := copyFile E;
     copyImage := copyImage E;
     copyMovie := copyMovie E;
     copyAnnotated := copyAnnotated E;
     getUrlForFile := getUrlForFile E;
     genAnnotatedMaps := genAnnotatedMaps E |}.

(** ** The main loop, lines 1433-1503

    One pass of [while True]: the deferred queue is served, an image is
    fetched and classified, a detection is followed up, and the counters of
    the statistics are advanced; every tenth image the limit on the number
    of images is checked.  What the fetch and the detection policy return is
    given with the pass, with the clock readings made during it.  Files,
    the heartbeat and the timings are left out. *)

Module Loop.

(** What [getNextImage] or [getArchivedImages] (with [getHeading] and
    [getCameraFov]) hand to the pass. *)
Record image : Type := {
  cameraID : option string;
  heading : Z;
  timestamp : Z;
  fov : Z;
  imgPath : string
}.

Record input : Type := {
  now_pop : Z;
  now_requeue : Z;
  now_sortId : Z;
  now_enqueue : Z;
  fetched : image;
  (** [detectionResult['fireSegment']] *)
  detected : option FireSegment
}.

Record counters : Type := {
  numImages : Z;
  numProbables : Z;
  numAlerts : Z
}.

End Loop.

(** [args.limitImages if args.limitImages else 1e9] *)
Definition limitImages (arg : option Z) : Z :=
  match arg with
  | Some n => if truthy_int n then n else 1000000000
  | None => 1000000000
  end.

(** The pass returns the state, the counters and whether [main] returns. *)
Definition mainIteration {S : Shapely} (E : Env) (modelId : string)
    (stateless useArchivedImages : bool) (limitImages : Z) (i : Loop.input) (w : World)
    (c : Loop.counters) : result (World * Loop.counters * bool) :=
  let protoNum := constants_protoNum E in
  w <- processEnqueuedUpdates E (Loop.now_pop i) (Loop.now_requeue i) w ;;
  let f := Loop.fetched i in
  match Loop.cameraID f with
  | None => Ok (w, c, false)
  | Some cameraID =>
      if negb (truthy_str (Some cameraID)) then Ok (w, c, false)
      else
        let numImages := Loop.numImages c + 1 in
        let numProbables :=
          match Loop.detected i with
          | Some _ => Loop.numProbables c + 1
          | None => Loop.numProbables c
          end in
        let followed :=
          match Loop.detected i with
          | Some fireSegment =>
              negb useArchivedImages
              && negb (isDuplicateProbables
                         (recordProbables E w cameraID (Loop.heading f) (Loop.timestamp f)
                            (Loop.imgPath f) fireSegment modelId stateless protoNum)
                         cameraID (Loop.heading f) (Loop.timestamp f) protoNum
                       || stateless)
          | None => false
          end in
        w <- mainDetection E (Loop.now_sortId i) (Loop.now_enqueue i) w cameraID
               (Loop.heading f) (Loop.timestamp f) (Loop.fov f) (Loop.imgPath f)
               (Loop.detected i) modelId stateless useArchivedImages ;;
        let numAlerts := if followed then Loop.numAlerts c + 1 else Loop.numAlerts c in
        let c := {| Loop.numImages := numImages; Loop.numProbables := numProbables;
                    Loop.numAlerts := numAlerts |} in
        Ok (w, c, (numImages mod 10 =? 0) && (limitImages <=? numImages))
  end.

(** The passes made on a list of inputs: [main] returns in the pass that
    reaches the limit, and is still running when the inputs are used up. *)
Fixpoint mainLoop {S : Shapely} (E : Env) (modelId : string)
    (stateless useArchivedImages : bool) (limitImages : Z) (inputs : list Loop.input)
    (w : World) (c : Loop.counters) : result (World * Loop.counters * bool) :=
  match inputs with
  | [] => Ok (w, c, false)
  | i :: inputs' =>
      r <- mainIteration E modelId stateless useArchivedImages limitImages i w c ;;
      let '(w, c, returned) := r in
      if returned then Ok (w, c, true)
      else mainLoop E modelId stateless useArchivedImages limitImages inputs' w c
  end.

(** ** Notions of the further theorems *)

(** Two rows agree on every column but the URLs of the evidence. *)
Definition same_but_urls (r r' : Detection.row) : Prop :=
  Detection.CameraName r' = Detection.CameraName r /\
  Detection.Timestamp r' = Detection.Timestamp r /\
  Detection.AdjScore r' = Detection.AdjScore r /\
  Detection.polygon r' = Detection.polygon r /\
  Detection.sourcePolygons r' = Detection.sourcePolygons r /\
  Detection.IsProto r' = Detection.IsProto r /\
  Detection.WeatherScore r' = Detection.WeatherScore r /\
  Detection.SortId r' = Detection.SortId r /\
  Detection.FireHeading r' = Detection.FireHeading r /\
  Detection.AngularWidth r' = Detection.AngularWidth r.

(** The state [w'] holds what [w] holds and possibly more: the rows of both
    tables of events are those of [w], in their order and up to the URLs of
    the evidence, followed by new rows; probable observations, messages,
    emails, SMS and ignore counts are those of [w] followed by new ones. *)
Definition grown (w w' : World) : Prop :=
  (exists rows, Forall2 same_but_urls (detections w ++ rows) (detections w')) /\
  (exists rows, Forall2 same_but_urls (alerts w ++ rows) (alerts w')) /\
  (exists rows, probables w' = probables w ++ rows) /\
  (exists messages, published w' = published w ++ messages) /\
  (exists emails, emailed w' = emailed w ++ emails) /\
  (exists texts, texted w' = texted w ++ texts) /\
  (exists counts, ignoreCounter w' = ignoreCounter w ++ counts).

(** ** The policy of [detection_policies/detect_always.py]

    [DetectAlways.detect] returns the same fire segment for every image,
    with the clock reading as [timeMid]. *)

Module DetectAlways.

Definition modelId : string := "always".

Definition detect (now : Q) : option FireSegment * Q :=
  (Some {| score := 0.9%Q; AdjScore := None;
           MinX := 3; MinY := 13; MaxX := 7; MaxY := 17;
           weatherScore := None |},
   now).

End DetectAlways.

(** Inputs of the main loop on the small deployment: an image of a camera,
    every clock reading of the pass being [now]. *)
Definition demoInput (now : Z) (cameraID : string) (timestamp : Z)
    (detected : option FireSegment) : Loop.input :=
  {| Loop.now_pop := now; Loop.now_requeue := now;
     Loop.now_sortId := now; Loop.now_enqueue := now;
     Loop.fetched :=
       {| Loop.cameraID := Some cameraID; Loop.heading := 90;
          Loop.timestamp := timestamp; Loop.fov := 20; Loop.imgPath := "img.jpg" |};
     Loop.detected := detected |}.

Definition zeroCounters : Loop.counters :=
  {| Loop.numImages := 0; Loop.numProbables := 0; Loop.numAlerts := 0 |}.

(** ** The time tracker, lines 1174-1205

    Processing times are floats, idealised as rationals. *)

Module TimeTracker.

Record t : Type := {
  totalTime : Q;
  numSamples : Z;
  timePerSample : Q
}.

End TimeTracker.

Definition initializeTimeTracker : TimeTracker.t :=
  {| TimeTracker.totalTime := 0%Q;
     TimeTracker.numSamples := 0;
     TimeTracker.timePerSample := 3%Q |}.

(** The dictionary is updated in place; the function returns it as it is
    after the call. *)
Definition updateTimeTracker (timeTracker : TimeTracker.t) (processingTime : Q)
  : TimeTracker.t :=
  let totalTime := (TimeTracker.totalTime timeTracker + processingTime)%Q in
  let numSamples := TimeTracker.numSamples timeTracker + 1 in
  if numSamples >? 50 then
    {| TimeTracker.totalTime := 0%Q;
       TimeTracker.numSamples := 0;
       TimeTracker.timePerSample := (totalTime / inject_Z numSamples)%Q |}
  else
    {| TimeTracker.totalTime := totalTime;
       TimeTracker.numSamples := numSamples;
       TimeTracker.timePerSample := TimeTracker.timePerSample timeTracker |}.

(** The sum of a list of processing times. *)
Definition Qsum (times : list Q) : Q := fold_right Qplus 0%Q times.

(** ** [getNextImage], lines 63-122

    The function keeps three attributes: the temporary directory, which is
    left out, the [queue] of images fetched together and not yet handed
    out, and [queueCamera], the camera they came from.  A camera is one
    of the dictionaries of the [cameras] list; [queueCamera] refers to that
    very dictionary and is kept as its position in the list.  The key
    [md5] that the function adds to a camera's dictionary is kept, by
    position, with the attributes.  [fetchImageAndMeta], the digest of an
    image file, [random.random()] and the counter of the database are
    answers of the outside, given with each call. *)

Module NextImage.

Record camera : Type := {
  name : string;
  url : string
}.

(** The tuple [(imgPath, heading, timestamp, fov)] of one image. *)
Record fetch : Type := {
  imgPath : option string;
  heading : option Z;
  timestamp : option Z;
  fov : option Z
}.

(** [fetchImageAndMeta] returns one tuple or a list of tuples, or raises. *)
Inductive fetched : Type :=
| One (f : fetch)
| Many (fs : list fetch)
| Fails.

Record statics : Type := {
  queue : list fetch;
  queueCamera : option nat;
  md5 : nat -> option string
}.

Definition pristine : statics :=
  {| queue := []; queueCamera := None; md5 := fun _ => None |}.

(** What ends a call: a return, or one of the two exceptions that can be
    raised outside its [try]. *)
Inductive outcome (A : Type) : Type :=
| Returns (a : A)
| Raises_IndexError
| Raises_ZeroDivisionError.

Arguments Returns {A} a.
Arguments Raises_IndexError {A}.
Arguments Raises_ZeroDivisionError {A}.

(** The tuple [(camera['name'], heading, timestamp, fov, imgPath)]. *)
Definition image : Type := (string * Z * Z * option Z * string)%type.

End NextImage.

(** [l[i]] for a Python integer: a negative index counts from the end. *)
Definition list_position {A : Type} (l : list A) (i : Z) : option nat :=
  let n := Z.of_nat (List.length l) in
  if (0 <=? i) && (i <? n) then Some (Z.to_nat i)
  else if (- n <=? i) && (i <? 0) then Some (Z.to_nat (n + i))
  else None.

(** The end of the [try] block: the tuple is unpacked, checked and compared
    with the camera's last digest.  [None] stands for the tuple of five
    [None] that every failure returns. *)
Definition nextImage_check (md5_of : string -> option string) (position : nat)
    (camera : NextImage.camera) (f : NextImage.fetch) (st : NextImage.statics)
  : option NextImage.image * NextImage.statics :=
  match NextImage.imgPath f, NextImage.heading f, NextImage.timestamp f with
  | Some imgPath, Some heading, Some timestamp =>
      match md5_of imgPath with
      | None => (None, st)
      | Some md5 =>
          match NextImage.md5 st position with
          | Some old =>
              if String.eqb old md5 then (None, st)
              else
                (Some (NextImage.name camera, heading, timestamp, NextImage.fov f, imgPath),
                 {| NextImage.queue := NextImage.queue st;
                    NextImage.queueCamera := NextImage.queueCamera st;
                    NextImage.md5 :=
                      fun p => if Nat.eqb p position then Some md5
                               else NextImage.md5 st p |})
          | None =>
              (Some (NextImage.name camera, heading, timestamp, NextImage.fov f, imgPath),
               {| NextImage.queue := NextImage.queue st;
                  NextImage.queueCamera := NextImage.queueCamera st;
                  NextImage.md5 :=
                    fun p => if Nat.eqb p position then Some md5
                             else NextImage.md5 st p |})
          end
      end
  | _, _, _ => (None, st)
  end.

(** The camera is chosen before the [try] block, so that an index out of
    range or a division by zero leaves the function; everything after is
    caught and answered with the five [None].  [queueCamera] is the
    dictionary itself in the code, which needs no lookup; kept as a position
    it is looked up in the list, and the position is one of the list
    whenever it is set ([nextImage_coherent] below). *)
Definition getNextImage (fetchImageAndMeta : NextImage.camera -> NextImage.fetched)
    (md5_of : string -> option string) (cameras : list NextImage.camera) (stateless : bool)
    (random : Q) (counterValue : Z) (st : NextImage.statics)
  : NextImage.outcome (option NextImage.image * NextImage.statics) :=
  let n := Z.of_nat (List.length cameras) in
  let selected : NextImage.outcome nat :=
    match NextImage.queueCamera st, NextImage.queue st with
    | Some position, _ :: _ => NextImage.Returns position
    | _, _ =>
        if stateless then
          match list_position cameras (Qtruncate (inject_Z n * random)) with
          | Some position => NextImage.Returns position
          | None => NextImage.Raises_IndexError
          end
        else if n =? 0 then NextImage.Raises_ZeroDivisionError
        else
          match list_position cameras (counterValue mod n) with
          | Some position => NextImage.Returns position
          | None => NextImage.Raises_IndexError
          end
    end in
  match selected with
  | NextImage.Raises_IndexError => NextImage.Raises_IndexError
  | NextImage.Raises_ZeroDivisionError => NextImage.Raises_ZeroDivisionError
  | NextImage.Returns position =>
      match nth_error cameras position with
      | None => NextImage.Raises_IndexError
      | Some camera =>
          match NextImage.queue st with
          | f :: queue =>
              let st :=
                {| NextImage.queue := queue;
                   NextImage.queueCamera :=
                     match queue with
                     | [] => None
                     | _ :: _ => NextImage.queueCamera st
                     end;
                   NextImage.md5 := NextImage.md5 st |} in
              NextImage.Returns (nextImage_check md5_of position camera f st)
          | [] =>
              match fetchImageAndMeta camera with
              | NextImage.Fails => NextImage.Returns (None, st)
              | NextImage.One f =>
                  NextImage.Returns (nextImage_check md5_of position camera f st)
              | NextImage.Many [] => NextImage.Returns (None, st)
              | NextImage.Many (f :: fs) =>
                  let st :=
                    match fs with
                    | [] => st
                    | _ :: _ =>
                        {| NextImage.queue := fs;
                           NextImage.queueCamera := Some position;
                           NextImage.md5 := NextImage.md5 st |}
                    end in
                  NextImage.Returns (nextImage_check md5_of position camera f st)
              end
          end
      end
  end.

(** The attributes are as the function keeps them: images wait in the queue
    exactly when [queueCamera] is set, and it is set to a camera of the
    list. *)
Definition nextImage_coherent (cameras : list NextImage.camera) (st : NextImage.statics)
  : Prop :=
  match NextImage.queue st with
  | [] => NextImage.queueCamera st = None
  | _ :: _ =>
      exists position,
        NextImage.queueCamera st = Some position /\
        (position < List.length cameras)%nat
  end.

(** One call of [getNextImage] by the main loop: what the outside answers
    during the call, and the mode. *)
Definition nextImage_call : Type :=
  ((NextImage.camera -> NextImage.fetched) * bool * Q * Z)%type.

(** The calls of successive iterations of the main loop, each on the
    attributes that the call before left. *)
Fixpoint nextImages (md5_of : string -> option string) (cameras : list NextImage.camera)
    (calls : list nextImage_call) (st : NextImage.statics)
  : NextImage.outcome (list (option NextImage.image) * NextImage.statics) :=
  match calls with
  | [] => NextImage.Returns ([], st)
  | (fetchImageAndMeta, stateless, random, counterValue) :: calls =>
      match getNextImage fetchImageAndMeta md5_of cameras stateless random counterValue st with
      | NextImage.Returns (img, st) =>
          match nextImages md5_of cameras calls st with
          | NextImage.Returns (imgs, st) => NextImage.Returns (img :: imgs, st)
          | NextImage.Raises_IndexError => NextImage.Raises_IndexError
          | NextImage.Raises_ZeroDivisionError => NextImage.Raises_ZeroDivisionError
          end
      | NextImage.Raises_IndexError => NextImage.Raises_IndexError
      | NextImage.Raises_ZeroDivisionError => NextImage.Raises_ZeroDivisionError
      end
  end.

(** What a call returns for the fetched tuple [f] of [camera]: the five
    [None], or the camera's name with the tuple's own values. *)
Definition served_from (camera : NextImage.camera) (f : NextImage.fetch)
    (img : option NextImage.image) : Prop :=
  match img with
  | None => True
  | Some (name, heading, timestamp, fov, imgPath) =>
      name = NextImage.name camera /\
      NextImage.heading f = Some heading /\
      NextImage.timestamp f = Some timestamp /\
      NextImage.fov f = fov /\
      NextImage.imgPath f = Some imgPath
  end.

Definition demoCameras : list NextImage.camera :=
  [ {| NextImage.name := "cam-north"; NextImage.url := "http://north" |};
    {| NextImage.name := "cam-south"; NextImage.url := "http://south" |} ].

Definition demoFetch (imgPath : string) (heading timestamp : Z) : NextImage.fetch :=
  {| NextImage.imgPath := Some imgPath;
     NextImage.heading := Some heading;
     NextImage.timestamp := Some timestamp;
     NextImage.fov := Some 110 |}.

(** The digest of a file, for the examples: its name. *)
Definition demoDigest (imgPath : string) : option string := Some imgPath.

(** ** The crop of the map, lines 409-425

    [min] and [max] of two numbers as Python evaluates them: the first
    argument unless the second is strictly smaller, or strictly greater. *)

Definition py_min (a b : Q) : Q := if Qltb b a then b else a.

Definition py_max (a b : Q) : Q := if Qltb a b then b else a.

(** [cropCentered] up to the call of [mapImg.crop]: the box handed to it,
    as (left, upper, right, lower).  [size] is [mapImg.size], and
    [convertLatLongToPixels] stands for the conversion of the archive
    module on this map and these borders. *)
Definition cropCentered {S : Shapely} (convertLatLongToPixels : Q * Q -> Q * Q)
    (size : Z * Z) (polygonCoords : option coords) : result (Q * Q * Q * Q) :=
  centerLatLong <- getCentroid polygonCoords ;;
  let centerXY := convertLatLongToPixels centerLatLong in
  let centerX :=
    py_min (py_max (fst centerXY) (inject_Z (fst size) / 4)) (inject_Z (fst size) * 3 / 4) in
  let centerY :=
    py_min (py_max (snd centerXY) (inject_Z (snd size) / 4)) (inject_Z (snd size) * 3 / 4) in
  Ok (centerX - inject_Z (fst size) / 4, centerY - inject_Z (snd size) / 4,
      centerX + inject_Z (fst size) / 4, centerY + inject_Z (snd size) / 4)%Q.

(** [l[i]] as the element. *)
Definition list_item {A : Type} (l : list A) (i : Z) : option A :=
  match list_position l i with
  | Some position => nth_error l position
  | None => None
  end.

(** ** [getArchivedImages], lines 1208-1264

    A [datetime] is kept as the microseconds since the midnight that
    starts its calendar and a [timedelta] as microseconds, the resolution
    of both: adding a [timedelta] is addition, and the hour is read off the
    sum.  [timedelta(seconds=x)] rounds [x] to the microsecond. *)

Definition hour (timeDT : Z) : Z := (timeDT / 3600000000) mod 24.

Definition timedelta_seconds (seconds : Q) : Z := round_half_even (seconds * 1000000).

Definition timedelta_hours (hours : Z) : Z := hours * 3600000000.

(** Lines 1239-1244: the time asked of the archive. *)
Definition archiveTime (startTimeDT : Z) (timeRangeSeconds random : Q) : Z :=
  let timeDT := startTimeDT + timedelta_seconds (random * timeRangeSeconds) in
  if hour timeDT <? 8 then timeDT + timedelta_hours 8
  else if hour timeDT >=? 20 then timeDT - timedelta_hours 4
  else timeDT.

(** [getHpwrenImages] answers with the files of a camera at a time, none
    standing for an empty or missing list; [unixTime] is
    [parseFilename(path)['unixTime']], or what raises on the way; in cache
    mode, [cached] gives the path in the temporary directory to which a
    file is copied.  The two draws of [random.random()] are given in the
    order the code makes them.  [None] stands for the tuple of four
    [None]. *)
Definition getArchivedImages (getHpwrenImages : string -> Z -> list string)
    (unixTime : string -> result Z) (cached : option (string -> string))
    (cameras : list NextImage.camera) (startTimeDT : Z) (timeRangeSeconds : Q)
    (random1 random2 : Q) : result (option (string * Z * string * string)) :=
  match list_item cameras
          (Qtruncate (inject_Z (Z.of_nat (List.length cameras)) * random1)) with
  | None => Raise IndexError
  | Some camera =>
      let cameraID := NextImage.name camera in
      let timeDT := archiveTime startTimeDT timeRangeSeconds random2 in
      match getHpwrenImages cameraID timeDT with
      | [] => Ok None
      | file :: files =>
          let files :=
            match cached with
            | Some destPath => List.map destPath (file :: files)
            | None => file :: files
            end in
          match files with
          | first :: _ =>
              unixTime <- unixTime first ;;
              Ok (Some (cameraID, unixTime, first, first))
          | [] => Ok None
          end
      end
  end.

(** ** [fetchPriorAligned] and [fetchDiffImage], lines 1269-1306

    The image of about a minute before, for the difference image.  The
    archive answers with the files between 90 and 31 seconds before the
    image, oldest first; [unixTime] is the time parsed from a file's name,
    and [alignImageObj] tells whether a file could be aligned with the
    image.  The result says which file the returned image comes from, and
    the second component lists the files removed. *)

Module Prior.

Inductive image : Type :=
| Opened (filePath : string)
| Aligned (filePath : string).

End Prior.

(** The loop of lines 1282-1293 over the reversed list; [first] is
    [oldImages[0]]. *)
Fixpoint findPrior (unixTime : string -> Z) (isPTZ : bool) (alignImageObj : string -> bool)
    (timestamp : Z) (first : string) (oldImages : list string) : option Prior.image :=
  match oldImages with
  | [] => None
  | filePath :: oldImages =>
      if unixTime filePath =? timestamp then
        findPrior unixTime isPTZ alignImageObj timestamp first oldImages
      else if isPTZ then
        if alignImageObj filePath then Some (Prior.Aligned filePath)
        else findPrior unixTime isPTZ alignImageObj timestamp first oldImages
      else Some (Prior.Opened first)
  end.

Definition fetchPriorAligned (getArchiveImages : Z -> Z -> list string)
    (unixTime : string -> Z) (isPTZ : bool) (alignImageObj : string -> bool)
    (timestamp : Z) : option Prior.image * list string :=
  let startDT := timestamp - 90 in
  let endDT := timestamp - 31 in
  match rev (getArchiveImages startDT endDT) with
  | [] => (None, [])
  | first :: oldImages =>
      (findPrior unixTime isPTZ alignImageObj timestamp first (first :: oldImages),
       first :: oldImages)
  end.

Definition fetchDiffImage {Diff : Type} (diffWithChecks : Prior.image -> Diff)
    (getArchiveImages : Z -> Z -> list string) (unixTime : string -> Z) (isPTZ : bool)
    (alignImageObj : string -> bool) (timestamp : Z) : option Diff :=
  match fst (fetchPriorAligned getArchiveImages unixTime isPTZ alignImageObj timestamp) with
  | None => None
  | Some priorImg => Some (diffWithChecks priorImg)
  end.

(** ** [getGroupConfig], lines 1309-1335

    An entry of [settings.detectGroups]: name, number of instances, counter
    name and camera type, and for a prototype group a fifth component
    [protoNum;policy;policyParams;useWeatherModel]. *)

Module Group.

Record config : Type := {
  name : string;
  numInstances : Z;
  counterName : string;
  restrictType : string;
  protoModelInfo : option string
}.

(** The dictionary returned; the four prototype keys are present
    together or not at all. *)
Record params : Type := {
  p_name : string;
  p_numInstances : Z;
  p_counterName : string;
  p_restrictType : string;
  p_proto : option (string * string * string * bool)
}.

End Group.

(** [detectGroup] is the command-line argument and [instanceGroup] what
    [goog_helper.getInstanceGroup()] would answer; [None] and the empty
    string are both falsy. *)
Definition getGroupConfig (instanceGroup : option string) (detectGroups : list Group.config)
    (detectGroup : option string) : result (option Group.params) :=
  let groupName :=
    match detectGroup with
    | Some (String c s) => Some (String c s)
    | _ => instanceGroup
    end in
  match groupName with
  | None | Some EmptyString => Ok None
  | Some groupName =>
      let groupName := List.last (split_on "/" groupName) EmptyString in
      match detectGroups with
      | [] => Ok None
      | _ :: _ =>
          match List.find (fun x => String.eqb (Group.name x) groupName) detectGroups with
          | None => Raise AssertionError
          | Some groupConfig =>
              match Group.protoModelInfo groupConfig with
              | None =>
                  Ok (Some {| Group.p_name := Group.name groupConfig;
                              Group.p_numInstances := Group.numInstances groupConfig;
                              Group.p_counterName := Group.counterName groupConfig;
                              Group.p_restrictType := Group.restrictType groupConfig;
                              Group.p_proto := None |})
              | Some protoModelInfo =>
                  match split_on ";" protoModelInfo with
                  | protoNum :: protoPolicy :: protoPolicyParams :: useWeatherModel :: _ =>
                      Ok (Some {| Group.p_name := Group.name groupConfig;
                                  Group.p_numInstances := Group.numInstances groupConfig;
                                  Group.p_counterName := Group.counterName groupConfig;
                                  Group.p_restrictType := Group.restrictType groupConfig;
                                  Group.p_proto :=
                                    Some (protoNum, protoPolicy, protoPolicyParams,
                                          String.eqb useWeatherModel "1") |})
                  | _ => Raise IndexError
                  end
              end
          end
      end
  end.

(** Whether the character occurs in the string. *)
Fixpoint occurs (c : ascii) (s : string) : bool :=
  match s with
  | EmptyString => false
  | String c' s' => Ascii.eqb c' c || occurs c s'
  end.

Definition demoGroups : list Group.config :=
  [ {| Group.name := "detect-prod"; Group.numInstances := 4;
       Group.counterName := "sources"; Group.restrictType := "prod";
       Group.protoModelInfo := None |};
    {| Group.name := "detect-proto"; Group.numInstances := 1;
       Group.counterName := "proto"; Group.restrictType := "test";
       Group.protoModelInfo := Some "2;always;protoModel;1"%string |} ].

(** ** The annotated maps, lines 380-401 and 428-524

    The images themselves stay outside; what is kept of an annotated map is
    what decides whether and where things are drawn: the polygons handed to
    the drawing in their order, the burns marked, and the box of the crop. *)

Definition is_digit (c : ascii) : bool :=
  let n := nat_of_ascii c in
  Nat.leb 48 n && Nat.leb n 57.

(** The longest run of digits at the head of the list, and the rest. *)
Fixpoint span_digits (l : list ascii) : list ascii * list ascii :=
  match l with
  | c :: l' =>
      if is_digit c then
        let (digits, rest) := span_digits l' in (c :: digits, rest)
      else ([], l)
  | [] => ([], [])
  end.

Fixpoint starts_with (prefix l : list ascii) : bool :=
  match prefix, l with
  | [], _ => true
  | p :: prefix, c :: l => Ascii.eqb p c && starts_with prefix l
  | _ :: _, [] => false
  end.

(** [re.findall('map640z([0-9]+)\.jpg$', mapImgGCS)]: either no match or
    one, as every match ends where the string ends, or just before a final
    newline; the group of the match is returned.  The string is read
    backwards from its end: the extension, the digits as far as they go,
    and the seven characters before them. *)
Definition findall_zoom (mapImgGCS : string) : list (list ascii) :=
  let backwards := rev (list_ascii_of_string mapImgGCS) in
  let backwards :=
    match backwards with
    | "010"%char :: before => before
    | _ => backwards
    end in
  match backwards with
  | "g"%char :: "p"%char :: "j"%char :: "."%char :: before =>
      let (digits, before) := span_digits before in
      match digits with
      | [] => []
      | _ :: _ =>
          if starts_with (rev (list_ascii_of_string "map640z")) before
          then [rev digits] else []
      end
  | _ => []
  end.

(** [int(s)] for a string of digits. *)
Definition int_of_digits (digits : list ascii) : Z :=
  fold_left (fun n c => 10 * n + (Z.of_nat (nat_of_ascii c) - 48)) digits 0.

Module Maps.

(** [settings.MAP_ZOOM_MIN], [MAP_ZOOM_MAX], [MAP_LAT_DIFF] and
    [MAP_LONG_DIFF]. *)
Record settings : Type := {
  MAP_ZOOM_MIN : Z;
  MAP_ZOOM_MAX : Z;
  MAP_LAT_DIFF : Q;
  MAP_LONG_DIFF : Q
}.

Inductive fill : Type := lightRed | lightBlue.

(** One call of [drawPolyPixels]: the vertices in pixels, the fill colour,
    and whether the outline is drawn. *)
Record drawing : Type := {
  coordsPixels : list (Q * Q);
  fillColor : fill;
  outlined : bool
}.

Record annotated : Type := {
  zoom : Z;
  drawings : list drawing;
  burns : list Burn;
  crop : Q * Q * Q * Q
}.

End Maps.

(** [None] stands for the triple of [None]. *)
Definition getMapSize (settings : Maps.settings) (mapImgGCS : string) : option (Q * Q * Z) :=
  match findall_zoom mapImgGCS with
  | [digits] =>
      let zoom := int_of_digits digits in
      if (zoom <? Maps.MAP_ZOOM_MIN settings) || (zoom >? Maps.MAP_ZOOM_MAX settings) then None
      else
        let latDiff := Maps.MAP_LAT_DIFF settings in
        let longDiff := Maps.MAP_LONG_DIFF settings in
        let zoomDiff := zoom - Maps.MAP_ZOOM_MIN settings in
        if zoomDiff =? 0 then Some (latDiff, longDiff, zoom)
        else Some ((latDiff / inject_Z (2 ^ zoomDiff))%Q,
                   (longDiff / inject_Z (2 ^ zoomDiff))%Q, zoom)
  | _ => None
  end.

(** The corners of the map, as [drawPolyLatLong] lists them. *)
Definition mapRectangle (leftLongitude rightLongitude topLatitude bottomLatitude : Q) : coords :=
  [ (topLatitude, leftLongitude); (topLatitude, rightLongitude);
    (bottomLatitude, rightLongitude); (bottomLatitude, leftLongitude) ].

(** [drawPolyLatLong]: the polygon is cut to the map and its vertices are
    converted; iterating over the [None] of an empty cut raises
    TypeError. *)
Definition drawPolyLatLong {S : Shapely} (convertLatLongToPixels : Q * Q -> Q * Q)
    (leftLongitude rightLongitude topLatitude bottomLatitude : Q) (coords : option coords)
    (fillColor : Maps.fill) (outlined : bool) : result Maps.drawing :=
  newCoords <- getPolygonIntersection coords
                 (Some (mapRectangle leftLongitude rightLongitude topLatitude bottomLatitude)) ;;
  match newCoords with
  | None => Raise TypeError
  | Some newCoords =>
      Ok {| Maps.coordsPixels := List.map convertLatLongToPixels newCoords;
            Maps.fillColor := fillColor;
            Maps.outlined := outlined |}
  end.

(** The loop of lines 477-481 from the [i]-th source polygon on; [n] is
    [len(sourcePolygons)]. *)
Fixpoint drawSources {S : Shapely} (convertLatLongToPixels : Q * Q -> Q * Q)
    (leftLongitude rightLongitude topLatitude bottomLatitude : Q) (n i : Z)
    (sourcePolygons : list (option coords)) : result (list Maps.drawing) :=
  match sourcePolygons with
  | [] => Ok []
  | sourcePolygon :: sourcePolygons =>
      d <- drawPolyLatLong convertLatLongToPixels leftLongitude rightLongitude topLatitude
             bottomLatitude sourcePolygon Maps.lightRed (i =? n - 1) ;;
      ds <- drawSources convertLatLongToPixels leftLongitude rightLongitude topLatitude
              bottomLatitude n (i + 1) sourcePolygons ;;
      Ok (d :: ds)
  end.

(** [genAnnotatedMap]; [None] stands for the empty path returned for a map
    whose size is not known.  [size] is the size of the downloaded map,
    [convertLatLongToPixels] and [pointInArea] are those of the archive
    module, taking the borders of the map first. *)
Definition genAnnotatedMap {S : Shapely} (settings : Maps.settings) (size : string -> Z * Z)
    (convertLatLongToPixels : Q -> Q -> Q -> Q -> Q * Q -> Q * Q)
    (pointInArea : Q -> Q -> Q -> Q -> Q * Q -> bool)
    (mapImgGCS : string) (camLatitude camLongitude : Q) (polygon : option coords)
    (sourcePolygons : list (option coords)) (rxBurns : list Burn)
  : result (option Maps.annotated) :=
  match getMapSize settings mapImgGCS with
  | None => Ok None
  | Some (mapHeightLat, mapWidthLong, zoom) =>
      if Qeq_bool mapHeightLat 0 || Qeq_bool mapWidthLong 0 || (zoom =? 0) then Ok None
      else
        let leftLongitude := (camLongitude - mapWidthLong / 2)%Q in
        let rightLongitude := (camLongitude + mapWidthLong / 2)%Q in
        let bottomLatitude := (camLatitude - mapHeightLat / 2)%Q in
        let topLatitude := (camLatitude + mapHeightLat / 2)%Q in
        let convert :=
          convertLatLongToPixels leftLongitude rightLongitude topLatitude bottomLatitude in
        sources <- drawSources convert leftLongitude rightLongitude topLatitude bottomLatitude
                     (Z.of_nat (List.length sourcePolygons)) 0 sourcePolygons ;;
        area <- (if Z.of_nat (List.length sourcePolygons) >? 1 then
                   d <- drawPolyLatLong convert leftLongitude rightLongitude topLatitude
                          bottomLatitude polygon Maps.lightBlue false ;;
                   Ok [d]
                 else Ok []) ;;
        let marked :=
          List.filter
            (fun burn =>
               pointInArea leftLongitude rightLongitude topLatitude bottomLatitude
                 (latitude burn, longitude burn))
            rxBurns in
        box <- cropCentered convert (size mapImgGCS) polygon ;;
        Ok (Some {| Maps.zoom := zoom;
                    Maps.drawings := sources ++ area;
                    Maps.burns := marked;
                    Maps.crop := box |})
  end.

Module Render.

(** [genAnnotatedMaps]: the maps of the files named in [mapFiles], those
    without a known size left out.  [mapUrl] is the URL under which the
    cropped map of a zoom level is stored; the URLs are joined by commas. *)
Fixpoint annotate {S : Shapely} (settings : Maps.settings) (size : string -> Z * Z)
    (convertLatLongToPixels : Q -> Q -> Q -> Q -> Q * Q -> Q * Q)
    (pointInArea : Q -> Q -> Q -> Q -> Q * Q -> bool)
    (files : list string) (camLatitude camLongitude : Q) (polygon : option coords)
    (sourcePolygons : list (option coords)) (rxBurns : list Burn)
  : result (list Maps.annotated) :=
  match files with
  | [] => Ok []
  | mapImgGCS :: files =>
      mapPath <- genAnnotatedMap settings size convertLatLongToPixels pointInArea mapImgGCS
                   camLatitude camLongitude polygon sourcePolygons rxBurns ;;
      maps <- annotate settings size convertLatLongToPixels pointInArea files
                camLatitude camLongitude polygon sourcePolygons rxBurns ;;
      match mapPath with
      | None => Ok maps
      | Some m => Ok (m :: maps)
      end
  end.

Definition genAnnotatedMaps {S : Shapely} (settings : Maps.settings) (size : string -> Z * Z)
    (convertLatLongToPixels : Q -> Q -> Q -> Q -> Q * Q -> Q * Q)
    (pointInArea : Q -> Q -> Q -> Q -> Q * Q -> bool) (mapUrl : Maps.annotated -> string)
    (mapFiles : string) (camLatitude camLongitude : Q) (polygon : option coords)
    (sourcePolygons : list (option coords)) (rxBurns : list Burn) : result string :=
  maps <- annotate settings size convertLatLongToPixels pointInArea (split_on "," mapFiles)
            camLatitude camLongitude polygon sourcePolygons rxBurns ;;
  Ok (String.concat "," (List.map mapUrl maps)).

End Render.

Definition demoMapSettings : Maps.settings :=
  {| Maps.MAP_ZOOM_MIN := 9; Maps.MAP_ZOOM_MAX := 11;
     Maps.MAP_LAT_DIFF := 4; Maps.MAP_LONG_DIFF := 4 |}.

(** A conversion for the examples: a hundred pixels to the degree, from the
    left and the top border. *)
Definition demoPixels (leftLongitude rightLongitude topLatitude bottomLatitude : Q)
    (point : Q * Q) : Q * Q :=
  ((snd point - leftLongitude) * 100, (topLatitude - fst point) * 100)%Q.

(** ** [mark_camera_locations.py]

    The script marks every camera on a map whose borders are given on the
    command line.  Kept are the circles handed to [drawCircle], in the
    order of the locations. *)

Module Mark.

Record location : Type := {
  latitude : Q;
  longitude : Q
}.

(** The arguments of one call of [drawCircle]. *)
Record circle : Type := {
  centerX : Q;
  centerY : Q;
  radius : Q
}.

(** [dbResult] is the answer of the query for the locations. *)
Definition getCameraLocations (dbResult : list location) : option (list location) :=
  match dbResult with
  | [] => None
  | _ :: _ => Some dbResult
  end.

(** [size] is the size of the map image. *)
Definition main (dbResult : list location) (size : Z * Z)
    (leftLongitude rightLongitude topLatitude bottomLatitude : Q) : result (list circle) :=
  let locations := getCameraLocations dbResult in
  if negb (Qltb leftLongitude rightLongitude) then Raise AssertionError
  else if negb (Qltb bottomLatitude topLatitude) then Raise AssertionError
  else
    let diffLat := (topLatitude - bottomLatitude)%Q in
    let diffLong := (rightLongitude - leftLongitude)%Q in
    let radiusDegrees := 0.3%Q in
    match locations with
    | None => Raise TypeError
    | Some locations =>
        Ok (List.map
              (fun location =>
                 {| centerX :=
                      ((longitude location - leftLongitude) / diffLong
                       * inject_Z (fst size))%Q;
                    centerY :=
                      (inject_Z (snd size)
                       - (latitude location - bottomLatitude) / diffLat
                         * inject_Z (snd size))%Q;
                    radius := (radiusDegrees / diffLat * inject_Z (snd size))%Q |})
              locations)
    end.

End Mark.

(** * Theorems *)

(** Boolean comparisons of integers in the hypotheses, as propositions. *)
Ltac zbool :=
  repeat match goal with
  | H : (_ >? _) = _ |- _ => rewrite Z.gtb_ltb in H
  | H : (_ <? _) = true |- _ => apply Z.ltb_lt in H
  | H : (_ <? _) = false |- _ => apply Z.ltb_ge in H
  | H : (_ <=? _) = true |- _ => apply Z.leb_le in H
  | H : (_ <=? _) = false |- _ => apply Z.leb_gt in H
  | H : (_ =? _) = true |- _ => apply Z.eqb_eq in H
  | H : (_ =? _) = false |- _ => apply Z.eqb_neq in H
  end.

(** ** The stable sort *)

Section SortedByKeyFacts.

Context {A : Type} (key : A -> Z).

Lemma insert_by_perm (x : A) (l : list A) : Permutation (x :: l) (insert_by key x l).
Proof.
  induction l as [|y l IH]; simpl.
  - apply Permutation_refl.
  - destruct (key x <=? key y).
    + apply Permutation_refl.
    + eapply Permutation_trans; [apply perm_swap|].
      now apply perm_skip.
Qed.

Lemma sorted_by_perm (l : list A) : Permutation l (sorted_by key l).
Proof.
  induction l as [|x l IH]; simpl.
  - constructor.
  - eapply Permutation_trans; [|apply insert_by_perm].
    now apply perm_skip.
Qed.

Lemma insert_by_ascending (x : A) (l : list A) :
  ascending key l -> ascending key (insert_by key x l).
Proof.
  unfold ascending.
  induction l as [|y l IH]; simpl; intros Hs.
  - repeat constructor.
  - inversion Hs as [|? ? Hl Hy]; subst.
    destruct (key x <=? key y) eqn:E.
    + apply Z.leb_le in E.
      constructor; [exact Hs|].
      constructor; [exact E|].
      eapply Forall_impl; [|exact Hy].
      intros b Hb; simpl in Hb; lia.
    + apply Z.leb_gt in E.
      constructor; [now apply IH|].
      eapply Permutation_Forall; [apply insert_by_perm|].
      constructor; [lia | exact Hy].
Qed.

Lemma sorted_by_ascending (l : list A) : ascending key (sorted_by key l).
Proof.
  induction l as [|x l IH]; simpl.
  - constructor.
  - now apply insert_by_ascending.
Qed.

Lemma sorted_by_In (l : list A) (x : A) : In x (sorted_by key l) <-> In x l.
Proof.
  split; intros H.
  - eapply Permutation_in; [apply Permutation_sym, sorted_by_perm | exact H].
  - eapply Permutation_in; [apply sorted_by_perm | exact H].
Qed.

Lemma sorted_by_length (l : list A) : List.length (sorted_by key l) = List.length l.
Proof. symmetry. apply Permutation_length, sorted_by_perm. Qed.

End SortedByKeyFacts.

(** ** The deferred evidence queue *)

Lemma same_event_true (cameraID : string) (timestamp : Z) (x : FireUpdate.t) :
  same_event cameraID timestamp x = true <->
  FireUpdate.cameraID x = cameraID /\ FireUpdate.timestamp x = timestamp.
Proof.
  unfold same_event.
  rewrite andb_true_iff, String.eqb_eq, Z.eqb_eq.
  reflexivity.
Qed.

Lemma filter_length_0 {A : Type} (f : A -> bool) (l : list A) :
  Nat.eqb (List.length (filter f l)) 0 = true <-> forall x, In x l -> f x = false.
Proof.
  rewrite Nat.eqb_eq.
  induction l as [|a l IH]; simpl.
  - split; [intros _ x [] | reflexivity].
  - destruct (f a) eqn:Fa; simpl.
    + split; [discriminate|].
      intros H. specialize (H a (or_introl eq_refl)). congruence.
    + rewrite IH. split.
      * intros H x [<-|Hx]; auto.
      * intros H x Hx. apply H. now right.
Qed.

Lemma enqueue_raises_iff (now : Z) (w : World) (cameraID : string)
    (cameraHeading timestamp finalTimestamp : Z) (fireSegment : FireSegment) (e : exn) :
  enqueueFireUpdate now w cameraID cameraHeading timestamp finalTimestamp fireSegment = Raise e <->
  e = AssertionError /\
  exists x, In x (fireUpdateQueue w) /\
            FireUpdate.cameraID x = cameraID /\ FireUpdate.timestamp x = timestamp.
Proof.
  unfold enqueueFireUpdate, constants_fireUpdateQueue.
  destruct (Nat.eqb (List.length (filter (same_event cameraID timestamp) (fireUpdateQueue w))) 0)
    eqn:Len; simpl.
  - pose proof (proj1 (filter_length_0 _ _) Len) as Len'.
    split.
    + destruct (Z.gtb _ _); discriminate.
    + intros [_ [x [Hin Hkey]]].
      apply same_event_true in Hkey.
      rewrite (Len' x Hin) in Hkey. discriminate.
  - split.
    + intros H. injection H as <-. split; [reflexivity|].
      destruct (filter (same_event cameraID timestamp) (fireUpdateQueue w)) as [|x l] eqn:F;
        [discriminate|].
      assert (Hx : In x (filter (same_event cameraID timestamp) (fireUpdateQueue w)))
        by (rewrite F; now left).
      apply filter_In in Hx. destruct Hx as [Hin Hkey].
      exists x. split; [exact Hin|]. now apply same_event_true.
    + intros [-> _]. reflexivity.
Qed.

Lemma enqueue_ok (now : Z) (w : World) (cameraID : string)
    (cameraHeading timestamp finalTimestamp : Z) (fireSegment : FireSegment) :
  (forall x, In x (fireUpdateQueue w) -> same_event cameraID timestamp x = false) ->
  enqueueFireUpdate now w cameraID cameraHeading timestamp finalTimestamp fireSegment =
  if now >? timestamp + POST_DETECTION_UPDATE_MINS * 60 then Ok w
  else Ok (set_fireUpdateQueue w
             (sorted_by FireUpdate.finalTimestamp
                (fireUpdateQueue w ++
                   [{| FireUpdate.cameraID := cameraID;
                       FireUpdate.cameraHeading := cameraHeading;
                       FireUpdate.timestamp := timestamp;
                       FireUpdate.finalTimestamp := finalTimestamp;
                       FireUpdate.fireSegment := fireSegment |}]))).
Proof.
  intros H. apply (proj2 (filter_length_0 _ _)) in H.
  unfold enqueueFireUpdate, constants_fireUpdateQueue.
  rewrite H. reflexivity.
Qed.

(** C9.  [enqueueFireUpdate] raises [AssertionError] exactly when the queue
    already holds an entry for the same camera and detection timestamp; when
    it holds none, the call returns normally. *)
Theorem enqueue_duplicate_asserts (now : Z) (w : World) (cameraID : string)
    (cameraHeading timestamp finalTimestamp : Z) (fireSegment : FireSegment) :
  let duplicate :=
    exists x, In x (fireUpdateQueue w) /\
              FireUpdate.cameraID x = cameraID /\ FireUpdate.timestamp x = timestamp in
  let call :=
    enqueueFireUpdate now w cameraID cameraHeading timestamp finalTimestamp fireSegment in
  (call = Raise AssertionError <-> duplicate) /\
  (~ duplicate -> exists w', call = Ok w').
Proof.
  intros duplicate call. split.
  - unfold call. rewrite enqueue_raises_iff. unfold duplicate. tauto.
  - intros Hno. destruct call as [w'|e] eqn:Hc.
    + now exists w'.
    + exfalso. apply Hno. unfold call in Hc.
      apply enqueue_raises_iff in Hc. exact (proj2 Hc).
Qed.

Lemma pop_due (now : Z) (fireEvent : FireUpdate.t) (rest : list FireUpdate.t) :
  FireUpdate.finalTimestamp fireEvent + 60 < now ->
  popFireUpdate now (fireEvent :: rest) = (Some fireEvent, rest).
Proof.
  intros H. simpl.
  destruct (now >? FireUpdate.finalTimestamp fireEvent + 60) eqn:E; [reflexivity|].
  zbool. lia.
Qed.

Lemma pop_not_due (now : Z) (fireEvent : FireUpdate.t) (rest : list FireUpdate.t) :
  now <= FireUpdate.finalTimestamp fireEvent + 60 ->
  popFireUpdate now (fireEvent :: rest) = (None, fireEvent :: rest).
Proof.
  intros H. simpl.
  destruct (now >? FireUpdate.finalTimestamp fireEvent + 60) eqn:E; [|reflexivity].
  zbool. lia.
Qed.

Lemma pop_some (now : Z) (queue rest : list FireUpdate.t) (fireEvent : FireUpdate.t) :
  popFireUpdate now queue = (Some fireEvent, rest) ->
  queue = fireEvent :: rest /\ FireUpdate.finalTimestamp fireEvent + 60 < now.
Proof.
  destruct queue as [|head tl]; simpl; [discriminate|].
  destruct (now >? FireUpdate.finalTimestamp head + 60) eqn:E; [|discriminate].
  intros H. injection H as <- <-.
  zbool. now split.
Qed.

Lemma pop_none (now : Z) (queue rest : list FireUpdate.t) :
  popFireUpdate now queue = (None, rest) -> rest = queue.
Proof.
  destruct queue as [|head tl]; simpl.
  - intros H. now injection H.
  - destruct (now >? FireUpdate.finalTimestamp head + 60); [discriminate|].
    intros H. now injection H.
Qed.

Lemma FireUpdate_eta (e : FireUpdate.t) :
  {| FireUpdate.cameraID := FireUpdate.cameraID e;
     FireUpdate.cameraHeading := FireUpdate.cameraHeading e;
     FireUpdate.timestamp := FireUpdate.timestamp e;
     FireUpdate.finalTimestamp := FireUpdate.finalTimestamp e;
     FireUpdate.fireSegment := FireUpdate.fireSegment e |} = e.
Proof. now destruct e. Qed.

Lemma enqueue_entry_ok (now : Z) (w : World) (e : FireUpdate.t) :
  (forall x, In x (fireUpdateQueue w) ->
             same_event (FireUpdate.cameraID e) (FireUpdate.timestamp e) x = false) ->
  now <= FireUpdate.timestamp e + POST_DETECTION_UPDATE_MINS * 60 ->
  enqueue_entry now w e =
  Ok (set_fireUpdateQueue w (sorted_by FireUpdate.finalTimestamp (fireUpdateQueue w ++ [e]))).
Proof.
  intros Hfresh Hnow. unfold enqueue_entry.
  rewrite enqueue_ok by exact Hfresh.
  destruct (now >? FireUpdate.timestamp e + POST_DETECTION_UPDATE_MINS * 60) eqn:G.
  - zbool. lia.
  - now rewrite FireUpdate_eta.
Qed.

Lemma enqueue_keeps_ascending (now : Z) (w w' : World) (cameraID : string)
    (cameraHeading timestamp finalTimestamp : Z) (fireSegment : FireSegment) :
  ascending FireUpdate.finalTimestamp (fireUpdateQueue w) ->
  enqueueFireUpdate now w cameraID cameraHeading timestamp finalTimestamp fireSegment = Ok w' ->
  ascending FireUpdate.finalTimestamp (fireUpdateQueue w').
Proof.
  intros Hs. unfold enqueueFireUpdate, constants_fireUpdateQueue.
  destruct (negb _); [discriminate|].
  destruct (now >? _).
  - intros H. injection H as <-. exact Hs.
  - intros H. injection H as <-. simpl. apply sorted_by_ascending.
Qed.

Lemma pop_keeps_ascending (now : Z) (queue rest : list FireUpdate.t)
    (fireEvent : option FireUpdate.t) :
  ascending FireUpdate.finalTimestamp queue ->
  popFireUpdate now queue = (fireEvent, rest) ->
  ascending FireUpdate.finalTimestamp rest.
Proof.
  intros Hs Hp. destruct fireEvent as [e|].
  - apply pop_some in Hp. destruct Hp as [-> _].
    now inversion Hs.
  - apply pop_none in Hp. now subst.
Qed.

Lemma enqueue_three (n1 n2 n3 : Z) (w : World) (e1 e2 e3 : FireUpdate.t) :
  fireUpdateQueue w = [] ->
  FireUpdate.finalTimestamp e1 = 50 ->
  FireUpdate.finalTimestamp e2 = 10 ->
  FireUpdate.finalTimestamp e3 = 30 ->
  same_event (FireUpdate.cameraID e2) (FireUpdate.timestamp e2) e1 = false ->
  same_event (FireUpdate.cameraID e3) (FireUpdate.timestamp e3) e1 = false ->
  same_event (FireUpdate.cameraID e3) (FireUpdate.timestamp e3) e2 = false ->
  n1 <= FireUpdate.timestamp e1 + POST_DETECTION_UPDATE_MINS * 60 ->
  n2 <= FireUpdate.timestamp e2 + POST_DETECTION_UPDATE_MINS * 60 ->
  n3 <= FireUpdate.timestamp e3 + POST_DETECTION_UPDATE_MINS * 60 ->
  exists w3,
    (w1 <- enqueue_entry n1 w e1 ;; w2 <- enqueue_entry n2 w1 e2 ;; enqueue_entry n3 w2 e3)
    = Ok w3 /\
    fireUpdateQueue w3 = [e2; e3; e1].
Proof.
  intros Hq F1 F2 F3 D21 D31 D32 N1 N2 N3.
  rewrite enqueue_entry_ok; [|rewrite Hq; intros x []|exact N1].
  rewrite Hq. cbn [bind app sorted_by insert_by].
  rewrite enqueue_entry_ok; [|cbn; intros x [<-|[]]; exact D21|exact N2].
  cbn [bind app sorted_by insert_by fireUpdateQueue set_fireUpdateQueue].
  rewrite F1, F2. cbn [Z.leb Z.compare Pos.compare Pos.compare_cont].
  rewrite enqueue_entry_ok; [|cbn; intros x [<-|[<-|[]]]; assumption|exact N3].
  cbn [bind app sorted_by fireUpdateQueue set_fireUpdateQueue].
  cbn [insert_by]. rewrite F1, F3. cbn [Z.leb Z.compare Pos.compare Pos.compare_cont].
  cbn [insert_by]. rewrite F2, F3. cbn [Z.leb Z.compare Pos.compare Pos.compare_cont].
  eexists. split; reflexivity.
Qed.

Lemma fireDetected_keeps_ascending {S : Shapely} (E : Env) (now_sortId now_enqueue : Z)
    (w w' : World) (cameraID : string) (cameraHeading timestamp fov : Z) (imgPath : string)
    (fireSegment : FireSegment) :
  ascending FireUpdate.finalTimestamp (fireUpdateQueue w) ->
  fireDetected E now_sortId now_enqueue w cameraID cameraHeading timestamp fov imgPath
    fireSegment = Ok w' ->
  ascending FireUpdate.finalTimestamp (fireUpdateQueue w').
Proof.
  intros Hs. unfold fireDetected.
  destruct (getCameraMapLocation E cameraID) as [[mapFiles camLatitude] camLongitude].
  destruct (getHeadingRange E cameraHeading fov (MinX fireSegment) (MaxX fireSegment)
              (imageWidth E imgPath)) as [fireHeading rangeAngle].
  destruct (findIgnoredViewHeading E cameraID fireHeading rangeAngle).
  { intros H. injection H as <-. exact Hs. }
  destruct (intersectLand _) as [view|e]; cbn [bind]; [|discriminate].
  destruct (consensus w timestamp view) as [[polygon sourcePolygons]|e];
    cbn [bind]; [|discriminate].
  destruct (checkWeatherInfo E _ _ _ _ _ _) as [ws|e]; cbn [bind]; [|discriminate].
  unfold insertDetectionsDB, detection_row.
  cbn [weatherScoreOf set_weatherScore weatherScore bind].
  destruct (genAnnotatedMaps E _ _ _ _ _ _) as [mapUrl|e]; cbn [bind]; [|discriminate].
  destruct (genAnnotatedImages E cameraID cameraHeading timestamp)
    as [[[croppedID imgIDs] annotatedID] finalTimestamp].
  destruct (truthy_str croppedID); cbn [negb].
  - destruct (enqueueFireUpdate now_enqueue _ _ _ _ _ _) as [w3|e] eqn:Enq;
      cbn [bind]; [|discriminate].
    assert (H3 : ascending FireUpdate.finalTimestamp (fireUpdateQueue w3))
      by (eapply enqueue_keeps_ascending; [|exact Enq]; exact Hs).
    destruct (publishAlert E w3 _ _ _ _ _ _ _ _).
    + unfold insertAlertsDB, detection_row, pubsubFireNotification, emailFireNotification.
      cbn [weatherScoreOf set_weatherScore weatherScore bind].
      destruct (Nat.ltb _ _); [destruct (googleServices E); [|discriminate]|];
        cbn [bind]; intros H; injection H as <-; exact H3.
    + intros H. injection H as <-. exact H3.
  - intros H. injection H as <-. exact Hs.
Qed.

Lemma process_keeps_ascending {S : Shapely} (E : Env) (now_pop now_enqueue : Z)
    (w w' : World) :
  ascending FireUpdate.finalTimestamp (fireUpdateQueue w) ->
  processEnqueuedUpdates E now_pop now_enqueue w = Ok w' ->
  ascending FireUpdate.finalTimestamp (fireUpdateQueue w').
Proof.
  intros Hs.
  assert (Henq : forall w2 cameraID cameraHeading timestamp finalTimestamp fireSegment,
            ascending FireUpdate.finalTimestamp (fireUpdateQueue w2) ->
            enqueueFireUpdate now_enqueue w2 cameraID cameraHeading timestamp finalTimestamp
              fireSegment = Ok w' ->
            ascending FireUpdate.finalTimestamp (fireUpdateQueue w'))
    by (intros; eapply enqueue_keeps_ascending; eassumption).
  unfold processEnqueuedUpdates, constants_fireUpdateQueue.
  destruct (popFireUpdate now_pop (fireUpdateQueue w)) as [fireEvent queue] eqn:Pop.
  pose proof (pop_keeps_ascending _ _ _ _ Hs Pop) as Hq.
  destruct fireEvent as [fireEvent|]; [|intros H; injection H as <-; exact Hq].
  destruct (queryDetections _ _ _) as [[detectData|]|]; cbn [bind];
    [| now apply Henq | discriminate].
  destruct (checkNewImage E _ _ _ _); [|now apply Henq].
  destruct (updateMovie E _ _ _) as [[[movieID finalTimestamp] isFinalMovie]|];
    [|discriminate].
  destruct (truthy_str movieID && truthy_int finalTimestamp);
    [|intros H; injection H as <-; exact Hq].
  destruct (last_opt _); [|discriminate].
  destruct (publishAlert E _ _ _ _ _ _ _ _ _).
  - unfold pubsubFireNotification.
    destruct (weatherScoreOf _); cbn [bind]; [|discriminate].
    destruct isFinalMovie; cbn [negb].
    + intros H. injection H as <-. exact Hq.
    + apply Henq. exact Hq.
  - cbn [bind]. destruct isFinalMovie; cbn [negb].
    + intros H. injection H as <-. exact Hq.
    + apply Henq. exact Hq.
Qed.

Lemma reachable_queue_ascending {S : Shapely} (w : World) :
  reachable w -> ascending FireUpdate.finalTimestamp (fireUpdateQueue w).
Proof.
  induction 1 as [w _ Hq | w _ IH | E np ne w w' _ IH Hrun
    | E ns ne w w' cameraID heading timestamp fov imgPath fireSegment modelId stateless
        archived _ IH Hrun].
  - rewrite Hq. constructor.
  - constructor.
  - exact (process_keeps_ascending E np ne w w' IH Hrun).
  - unfold mainDetection in Hrun.
    destruct fireSegment as [fs|]; [|injection Hrun as <-; exact IH].
    destruct archived; cbn [negb] in Hrun; [injection Hrun as <-; exact IH|].
    assert (H1 : fireUpdateQueue
                   (recordProbables E w cameraID heading timestamp imgPath fs modelId
                      stateless (constants_protoNum E)) = fireUpdateQueue w)
      by (unfold recordProbables; now destruct stateless).
    destruct (negb _).
    + eapply fireDetected_keeps_ascending; [|exact Hrun]. now rewrite H1.
    + injection Hrun as <-. now rewrite H1.
Qed.

(** C2.  The queue stays sorted ascending by final timestamp through every
    enqueue and every poll, and is sorted in every state the deployment
    reaches; a poll looks at the head only: what it returns is
    the head, the time being then more than 60 seconds (so at least 60
    seconds) past the head's final timestamp, and before that the queue is
    left as it is and nothing is returned; entries enqueued on an empty queue
    with final timestamps 50, 10, 30 are polled in the order 10, 30, 50. *)
Theorem queue_sorted_and_polled_at_head :
  (forall now w w' cameraID cameraHeading timestamp finalTimestamp fireSegment,
     ascending FireUpdate.finalTimestamp (fireUpdateQueue w) ->
     enqueueFireUpdate now w cameraID cameraHeading timestamp finalTimestamp fireSegment
     = Ok w' ->
     ascending FireUpdate.finalTimestamp (fireUpdateQueue w')) /\
  (forall (S : Shapely) w,
     reachable w -> ascending FireUpdate.finalTimestamp (fireUpdateQueue w)) /\
  (forall now queue fireEvent rest,
     ascending FireUpdate.finalTimestamp queue ->
     popFireUpdate now queue = (fireEvent, rest) ->
     ascending FireUpdate.finalTimestamp rest) /\
  (forall now queue fireEvent rest,
     popFireUpdate now queue = (Some fireEvent, rest) ->
     queue = fireEvent :: rest /\ FireUpdate.finalTimestamp fireEvent + 60 <= now) /\
  (forall now head rest,
     now < FireUpdate.finalTimestamp head + 60 ->
     popFireUpdate now (head :: rest) = (None, head :: rest)) /\
  (forall now head rest,
     popFireUpdate now (head :: rest) =
     if FireUpdate.finalTimestamp head + 60 <? now then (Some head, rest)
     else (None, head :: rest)) /\
  (forall now, popFireUpdate now [] = (None, [])) /\
  (forall n1 n2 n3 w e1 e2 e3,
     fireUpdateQueue w = [] ->
     FireUpdate.finalTimestamp e1 = 50 ->
     FireUpdate.finalTimestamp e2 = 10 ->
     FireUpdate.finalTimestamp e3 = 30 ->
     same_event (FireUpdate.cameraID e2) (FireUpdate.timestamp e2) e1 = false ->
     same_event (FireUpdate.cameraID e3) (FireUpdate.timestamp e3) e1 = false ->
     same_event (FireUpdate.cameraID e3) (FireUpdate.timestamp e3) e2 = false ->
     n1 <= FireUpdate.timestamp e1 + POST_DETECTION_UPDATE_MINS * 60 ->
     n2 <= FireUpdate.timestamp e2 + POST_DETECTION_UPDATE_MINS * 60 ->
     n3 <= FireUpdate.timestamp e3 + POST_DETECTION_UPDATE_MINS * 60 ->
     exists w3,
       (w1 <- enqueue_entry n1 w e1 ;; w2 <- enqueue_entry n2 w1 e2 ;; enqueue_entry n3 w2 e3)
       = Ok w3 /\
       fireUpdateQueue w3 = [e2; e3; e1] /\
       forall t1 t2 t3, 70 < t1 -> 90 < t2 -> 110 < t3 ->
         poll_at [t1; t2; t3] (fireUpdateQueue w3) = [Some e2; Some e3; Some e1]).
Proof.
  repeat split.
  - intros. eapply enqueue_keeps_ascending; eassumption.
  - intros S w. apply reachable_queue_ascending.
  - intros. eapply pop_keeps_ascending; eassumption.
  - apply pop_some in H. tauto.
  - apply pop_some in H. lia.
  - intros. apply pop_not_due. lia.
  - intros now head rest. simpl. rewrite Z.gtb_ltb. reflexivity.
  - intros n1 n2 n3 w e1 e2 e3 Hq F1 F2 F3 D21 D31 D32 N1 N2 N3.
    destruct (enqueue_three n1 n2 n3 w e1 e2 e3) as [w3 [Hrun Hw3]]; try assumption.
    exists w3. split; [exact Hrun|]. split; [exact Hw3|].
    intros t1 t2 t3 T1 T2 T3. rewrite Hw3. cbn [poll_at].
    rewrite pop_due by lia. rewrite pop_due by lia. rewrite pop_due by lia.
    reflexivity.
Qed.

(** ** Probable-observation dedup *)

Lemma probable_matches_true (cameraID : string) (heading timestamp protoNum : Z)
    (r : Probable.row) :
  probable_matches cameraID heading timestamp protoNum r = true <->
  Probable.CameraName r = cameraID /\ Probable.Heading r = heading /\
  timestamp - 3600 < Probable.Timestamp r /\ Probable.Timestamp r < timestamp /\
  Probable.ProtoNum r = protoNum.
Proof.
  unfold probable_matches.
  rewrite !andb_true_iff, String.eqb_eq, !Z.eqb_eq, Z.gtb_ltb, !Z.ltb_lt.
  change (60 * 60) with 3600. tauto.
Qed.

Lemma filter_length_pos {A : Type} (f : A -> bool) (l : list A) :
  Nat.ltb 0 (List.length (filter f l)) = true <-> exists x, In x l /\ f x = true.
Proof.
  rewrite Nat.ltb_lt.
  induction l as [|a l IH]; simpl.
  - split; [lia | intros [x [[] _]]].
  - destruct (f a) eqn:Fa; simpl.
    + split; [|lia]. intros _. exists a. auto.
    + rewrite IH. split.
      * intros [x [Hx Fx]]. exists x. auto.
      * intros [x [[<-|Hx] Fx]]; [congruence|]. exists x. auto.
Qed.

Lemma isDuplicateProbables_iff (w : World) (cameraID : string)
    (heading timestamp protoNum : Z) :
  isDuplicateProbables w cameraID heading timestamp protoNum = true <->
  exists r, In r (probables w) /\
    Probable.CameraName r = cameraID /\ Probable.Heading r = heading /\
    timestamp - 3600 < Probable.Timestamp r /\ Probable.Timestamp r < timestamp /\
    Probable.ProtoNum r = protoNum.
Proof.
  unfold isDuplicateProbables. rewrite filter_length_pos.
  split; intros [r [Hin Hr]]; exists r; (split; [exact Hin|]);
    now apply probable_matches_true.
Qed.

Lemma isDuplicateProbables_ignores_now (w : World) (rows : list Probable.row)
    (cameraID : string) (heading timestamp protoNum : Z) :
  (forall r, In r rows -> Probable.Timestamp r = timestamp) ->
  isDuplicateProbables (set_probables w (probables w ++ rows))
    cameraID heading timestamp protoNum
  = isDuplicateProbables w cameraID heading timestamp protoNum.
Proof.
  intros Hrows. unfold isDuplicateProbables. cbn [probables set_probables].
  rewrite filter_app.
  replace (filter (probable_matches cameraID heading timestamp protoNum) rows) with
    (@nil Probable.row); [now rewrite app_nil_r|].
  symmetry. induction rows as [|r rows IH]; [reflexivity|]. simpl.
  destruct (probable_matches cameraID heading timestamp protoNum r) eqn:M.
  - apply probable_matches_true in M.
    specialize (Hrows r (or_introl eq_refl)). lia.
  - apply IH. intros r' Hr'. apply Hrows. now right.
Qed.

(** C10.  [isDuplicateProbables] counts exactly the rows of the same camera,
    heading and prototype number whose timestamp is strictly between
    [T - 3600] and [T]; the row that [recordProbables] has just written for
    the observation itself, at timestamp [T], is not counted, so in the main
    loop, where the row is recorded before the check is made, the check
    answers as it would have before the row was recorded. *)
Theorem probables_never_self_suppress :
  (forall w cameraID heading timestamp protoNum,
     isDuplicateProbables w cameraID heading timestamp protoNum = true <->
     exists r, In r (probables w) /\
       Probable.CameraName r = cameraID /\ Probable.Heading r = heading /\
       timestamp - 3600 < Probable.Timestamp r /\ Probable.Timestamp r < timestamp /\
       Probable.ProtoNum r = protoNum) /\
  (forall E w cameraID heading timestamp imgPath fireSegment modelId stateless protoNum,
     isDuplicateProbables
       (recordProbables E w cameraID heading timestamp imgPath fireSegment modelId
          stateless protoNum)
       cameraID heading timestamp protoNum
     = isDuplicateProbables w cameraID heading timestamp protoNum) /\
  (forall (S : Shapely) E now_sortId now_enqueue w cameraID heading timestamp fov imgPath
          fireSegment modelId stateless,
     mainDetection E now_sortId now_enqueue w cameraID heading timestamp fov imgPath
       (Some fireSegment) modelId stateless false
     = let w1 := recordProbables E w cameraID heading timestamp imgPath fireSegment modelId
                   stateless (constants_protoNum E) in
       if isDuplicateProbables w cameraID heading timestamp (constants_protoNum E) || stateless
       then Ok w1
       else fireDetected E now_sortId now_enqueue w1 cameraID heading timestamp fov imgPath
              fireSegment).
Proof.
  assert (Hrec : forall E w cameraID heading timestamp imgPath fireSegment modelId stateless
                        protoNum,
            isDuplicateProbables
              (recordProbables E w cameraID heading timestamp imgPath fireSegment modelId
                 stateless protoNum)
              cameraID heading timestamp protoNum
            = isDuplicateProbables w cameraID heading timestamp protoNum).
  { intros. unfold recordProbables. destruct stateless; [reflexivity|].
    cbn [negb]. apply isDuplicateProbables_ignores_now.
    intros r [<-|[]]. reflexivity. }
  split; [exact isDuplicateProbables_iff|].
  split; [exact Hrec|].
  intros. unfold mainDetection. cbn [negb]. rewrite Hrec.
  now destruct (isDuplicateProbables _ _ _ _ _ || stateless).
Qed.

(** ** Confirmed-event dedup *)

Lemma sameLocation_true (E : Env) (cameraID cameraName : string) :
  sameLocation E cameraID cameraName = true <-> shares_location E cameraID cameraName.
Proof.
  unfold sameLocation, shares_location.
  destruct (locationOf E cameraID) as [loc|].
  - rewrite existsb_exists. split.
    + intros [s [Hin Hs]]. apply andb_true_iff in Hs. destruct Hs as [Hn Hl].
      apply String.eqb_eq in Hn. apply Z.eqb_eq in Hl.
      exists loc, s. auto.
    + intros [loc' [s [Hloc [Hin [Hn Hl]]]]]. injection Hloc as <-.
      exists s. split; [exact Hin|].
      apply andb_true_iff. split; [now apply String.eqb_eq | now apply Z.eqb_eq].
  - split; [discriminate|]. intros [loc [s [Hloc _]]]. discriminate.
Qed.

Lemma dedup_window_true (E : Env) (cameraID : string) (timestamp : Z) (r : Detection.row) :
  dedup_window E cameraID timestamp r = true <->
  timestamp - 7200 < Detection.Timestamp r /\ Detection.Timestamp r < timestamp /\
  shares_location E cameraID (Detection.CameraName r).
Proof.
  unfold dedup_window.
  rewrite !andb_true_iff, Z.gtb_ltb, !Z.ltb_lt, sameLocation_true.
  change (2 * 60 * 60) with 7200. tauto.
Qed.

Lemma dedup_scan_true (E : Env) (fireHeading rangeAngle protoNum : Z)
    (dbResult : list Detection.row) :
  dedup_scan E fireHeading rangeAngle protoNum dbResult = true <->
  exists entry, In entry dbResult /\
    compatible_protoNum protoNum (Detection.IsProto entry) /\
    intersectsAngleRange E (Detection.FireHeading entry) (Detection.AngularWidth entry)
      fireHeading rangeAngle = true.
Proof.
  unfold compatible_protoNum.
  induction dbResult as [|entry rest IH]; simpl.
  - split; [discriminate | intros [e [[] _]]].
  - destruct (protoNum =? 0) eqn:P0; destruct (Detection.IsProto entry >? 1) eqn:I1;
      destruct (protoNum >? 0) eqn:Pp; destruct (protoNum =? Detection.IsProto entry) eqn:Pe;
      cbn [andb negb]; zbool;
      try (rewrite IH; split;
           [ intros [e [He Hc]]; exists e; split; [now right | exact Hc]
           | intros [e [[<-|He] [[C0 Cp] Ho]]]; [exfalso; lia | exists e; auto] ]);
      (destruct (intersectsAngleRange E (Detection.FireHeading entry)
                   (Detection.AngularWidth entry) fireHeading rangeAngle) eqn:Ov;
       [ split; [intros _; exists entry; repeat split; auto; lia | reflexivity]
       | rewrite IH; split;
         [ intros [e [He Hc]]; exists e; split; [now right | exact Hc]
         | intros [e [[<-|He] [Hc Ho]]]; [congruence | exists e; auto] ] ]).
Qed.

Lemma isDuplicateDetection_iff (E : Env) (w : World) (cameraID : string)
    (fireHeading rangeAngle timestamp protoNum : Z) :
  isDuplicateDetection E w cameraID fireHeading rangeAngle timestamp protoNum = true <->
  exists entry, In entry (detections w) /\
    timestamp - 7200 < Detection.Timestamp entry /\ Detection.Timestamp entry < timestamp /\
    shares_location E cameraID (Detection.CameraName entry) /\
    compatible_protoNum protoNum (Detection.IsProto entry) /\
    intersectsAngleRange E (Detection.FireHeading entry) (Detection.AngularWidth entry)
      fireHeading rangeAngle = true.
Proof.
  unfold isDuplicateDetection.
  destruct (Nat.eqb (List.length (filter (dedup_window E cameraID timestamp) (detections w))) 0)
    eqn:Len.
  - pose proof (proj1 (filter_length_0 _ _) Len) as None.
    split; [discriminate|].
    intros [entry [Hin [H1 [H2 [H3 _]]]]].
    assert (dedup_window E cameraID timestamp entry = true)
      by (apply dedup_window_true; auto).
    rewrite (None entry Hin) in H. discriminate.
  - rewrite dedup_scan_true. split.
    + intros [entry [Hin Hc]]. apply filter_In in Hin. destruct Hin as [Hin Hw].
      apply dedup_window_true in Hw. exists entry. tauto.
    + intros [entry [Hin [H1 [H2 [H3 Hc]]]]]. exists entry. split; [|exact Hc].
      apply filter_In. split; [exact Hin|]. apply dedup_window_true. auto.
Qed.

(** C5.  [isDuplicateDetection] suppresses an observation exactly when the
    [detections] table holds an event with timestamp strictly within the two
    hours before the observation, at a camera that shares the observing
    camera's location, whose prototype-model number is compatible with the
    observation's and whose angular sector overlaps the observation's.  For
    the production model (number 0) the compatible events are those stored
    under the production model (stored number at most 1); for a prototype
    model [N > 0] they are the events stored under [N]. *)
Theorem confirmed_dedup_compatibility (E : Env) (w : World) (cameraID : string)
    (fireHeading rangeAngle timestamp protoNum : Z) :
  let suppressed :=
    isDuplicateDetection E w cameraID fireHeading rangeAngle timestamp protoNum = true in
  let candidate (entry : Detection.row) :=
    In entry (detections w) /\
    timestamp - 7200 < Detection.Timestamp entry /\ Detection.Timestamp entry < timestamp /\
    shares_location E cameraID (Detection.CameraName entry) in
  let overlaps (entry : Detection.row) :=
    intersectsAngleRange E (Detection.FireHeading entry) (Detection.AngularWidth entry)
      fireHeading rangeAngle = true in
  (suppressed <->
   exists entry, candidate entry /\
     compatible_protoNum protoNum (Detection.IsProto entry) /\ overlaps entry) /\
  (protoNum = 0 ->
   (suppressed <->
    exists entry, candidate entry /\ Detection.IsProto entry <= 1 /\ overlaps entry)) /\
  (0 < protoNum ->
   (suppressed <->
    exists entry, candidate entry /\ Detection.IsProto entry = protoNum /\ overlaps entry)).
Proof.
  intros suppressed candidate overlaps.
  unfold suppressed, candidate, overlaps, compatible_protoNum.
  rewrite isDuplicateDetection_iff. unfold compatible_protoNum.
  split; [|split].
  - split; intros [entry H]; exists entry; tauto.
  - intros P0. split; intros [entry H]; exists entry; intuition lia.
  - intros Pp. split; intros [entry H]; exists entry; intuition lia.
Qed.

(** ** Alert gating *)

Lemma Qltb_false (x y : Q) : Qltb x y = false <-> (y <= x)%Q.
Proof.
  unfold Qltb. rewrite negb_false_iff. apply Qle_bool_iff.
Qed.

Lemma existsb_false {A : Type} (f : A -> bool) (l : list A) :
  existsb f l = false <-> forall x, In x l -> f x = false.
Proof.
  induction l as [|a l IH]; simpl.
  - split; [intros _ x [] | reflexivity].
  - rewrite orb_false_iff, IH. split.
    + intros [Ha Hl] x [<-|Hx]; auto.
    + intros H. split; [apply H; now left | intros x Hx; apply H; now right].
Qed.

(** C4.  [publishAlert] returns true exactly when the camera is not a
    prototype source, the weather-adjusted score is at least the threshold,
    the confirmed-event dedup does not flag a repeat, and no burn's point
    meets the camera's view polygon; for a prototype source it returns false
    whatever the score, the dedup and the burns are. *)
Theorem publishAlert_iff_all_four {S : Shapely} (E : Env) (w : World) (cameraID : string)
    (fireHeading rangeAngle timestamp : Z) (weatherScore : Q)
    (cameraViewPoly : option coords) (rxBurns : list Burn) (protoNum : Z) :
  let published :=
    publishAlert E w cameraID fireHeading rangeAngle timestamp weatherScore cameraViewPoly
      rxBurns protoNum in
  (published = true <->
   truthy_flag (isProto (isProtoStatics E) cameraID) = false /\
   (weatherThreshold E <= weatherScore)%Q /\
   isDuplicateDetection E w cameraID fireHeading rangeAngle timestamp protoNum = false /\
   forall burn, In burn rxBurns ->
     intersects_Point (Polygon cameraViewPoly) (latitude burn) (longitude burn) = false) /\
  (truthy_flag (isProto (isProtoStatics E) cameraID) = true -> published = false).
Proof.
  intros published. unfold published, publishAlert.
  destruct (truthy_flag (isProto (isProtoStatics E) cameraID)) eqn:Proto.
  - split; [|reflexivity]. split; [discriminate | intros [H _]; discriminate].
  - split; [|discriminate].
    destruct (Qltb weatherScore (weatherThreshold E)) eqn:Low.
    + split; [discriminate|]. intros [_ [H _]].
      apply Qltb_false in H. congruence.
    + apply Qltb_false in Low.
      destruct (isDuplicateDetection E w cameraID fireHeading rangeAngle timestamp protoNum)
        eqn:Dup.
      * split; [discriminate | intros [_ [_ [H _]]]; discriminate].
      * rewrite negb_true_iff, existsb_false. tauto.
Qed.


(** ** The rectangle geometry *)

Module RectFacts.

Import Rect.

Lemma Qle_bool_false (a b : Q) : Qle_bool a b = false -> (b < a)%Q.
Proof.
  intros H. apply Qnot_le_lt. intros Hle.
  apply Qle_bool_iff in Hle. congruence.
Qed.

Lemma qmin_le_iff (a b x : Q) : (qmin a b <= x <-> a <= x \/ b <= x)%Q.
Proof.
  unfold qmin. destruct (Qle_bool a b) eqn:E.
  - apply Qle_bool_iff in E. split; [auto|]. intros [H|H]; lra.
  - apply Qle_bool_false in E. split; [auto|]. intros [H|H]; lra.
Qed.

Lemma le_qmin_iff (a b x : Q) : (x <= qmin a b <-> x <= a /\ x <= b)%Q.
Proof.
  unfold qmin. destruct (Qle_bool a b) eqn:E.
  - apply Qle_bool_iff in E. split; [intros H; split; lra | tauto].
  - apply Qle_bool_false in E. split; [intros H; split; lra | tauto].
Qed.

Lemma qmax_le_iff (a b x : Q) : (qmax a b <= x <-> a <= x /\ b <= x)%Q.
Proof.
  unfold qmax. destruct (Qle_bool a b) eqn:E.
  - apply Qle_bool_iff in E. split; [intros H; split; lra | tauto].
  - apply Qle_bool_false in E. split; [intros H; split; lra | tauto].
Qed.

Lemma le_qmax_iff (a b x : Q) : (x <= qmax a b <-> x <= a \/ x <= b)%Q.
Proof.
  unfold qmax. destruct (Qle_bool a b) eqn:E.
  - apply Qle_bool_iff in E. split; [auto|]. intros [H|H]; lra.
  - apply Qle_bool_false in E. split; [auto|]. intros [H|H]; lra.
Qed.

Lemma nonempty_true (b : box) :
  nonempty b = true <-> (xlo b <= xhi b /\ ylo b <= yhi b)%Q.
Proof.
  unfold nonempty. now rewrite andb_true_iff, !Qle_bool_iff.
Qed.

Lemma covers_nonempty (b : box) (x y : Q) : covers (Some b) x y -> nonempty b = true.
Proof.
  simpl. intros H. apply nonempty_true. split; lra.
Qed.

Lemma rect_covers_intersection (a b : option box) (x y : Q) :
  covers (intersection a b) x y <-> covers a x y /\ covers b x y.
Proof.
  destruct a as [a|], b as [b|]; simpl; try tauto.
  destruct (nonempty a && nonempty b &&
            nonempty {| xlo := qmax (xlo a) (xlo b); xhi := qmin (xhi a) (xhi b);
                        ylo := qmax (ylo a) (ylo b); yhi := qmin (yhi a) (yhi b) |}) eqn:N.
  - simpl. rewrite !qmax_le_iff, !le_qmin_iff. tauto.
  - simpl. split; [tauto|]. intros [Ha Hb]. exfalso.
    rewrite !andb_false_iff in N.
    destruct N as [[N|N]|N].
    + rewrite (covers_nonempty a x y) in N; [discriminate | exact Ha].
    + rewrite (covers_nonempty b x y) in N; [discriminate | exact Hb].
    + assert (T : nonempty {| xlo := qmax (xlo a) (xlo b); xhi := qmin (xhi a) (xhi b);
                        ylo := qmax (ylo a) (ylo b); yhi := qmin (yhi a) (yhi b) |} = true).
      { apply (covers_nonempty _ x y). simpl.
        rewrite !qmax_le_iff, !le_qmin_iff. tauto. }
      congruence.
Qed.

Lemma area_nonzero_nonempty (b : box) :
  ~ (area (Some b) == 0)%Q -> nonempty b = true.
Proof.
  simpl. destruct (nonempty b); [reflexivity|]. intros H. exfalso. apply H. reflexivity.
Qed.

Lemma rect_covers_exterior (g : option box) (ring : coords) (x y : Q) :
  exterior_xy g = Some ring -> ~ (area g == 0)%Q ->
  (covers (Polygon (Some ring)) x y <-> covers g x y).
Proof.
  destruct g as [b|].
  - intros Hring Harea.
    pose proof (area_nonzero_nonempty b Harea) as Hne.
    apply nonempty_true in Hne. destruct Hne as [Hx Hy].
    unfold exterior_xy in Hring.
    destruct (Qeq_bool (area (Some b)) 0); [discriminate|].
    injection Hring as <-.
    cbn [Polygon fold_left add_vertex fst snd covers xlo xhi ylo yhi].
    rewrite !qmin_le_iff, !le_qmax_iff.
    split; intros H; repeat split; intuition lra.
  - intros _ H. exfalso. apply H. reflexivity.
Qed.

End RectFacts.

(** The rectangle geometry has the regions the invariants rest on. *)
Lemma RectRegions : ShapelyRegions RectShapely.
Proof.
  exact {| covers := Rect.covers : @geom RectShapely -> Q -> Q -> Prop;
           covers_intersection := RectFacts.rect_covers_intersection;
           covers_exterior := RectFacts.rect_covers_exterior |}.
Defined.

(** ** The polygon-intersection primitive *)

Section Primitive.

Context {S : Shapely}.

Lemma getPolygonIntersection_null (coords1 coords2 : option coords) :
  getPolygonIntersection coords1 coords2 = Ok None <->
  intersects (Polygon coords1) (Polygon coords2) = false \/
  (area (intersection (Polygon coords1) (Polygon coords2)) == 0)%Q.
Proof.
  unfold getPolygonIntersection.
  destruct (intersects (Polygon coords1) (Polygon coords2)); cbn [negb].
  - destruct (Qeq_bool (area (intersection (Polygon coords1) (Polygon coords2))) 0) eqn:A.
    + apply Qeq_bool_iff in A. tauto.
    + apply Qeq_bool_neq in A.
      destruct (exterior_xy (intersection (Polygon coords1) (Polygon coords2)));
        split; try discriminate; intros [H|H]; try discriminate; contradiction.
  - tauto.
Qed.

Lemma getPolygonIntersection_ring (coords1 coords2 : option coords) (ring : coords) :
  getPolygonIntersection coords1 coords2 = Ok (Some ring) <->
  intersects (Polygon coords1) (Polygon coords2) = true /\
  ~ (area (intersection (Polygon coords1) (Polygon coords2)) == 0)%Q /\
  exterior_xy (intersection (Polygon coords1) (Polygon coords2)) = Some ring.
Proof.
  unfold getPolygonIntersection.
  destruct (intersects (Polygon coords1) (Polygon coords2)); cbn [negb].
  - destruct (Qeq_bool (area (intersection (Polygon coords1) (Polygon coords2))) 0) eqn:A.
    + apply Qeq_bool_iff in A. split; [discriminate|]. intros [_ [H _]]. contradiction.
    + apply Qeq_bool_neq in A.
      destruct (exterior_xy (intersection (Polygon coords1) (Polygon coords2))) as [r|].
      * split.
        -- intros H. injection H as <-. auto.
        -- intros [_ [_ H]]. injection H as <-. reflexivity.
      * split; [discriminate|]. intros [_ [_ H]]. discriminate.
  - split; [discriminate|]. intros [H _]. discriminate.
Qed.

Lemma getPolygonIntersection_raises (coords1 coords2 : option coords) (e : exn) :
  getPolygonIntersection coords1 coords2 = Raise e <->
  e = AttributeError /\
  intersects (Polygon coords1) (Polygon coords2) = true /\
  ~ (area (intersection (Polygon coords1) (Polygon coords2)) == 0)%Q /\
  exterior_xy (intersection (Polygon coords1) (Polygon coords2)) = None.
Proof.
  unfold getPolygonIntersection.
  destruct (intersects (Polygon coords1) (Polygon coords2)); cbn [negb].
  - destruct (Qeq_bool (area (intersection (Polygon coords1) (Polygon coords2))) 0) eqn:A.
    + apply Qeq_bool_iff in A. split; [discriminate|]. intros [_ [_ [H _]]]. contradiction.
    + apply Qeq_bool_neq in A.
      destruct (exterior_xy (intersection (Polygon coords1) (Polygon coords2))) as [r|].
      * split; [discriminate|]. intros [_ [_ [_ H]]]. discriminate.
      * split.
        -- intros H. injection H as <-. auto.
        -- intros [-> _]. reflexivity.
  - split; [discriminate|]. intros [_ [H _]]. discriminate.
Qed.

Lemma intersect_scan_passes (view : option coords) (alert : Detection.row)
    (rest : list Detection.row) :
  passed_over view alert ->
  intersect_scan view (alert :: rest) = intersect_scan view rest.
Proof.
  intros [alertCoords [Hp [Hn|Hn]]]; cbn [intersect_scan];
    rewrite Hp; cbn [json_loads_polygon bind]; rewrite Hn; reflexivity.
Qed.

End Primitive.

(** ** Consensus merging *)

Lemma json_loads_polygons_ok (text : list (option coords)) (cs : list coords) :
  json_loads_polygons text = Ok cs <-> text = map Some cs.
Proof.
  revert cs. induction text as [|p rest IH]; intros cs; simpl.
  - split.
    + intros H. injection H as <-. reflexivity.
    + destruct cs; [reflexivity | discriminate].
  - destruct p as [c|]; cbn [json_loads_polygon bind].
    + destruct (json_loads_polygons rest) as [cs'|e] eqn:R; cbn [bind].
      * split.
        -- intros H. injection H as <-. simpl. f_equal. now apply IH.
        -- destruct cs as [|c0 cs0]; [discriminate|]. simpl. intros H.
           injection H as -> Hrest. apply IH in Hrest. now injection Hrest as ->.
      * split; [discriminate|].
        destruct cs as [|c0 cs0]; [discriminate|]. simpl. intros H.
        injection H as -> Hrest. apply IH in Hrest. discriminate.
    + split; [discriminate|]. destruct cs; discriminate.
Qed.

Lemma descending_recent (w : World) (timestamp : Z) :
  descending_sortId (getRecentDetections w timestamp).
Proof.
  unfold descending_sortId, getRecentDetections.
  pose proof (sorted_by_ascending (fun r => - Detection.SortId r)
                (filter (fun r => Detection.Timestamp r >? timestamp - 15 * 60)
                   (detections w))) as H.
  unfold ascending in H.
  induction H as [|a l Hl IH Ha]; constructor.
  - exact IH.
  - eapply Forall_impl; [|exact Ha]. intros b Hb. simpl in Hb. lia.
Qed.

Lemma recent_In (w : World) (timestamp : Z) (r : Detection.row) :
  In r (getRecentDetections w timestamp) <->
  In r (detections w) /\ timestamp - 900 < Detection.Timestamp r.
Proof.
  unfold getRecentDetections.
  rewrite sorted_by_In, filter_In, Z.gtb_ltb, Z.ltb_lt.
  change (15 * 60) with 900. reflexivity.
Qed.

Section Consensus.

Context {S : Shapely}.

Lemma intersect_scan_match (view : option coords) (recent : list Detection.row)
    (ring : coords) (sources : list coords) :
  intersect_scan view recent = Ok (Some (ring, sources)) ->
  exists pre alert post alertCoords,
    recent = pre ++ alert :: post /\
    Forall (passed_over view) pre /\
    Detection.polygon alert = Some alertCoords /\
    getPolygonIntersection view (Some alertCoords) = Ok (Some ring) /\
    ring <> [] /\
    Detection.sourcePolygons alert = map Some sources.
Proof.
  induction recent as [|alert rest IH]; cbn [intersect_scan]; [discriminate|].
  destruct (Detection.polygon alert) as [alertCoords|] eqn:P;
    cbn [json_loads_polygon bind]; [|discriminate].
  destruct (getPolygonIntersection view (Some alertCoords)) as [[[|v vs]|]|e] eqn:G;
    cbn [bind]; try discriminate.
  - intros H. destruct (IH H) as [pre [a [post [ac [-> [Hpre Hrest]]]]]].
    exists (alert :: pre), a, post, ac. split; [reflexivity|]. split; [|exact Hrest].
    constructor; [|exact Hpre]. exists alertCoords. auto.
  - destruct (json_loads_polygons (Detection.sourcePolygons alert)) as [srcs|e] eqn:J;
      cbn [bind]; [|discriminate].
    intros H. injection H as <- <-.
    exists [], alert, rest, alertCoords. repeat split; auto.
    + discriminate.
    + now apply json_loads_polygons_ok.
  - intros H. destruct (IH H) as [pre [a [post [ac [-> [Hpre Hrest]]]]]].
    exists (alert :: pre), a, post, ac. split; [reflexivity|]. split; [|exact Hrest].
    constructor; [|exact Hpre]. exists alertCoords. auto.
Qed.

Lemma intersect_scan_no_match (view : option coords) (recent : list Detection.row) :
  intersect_scan view recent = Ok None -> Forall (passed_over view) recent.
Proof.
  induction recent as [|alert rest IH]; cbn [intersect_scan]; [constructor|].
  destruct (Detection.polygon alert) as [alertCoords|] eqn:P;
    cbn [json_loads_polygon bind]; [|discriminate].
  destruct (getPolygonIntersection view (Some alertCoords)) as [[[|v vs]|]|e] eqn:G;
    cbn [bind]; try discriminate.
  - intros H. constructor; [|now apply IH]. exists alertCoords. auto.
  - destruct (json_loads_polygons (Detection.sourcePolygons alert)); discriminate.
  - intros H. constructor; [|now apply IH]. exists alertCoords. auto.
Qed.

(** The scan returns normally when every recent row holds a parsed polygon
    and parsed source polygons and no intersection is a multi-part geometry. *)
Lemma intersect_scan_returns (view : option coords) (recent : list Detection.row) :
  (forall r, In r recent ->
     exists c cs, Detection.polygon r = Some c /\ Detection.sourcePolygons r = map Some cs) ->
  (forall c, getPolygonIntersection view (Some c) <> Raise AttributeError) ->
  exists info, intersect_scan view recent = Ok info.
Proof.
  intros Hrows Hgeo.
  induction recent as [|alert rest IH]; cbn [intersect_scan]; [now eexists|].
  destruct (Hrows alert (or_introl eq_refl)) as [c [cs [Hc Hcs]]].
  rewrite Hc. cbn [json_loads_polygon bind].
  destruct (getPolygonIntersection view (Some c)) as [[[|v vs]|]|e] eqn:G; cbn [bind].
  - apply IH. intros r Hr. apply Hrows. now right.
  - apply (proj2 (json_loads_polygons_ok _ _)) in Hcs. rewrite Hcs. cbn [bind]. now eexists.
  - apply IH. intros r Hr. apply Hrows. now right.
  - exfalso. apply (Hgeo c).
    pose proof (proj1 (getPolygonIntersection_raises _ _ _) G) as [-> _]. exact G.
Qed.

Context (L : ShapelyRegions S).

Lemma alone_is_intersection (view : option coords) :
  intersection_of_sources L view [view].
Proof.
  split; [discriminate|]. intros x y. split.
  - intros H s [<-|[]]. exact H.
  - intros H. apply H. now left.
Qed.

Lemma merged_is_intersection (view : option coords) (alert : Detection.row)
    (alertCoords ring : coords) :
  consistent_event L alert ->
  Detection.polygon alert = Some alertCoords ->
  getPolygonIntersection view (Some alertCoords) = Ok (Some ring) ->
  intersection_of_sources L (Some ring) (Detection.sourcePolygons alert ++ [view]).
Proof.
  intros [Hne Hcov] Hp Hg.
  apply getPolygonIntersection_ring in Hg. destruct Hg as [_ [Harea Hring]].
  split.
  - intros H. apply app_eq_nil in H. destruct H; discriminate.
  - intros x y.
    rewrite (covers_exterior L _ _ x y Hring Harea).
    rewrite covers_intersection.
    rewrite Hp in Hcov. rewrite Hcov.
    split.
    + intros [Hv Hs] s Hin. apply in_app_or in Hin.
      destruct Hin as [Hin|[<-|[]]]; auto.
    + intros H. split.
      * apply H. apply in_or_app. right. now left.
      * intros s Hin. apply H. apply in_or_app. now left.
Qed.

Lemma consensus_cases (w : World) (timestamp : Z) (view polygon : option coords)
    (sources : list (option coords)) :
  consensus w timestamp view = Ok (polygon, sources) ->
  let recent := getRecentDetections w timestamp in
  (exists pre alert post alertCoords ring,
     recent = pre ++ alert :: post /\
     Forall (passed_over view) pre /\
     Detection.polygon alert = Some alertCoords /\
     getPolygonIntersection view (Some alertCoords) = Ok (Some ring) /\
     ring <> [] /\
     polygon = Some ring /\
     sources = Detection.sourcePolygons alert ++ [view] /\
     List.length sources = Datatypes.S (List.length (Detection.sourcePolygons alert)))
  \/ (Forall (passed_over view) recent /\ polygon = view /\ sources = [view]).
Proof.
  intros H. cbv zeta. unfold consensus, intersectRecentDetections in H.
  set (recent := getRecentDetections w timestamp) in *.
  destruct (intersect_scan view recent) as [[[ring srcs]|]|e] eqn:Sc; cbn [bind] in H;
    [| |discriminate].
  - injection H as <- <-. left.
    destruct (intersect_scan_match _ _ _ _ Sc) as [pre [alert [post [ac [Hr [Hpre [Hp [Hg [Hn Hs]]]]]]]]].
    exists pre, alert, post, ac, ring. rewrite Hs.
    repeat split; auto.
    rewrite length_app. simpl. lia.
  - injection H as <- <-. right.
    split; [now apply intersect_scan_no_match | auto].
Qed.

Lemma consensus_is_intersection (w : World) (timestamp : Z) (view polygon : option coords)
    (sources : list (option coords)) :
  (forall r, In r (detections w) -> consistent_event L r) ->
  consensus w timestamp view = Ok (polygon, sources) ->
  intersection_of_sources L polygon sources.
Proof.
  intros Hstore H.
  destruct (consensus_cases _ _ _ _ _ H)
    as [(pre & alert & post & ac & ring & Hr & _ & Hp & Hg & _ & -> & -> & _)|(_ & -> & ->)].
  - eapply merged_is_intersection; [|exact Hp|exact Hg].
    apply Hstore. apply (proj1 (recent_In w timestamp alert)).
    rewrite Hr. apply in_or_app. right. now left.
  - apply alone_is_intersection.
Qed.

End Consensus.

(** ** What the dedup and the gate read of the state *)

Lemma Forall2_In_l {A B : Type} (R : A -> B -> Prop) (l : list A) (l' : list B) (x : A) :
  Forall2 R l l' -> In x l -> exists y, In y l' /\ R x y.
Proof.
  induction 1 as [|a b l l' Hab H IH]; simpl; [intros []|].
  intros [<-|Hx].
  - exists b. auto.
  - destruct (IH Hx) as [y [Hy Hr]]. exists y. auto.
Qed.

Lemma Forall2_In_r {A B : Type} (R : A -> B -> Prop) (l : list A) (l' : list B) (y : B) :
  Forall2 R l l' -> In y l' -> exists x, In x l /\ R x y.
Proof.
  induction 1 as [|a b l l' Hab H IH]; simpl; [intros []|].
  intros [<-|Hy].
  - exists a. auto.
  - destruct (IH Hy) as [x [Hx Hr]]. exists x. auto.
Qed.

Lemma Forall2_map_r {A B : Type} (R : A -> B -> Prop) (f : A -> B) (l : list A) :
  (forall a, R a (f a)) -> Forall2 R l (map f l).
Proof.
  intros H. induction l; simpl; constructor; auto.
Qed.

Lemma same_dedup_columns_refl (r : Detection.row) : same_dedup_columns r r.
Proof. unfold same_dedup_columns. tauto. Qed.

Lemma same_dedup_columns_all (rows : list Detection.row) :
  Forall2 same_dedup_columns rows rows.
Proof.
  induction rows; constructor; auto using same_dedup_columns_refl.
Qed.

Lemma set_urls_dedup_columns (r : Detection.row) (cropped annotated map : string)
    (imgIDs : list string) :
  same_dedup_columns r (Detection.set_urls r cropped annotated map imgIDs).
Proof. unfold same_dedup_columns. simpl. tauto. Qed.

(** Rows added at the observation's own timestamp, and changes to columns
    other than camera, timestamp, prototype number, heading and angular
    width, do not change the answer of the confirmed-event dedup. *)
Lemma isDuplicateDetection_frame (E : Env) (w w' : World) (rows : list Detection.row)
    (cameraID : string) (fireHeading rangeAngle timestamp protoNum : Z) :
  Forall2 same_dedup_columns (detections w ++ rows) (detections w') ->
  (forall r, In r rows -> Detection.Timestamp r = timestamp) ->
  isDuplicateDetection E w' cameraID fireHeading rangeAngle timestamp protoNum
  = isDuplicateDetection E w cameraID fireHeading rangeAngle timestamp protoNum.
Proof.
  intros Hrel Hrows. apply eq_true_iff_eq.
  rewrite !isDuplicateDetection_iff. split.
  - intros [entry' [Hin H]].
    destruct (Forall2_In_r _ _ _ _ Hrel Hin) as [entry [Hin0 (Hc & Ht & Hp & Hh & Ha)]].
    rewrite Hc, Ht, Hp, Hh, Ha in H.
    apply in_app_or in Hin0. destruct Hin0 as [Hin0|Hin0].
    + exists entry. auto.
    + specialize (Hrows entry Hin0). lia.
  - intros [entry [Hin H]].
    destruct (Forall2_In_l _ _ _ entry Hrel) as [entry' [Hin' (Hc & Ht & Hp & Hh & Ha)]];
      [apply in_or_app; now left|].
    exists entry'. rewrite Hc, Ht, Hp, Hh, Ha. auto.
Qed.

Lemma publishAlert_frame {S : Shapely} (E : Env) (w w' : World) (rows : list Detection.row)
    (cameraID : string) (fireHeading rangeAngle timestamp : Z) (weatherScore : Q)
    (cameraViewPoly : option coords) (rxBurns : list Burn) (protoNum : Z) :
  Forall2 same_dedup_columns (detections w ++ rows) (detections w') ->
  (forall r, In r rows -> Detection.Timestamp r = timestamp) ->
  publishAlert E w' cameraID fireHeading rangeAngle timestamp weatherScore cameraViewPoly
    rxBurns protoNum
  = publishAlert E w cameraID fireHeading rangeAngle timestamp weatherScore cameraViewPoly
      rxBurns protoNum.
Proof.
  intros Hrel Hrows. unfold publishAlert.
  now rewrite (isDuplicateDetection_frame E w w' rows) by assumption.
Qed.

(** C7 (as amended).  [getPolygonIntersection] returns null exactly when the
    polygons do not intersect or their intersection has area zero; a result
    that is not null is the vertex list of the exterior ring of an
    intersection of non-zero area, never a degenerate polygon; land clipping
    is the primitive applied to the land polygon, and the consensus scan
    passes over a stored event whose intersection with the view polygon is
    null; the confirmed-event dedup reads no polygon at all: its answer
    depends only on camera, timestamp, prototype number, heading and angular
    width of the stored events.  Two unit squares that share one corner have
    a null intersection. *)
Theorem intersection_null_rule :
  (forall (S : Shapely) (coords1 coords2 : option coords),
     (getPolygonIntersection coords1 coords2 = Ok None <->
      intersects (Polygon coords1) (Polygon coords2) = false \/
      (area (intersection (Polygon coords1) (Polygon coords2)) == 0)%Q) /\
     (forall ring, getPolygonIntersection coords1 coords2 = Ok (Some ring) <->
        intersects (Polygon coords1) (Polygon coords2) = true /\
        ~ (area (intersection (Polygon coords1) (Polygon coords2)) == 0)%Q /\
        exterior_xy (intersection (Polygon coords1) (Polygon coords2)) = Some ring)) /\
  (forall (S : Shapely) (triangle : coords),
     intersectLand triangle = getPolygonIntersection (Some triangle) (Some landVertices)) /\
  (forall (S : Shapely) (view : option coords) (alert : Detection.row) (alertCoords : coords)
          (rest : list Detection.row),
     Detection.polygon alert = Some alertCoords ->
     getPolygonIntersection view (Some alertCoords) = Ok None ->
     intersect_scan view (alert :: rest) = intersect_scan view rest) /\
  (forall (E : Env) (w w' : World) cameraID fireHeading rangeAngle timestamp protoNum,
     Forall2 same_dedup_columns (detections w) (detections w') ->
     isDuplicateDetection E w' cameraID fireHeading rangeAngle timestamp protoNum
     = isDuplicateDetection E w cameraID fireHeading rangeAngle timestamp protoNum) /\
  getPolygonIntersection (S := RectShapely)
    (Some (rectangle 0 1 0 1)) (Some (rectangle 1 2 1 2)) = Ok None.
Proof.
  split; [|split; [|split; [|split]]].
  - intros S coords1 coords2. split.
    + apply getPolygonIntersection_null.
    + intros ring. apply getPolygonIntersection_ring.
  - reflexivity.
  - intros S view alert alertCoords rest Hp Hn.
    apply intersect_scan_passes. exists alertCoords. auto.
  - intros E w w' cameraID fireHeading rangeAngle timestamp protoNum Hrel.
    apply (isDuplicateDetection_frame E w w' []).
    + now rewrite app_nil_r.
    + intros r [].
  - vm_compute. reflexivity.
Qed.

(** ** [fireDetected] *)

Lemma enqueue_changes_queue_only (now : Z) (w w' : World) (cameraID : string)
    (cameraHeading timestamp finalTimestamp : Z) (fireSegment : FireSegment) :
  enqueueFireUpdate now w cameraID cameraHeading timestamp finalTimestamp fireSegment = Ok w' ->
  detections w' = detections w /\ alerts w' = alerts w /\ published w' = published w /\
  emailed w' = emailed w /\ texted w' = texted w.
Proof.
  unfold enqueueFireUpdate.
  destruct (negb _); [discriminate|].
  destruct (Z.gtb _ _); intros H; injection H as <-; cbn; tauto.
Qed.

Lemma updateDetectionsDB_columns (w : World) (cameraID : string) (timestamp : Z)
    (croppedUrl annotatedUrl mapUrl : string) (imgIDs : list string) :
  Forall2 same_dedup_columns (detections w)
    (detections (updateDetectionsDB w cameraID timestamp croppedUrl annotatedUrl mapUrl imgIDs)).
Proof.
  cbn. apply Forall2_map_r. intros r.
  destruct (row_key cameraID timestamp r).
  - apply set_urls_dedup_columns.
  - apply same_dedup_columns_refl.
Qed.

Lemma row_key_true (cameraID : string) (timestamp : Z) (r : Detection.row) :
  row_key cameraID timestamp r = true <->
  Detection.CameraName r = cameraID /\ Detection.Timestamp r = timestamp.
Proof.
  unfold row_key. now rewrite andb_true_iff, String.eqb_eq, Z.eqb_eq.
Qed.

(** C8.  An accepted observation (its view is not an ignored one) whose
    alert gate evaluates to false: [fireDetected] returns with the event in
    the [detections] table, one row more, and with no alerts row, pubsub
    message, email or SMS added.  The row is the one dedup and consensus
    queries are to see: it has this camera and timestamp, the sort key, the
    fire heading and the angular width of the observation, the camera's
    prototype number as [isProto] gives it, the image score, the consensus
    polygon and source polygons, the rounded weather score, and the URLs of
    the evidence when a movie was made (empty ones when none was).  The gate
    is [publishAlert] with the arguments [fireDetected] gives it; the row that
    [fireDetected] has inserted by then does not change its answer, which is
    false on the state returned as it is on the state entered.  The call is
    assumed to have its map rendered for the polygon and source polygons it
    computes, and to find no entry for the event in the queue. *)
Theorem rejected_gate_still_persists {S : Shapely} (E : Env) (now_sortId now_enqueue : Z)
    (w : World) (cameraID : string) (cameraHeading timestamp fov : Z) (imgPath : string)
    (fireSegment : FireSegment) (mapFiles : string) (camLatitude camLongitude : Q)
    (fireHeading rangeAngle : Z) :
  getCameraMapLocation E cameraID = (mapFiles, camLatitude, camLongitude) ->
  getHeadingRange E cameraHeading fov (MinX fireSegment) (MaxX fireSegment)
    (imageWidth E imgPath) = (fireHeading, rangeAngle) ->
  findIgnoredViewHeading E cameraID fireHeading rangeAngle = None ->
  alertGate E w cameraID cameraHeading timestamp fov imgPath fireSegment = Ok false ->
  (forall view polygon sourcePolygons,
     intersectLand (getTriangleVertices E camLatitude camLongitude fireHeading rangeAngle)
       = Ok view ->
     consensus w timestamp view = Ok (polygon, sourcePolygons) ->
     exists mapUrl,
       genAnnotatedMaps E mapFiles camLatitude camLongitude polygon sourcePolygons
         (getCurrentBurns E) = Ok mapUrl) ->
  (forall x, In x (fireUpdateQueue w) -> same_event cameraID timestamp x = false) ->
  exists w' row view weatherScore,
    fireDetected E now_sortId now_enqueue w cameraID cameraHeading timestamp fov imgPath
      fireSegment = Ok w' /\
    In row (detections w') /\
    List.length (detections w') = Datatypes.S (List.length (detections w)) /\
    Detection.CameraName row = cameraID /\
    Detection.Timestamp row = timestamp /\
    Detection.SortId row = now_sortId /\
    Detection.FireHeading row = fireHeading /\
    Detection.AngularWidth row = rangeAngle /\
    Detection.IsProto row = int_flag (isProto (isProtoStatics E) cameraID) /\
    Detection.AdjScore row = imgScoreOf fireSegment /\
    intersectLand (getTriangleVertices E camLatitude camLongitude fireHeading rangeAngle)
      = Ok view /\
    consensus w timestamp view = Ok (Detection.polygon row, Detection.sourcePolygons row) /\
    checkWeatherInfo E cameraID timestamp fireSegment (Detection.polygon row)
      (Detection.sourcePolygons row) (camLatitude, camLongitude) = Ok weatherScore /\
    Detection.WeatherScore row = round4 weatherScore /\
    (let '(croppedID, imgIDs, annotatedID, _) :=
       genAnnotatedImages E cameraID cameraHeading timestamp in
     if truthy_str croppedID
     then Detection.CroppedID row = getUrlForFile E croppedID /\
          Detection.ImageID row = getUrlForFile E annotatedID /\
          genAnnotatedMaps E mapFiles camLatitude camLongitude (Detection.polygon row)
            (Detection.sourcePolygons row) (getCurrentBurns E) = Ok (Detection.MapID row) /\
          Detection.ImgSequence row = imgIDs
     else Detection.CroppedID row = EmptyString /\ Detection.ImageID row = EmptyString /\
          Detection.MapID row = EmptyString /\ Detection.ImgSequence row = []) /\
    same_notifications w w' /\
    publishAlert E w' cameraID fireHeading rangeAngle timestamp weatherScore view
      (getCurrentBurns E) (constants_protoNum E) = false.
Proof.
  intros Hloc Hrange Haccept Hgate Hmaps Hfresh.
  unfold alertGate in Hgate. unfold fireDetected.
  rewrite Hloc, Hrange in *. rewrite Haccept.
  destruct (intersectLand
              (getTriangleVertices E camLatitude camLongitude fireHeading rangeAngle))
    as [view|e] eqn:Land; cbn [bind] in *; [|discriminate].
  destruct (consensus w timestamp view) as [[polygon sourcePolygons]|e] eqn:Con;
    cbn [bind] in *; [|discriminate].
  destruct (checkWeatherInfo E cameraID timestamp fireSegment polygon sourcePolygons
              (camLatitude, camLongitude)) as [ws|e] eqn:Hws;
    cbn [bind] in *; [|discriminate].
  injection Hgate as Hgate.
  unfold insertDetectionsDB, detection_row.
  cbn [weatherScoreOf set_weatherScore weatherScore bind].
  destruct (Hmaps view polygon sourcePolygons eq_refl Con) as [mapUrl Hmap].
  rewrite Hmap. cbn [bind].
  set (fs' := set_weatherScore fireSegment _).
  set (row := Detection.Build_row _ _ _ _ _ _ _ _ _ _ _ _ _ _).
  destruct (genAnnotatedImages E cameraID cameraHeading timestamp)
    as [[[croppedID imgIDs] annotatedID] finalTimestamp].
  destruct (truthy_str croppedID) eqn:Hcropped; cbn [negb].
  - set (w2 := updateDetectionsDB _ _ _ _ _ _ _).
    assert (Hq : fireUpdateQueue w2 = fireUpdateQueue w) by reflexivity.
    destruct (enqueueFireUpdate now_enqueue w2 cameraID cameraHeading timestamp
                finalTimestamp fs') as [w3|e] eqn:Enq.
    + cbn [bind].
      destruct (enqueue_changes_queue_only _ _ _ _ _ _ _ _ Enq)
        as (Hd & Ha & Hp & He & Ht).
      assert (Hrel : Forall2 same_dedup_columns (detections w ++ [row]) (detections w3)).
      { rewrite Hd. apply (updateDetectionsDB_columns (set_detections w (detections w ++ [row]))). }
      assert (Hframe : publishAlert E w3 cameraID fireHeading rangeAngle timestamp
                         ws view (getCurrentBurns E) (constants_protoNum E)
                       = false).
      { rewrite (publishAlert_frame E w w3 [row]);
          [exact Hgate | exact Hrel | intros r [<-|[]]; reflexivity]. }
      rewrite Hframe.
      exists w3, (Detection.set_urls row (getUrlForFile E croppedID)
                    (getUrlForFile E annotatedID) mapUrl imgIDs), view, ws.
      split; [reflexivity|].
      split.
      { rewrite Hd. cbn [w2 updateDetectionsDB detections set_detections].
        rewrite map_app. apply in_or_app. right. cbn [map].
        replace (row_key cameraID timestamp row) with true; [now left|].
        symmetry. apply row_key_true. split; reflexivity. }
      split.
      { rewrite Hd. cbn [w2 updateDetectionsDB detections set_detections].
        rewrite length_map, length_app. simpl. lia. }
      repeat (split; [reflexivity|]).
      split; [exact Con|].
      split; [exact Hws|].
      split; [reflexivity|].
      split; [cbn; repeat split; try reflexivity; exact Hmap|].
      split; [unfold same_notifications; rewrite Ha, Hp, He, Ht; cbn; tauto|].
      exact Hframe.
    + exfalso. apply enqueue_raises_iff in Enq.
      destruct Enq as [_ [x [Hin Hkey]]]. rewrite Hq in Hin.
      apply same_event_true in Hkey. rewrite (Hfresh x Hin) in Hkey. discriminate.
  - exists (set_detections w (detections w ++ [row])), row, view, ws.
    split; [reflexivity|].
    split; [cbn; apply in_or_app; right; now left|].
    split; [cbn; rewrite length_app; simpl; lia|].
    repeat (split; [reflexivity|]).
    split; [exact Con|].
    split; [exact Hws|].
    split; [reflexivity|].
    split; [cbn; repeat split; reflexivity|].
    split; [unfold same_notifications; cbn; tauto|].
    rewrite (publishAlert_frame E w (set_detections w (detections w ++ [row])) [row]);
      [exact Hgate | apply same_dedup_columns_all | intros r [<-|[]]; reflexivity].
Qed.

(** A null view polygon under a weather model.  The centroid of the empty
    polygon has no coordinates, [getCentroid] raises [IndexError], and
    [checkWeatherInfo] with it, before [fireDetected] inserts anything.
    Without a weather model the centroid is not asked for. *)
Lemma checkWeatherInfo_without_centroid {S : Shapely} (E : Env) (cameraID : string)
    (timestamp : Z) (fireSegment : FireSegment) (polygon : option coords)
    (sourcePolygons : list (option coords)) (cameraLatLong : Q * Q) :
  (weatherModel E = None ->
   checkWeatherInfo E cameraID timestamp fireSegment polygon sourcePolygons cameraLatLong
   = Ok 1%Q) /\
  (weatherModel E <> None -> centroid_xy (Polygon polygon) = None ->
   checkWeatherInfo E cameraID timestamp fireSegment polygon sourcePolygons cameraLatLong
   = Raise IndexError).
Proof.
  unfold checkWeatherInfo, getCentroid. split.
  - intros ->. reflexivity.
  - intros Hm Hc. destruct (weatherModel E); [|contradiction].
    rewrite Hc. reflexivity.
Qed.

(** ** Every persisted event stays the intersection of its sources *)

Lemma insertAlertsDB_changes_alerts_only (E : Env) (w w' : World) (cameraID : string)
    (timestamp : Z) (croppedUrl annotatedUrl mapUrl : string) (fireSegment : FireSegment)
    (polygon : option coords) (sourcePolygons : list (option coords))
    (sortId fireHeading rangeAngle : Z) :
  insertAlertsDB E w cameraID timestamp croppedUrl annotatedUrl mapUrl fireSegment polygon
    sourcePolygons sortId fireHeading rangeAngle = Ok w' ->
  detections w' = detections w /\ fireUpdateQueue w' = fireUpdateQueue w /\
  published w' = published w /\ emailed w' = emailed w /\ texted w' = texted w.
Proof.
  unfold insertAlertsDB, detection_row.
  destruct (weatherScoreOf fireSegment); cbn [bind]; [|discriminate].
  intros H. injection H as <-. cbn. tauto.
Qed.

Lemma pubsub_changes_published_only (E : Env) (w w' : World) (cameraID : string)
    (timestamp : Z) (croppedUrl annotatedUrl mapUrl : string) (fireSegment : FireSegment)
    (polygon : option coords) (sourcePolygons : list (option coords))
    (sortId fireHeading : Z) :
  pubsubFireNotification E w cameraID timestamp croppedUrl annotatedUrl mapUrl fireSegment
    polygon sourcePolygons sortId fireHeading = Ok w' ->
  detections w' = detections w /\ fireUpdateQueue w' = fireUpdateQueue w /\
  alerts w' = alerts w /\ emailed w' = emailed w /\ texted w' = texted w /\
  exists message, published w' = published w ++ [message].
Proof.
  unfold pubsubFireNotification.
  destruct (weatherScoreOf fireSegment); cbn [bind]; [|discriminate].
  intros H. injection H as <-. cbn. repeat split. now eexists.
Qed.

Lemma email_changes_emailed_only (E : Env) (w w' : World) (cameraID : string)
    (fireSegment : FireSegment) :
  emailFireNotification E w cameraID fireSegment = Ok w' ->
  detections w' = detections w /\ fireUpdateQueue w' = fireUpdateQueue w.
Proof.
  unfold emailFireNotification.
  destruct (Nat.ltb _ _); [destruct (googleServices E); [|discriminate]|];
    intros H; injection H as <-; cbn; tauto.
Qed.

Lemma set_urls_consistent {S : Shapely} (L : ShapelyRegions S) (r : Detection.row)
    (cropped annotated map : string) (imgIDs : list string) :
  consistent_event L (Detection.set_urls r cropped annotated map imgIDs) <->
  consistent_event L r.
Proof. reflexivity. Qed.

Lemma update_CroppedID_consistent {S : Shapely} (L : ShapelyRegions S) (cameraID : string)
    (timestamp : Z) (croppedUrl : string) (rows : list Detection.row) :
  (forall r, In r rows -> consistent_event L r) ->
  forall r, In r (update_CroppedID cameraID timestamp croppedUrl rows) ->
            consistent_event L r.
Proof.
  intros H r Hr. unfold update_CroppedID in Hr. apply in_map_iff in Hr.
  destruct Hr as [r0 [<- Hr0]].
  destruct (row_key cameraID timestamp r0); [|now apply H].
  unfold Detection.set_CroppedID. apply set_urls_consistent. now apply H.
Qed.

Lemma fireDetected_keeps_consistent {S : Shapely} (L : ShapelyRegions S) (E : Env)
    (now_sortId now_enqueue : Z) (w w' : World) (cameraID : string)
    (cameraHeading timestamp fov : Z) (imgPath : string) (fireSegment : FireSegment) :
  (forall r, In r (detections w) -> consistent_event L r) ->
  fireDetected E now_sortId now_enqueue w cameraID cameraHeading timestamp fov imgPath
    fireSegment = Ok w' ->
  forall r, In r (detections w') -> consistent_event L r.
Proof.
  intros Hstore. unfold fireDetected.
  destruct (getCameraMapLocation E cameraID) as [[mapFiles camLatitude] camLongitude].
  destruct (getHeadingRange E cameraHeading fov (MinX fireSegment) (MaxX fireSegment)
              (imageWidth E imgPath)) as [fireHeading rangeAngle].
  destruct (findIgnoredViewHeading E cameraID fireHeading rangeAngle).
  { intros H. injection H as <-. exact Hstore. }
  destruct (intersectLand _) as [view|e]; cbn [bind]; [|discriminate].
  destruct (consensus w timestamp view) as [[polygon sourcePolygons]|e] eqn:Con;
    cbn [bind]; [|discriminate].
  destruct (checkWeatherInfo E _ _ _ _ _ _) as [ws|e]; cbn [bind]; [|discriminate].
  unfold insertDetectionsDB, detection_row.
  cbn [weatherScoreOf set_weatherScore weatherScore bind].
  set (fs' := set_weatherScore fireSegment _).
  set (row := Detection.Build_row _ _ _ _ _ _ _ _ _ _ _ _ _ _).
  assert (Hrow : consistent_event L row)
    by exact (consensus_is_intersection L w timestamp view polygon sourcePolygons Hstore Con).
  assert (H1 : forall r, In r (detections w ++ [row]) -> consistent_event L r).
  { intros r Hr. apply in_app_or in Hr. destruct Hr as [Hr|[<-|[]]]; auto. }
  destruct (genAnnotatedMaps E _ _ _ _ _ _) as [mapUrl|e]; cbn [bind]; [|discriminate].
  destruct (genAnnotatedImages E cameraID cameraHeading timestamp)
    as [[[croppedID imgIDs] annotatedID] finalTimestamp].
  destruct (truthy_str croppedID); cbn [negb].
  - set (w2 := updateDetectionsDB _ _ _ _ _ _ _).
    assert (H2 : forall r, In r (detections w2) -> consistent_event L r).
    { intros r Hr. cbn in Hr. apply in_map_iff in Hr. destruct Hr as [r0 [<- Hr0]].
      destruct (row_key cameraID timestamp r0); [|now apply H1].
      apply set_urls_consistent. now apply H1. }
    destruct (enqueueFireUpdate now_enqueue w2 _ _ _ _ _) as [w3|e] eqn:Enq;
      cbn [bind]; [|discriminate].
    destruct (enqueue_changes_queue_only _ _ _ _ _ _ _ _ Enq) as (Hd3 & _).
    destruct (publishAlert E w3 _ _ _ _ _ _ _ _).
    + destruct (insertAlertsDB E w3 _ _ _ _ _ _ _ _ _ _ _) as [w4|e] eqn:Ins;
        cbn [bind]; [|discriminate].
      destruct (insertAlertsDB_changes_alerts_only _ _ _ _ _ _ _ _ _ _ _ _ _ _ Ins)
        as (Hd4 & _).
      destruct (pubsubFireNotification E w4 _ _ _ _ _ _ _ _ _ _) as [w5|e] eqn:Pub;
        cbn [bind]; [|discriminate].
      destruct (pubsub_changes_published_only _ _ _ _ _ _ _ _ _ _ _ _ _ Pub) as (Hd5 & _).
      destruct (emailFireNotification E w5 cameraID fs') as [w6|e] eqn:Em;
        cbn [bind]; [|discriminate].
      destruct (email_changes_emailed_only _ _ _ _ _ Em) as (Hd6 & _).
      intros H. injection H as <-. cbn [detections smsFireNotification set_texted].
      rewrite Hd6, Hd5, Hd4, Hd3. exact H2.
    + intros H. injection H as <-. rewrite Hd3. exact H2.
  - intros H. injection H as <-. exact H1.
Qed.

(** ** Processing a deferred update *)

Lemma enqueue_past_horizon (now : Z) (w w' : World) (cameraID : string)
    (cameraHeading timestamp finalTimestamp : Z) (fireSegment : FireSegment) :
  timestamp + POST_DETECTION_UPDATE_MINS * 60 < now ->
  enqueueFireUpdate now w cameraID cameraHeading timestamp finalTimestamp fireSegment = Ok w' ->
  w' = w.
Proof.
  intros Hlate. unfold enqueueFireUpdate.
  destruct (negb _); [discriminate|].
  destruct (now >? timestamp + POST_DETECTION_UPDATE_MINS * 60) eqn:G.
  - intros H. now injection H.
  - zbool. lia.
Qed.

Lemma updateDBMovie_changes (w : World) (tableName : TableName) (cameraID : string)
    (timestamp : Z) (croppedUrl : string) :
  let w' := updateDBMovie w tableName cameraID timestamp croppedUrl in
  fireUpdateQueue w' = fireUpdateQueue w /\ published w' = published w /\
  emailed w' = emailed w /\ texted w' = texted w /\
  List.length (alerts w') = List.length (alerts w) /\
  Forall2 same_dedup_columns (detections w) (detections w').
Proof.
  destruct tableName; cbn; repeat split;
    try (unfold update_CroppedID; now rewrite length_map).
  - unfold update_CroppedID. apply Forall2_map_r. intros r.
    destruct (row_key cameraID timestamp r).
    + apply set_urls_dedup_columns.
    + apply same_dedup_columns_refl.
  - apply same_dedup_columns_all.
Qed.

Lemma firstn_3_more_than_2 {A : Type} (l : list A) :
  Nat.ltb 2 (List.length (firstn 3 l)) = Nat.ltb 2 (List.length l).
Proof.
  destruct l as [|a [|b [|c l]]]; try reflexivity.
Qed.

Lemma post_filter (timestamp : Z) (l : list Z) :
  filter (fun t => negb (t <? timestamp) && negb (t =? timestamp)) l
  = filter (fun t => timestamp <? t) l.
Proof.
  apply filter_ext. intros t.
  destruct (t <? timestamp) eqn:A, (t =? timestamp) eqn:B, (timestamp <? t) eqn:C;
    try reflexivity; zbool; lia.
Qed.

Lemma updateMovie_eq (E : Env) (cameraID : string) (cameraHeading timestamp : Z) :
  updateMovie E cameraID cameraHeading timestamp =
  match getArchiveImages E cameraID cameraHeading timestamp timestamp with
  | [] => None
  | _ :: _ =>
      let finalTimestamp :=
        last (getArchiveImages E cameraID cameraHeading
                (timestamp - 4*60) (timestamp + POST_DETECTION_UPDATE_MINS*60)) timestamp in
      Some (copyMovie E cameraID timestamp finalTimestamp, finalTimestamp,
            Nat.ltb 2 (List.length (postDetectionFrames E cameraID cameraHeading timestamp)))
  end.
Proof.
  unfold updateMovie, genMovie, postDetectionFrames.
  destruct (getArchiveImages E cameraID cameraHeading timestamp timestamp); [reflexivity|].
  cbn [andb]. now rewrite firstn_3_more_than_2, post_filter.
Qed.

Lemma updateMovie_final (E : Env) (cameraID : string) (cameraHeading timestamp : Z)
    (movieID : option string) (finalTimestamp : Z) (isFinalMovie : bool) :
  updateMovie E cameraID cameraHeading timestamp = Some (movieID, finalTimestamp, isFinalMovie) ->
  (isFinalMovie = true <->
   (2 < List.length (postDetectionFrames E cameraID cameraHeading timestamp))%nat) /\
  finalTimestamp =
    last (getArchiveImages E cameraID cameraHeading
            (timestamp - 4*60) (timestamp + POST_DETECTION_UPDATE_MINS*60)) timestamp.
Proof.
  rewrite updateMovie_eq.
  destruct (getArchiveImages E cameraID cameraHeading timestamp timestamp); [discriminate|].
  cbv zeta. intros H.
  assert (Hf : last (getArchiveImages E cameraID cameraHeading
                       (timestamp - 4*60) (timestamp + POST_DETECTION_UPDATE_MINS*60))
                 timestamp = finalTimestamp) by congruence.
  assert (Hb : Nat.ltb 2 (List.length (postDetectionFrames E cameraID cameraHeading timestamp))
               = isFinalMovie) by congruence.
  split; [|now symmetry].
  rewrite <- Hb. apply Nat.ltb_lt.
Qed.

Lemma truthy_int_true (n : Z) : n <> 0 -> truthy_int n = true.
Proof.
  intros H. unfold truthy_int. apply negb_true_iff. now apply Z.eqb_neq.
Qed.

(** C6 (as amended).  A regenerated evidence update is final exactly when
    more than two archived frames were taken after the detection instant.
    In a round that pops an entry, finds its event stored, sees new frames
    and regenerates the evidence: the entry leaves the queue when the update
    is final; otherwise it is requeued with the advanced final timestamp,
    unless the requeue comes later than [POST_DETECTION_UPDATE_MINS] minutes
    after the detection, which drops it.  Whether the update is final or not,
    the round publishes one pubsub message when the alert gate, evaluated on
    the stored event, passes, and none when it does not; it sends no email
    and no SMS and adds no alerts row. *)
Theorem deferred_update_round {S : Shapely} (E : Env) (now_pop now_enqueue : Z) (w : World)
    (e : FireUpdate.t) (rest : list FireUpdate.t) (detectData : DetectData.t)
    (movieID : option string) (finalTimestamp : Z) (isFinalMovie : bool)
    (cameraViewPoly : coords) (ws : Q) :
  let cameraID := FireUpdate.cameraID e in
  let cameraHeading := FireUpdate.cameraHeading e in
  let timestamp := FireUpdate.timestamp e in
  let gate :=
    publishAlert E w cameraID (DetectData.fireHeading detectData)
      (DetectData.angularWidth detectData) timestamp (DetectData.weatherScore detectData)
      (Some cameraViewPoly) (getCurrentBurns E) (constants_protoNum E) in
  fireUpdateQueue w = e :: rest ->
  FireUpdate.finalTimestamp e + 60 < now_pop ->
  queryDetections w cameraID timestamp = Ok (Some detectData) ->
  checkNewImage E cameraID cameraHeading timestamp (FireUpdate.finalTimestamp e) = true ->
  updateMovie E cameraID cameraHeading timestamp
    = Some (movieID, finalTimestamp, isFinalMovie) ->
  truthy_str movieID = true ->
  finalTimestamp <> 0 ->
  last_opt (DetectData.sourcePolygons detectData) = Some cameraViewPoly ->
  weatherScore (FireUpdate.fireSegment e) = Some ws ->
  (forall x, In x rest -> same_event cameraID timestamp x = false) ->
  (isFinalMovie = true <->
   (2 < List.length (postDetectionFrames E cameraID cameraHeading timestamp))%nat) /\
  exists w',
    processEnqueuedUpdates E now_pop now_enqueue w = Ok w' /\
    fireUpdateQueue w' =
      (if isFinalMovie then rest
       else if now_enqueue >? timestamp + POST_DETECTION_UPDATE_MINS * 60 then rest
       else sorted_by FireUpdate.finalTimestamp (rest ++ [advanced e finalTimestamp])) /\
    (if gate
     then exists message,
            published w' = published w ++ [message] /\
            Message.cameraID message = cameraID /\ Message.timestamp message = timestamp
     else published w' = published w) /\
    emailed w' = emailed w /\ texted w' = texted w /\
    List.length (alerts w') = List.length (alerts w).
Proof.
  intros cameraID cameraHeading timestamp gate
    Hq Hdue Hquery Hnew Hmovie Hid Hfts Hlast Hws Hfresh.
  split; [exact (proj1 (updateMovie_final _ _ _ _ _ _ _ Hmovie))|].
  unfold processEnqueuedUpdates, constants_fireUpdateQueue.
  rewrite Hq, pop_due by exact Hdue.
  change (queryDetections (set_fireUpdateQueue w rest) (FireUpdate.cameraID e)
            (FireUpdate.timestamp e))
    with (queryDetections w cameraID timestamp).
  rewrite Hquery. cbn [bind].
  fold cameraID cameraHeading timestamp.
  rewrite Hnew, Hmovie, Hid, (truthy_int_true _ Hfts), Hlast. cbn [andb].
  set (movieUrls := (_ ++ _)%string).
  set (w1 := updateDBMovie (set_fireUpdateQueue w rest) detections_table cameraID timestamp
               movieUrls).
  destruct (updateDBMovie_changes (set_fireUpdateQueue w rest) detections_table cameraID
              timestamp movieUrls) as (Hq1 & Hp1 & He1 & Ht1 & Ha1 & Hd1).
  fold w1 in Hq1, Hp1, He1, Ht1, Ha1, Hd1.
  rewrite (publishAlert_frame E w w1 []);
    [| rewrite app_nil_r; exact Hd1 | intros r []].
  fold gate.
  assert (Henq : forall w2, fireUpdateQueue w2 = rest ->
            exists w',
              (if negb isFinalMovie
               then enqueueFireUpdate now_enqueue w2 cameraID cameraHeading timestamp
                      finalTimestamp (FireUpdate.fireSegment e)
               else Ok w2) = Ok w' /\
              fireUpdateQueue w' =
                (if isFinalMovie then rest
                 else if now_enqueue >? timestamp + POST_DETECTION_UPDATE_MINS * 60 then rest
                 else sorted_by FireUpdate.finalTimestamp (rest ++ [advanced e finalTimestamp])) /\
              published w' = published w2 /\ emailed w' = emailed w2 /\
              texted w' = texted w2 /\ alerts w' = alerts w2).
  { intros w2 Hq2. destruct isFinalMovie; cbn [negb].
    - exists w2. repeat split; auto.
    - rewrite enqueue_ok by (rewrite Hq2; exact Hfresh).
      destruct (now_enqueue >? timestamp + POST_DETECTION_UPDATE_MINS * 60).
      + exists w2. repeat split; auto.
      + eexists. split; [reflexivity|]. rewrite Hq2. cbn. repeat split; auto. }
  destruct gate.
  - unfold pubsubFireNotification, weatherScoreOf. rewrite Hws. cbn [bind].
    set (w2 := set_published _ _).
    destruct (Henq w2) as [w' (Hrun & Hqueue & Hp & He & Ht & Ha)]; [exact Hq1|].
    exists w'. split; [exact Hrun|]. split; [exact Hqueue|].
    split.
    + eexists. rewrite Hp. cbn [w2 published set_published updateDBMovie set_alerts].
      rewrite Hp1. cbn [published set_fireUpdateQueue].
      split; [reflexivity|]. split; reflexivity.
    + rewrite He, Ht, Ha. cbn [w2 emailed texted alerts set_published updateDBMovie set_alerts].
      rewrite He1, Ht1. unfold update_CroppedID. rewrite length_map, Ha1. cbn. auto.
  - cbn [bind].
    destruct (Henq w1) as [w' (Hrun & Hqueue & Hp & He & Ht & Ha)]; [exact Hq1|].
    exists w'. split; [exact Hrun|]. split; [exact Hqueue|].
    rewrite Hp, He, Ht, Ha, Hp1, He1, Ht1, Ha1. cbn. auto.
Qed.

(** C3 (as amended).  The horizon of [POST_DETECTION_UPDATE_MINS] minutes is
    enforced where an entry is (re)queued: an enqueue made later than
    [timestamp + 7*60] leaves the queue as it is, whatever the final
    timestamp.  So an entry popped later than that is never requeued: when
    the round returns, the queue is what was behind the popped entry. *)
Theorem past_horizon_never_requeued :
  (forall (now : Z) (w : World) (cameraID : string)
          (cameraHeading timestamp finalTimestamp : Z) (fireSegment : FireSegment),
     timestamp + POST_DETECTION_UPDATE_MINS * 60 < now ->
     (forall x, In x (fireUpdateQueue w) -> same_event cameraID timestamp x = false) ->
     enqueueFireUpdate now w cameraID cameraHeading timestamp finalTimestamp fireSegment
     = Ok w) /\
  (forall (S : Shapely) (E : Env) (now_pop now_enqueue : Z) (w : World)
          (e : FireUpdate.t) (rest : list FireUpdate.t),
     fireUpdateQueue w = e :: rest ->
     FireUpdate.finalTimestamp e + 60 < now_pop ->
     FireUpdate.timestamp e + POST_DETECTION_UPDATE_MINS * 60 < now_pop ->
     now_pop <= now_enqueue ->
     match processEnqueuedUpdates E now_pop now_enqueue w with
     | Ok w' => fireUpdateQueue w' = rest
     | Raise _ => True
     end).
Proof.
  split.
  - intros now w cameraID cameraHeading timestamp finalTimestamp fireSegment Hlate Hfresh.
    rewrite enqueue_ok by exact Hfresh.
    destruct (now >? timestamp + POST_DETECTION_UPDATE_MINS * 60) eqn:G; [reflexivity|].
    zbool. lia.
  - intros S E now_pop now_enqueue w e rest Hq Hdue Hpast Hle.
    assert (Hlate : FireUpdate.timestamp e + POST_DETECTION_UPDATE_MINS * 60 < now_enqueue)
      by lia.
    assert (Henq : forall w2 finalTimestamp,
              fireUpdateQueue w2 = rest ->
              match enqueueFireUpdate now_enqueue w2 (FireUpdate.cameraID e)
                      (FireUpdate.cameraHeading e) (FireUpdate.timestamp e) finalTimestamp
                      (FireUpdate.fireSegment e) with
              | Ok w' => fireUpdateQueue w' = rest
              | Raise _ => True
              end).
    { intros w2 finalTimestamp Hq2.
      destruct (enqueueFireUpdate now_enqueue w2 _ _ _ _ _) as [w'|] eqn:Enq; [|exact I].
      now rewrite (enqueue_past_horizon _ _ _ _ _ _ _ _ Hlate Enq). }
    unfold processEnqueuedUpdates, constants_fireUpdateQueue.
    rewrite Hq, pop_due by exact Hdue.
    destruct (queryDetections _ _ _) as [[detectData|]|]; cbn [bind];
      [| now apply Henq | exact I].
    destruct (checkNewImage E _ _ _ _); [|now apply Henq].
    destruct (updateMovie E _ _ _) as [[[movieID finalTimestamp] isFinalMovie]|]; [|exact I].
    destruct (truthy_str movieID && truthy_int finalTimestamp); [|reflexivity].
    destruct (last_opt _); [|exact I].
    destruct (publishAlert E _ _ _ _ _ _ _ _ _).
    + unfold pubsubFireNotification.
      destruct (weatherScoreOf _); cbn [bind]; [|exact I].
      destruct isFinalMovie; cbn [negb]; [reflexivity|].
      apply Henq. reflexivity.
    + cbn [bind]. destruct isFinalMovie; cbn [negb]; [reflexivity|].
      apply Henq. reflexivity.
Qed.

Lemma process_keeps_consistent {S : Shapely} (L : ShapelyRegions S) (E : Env)
    (now_pop now_enqueue : Z) (w w' : World) :
  (forall r, In r (detections w) -> consistent_event L r) ->
  processEnqueuedUpdates E now_pop now_enqueue w = Ok w' ->
  forall r, In r (detections w') -> consistent_event L r.
Proof.
  intros Hstore.
  assert (Henq : forall w2 cameraID cameraHeading timestamp finalTimestamp fireSegment,
            (forall r, In r (detections w2) -> consistent_event L r) ->
            enqueueFireUpdate now_enqueue w2 cameraID cameraHeading timestamp finalTimestamp
              fireSegment = Ok w' ->
            forall r, In r (detections w') -> consistent_event L r).
  { intros w2 ? ? ? ? ? H2 Enq.
    destruct (enqueue_changes_queue_only _ _ _ _ _ _ _ _ Enq) as (-> & _). exact H2. }
  unfold processEnqueuedUpdates, constants_fireUpdateQueue.
  destruct (popFireUpdate now_pop (fireUpdateQueue w)) as [[fireEvent|] queue].
  2:{ intros H. injection H as <-. exact Hstore. }
  destruct (queryDetections _ _ _) as [[detectData|]|]; cbn [bind];
    [| now apply Henq | discriminate].
  destruct (checkNewImage E _ _ _ _); [|now apply Henq].
  destruct (updateMovie E _ _ _) as [[[movieID finalTimestamp] isFinalMovie]|];
    [|discriminate].
  destruct (truthy_str movieID && truthy_int finalTimestamp).
  2:{ intros H. injection H as <-. exact Hstore. }
  destruct (last_opt _); [|discriminate].
  set (w1 := updateDBMovie _ detections_table _ _ _).
  assert (H1 : forall r, In r (detections w1) -> consistent_event L r).
  { cbn. now apply update_CroppedID_consistent. }
  destruct (publishAlert E _ _ _ _ _ _ _ _ _).
  - unfold pubsubFireNotification.
    destruct (weatherScoreOf _); cbn [bind]; [|discriminate].
    destruct isFinalMovie; cbn [negb].
    + intros H. injection H as <-. exact H1.
    + apply Henq. exact H1.
  - cbn [bind]. destruct isFinalMovie; cbn [negb].
    + intros H. injection H as <-. exact H1.
    + apply Henq. exact H1.
Qed.

Lemma mainDetection_keeps_consistent {S : Shapely} (L : ShapelyRegions S) (E : Env)
    (now_sortId now_enqueue : Z) (w w' : World) (cameraID : string)
    (heading timestamp fov : Z) (imgPath : string) (fireSegment : option FireSegment)
    (modelId : string) (stateless useArchivedImages : bool) :
  (forall r, In r (detections w) -> consistent_event L r) ->
  mainDetection E now_sortId now_enqueue w cameraID heading timestamp fov imgPath fireSegment
    modelId stateless useArchivedImages = Ok w' ->
  forall r, In r (detections w') -> consistent_event L r.
Proof.
  intros Hstore. unfold mainDetection.
  destruct fireSegment as [fs|]; [|intros H; injection H as <-; exact Hstore].
  destruct useArchivedImages; cbn [negb]; [intros H; injection H as <-; exact Hstore|].
  set (w1 := recordProbables _ _ _ _ _ _ _ _ _ _).
  assert (H1 : detections w1 = detections w)
    by (unfold w1, recordProbables; now destruct stateless).
  destruct (negb _).
  - apply fireDetected_keeps_consistent. now rewrite H1.
  - intros H. injection H as <-. now rewrite H1.
Qed.

(** C1.  The recent detections are handed to the consensus scan in
    descending [sortId] order and are the stored rows of the last fifteen
    minutes.  When [consensus] returns, either the scan stopped at the first
    stored event whose polygon has an intersection of non-zero area with the
    view polygon (every event before it was passed over), the new polygon is
    that intersection and the source list is the match's with the view
    polygon appended, one longer than the match's; or every recent event was
    passed over and the new event has its own view polygon and a one-element
    source list.  If every stored event's polygon covers exactly the points
    common to its source polygons, so does the new event's; hence this holds
    of every event in the [detections] table of every state the deployment
    reaches.  [consensus] returns whenever the stored polygons are parsed
    ones and no intersection is a multi-part geometry. *)
Theorem consensus_merging {S : Shapely} (L : ShapelyRegions S) :
  (forall w timestamp,
     descending_sortId (getRecentDetections w timestamp) /\
     forall r, In r (getRecentDetections w timestamp) <->
               In r (detections w) /\ timestamp - 900 < Detection.Timestamp r) /\
  (forall w timestamp view polygon sourcePolygons,
     consensus w timestamp view = Ok (polygon, sourcePolygons) ->
     (exists pre alert post alertCoords ring,
        getRecentDetections w timestamp = pre ++ alert :: post /\
        Forall (passed_over view) pre /\
        Detection.polygon alert = Some alertCoords /\
        getPolygonIntersection view (Some alertCoords) = Ok (Some ring) /\
        ring <> [] /\
        polygon = Some ring /\
        sourcePolygons = Detection.sourcePolygons alert ++ [view] /\
        List.length sourcePolygons
        = Datatypes.S (List.length (Detection.sourcePolygons alert)))
     \/ (Forall (passed_over view) (getRecentDetections w timestamp) /\
         polygon = view /\ sourcePolygons = [view])) /\
  (forall w timestamp view polygon sourcePolygons,
     (forall r, In r (detections w) -> consistent_event L r) ->
     consensus w timestamp view = Ok (polygon, sourcePolygons) ->
     intersection_of_sources L polygon sourcePolygons) /\
  (forall w timestamp view,
     (forall r, In r (detections w) ->
        exists c cs, Detection.polygon r = Some c /\ Detection.sourcePolygons r = map Some cs) ->
     (forall c, getPolygonIntersection view (Some c) <> Raise AttributeError) ->
     exists polygon sourcePolygons,
       consensus w timestamp view = Ok (polygon, sourcePolygons)) /\
  (forall w, reachable w -> forall r, In r (detections w) -> consistent_event L r).
Proof.
  split; [|split; [|split; [|split]]].
  - intros w timestamp. split; [apply descending_recent | apply recent_In].
  - intros w timestamp view polygon sourcePolygons H.
    exact (consensus_cases w timestamp view polygon sourcePolygons H).
  - intros w timestamp view polygon sourcePolygons.
    apply consensus_is_intersection.
  - intros w timestamp view Hrows Hgeo.
    unfold consensus, intersectRecentDetections.
    destruct (intersect_scan_returns view (getRecentDetections w timestamp)) as [info ->].
    + intros r Hr. apply Hrows. now apply (proj1 (recent_In w timestamp r)).
    + exact Hgeo.
    + cbn [bind]. destruct info as [[ring srcs]|]; eexists; eexists; reflexivity.
  - intros w Hreach. induction Hreach as [w Hempty _ | w _ IH | E np ne w w' _ IH Hrun
      | E ns ne w w' cameraID heading timestamp fov imgPath fireSegment modelId stateless
          archived _ IH Hrun].
    + rewrite Hempty. intros r [].
    + exact IH.
    + exact (process_keeps_consistent L E np ne w w' IH Hrun).
    + exact (mainDetection_keeps_consistent L E ns ne w w' cameraID heading timestamp fov
               imgPath fireSegment modelId stateless archived IH Hrun).
Qed.

(** ** The theorems on the small deployment *)

(** Three entries with final timestamps 50, 10 and 30, enqueued at time 60 on
    an empty queue, are polled at times 71, 91 and 111 in the order 10, 30,
    50. *)
Lemma queue_order_50_10_30 :
  exists w3,
    (w1 <- enqueue_entry 60 emptyWorld (demoUpdate "camA" 50 50) ;;
     w2 <- enqueue_entry 60 w1 (demoUpdate "camB" 10 10) ;;
     enqueue_entry 60 w2 (demoUpdate "camC" 30 30)) = Ok w3 /\
    fireUpdateQueue w3
    = [demoUpdate "camB" 10 10; demoUpdate "camC" 30 30; demoUpdate "camA" 50 50] /\
    poll_at [71; 91; 111] (fireUpdateQueue w3)
    = [Some (demoUpdate "camB" 10 10); Some (demoUpdate "camC" 30 30);
       Some (demoUpdate "camA" 50 50)].
Proof.
  destruct queue_sorted_and_polled_at_head as (_ & _ & _ & _ & _ & _ & _ & Hex).
  destruct (Hex 60 60 60 emptyWorld (demoUpdate "camA" 50 50) (demoUpdate "camB" 10 10)
              (demoUpdate "camC" 30 30))
    as [w3 (Hrun & Hq & Hpoll)];
    try reflexivity; try (vm_compute; discriminate).
  exists w3. split; [exact Hrun|]. split; [exact Hq|].
  apply Hpoll; lia.
Defined.

(** Enqueueing camera A's event of time 1000 a second time fails the
    assertion. *)
Lemma enqueue_twice_asserts :
  enqueueFireUpdate 1001 pendingWorld "camA" 90 1000 1000 demoSegment = Raise AssertionError.
Proof.
  apply (proj1 (enqueue_duplicate_asserts 1001 pendingWorld "camA" 90 1000 1000 demoSegment)).
  exists (demoUpdate "camA" 1000 1000). split; [now left | split; reflexivity].
Defined.

(** The gate passes for a production camera with score 1 above the threshold,
    no repeat and no burn. *)
Lemma gate_passes_for_production_camera :
  publishAlert (S := RectShapely) (demoEnv [] 0) emptyWorld "camA" 90 20 1000 1
    (Some (rectangle 0 2 0 2)) [] 0 = true.
Proof.
  apply (proj1 (publishAlert_iff_all_four (S := RectShapely) (demoEnv [] 0) emptyWorld "camA"
                  90 20 1000 1 (Some (rectangle 0 2 0 2)) [] 0)).
  split; [reflexivity|].
  split; [vm_compute; discriminate|].
  split; [reflexivity|].
  intros burn [].
Defined.

(** A production observation of camera B, in the sector of heading 25 and
    width 20 at time 1000, repeats the event that camera A, at the same
    location, recorded under the production model at time 900 in the sector
    of heading 10 and width 20. *)
Lemma dedup_suppresses_overlapping_sector :
  isDuplicateDetection (demoEnv [] 0) dedupWorld "camB" 25 20 1000 0 = true.
Proof.
  apply (proj1 (confirmed_dedup_compatibility (demoEnv [] 0) dedupWorld "camB" 25 20 1000 0)).
  exists (demoEvent "camA" 900 901 10 20 (rectangle 0 1 0 1) [rectangle 0 1 0 1]).
  split.
  - split; [now left|]. split; [reflexivity|]. split; [reflexivity|].
    exists 1, {| Source.name := "camA"; Source.locationid := 1;
                 Source.type := Some "hpwren"%string |}.
    split; [reflexivity|]. split; [now left|]. split; reflexivity.
  - split; [|reflexivity]. split; [intros _; vm_compute; discriminate | intros H; discriminate H].
Defined.

(** Camera B's view of the square [1,3] x [1,3] merges with camera A's stored
    event on [0,2] x [0,2]: the new polygon is the ring of [1,2] x [1,2], the
    sources are both squares, and the polygon covers exactly the points both
    cover. *)
Lemma merge_of_two_squares :
  let stored :=
    set_detections emptyWorld
      [demoEvent "camA" 1000 1001 90 20 (rectangle 0 2 0 2) [rectangle 0 2 0 2]] in
  let polygon := Some [(1, 1); (2, 1); (2, 2); (1, 2); (1, 1)]%Q in
  let sourcePolygons := [Some (rectangle 0 2 0 2); Some (rectangle 1 3 1 3)] in
  consensus (S := RectShapely) stored 1100 (Some (rectangle 1 3 1 3))
  = Ok (polygon, sourcePolygons) /\
  intersection_of_sources RectRegions polygon sourcePolygons.
Proof.
  intros stored polygon sourcePolygons.
  assert (Hrun : consensus (S := RectShapely) stored 1100 (Some (rectangle 1 3 1 3))
                 = Ok (polygon, sourcePolygons)) by (vm_compute; reflexivity).
  split; [exact Hrun|].
  apply (proj1 (proj2 (proj2 (consensus_merging RectRegions)))
           stored 1100 (Some (rectangle 1 3 1 3)) polygon sourcePolygons);
    [|exact Hrun].
  intros r [<-|[]]. apply (alone_is_intersection RectRegions).
Defined.

(** An observation of camera A under prototype model 2: the gate is false,
    the event is persisted, nothing is sent. *)
Lemma prototype_observation_persisted_not_sent :
  exists w' row,
    fireDetected (S := RectShapely) (demoEnv [940; 1000] 2) 1001 1001 emptyWorld "camA" 90
      1000 20 "img.jpg" demoSegment = Ok w' /\
    detections w' = [row] /\
    Detection.CameraName row = "camA"%string /\
    Detection.Timestamp row = 1000 /\
    Detection.IsProto row = 2 /\
    same_notifications emptyWorld w'.
Proof.
  destruct (rejected_gate_still_persists (S := RectShapely) (demoEnv [940; 1000] 2) 1001 1001
              emptyWorld "camA" 90 1000 20 "img.jpg" demoSegment "map640z9.jpg" 34 (-118)
              90 20)
    as (w' & row & view & weatherScore & Hrun & Hin & Hlen & Hcam & Htime & _ & _ & _ & Hproto
        & _ & _ & _ & _ & _ & _ & Hsame & _).
  - reflexivity.
  - reflexivity.
  - reflexivity.
  - vm_compute. reflexivity.
  - intros view polygon sourcePolygons _ _. eexists. reflexivity.
  - intros x [].
  - exists w', row. split; [exact Hrun|]. split; [|auto].
    destruct (detections w') as [|r0 [|r1 rest]]; [destruct Hin| |discriminate Hlen].
    destruct Hin as [->|[]]. reflexivity.
Defined.

(** One frame after the detection: the update of camera A's event at time
    1100 is not final, is requeued with final timestamp 1060, and publishes
    one message. *)
Lemma update_with_one_new_frame :
  exists w',
    processEnqueuedUpdates (S := RectShapely) (demoEnv [1000; 1060] 0) 1100 1100 pendingWorld
    = Ok w' /\
    fireUpdateQueue w' = [demoUpdate "camA" 1000 1060] /\
    exists message, published w' = [message].
Proof.
  destruct (deferred_update_round (S := RectShapely) (demoEnv [1000; 1060] 0) 1100 1100
              pendingWorld (demoUpdate "camA" 1000 1000) [] pendingDetectData
              (Some "movie"%string) 1060 false (rectangle 0 2 0 2) 1)
    as [_ [w' (Hrun & Hq & Hpub & _)]];
    try reflexivity; try lia; try (intros x []).
  exists w'. split; [exact Hrun|]. split; [exact Hq|].
  destruct Hpub as [message [Hm _]]. exists message. exact Hm.
Defined.

(** C6, counterexample.  With one, then two frames after the detection, two
    successive updates of camera A's event are both not final (the entry is
    requeued each time), and each publishes a message: a notification is
    emitted on a non-terminal update, and twice for one event. *)
Lemma nonterminal_updates_notify :
  updateMovie (demoEnv [1000; 1060] 0) "camA" 90 1000
  = Some (Some "movie"%string, 1060, false) /\
  updateMovie (demoEnv [1000; 1060; 1120] 0) "camA" 90 1000
  = Some (Some "movie"%string, 1120, false) /\
  exists w1 w2,
    processEnqueuedUpdates (S := RectShapely) (demoEnv [1000; 1060] 0) 1100 1100 pendingWorld
    = Ok w1 /\
    List.length (published w1) = 1%nat /\
    fireUpdateQueue w1 = [demoUpdate "camA" 1000 1060] /\
    processEnqueuedUpdates (S := RectShapely) (demoEnv [1000; 1060; 1120] 0) 1190 1190 w1
    = Ok w2 /\
    List.length (published w2) = 2%nat /\
    fireUpdateQueue w2 = [demoUpdate "camA" 1000 1120].
Proof.
  split; [vm_compute; reflexivity|].
  split; [vm_compute; reflexivity|].
  eexists. eexists.
  split; [vm_compute; reflexivity|].
  split; [reflexivity|].
  split; [reflexivity|].
  split; [vm_compute; reflexivity|].
  split; reflexivity.
Qed.

(** Camera A's entry of detection time 1000 and final timestamp 1380 is due
    at time 1441, past the horizon 1420: it is not requeued. *)
Lemma late_entry_not_requeued :
  match processEnqueuedUpdates (S := RectShapely) (demoEnv [1000; 1380; 1415] 0) 1441 1441
          lateWorld with
  | Ok w' => fireUpdateQueue w' = []
  | Raise _ => True
  end.
Proof.
  apply (proj2 past_horizon_never_requeued RectShapely (demoEnv [1000; 1380; 1415] 0) 1441 1441
           lateWorld (demoUpdate "camA" 1000 1380) []).
  - reflexivity.
  - reflexivity.
  - reflexivity.
  - lia.
Defined.

(** C3, counterexample.  Camera A's entry of detection time 1000 and final
    timestamp 1380 is popped at time 1441, later than 1000 + 7*60.  The
    archive is asked for frames newer than the final timestamp and has one
    (time 1415): the evidence is regenerated and a message is published.
    With an archive that has no such frame, the same round publishes
    nothing: the new-frame check decides. *)
Lemma past_horizon_still_checks_and_notifies :
  1000 + POST_DETECTION_UPDATE_MINS * 60 < 1441 /\
  popFireUpdate 1441 (fireUpdateQueue lateWorld) = (Some (demoUpdate "camA" 1000 1380), []) /\
  checkNewImage (demoEnv [1000; 1380; 1415] 0) "camA" 90 1000 1380 = true /\
  checkNewImage (demoEnv [1000; 1380] 0) "camA" 90 1000 1380 = false /\
  published lateWorld = [] /\
  (exists w',
     processEnqueuedUpdates (S := RectShapely) (demoEnv [1000; 1380; 1415] 0) 1441 1441
       lateWorld = Ok w' /\
     List.length (published w') = 1%nat /\
     exists row, detections w' = [row] /\
                 Detection.CroppedID row = "movie,movie"%string) /\
  (exists w',
     processEnqueuedUpdates (S := RectShapely) (demoEnv [1000; 1380] 0) 1441 1441
       lateWorld = Ok w' /\
     published w' = [] /\ detections w' = detections lateWorld).
Proof.
  split; [reflexivity|].
  split; [reflexivity|].
  split; [reflexivity|].
  split; [reflexivity|].
  split; [reflexivity|].
  split.
  - eexists. split; [vm_compute; reflexivity|].
    split; [reflexivity|].
    eexists. split; reflexivity.
  - eexists. split; [vm_compute; reflexivity|].
    split; reflexivity.
Qed.

(** C7, counterexample.  Camera A's stored event has the unit square as
    polygon; camera B's view polygon, the square [1,2] x [1,2], touches it in
    one corner, so by the rule of the primitive the two do not intersect.
    The confirmed-event dedup suppresses camera B's observation all the
    same, on the overlap of the angular sectors (heading 10, width 20 and
    heading 25, width 20, the specification's own example of overlapping
    sectors), and with it the alert gate is false: the dedup does not apply
    the polygon rule. *)
Lemma dedup_does_not_intersect_polygons :
  (forall entry, In entry (detections dedupWorld) ->
     exists alertCoords,
       Detection.polygon entry = Some alertCoords /\
       getPolygonIntersection (S := RectShapely) (Some (rectangle 1 2 1 2)) (Some alertCoords)
       = Ok None) /\
  isDuplicateDetection (demoEnv [] 0) dedupWorld "camB" 25 20 1000 0 = true /\
  publishAlert (S := RectShapely) (demoEnv [] 0) dedupWorld "camB" 25 20 1000 1
    (Some (rectangle 1 2 1 2)) [] 0 = false /\
  publishAlert (S := RectShapely) (demoEnv [] 0) emptyWorld "camB" 25 20 1000 1
    (Some (rectangle 1 2 1 2)) [] 0 = true.
Proof.
  split.
  - intros entry [<-|[]]. eexists. split; [reflexivity|]. vm_compute. reflexivity.
  - split; [vm_compute; reflexivity|].
    split; vm_compute; reflexivity.
Qed.

(** * Further properties of the engine *)

(** ** [isProto] *)

Lemma split_on_nonempty (sep : ascii) (s : string) : split_on sep s <> [].
Proof.
  induction s as [|c s IH]; cbn; [discriminate|].
  destruct (Ascii.eqb c sep); [discriminate|].
  destruct (split_on sep s); discriminate.
Qed.

Lemma find_rev_last {A : Type} (f : A -> bool) (l : list A) (x : A) :
  find f (rev l) = Some x <->
  exists pre post, l = pre ++ x :: post /\ f x = true /\
                   forall y, In y post -> f y = false.
Proof.
  induction l as [|a l IH] using rev_ind.
  - cbn. split; [discriminate|]. intros (pre & post & H & _). now destruct pre.
  - rewrite rev_app_distr. cbn [rev app find]. destruct (f a) eqn:Fa.
    + split.
      * intros H. injection H as <-. exists l, []. repeat split; auto. intros y [].
      * intros (pre & post & H & Fx & Hpost).
        destruct post as [|p post] using rev_ind.
        -- apply app_inj_tail in H. destruct H as [_ ->]. reflexivity.
        -- clear IHpost. rewrite app_comm_cons, app_assoc in H.
           apply app_inj_tail in H. destruct H as [_ ->].
           rewrite Hpost in Fa; [discriminate|]. apply in_or_app. right. now left.
    + rewrite IH. split.
      * intros (pre & post & -> & Fx & Hpost). exists pre, (post ++ [a]).
        rewrite <- app_assoc. repeat split; auto.
        intros y Hy. apply in_app_or in Hy. destruct Hy as [Hy|[<-|[]]]; auto.
      * intros (pre & post & H & Fx & Hpost).
        destruct post as [|p post] using rev_ind.
        -- apply app_inj_tail in H. destruct H as [_ ->]. congruence.
        -- clear IHpost. rewrite app_comm_cons, app_assoc in H.
           apply app_inj_tail in H. destruct H as [-> ->].
           exists pre, post. repeat split; auto.
           intros y Hy. apply Hpost. apply in_or_app. now left.
Qed.

Lemma find_rev_none {A : Type} (f : A -> bool) (l : list A) :
  find f (rev l) = None <-> forall y, In y l -> f y = false.
Proof.
  split.
  - intros H y Hy. apply (find_none _ _ H). now apply in_rev in Hy.
  - intros H. destruct (find f (rev l)) as [x|] eqn:F; [|reflexivity].
    apply find_some in F. destruct F as [Hin Fx].
    apply in_rev in Hin. rewrite (H x Hin) in Fx. discriminate.
Qed.

Lemma existsb_eqb_In (ty : string) (l : list string) :
  existsb (String.eqb ty) l = true <-> In ty l.
Proof.
  rewrite existsb_exists. split.
  - intros (x & Hx & E). apply String.eqb_eq in E. now subst.
  - intros H. exists ty. split; [exact H | apply String.eqb_refl].
Qed.

(** X1.  The classification that [isProto] makes.  With a prototype-model number
    set, every camera is a prototype source and the answer is that number.
    Without one, a camera is a production source exactly when the entry of
    the source dictionary under its name (the last of the sources with that
    name) has a type, not the empty string, that is one of the production
    types; a camera without entry is a prototype source. *)
Theorem production_camera_iff (st : IsProtoStatics) (cameraID : string) :
  (isProto_protoNum st <> 0 -> isProto st cameraID = ProtoNumber (isProto_protoNum st)) /\
  (isProto_protoNum st = 0 ->
   (isProto st cameraID = ProtoBool false \/ isProto st cameraID = ProtoBool true) /\
   (isProto st cameraID = ProtoBool false <->
    exists pre entry post ty,
      sourcesDict st = pre ++ entry :: post /\
      Source.name entry = cameraID /\
      (forall later, In later post -> Source.name later <> cameraID) /\
      Source.type entry = Some ty /\ ty <> EmptyString /\ In ty (prodTypesArr st))) /\
  ((forall entry, In entry (sourcesDict st) -> Source.name entry <> cameraID) ->
   truthy_flag (isProto st cameraID) = true).
Proof.
  unfold isProto. split; [|split].
  - intros H. unfold truthy_int. apply Z.eqb_neq in H. now rewrite H.
  - intros H. rewrite H. cbn [truthy_int Z.eqb negb]. split.
    + match goal with |- context [ProtoBool ?b] => destruct b end; auto.
    + split.
      * intros Hp. injection Hp as Hp. apply negb_false_iff in Hp.
        destruct (find _ (rev (sourcesDict st))) as [entry|] eqn:F;
          [|cbn in Hp; discriminate].
        apply find_rev_last in F. destruct F as (pre & post & Hl & Hn & Hpost).
        apply String.eqb_eq in Hn.
        destruct (Source.type entry) as [ty|] eqn:Ty; [|cbn in Hp; discriminate].
        apply andb_true_iff in Hp. destruct Hp as [Hp He].
        apply andb_true_iff in Hp. destruct Hp as [Hs _].
        exists pre, entry, post, ty. repeat split; auto.
        -- intros later Hin E. apply Hpost in Hin.
           apply String.eqb_neq in Hin. contradiction.
        -- cbn in Hs. apply negb_true_iff, String.eqb_neq in Hs. exact Hs.
        -- now apply existsb_eqb_In.
      * intros (pre & entry & post & ty & Hl & Hn & Hpost & Ty & Hne & Hin).
        assert (F : find (fun s => String.eqb (Source.name s) cameraID)
                      (rev (sourcesDict st)) = Some entry).
        { apply find_rev_last. exists pre, post. repeat split; auto.
          - now apply String.eqb_eq.
          - intros y Hy. apply String.eqb_neq. now apply Hpost. }
        rewrite F, Ty. cbv beta iota zeta. cbn [truthy_str].
        apply String.eqb_neq in Hne. rewrite Hne.
        destruct (prodTypesArr st) as [|p ps]; [destruct Hin|].
        apply existsb_eqb_In in Hin. rewrite Hin. reflexivity.
  - intros Hno. destruct (truthy_int (isProto_protoNum st)) eqn:T.
    + exact T.
    + cbn [truthy_flag].
      assert (F : find (fun s => String.eqb (Source.name s) cameraID)
                    (rev (sourcesDict st)) = None).
      { apply find_rev_none. intros y Hy. apply String.eqb_neq. now apply Hno. }
      rewrite F. reflexivity.
Qed.

(** X2.  The attributes of [isProto] are set by the first call that provides
    them.  After the initialising call of [main], made with the cameras (of
    which there is at least one, or [main] has returned) and the
    prototype-model number, the attributes are the cameras, the production
    types split at the commas and that number; every later call with a
    camera alone answers from these attributes and leaves them as they are;
    and once the number is not zero no call, whatever sources and number it
    passes, changes an attribute. *)
Theorem isProto_attributes_set_once (prodTypes : string) (cameras : list Source.row)
    (protoNum : Z) :
  cameras <> [] ->
  let st := snd (isProto_call prodTypes isProto_pristine None (Some cameras) protoNum) in
  st = {| sourcesDict := cameras; prodTypesArr := split_on "," prodTypes;
          isProto_protoNum := protoNum |} /\
  (forall cameraID,
     isProto_call prodTypes st (Some cameraID) None 0 = (isProto st cameraID, st)) /\
  (protoNum <> 0 ->
   forall cameraID sources protoNum',
     snd (isProto_call prodTypes st cameraID sources protoNum') = st).
Proof.
  intros Hne st.
  assert (Hst : st = {| sourcesDict := cameras; prodTypesArr := split_on "," prodTypes;
                        isProto_protoNum := protoNum |}).
  { unfold st, isProto_call, isProto_pristine.
    cbn [sourcesDict prodTypesArr isProto_protoNum truthy_int Z.eqb negb andb].
    destruct cameras as [|c cs]; [contradiction|].
    rewrite andb_true_r.
    unfold truthy_int. destruct (protoNum =? 0) eqn:P; cbn [negb snd].
    - apply Z.eqb_eq in P. subst. reflexivity.
    - reflexivity. }
  assert (Hkeep : forall cameraID sources protoNum',
            (protoNum' = 0 \/ protoNum <> 0) ->
            snd (isProto_call prodTypes st cameraID sources protoNum') = st).
  { intros cameraID sources protoNum' Hp. rewrite Hst. unfold isProto_call.
    cbn [sourcesDict prodTypesArr isProto_protoNum].
    destruct (split_on "," prodTypes) as [|p ps] eqn:Sp;
      [exfalso; exact (split_on_nonempty _ _ Sp)|].
    destruct cameras as [|c cs]; [contradiction|].
    assert (Hn : (if truthy_int protoNum' && negb (truthy_int protoNum)
                  then protoNum' else protoNum) = protoNum).
    { unfold truthy_int. destruct Hp as [->|Hp]; [reflexivity|].
      apply Z.eqb_neq in Hp. rewrite Hp. cbn. now rewrite andb_false_r. }
    rewrite Hn.
    destruct sources as [[|e es]|]; destruct cameraID; reflexivity. }
  split; [exact Hst|]. split.
  - intros cameraID.
    pose proof (Hkeep (Some cameraID) None 0 (or_introl eq_refl)) as Hk.
    unfold isProto_call in *. cbn [snd] in Hk. now rewrite Hk.
  - intros Hp cameraID sources protoNum'. apply Hkeep. now right.
Qed.

Lemma isProto_attributes_set_once_witness :
  let st := snd (isProto_call "hpwren,axis" isProto_pristine None (Some demoSources) 2) in
  st = {| sourcesDict := demoSources; prodTypesArr := ["hpwren"; "axis"]%string;
          isProto_protoNum := 2 |} /\
  isProto_call "hpwren,axis" st (Some "camA"%string) None 0 = (ProtoNumber 2, st) /\
  snd (isProto_call "hpwren,axis" st (Some "camA"%string) (Some []) 3) = st.
Proof.
  destruct (isProto_attributes_set_once "hpwren,axis" demoSources 2) as (H1 & H2 & H3).
  - discriminate.
  - cbv zeta. split; [exact H1|]. split.
    + rewrite H2. reflexivity.
    + apply H3. discriminate.
Defined.

(** ** Probable observations: recording and looking up *)

Lemma isDuplicateProbables_app (w : World) (r : Probable.row) (cameraID : string)
    (heading timestamp protoNum : Z) :
  isDuplicateProbables (set_probables w (probables w ++ [r])) cameraID heading timestamp
    protoNum
  = isDuplicateProbables w cameraID heading timestamp protoNum
    || probable_matches cameraID heading timestamp protoNum r.
Proof.
  unfold isDuplicateProbables. cbn [probables set_probables].
  rewrite filter_app, length_app. cbn [filter].
  destruct (probable_matches cameraID heading timestamp protoNum r); cbn [List.length].
  - rewrite orb_true_r. apply Nat.ltb_lt. lia.
  - now rewrite Nat.add_0_r, orb_false_r.
Qed.

(** X3.  What a recorded probable observation does to later ones.  Recorded by a
    process that keeps state, an observation of camera, heading and
    prototype number at time [T] makes [isDuplicateProbables] answer true for
    the same camera, heading and prototype number at every time strictly
    between [T] and [T + 3600]; in the main loop such a later observation is
    recorded as a probable and goes no further.  At [T + 3600] and later,
    and for any other camera, heading or prototype number, the answer is
    what it was without the row. *)
Theorem recorded_probable_suppresses_the_next_hour (E : Env) (w : World) (cameraID : string)
    (heading timestamp : Z) (imgPath : string) (fireSegment : FireSegment)
    (modelId : string) (later : Z) :
  timestamp < later ->
  later < timestamp + 3600 ->
  let protoNum := constants_protoNum E in
  let w1 := recordProbables E w cameraID heading timestamp imgPath fireSegment modelId
              false protoNum in
  isDuplicateProbables w1 cameraID heading later protoNum = true /\
  (forall (S : Shapely) now_sortId now_enqueue fov imgPath' fireSegment' modelId',
     mainDetection E now_sortId now_enqueue w1 cameraID heading later fov imgPath'
       (Some fireSegment') modelId' false false
     = Ok (recordProbables E w1 cameraID heading later imgPath' fireSegment' modelId'
             false protoNum)) /\
  (forall t, timestamp + 3600 <= t ->
     isDuplicateProbables w1 cameraID heading t protoNum
     = isDuplicateProbables w cameraID heading t protoNum) /\
  (forall cameraID' heading' protoNum' t,
     cameraID' <> cameraID \/ heading' <> heading \/ protoNum' <> protoNum ->
     isDuplicateProbables w1 cameraID' heading' t protoNum'
     = isDuplicateProbables w cameraID' heading' t protoNum').
Proof.
  intros Hafter Hwithin protoNum w1.
  assert (Hrow : forall cameraID' heading' t protoNum',
            isDuplicateProbables w1 cameraID' heading' t protoNum'
            = isDuplicateProbables w cameraID' heading' t protoNum'
              || (String.eqb cameraID cameraID' && (heading =? heading')
                  && (timestamp >? t - 60*60) && (timestamp <? t)
                  && (protoNum =? protoNum'))).
  { intros. unfold w1, recordProbables. cbn [negb].
    rewrite isDuplicateProbables_app. reflexivity. }
  assert (Hdup : isDuplicateProbables w1 cameraID heading later protoNum = true).
  { rewrite Hrow. apply orb_true_iff. right.
    rewrite String.eqb_refl, !Z.eqb_refl. cbn [andb].
    rewrite andb_true_r. apply andb_true_iff. split.
    - rewrite Z.gtb_ltb. apply Z.ltb_lt. lia.
    - apply Z.ltb_lt. lia. }
  split; [exact Hdup|]. split; [|split].
  - intros S now_sortId now_enqueue fov imgPath' fireSegment' modelId'.
    unfold mainDetection. cbn [negb].
    fold protoNum.
    set (w2 := recordProbables E w1 cameraID heading later imgPath' fireSegment' modelId'
                 false protoNum).
    assert (H2 : isDuplicateProbables w2 cameraID heading later protoNum = true).
    { unfold w2, recordProbables. cbn [negb]. rewrite isDuplicateProbables_app.
      rewrite Hdup. reflexivity. }
    rewrite H2. reflexivity.
  - intros t Ht. rewrite Hrow.
    replace (timestamp >? t - 60*60) with false; [now rewrite !andb_false_r, orb_false_r|].
    symmetry. rewrite Z.gtb_ltb. apply Z.ltb_ge. lia.
  - intros cameraID' heading' protoNum' t Hdiff. rewrite Hrow.
    destruct Hdiff as [H|[H|H]].
    + assert (Hs : String.eqb cameraID cameraID' = false)
        by (apply String.eqb_neq; congruence).
      rewrite Hs. cbn [andb]. apply orb_false_r.
    + assert (Hs : (heading =? heading') = false) by (apply Z.eqb_neq; congruence).
      rewrite Hs, andb_false_r. cbn [andb]. apply orb_false_r.
    + assert (Hs : (protoNum =? protoNum') = false) by (apply Z.eqb_neq; congruence).
      rewrite Hs, andb_false_r. apply orb_false_r.
Qed.

Lemma recorded_probable_suppresses_the_next_hour_witness :
  let w1 := recordProbables (demoEnv [] 0) emptyWorld "camA" 90 1000 "img.jpg" demoSegment
              "always" false 0 in
  isDuplicateProbables w1 "camA" 90 1060 0 = true /\
  isDuplicateProbables w1 "camA" 90 4600 0 = false /\
  isDuplicateProbables w1 "camB" 90 1060 0 = false.
Proof.
  destruct (recorded_probable_suppresses_the_next_hour (demoEnv [] 0) emptyWorld "camA" 90
              1000 "img.jpg" demoSegment "always" 1060) as (H1 & _ & H3 & H4); [lia | lia |].
  cbv zeta in *. split; [exact H1|]. split.
  - etransitivity; [apply (H3 4600); lia | reflexivity].
  - etransitivity; [apply (H4 "camB"%string 90 0 1060); left; discriminate | reflexivity].
Defined.

(** ** Rounds of the deferred queue that regenerate nothing *)

Lemma set_fireUpdateQueue_same (w : World) : set_fireUpdateQueue w (fireUpdateQueue w) = w.
Proof. now destruct w. Qed.

(** X4.  A round of [processEnqueuedUpdates] that has no news.  With the queue
    empty, or its head not yet more than 60 seconds past its final
    timestamp, the round changes nothing.  With the head due but its event
    missing from the [detections] table, or no archived frame newer than the
    entry's final timestamp, the entry goes back into the queue as it was
    (the requeue being made within the horizon): the queue holds the same
    entries, sorted again, and no table and no notification changes. *)
Theorem round_without_news {S : Shapely} (E : Env) (now_pop now_enqueue : Z) (w : World) :
  (fireUpdateQueue w = [] -> processEnqueuedUpdates E now_pop now_enqueue w = Ok w) /\
  (forall head rest,
     fireUpdateQueue w = head :: rest ->
     now_pop <= FireUpdate.finalTimestamp head + 60 ->
     processEnqueuedUpdates E now_pop now_enqueue w = Ok w) /\
  (forall e rest,
     let cameraID := FireUpdate.cameraID e in
     let cameraHeading := FireUpdate.cameraHeading e in
     let timestamp := FireUpdate.timestamp e in
     fireUpdateQueue w = e :: rest ->
     FireUpdate.finalTimestamp e + 60 < now_pop ->
     now_enqueue <= timestamp + POST_DETECTION_UPDATE_MINS * 60 ->
     (forall x, In x rest -> same_event cameraID timestamp x = false) ->
     queryDetections w cameraID timestamp = Ok None \/
     ((exists detectData, queryDetections w cameraID timestamp = Ok (Some detectData)) /\
      checkNewImage E cameraID cameraHeading timestamp (FireUpdate.finalTimestamp e) = false) ->
     processEnqueuedUpdates E now_pop now_enqueue w
     = Ok (set_fireUpdateQueue w (sorted_by FireUpdate.finalTimestamp (rest ++ [e]))) /\
     Permutation (e :: rest) (sorted_by FireUpdate.finalTimestamp (rest ++ [e]))).
Proof.
  split; [|split].
  - intros Hq. unfold processEnqueuedUpdates, constants_fireUpdateQueue.
    rewrite Hq. cbn [popFireUpdate]. rewrite <- Hq. now rewrite set_fireUpdateQueue_same.
  - intros head rest Hq Hnot. unfold processEnqueuedUpdates, constants_fireUpdateQueue.
    rewrite Hq, pop_not_due by exact Hnot. rewrite <- Hq.
    now rewrite set_fireUpdateQueue_same.
  - intros e rest cameraID cameraHeading timestamp Hq Hdue Hin Hfresh Hnews.
    split.
    + unfold processEnqueuedUpdates, constants_fireUpdateQueue.
      rewrite Hq, pop_due by exact Hdue.
      change (queryDetections (set_fireUpdateQueue w rest) (FireUpdate.cameraID e)
                (FireUpdate.timestamp e))
        with (queryDetections w cameraID timestamp).
      assert (Henq : enqueueFireUpdate now_enqueue (set_fireUpdateQueue w rest)
                       (FireUpdate.cameraID e) (FireUpdate.cameraHeading e)
                       (FireUpdate.timestamp e) (FireUpdate.finalTimestamp e)
                       (FireUpdate.fireSegment e)
                     = Ok (set_fireUpdateQueue w
                             (sorted_by FireUpdate.finalTimestamp (rest ++ [e])))).
      { rewrite enqueue_ok by exact Hfresh.
        replace (now_enqueue >? FireUpdate.timestamp e + POST_DETECTION_UPDATE_MINS * 60)
          with false
          by (symmetry; rewrite Z.gtb_ltb; apply Z.ltb_ge; exact Hin).
        cbn [fireUpdateQueue set_fireUpdateQueue]. now destruct e. }
      destruct Hnews as [->|[[detectData ->] Hnone]]; cbn [bind].
      * exact Henq.
      * fold cameraID cameraHeading timestamp. rewrite Hnone. exact Henq.
    + etransitivity; [|apply sorted_by_perm].
      apply Permutation_cons_append.
Qed.

Lemma round_without_news_witness :
  processEnqueuedUpdates (S := RectShapely) (demoEnv [1000] 0) 1100 1100 pendingWorld
  = Ok pendingWorld.
Proof.
  destruct (round_without_news (S := RectShapely) (demoEnv [1000] 0) 1100 1100 pendingWorld)
    as (_ & _ & H).
  destruct (H (demoUpdate "camA" 1000 1000) []) as [Hrun _].
  - reflexivity.
  - cbn. lia.
  - cbn. lia.
  - intros x [].
  - right. split; [eexists; reflexivity | reflexivity].
  - exact Hrun.
Defined.

(** X5.  A round whose regeneration fails.  With the head due, its event stored
    and a newer frame archived: if the archive has no image of the detection
    instant, [updateMovie] returns a pair where three values are unpacked and
    the round raises [ValueError]; if the regenerated movie has no file (or
    its final timestamp is zero), the entry is dropped: the round returns
    with the queue that was behind the entry and nothing else changed. *)
Theorem failed_regeneration_drops_or_raises {S : Shapely} (E : Env) (now_pop now_enqueue : Z)
    (w : World) (e : FireUpdate.t) (rest : list FireUpdate.t) (detectData : DetectData.t) :
  let cameraID := FireUpdate.cameraID e in
  let cameraHeading := FireUpdate.cameraHeading e in
  let timestamp := FireUpdate.timestamp e in
  fireUpdateQueue w = e :: rest ->
  FireUpdate.finalTimestamp e + 60 < now_pop ->
  queryDetections w cameraID timestamp = Ok (Some detectData) ->
  checkNewImage E cameraID cameraHeading timestamp (FireUpdate.finalTimestamp e) = true ->
  (getArchiveImages E cameraID cameraHeading timestamp timestamp = [] ->
   processEnqueuedUpdates E now_pop now_enqueue w = Raise ValueError) /\
  (forall movieID finalTimestamp isFinalMovie,
     updateMovie E cameraID cameraHeading timestamp
     = Some (movieID, finalTimestamp, isFinalMovie) ->
     truthy_str movieID = false \/ finalTimestamp = 0 ->
     processEnqueuedUpdates E now_pop now_enqueue w = Ok (set_fireUpdateQueue w rest)).
Proof.
  intros cameraID cameraHeading timestamp Hq Hdue Hquery Hnew.
  assert (Hrun : processEnqueuedUpdates E now_pop now_enqueue w =
                 match updateMovie E cameraID cameraHeading timestamp with
                 | None => Raise ValueError
                 | Some (movieID, finalTimestamp, isFinalMovie) =>
                     if truthy_str movieID && truthy_int finalTimestamp
                     then processEnqueuedUpdates E now_pop now_enqueue w
                     else Ok (set_fireUpdateQueue w rest)
                 end).
  { unfold processEnqueuedUpdates at 1. unfold constants_fireUpdateQueue.
    rewrite Hq, pop_due by exact Hdue.
    change (queryDetections (set_fireUpdateQueue w rest) (FireUpdate.cameraID e)
              (FireUpdate.timestamp e))
      with (queryDetections w cameraID timestamp).
    rewrite Hquery. cbn [bind]. fold cameraID cameraHeading timestamp. rewrite Hnew.
    destruct (updateMovie E cameraID cameraHeading timestamp)
      as [[[movieID finalTimestamp] isFinalMovie]|] eqn:Hm; [|reflexivity].
    destruct (truthy_str movieID && truthy_int finalTimestamp) eqn:Hok; [|reflexivity].
    unfold processEnqueuedUpdates, constants_fireUpdateQueue.
    rewrite Hq, pop_due by exact Hdue.
    change (queryDetections (set_fireUpdateQueue w rest) (FireUpdate.cameraID e)
              (FireUpdate.timestamp e))
      with (queryDetections w cameraID timestamp).
    rewrite Hquery. cbn [bind]. fold cameraID cameraHeading timestamp.
    rewrite Hnew, Hm, Hok. reflexivity. }
  split.
  - intros Hnone. rewrite Hrun. unfold updateMovie. now rewrite Hnone.
  - intros movieID finalTimestamp isFinalMovie Hm Hbad. rewrite Hrun, Hm.
    replace (truthy_str movieID && truthy_int finalTimestamp) with false; [reflexivity|].
    symmetry. destruct Hbad as [->| ->]; [reflexivity|]. apply andb_false_r.
Qed.

Lemma failed_regeneration_drops_or_raises_witness :
  processEnqueuedUpdates (S := RectShapely) (demoEnv [1060] 0) 1100 1100 pendingWorld
  = Raise ValueError.
Proof.
  apply (failed_regeneration_drops_or_raises (S := RectShapely) (demoEnv [1060] 0) 1100 1100
           pendingWorld (demoUpdate "camA" 1000 1000) [] pendingDetectData);
    reflexivity.
Defined.

(** ** [fireDetected], step by step *)

(** [fireDetected] once the view is accepted and the geometry, the weather
    score and the maps have been computed. *)
Lemma fireDetected_steps {S : Shapely} (E : Env) (now_sortId now_enqueue : Z) (w : World)
    (cameraID : string) (cameraHeading timestamp fov : Z) (imgPath : string)
    (fireSegment : FireSegment) (mapFiles : string) (camLatitude camLongitude : Q)
    (fireHeading rangeAngle : Z) (view polygon : option coords)
    (sourcePolygons : list (option coords)) (wscore : Q) (mapUrl : string) :
  getCameraMapLocation E cameraID = (mapFiles, camLatitude, camLongitude) ->
  getHeadingRange E cameraHeading fov (MinX fireSegment) (MaxX fireSegment)
    (imageWidth E imgPath) = (fireHeading, rangeAngle) ->
  findIgnoredViewHeading E cameraID fireHeading rangeAngle = None ->
  intersectLand (getTriangleVertices E camLatitude camLongitude fireHeading rangeAngle)
    = Ok view ->
  consensus w timestamp view = Ok (polygon, sourcePolygons) ->
  checkWeatherInfo E cameraID timestamp fireSegment polygon sourcePolygons
    (camLatitude, camLongitude) = Ok wscore ->
  genAnnotatedMaps E mapFiles camLatitude camLongitude polygon sourcePolygons
    (getCurrentBurns E) = Ok mapUrl ->
  let fireSegment' := set_weatherScore fireSegment (round4 wscore) in
  let row :=
    {| Detection.CameraName := cameraID;
       Detection.Timestamp := timestamp;
       Detection.AdjScore := imgScoreOf fireSegment;
       Detection.ImageID := EmptyString;
       Detection.CroppedID := EmptyString;
       Detection.MapID := EmptyString;
       Detection.polygon := polygon;
       Detection.sourcePolygons := sourcePolygons;
       Detection.IsProto := int_flag (isProto (isProtoStatics E) cameraID);
       Detection.WeatherScore := round4 wscore;
       Detection.ImgSequence := [];
       Detection.SortId := now_sortId;
       Detection.FireHeading := fireHeading;
       Detection.AngularWidth := rangeAngle |} in
  let w1 := set_detections w (detections w ++ [row]) in
  fireDetected E now_sortId now_enqueue w cameraID cameraHeading timestamp fov imgPath
    fireSegment
  = let '(croppedID, imgIDs, annotatedID, finalTimestamp) :=
      genAnnotatedImages E cameraID cameraHeading timestamp in
    if negb (truthy_str croppedID) then Ok w1
    else
      let croppedUrl := getUrlForFile E croppedID in
      let annotatedUrl := getUrlForFile E annotatedID in
      let w2 := updateDetectionsDB w1 cameraID timestamp croppedUrl annotatedUrl mapUrl
                  imgIDs in
      w3 <- enqueueFireUpdate now_enqueue w2 cameraID cameraHeading timestamp finalTimestamp
              fireSegment' ;;
      if publishAlert E w cameraID fireHeading rangeAngle timestamp wscore view
           (getCurrentBurns E) (constants_protoNum E)
      then
        w4 <- insertAlertsDB E w3 cameraID timestamp croppedUrl annotatedUrl mapUrl
                fireSegment' polygon sourcePolygons now_sortId fireHeading rangeAngle ;;
        w5 <- pubsubFireNotification E w4 cameraID timestamp croppedUrl annotatedUrl mapUrl
                fireSegment' polygon sourcePolygons now_sortId fireHeading ;;
        w6 <- emailFireNotification E w5 cameraID fireSegment' ;;
        Ok (smsFireNotification E w6 cameraID)
      else Ok w3.
Proof.
  intros Hloc Hrange Haccept Land Con Hws Hmap fireSegment' row w1.
  unfold fireDetected. rewrite Hloc, Hrange, Haccept, Land. cbn [bind].
  rewrite Con. cbn [bind]. rewrite Hws. cbn [bind].
  unfold insertDetectionsDB, detection_row.
  cbn [weatherScoreOf set_weatherScore weatherScore bind].
  rewrite Hmap. cbn [bind].
  fold fireSegment'.
  change (set_detections w (detections w ++ _)) with w1.
  destruct (genAnnotatedImages E cameraID cameraHeading timestamp)
    as [[[croppedID imgIDs] annotatedID] finalTimestamp].
  destruct (truthy_str croppedID); cbn [negb]; [|reflexivity].
  set (w2 := updateDetectionsDB _ _ _ _ _ _ _).
  destruct (enqueueFireUpdate now_enqueue w2 cameraID cameraHeading timestamp finalTimestamp
              fireSegment') as [w3|e] eqn:Enq; [|reflexivity].
  cbn [bind].
  destruct (enqueue_changes_queue_only _ _ _ _ _ _ _ _ Enq) as (Hd & _).
  rewrite (publishAlert_frame E w w3 [row]); [reflexivity | | intros r [<-|[]]; reflexivity].
  rewrite Hd. apply (updateDetectionsDB_columns w1).
Qed.

(** X6.  An observation in an ignored view: [fireDetected] counts it against the
    ignored heading and returns; it computes no geometry, stores no event and
    sends nothing. *)
Theorem ignored_view_is_only_counted {S : Shapely} (E : Env) (now_sortId now_enqueue : Z)
    (w : World) (cameraID : string) (cameraHeading timestamp fov : Z) (imgPath : string)
    (fireSegment : FireSegment) (ignoredHeading : Z) :
  (let '(fireHeading, rangeAngle) :=
     getHeadingRange E cameraHeading fov (MinX fireSegment) (MaxX fireSegment)
       (imageWidth E imgPath) in
   findIgnoredViewHeading E cameraID fireHeading rangeAngle = Some ignoredHeading) ->
  exists w',
    fireDetected E now_sortId now_enqueue w cameraID cameraHeading timestamp fov imgPath
      fireSegment = Ok w' /\
    ignoreCounter w' = ignoreCounter w ++ [(cameraID, ignoredHeading)] /\
    detections w' = detections w /\ probables w' = probables w /\
    fireUpdateQueue w' = fireUpdateQueue w /\ same_notifications w w'.
Proof.
  intros H. unfold fireDetected.
  destruct (getCameraMapLocation E cameraID) as [[mapFiles camLatitude] camLongitude].
  destruct (getHeadingRange E cameraHeading fov (MinX fireSegment) (MaxX fireSegment)
              (imageWidth E imgPath)) as [fireHeading rangeAngle].
  rewrite H. eexists. split; [reflexivity|].
  unfold same_notifications. cbn. tauto.
Qed.

Lemma In_lastn {A : Type} (n : nat) (l : list A) (x : A) : In x (lastn n l) -> In x l.
Proof.
  unfold lastn. intros H. rewrite <- (firstn_skipn (List.length l - n) l).
  apply in_or_app. now right.
Qed.

Lemma In_firstn {A : Type} (n : nat) (l : list A) (x : A) : In x (firstn n l) -> In x l.
Proof.
  intros H. rewrite <- (firstn_skipn n l). apply in_or_app. now left.
Qed.

Lemma filter_nil {A : Type} (f : A -> bool) (l : list A) :
  (forall x, In x l -> f x = false) -> filter f l = [].
Proof.
  induction l as [|a l IH]; intros H; [reflexivity|].
  cbn. rewrite (H a (or_introl eq_refl)). apply IH. intros x Hx. apply H. now right.
Qed.

Lemma genAnnotatedImages_single_frame (E : Env) (cameraID : string)
    (cameraHeading timestamp : Z) :
  (forall t, In t (getArchiveImages E cameraID cameraHeading
                     (timestamp - 4*60) (timestamp + POST_DETECTION_UPDATE_MINS*60)) ->
             t = timestamp \/ alignImage E t = false) ->
  exists finalTimestamp,
    genAnnotatedImages E cameraID cameraHeading timestamp
    = (Some EmptyString, [copyImage E timestamp], Some EmptyString, finalTimestamp).
Proof.
  intros Hframes. unfold genAnnotatedImages, genMovie.
  set (archive := getArchiveImages E cameraID cameraHeading _ _) in *.
  cbn [andb].
  assert (Hfilter : forall l,
            (forall t, In t l -> In t archive /\ t <> timestamp) ->
            filter (fun t => (t =? timestamp) || alignImage E t) l = []).
  { intros l Hl. apply filter_nil. intros t Ht. destruct (Hl t Ht) as [Hin Hne].
    apply orb_false_iff. split; [now apply Z.eqb_neq|].
    destruct (Hframes t Hin); [contradiction | assumption]. }
  rewrite !filter_app. cbn [filter]. rewrite Z.eqb_refl. cbn [orb].
  rewrite Hfilter, Hfilter.
  - cbn. eexists. reflexivity.
  - intros t Ht. apply In_firstn, filter_In in Ht. destruct Ht as [Hin Hb].
    split; [exact Hin|]. intros ->. rewrite Z.eqb_refl in Hb.
    rewrite andb_false_r in Hb. discriminate.
  - intros t Ht. apply In_lastn, filter_In in Ht. destruct Ht as [Hin Hb].
    split; [exact Hin|]. zbool. lia.
Qed.

(** X7.  An event without a second frame.  When every archived frame around the
    detection, other than the detection's own image, is missing or fails to
    align, [genMovie] makes no movie; [fireDetected] has then stored the
    event, with empty movie, image and map URLs, and returns: the event is
    not put into the queue for later evidence and nothing is sent, whatever
    the alert gate would have answered. *)
Theorem event_without_second_frame_is_only_stored {S : Shapely} (E : Env)
    (now_sortId now_enqueue : Z) (w : World) (cameraID : string)
    (cameraHeading timestamp fov : Z) (imgPath : string) (fireSegment : FireSegment)
    (mapFiles : string) (camLatitude camLongitude : Q) (fireHeading rangeAngle : Z)
    (gate : bool) :
  getCameraMapLocation E cameraID = (mapFiles, camLatitude, camLongitude) ->
  getHeadingRange E cameraHeading fov (MinX fireSegment) (MaxX fireSegment)
    (imageWidth E imgPath) = (fireHeading, rangeAngle) ->
  findIgnoredViewHeading E cameraID fireHeading rangeAngle = None ->
  alertGate E w cameraID cameraHeading timestamp fov imgPath fireSegment = Ok gate ->
  (forall view polygon sourcePolygons,
     intersectLand (getTriangleVertices E camLatitude camLongitude fireHeading rangeAngle)
       = Ok view ->
     consensus w timestamp view = Ok (polygon, sourcePolygons) ->
     exists mapUrl,
       genAnnotatedMaps E mapFiles camLatitude camLongitude polygon sourcePolygons
         (getCurrentBurns E) = Ok mapUrl) ->
  (forall t, In t (getArchiveImages E cameraID cameraHeading
                     (timestamp - 4*60) (timestamp + POST_DETECTION_UPDATE_MINS*60)) ->
             t = timestamp \/ alignImage E t = false) ->
  exists w' row,
    fireDetected E now_sortId now_enqueue w cameraID cameraHeading timestamp fov imgPath
      fireSegment = Ok w' /\
    detections w' = detections w ++ [row] /\
    Detection.CameraName row = cameraID /\ Detection.Timestamp row = timestamp /\
    Detection.CroppedID row = EmptyString /\ Detection.ImageID row = EmptyString /\
    Detection.MapID row = EmptyString /\ Detection.ImgSequence row = [] /\
    fireUpdateQueue w' = fireUpdateQueue w /\ same_notifications w w'.
Proof.
  intros Hloc Hrange Haccept Hgate Hmaps Hframes.
  unfold alertGate in Hgate. rewrite Hloc, Hrange in Hgate.
  destruct (intersectLand
              (getTriangleVertices E camLatitude camLongitude fireHeading rangeAngle))
    as [view|e] eqn:Land; cbn [bind] in Hgate; [|discriminate].
  destruct (consensus w timestamp view) as [[polygon sourcePolygons]|e] eqn:Con;
    cbn [bind] in Hgate; [|discriminate].
  destruct (checkWeatherInfo E cameraID timestamp fireSegment polygon sourcePolygons
              (camLatitude, camLongitude)) as [ws|e] eqn:Hws;
    cbn [bind] in Hgate; [|discriminate].
  destruct (Hmaps view polygon sourcePolygons eq_refl Con) as [mapUrl Hmap].
  rewrite (fireDetected_steps E now_sortId now_enqueue w cameraID cameraHeading timestamp fov
             imgPath fireSegment mapFiles camLatitude camLongitude fireHeading rangeAngle
             view polygon sourcePolygons ws mapUrl Hloc Hrange Haccept Land Con Hws Hmap).
  destruct (genAnnotatedImages_single_frame E cameraID cameraHeading timestamp Hframes)
    as [finalTimestamp ->].
  cbn [truthy_str String.eqb negb].
  eexists. eexists. split; [reflexivity|].
  unfold same_notifications. cbn. tauto.
Qed.

Lemma event_without_second_frame_is_only_stored_witness :
  exists w' row,
    fireDetected (S := RectShapely) (demoEnv [1000] 0) 1001 1001 emptyWorld "camA" 90
      1000 20 "img.jpg" demoSegment = Ok w' /\
    detections w' = [row] /\ Detection.CroppedID row = EmptyString /\
    fireUpdateQueue w' = [] /\ published w' = [].
Proof.
  destruct (event_without_second_frame_is_only_stored (S := RectShapely) (demoEnv [1000] 0)
              1001 1001 emptyWorld "camA" 90 1000 20 "img.jpg" demoSegment "map640z9.jpg"
              34 (-118) 90 20 true)
    as (w' & row & Hrun & Hd & _ & _ & Hc & _ & _ & _ & Hq & _ & Hp & _).
  - reflexivity.
  - reflexivity.
  - reflexivity.
  - vm_compute. reflexivity.
  - intros view polygon sourcePolygons _ _. eexists. reflexivity.
  - intros t [<-|[]]. now left.
  - exists w', row. auto.
Defined.

Lemma ignored_view_is_only_counted_witness :
  exists w',
    fireDetected (S := RectShapely) (demoEnvWith [940; 1000] 0 [] "camA" 90) 1001 1001
      emptyWorld "camA" 90 1000 20 "img.jpg" demoSegment = Ok w' /\
    ignoreCounter w' = [("camA"%string, 90)] /\ detections w' = [].
Proof.
  destruct (ignored_view_is_only_counted (S := RectShapely)
              (demoEnvWith [940; 1000] 0 [] "camA" 90) 1001 1001 emptyWorld "camA" 90 1000
              20 "img.jpg" demoSegment 90) as (w' & Hrun & Hc & Hd & _).
  - reflexivity.
  - exists w'. auto.
Defined.

(** ** The alert itself *)

(** X8.  An observation that passes the alert gate and has its evidence
    generated: [fireDetected] writes one [alerts] row for the event, with the
    event's polygon, source polygons and sort key and the movie's URL;
    publishes one pubsub message; sends one email to the active addresses if
    there are any, the mail service being configured; and sends one SMS to
    each active phone.  The [detections] row of the event carries the URLs
    of the evidence. *)
Theorem passing_alert_goes_to_every_channel {S : Shapely} (E : Env)
    (now_sortId now_enqueue : Z) (w : World) (cameraID : string)
    (cameraHeading timestamp fov : Z) (imgPath : string) (fireSegment : FireSegment)
    (mapFiles : string) (camLatitude camLongitude : Q) (fireHeading rangeAngle : Z)
    (croppedID annotatedID : option string) (imgIDs : list string) (finalTimestamp : Z) :
  getCameraMapLocation E cameraID = (mapFiles, camLatitude, camLongitude) ->
  getHeadingRange E cameraHeading fov (MinX fireSegment) (MaxX fireSegment)
    (imageWidth E imgPath) = (fireHeading, rangeAngle) ->
  findIgnoredViewHeading E cameraID fireHeading rangeAngle = None ->
  alertGate E w cameraID cameraHeading timestamp fov imgPath fireSegment = Ok true ->
  (forall view polygon sourcePolygons,
     intersectLand (getTriangleVertices E camLatitude camLongitude fireHeading rangeAngle)
       = Ok view ->
     consensus w timestamp view = Ok (polygon, sourcePolygons) ->
     exists mapUrl,
       genAnnotatedMaps E mapFiles camLatitude camLongitude polygon sourcePolygons
         (getCurrentBurns E) = Ok mapUrl) ->
  genAnnotatedImages E cameraID cameraHeading timestamp
    = (croppedID, imgIDs, annotatedID, finalTimestamp) ->
  truthy_str croppedID = true ->
  (forall x, In x (fireUpdateQueue w) -> same_event cameraID timestamp x = false) ->
  activeEmails E = [] \/ googleServices E = true ->
  exists w' view alert message stored,
    fireDetected E now_sortId now_enqueue w cameraID cameraHeading timestamp fov imgPath
      fireSegment = Ok w' /\
    alerts w' = alerts w ++ [alert] /\
    Detection.CameraName alert = cameraID /\ Detection.Timestamp alert = timestamp /\
    Detection.SortId alert = now_sortId /\
    Detection.CroppedID alert = getUrlForFile E croppedID /\
    intersectLand (getTriangleVertices E camLatitude camLongitude fireHeading rangeAngle)
      = Ok view /\
    consensus w timestamp view
      = Ok (Detection.polygon alert, Detection.sourcePolygons alert) /\
    published w' = published w ++ [message] /\
    Message.cameraID message = cameraID /\ Message.timestamp message = timestamp /\
    Message.croppedUrl message = getUrlForFile E croppedID /\
    Message.polygon message = Detection.polygon alert /\
    Message.sortId message = now_sortId /\
    emailed w' = emailed w ++
      match activeEmails E with
      | [] => []
      | _ :: _ => [{| email_to := activeEmails E; email_camera := cameraID;
                      email_percent := Qtruncate (score fireSegment * 100) |}]
      end /\
    texted w' = texted w ++ map (fun phone => (phone, cameraID)) (activePhones E) /\
    In stored (detections w') /\
    Detection.CameraName stored = cameraID /\ Detection.Timestamp stored = timestamp /\
    Detection.CroppedID stored = getUrlForFile E croppedID /\
    Detection.ImageID stored = getUrlForFile E annotatedID /\
    Detection.ImgSequence stored = imgIDs.
Proof.
  intros Hloc Hrange Haccept Hgate Hmaps Himages Hcropped Hfresh Hmail.
  unfold alertGate in Hgate. rewrite Hloc, Hrange in Hgate.
  destruct (intersectLand
              (getTriangleVertices E camLatitude camLongitude fireHeading rangeAngle))
    as [view|e] eqn:Land; cbn [bind] in Hgate; [|discriminate].
  destruct (consensus w timestamp view) as [[polygon sourcePolygons]|e] eqn:Con;
    cbn [bind] in Hgate; [|discriminate].
  destruct (checkWeatherInfo E cameraID timestamp fireSegment polygon sourcePolygons
              (camLatitude, camLongitude)) as [ws|e] eqn:Hws;
    cbn [bind] in Hgate; [|discriminate].
  injection Hgate as Hgate.
  destruct (Hmaps view polygon sourcePolygons eq_refl Con) as [mapUrl Hmap].
  rewrite (fireDetected_steps E now_sortId now_enqueue w cameraID cameraHeading timestamp fov
             imgPath fireSegment mapFiles camLatitude camLongitude fireHeading rangeAngle
             view polygon sourcePolygons ws mapUrl Hloc Hrange Haccept Land Con Hws Hmap).
  rewrite Himages, Hcropped, Hgate. cbn [negb].
  set (fireSegment' := set_weatherScore fireSegment (round4 ws)).
  set (row := Detection.Build_row _ _ _ _ _ _ _ _ _ _ _ _ _ _).
  set (w2 := updateDetectionsDB _ _ _ _ _ _ _).
  assert (Hq2 : fireUpdateQueue w2 = fireUpdateQueue w) by reflexivity.
  destruct (enqueueFireUpdate now_enqueue w2 cameraID cameraHeading timestamp finalTimestamp
              fireSegment') as [w3|e] eqn:Enq; cycle 1.
  { exfalso. apply enqueue_raises_iff in Enq.
    destruct Enq as [_ [x [Hin Hkey]]]. rewrite Hq2 in Hin.
    apply same_event_true in Hkey. rewrite (Hfresh x Hin) in Hkey. discriminate. }
  cbn [bind].
  assert (H3 : detections w3 = detections w2 /\ alerts w3 = alerts w /\
               published w3 = published w /\ emailed w3 = emailed w /\
               texted w3 = texted w).
  { destruct (enqueue_changes_queue_only _ _ _ _ _ _ _ _ Enq) as (Hd & Ha & Hp & He & Ht).
    rewrite Hd, Ha, Hp, He, Ht. cbn. auto. }
  destruct H3 as (Hd3 & Ha3 & Hp3 & He3 & Ht3).
  unfold insertAlertsDB, detection_row, pubsubFireNotification.
  cbn [weatherScoreOf fireSegment' set_weatherScore weatherScore bind].
  unfold emailFireNotification, smsFireNotification.
  set (alert := Detection.Build_row _ _ _ _ _ _ _ _ _ _ _ _ _ _).
  set (message := Message.Build_t _ _ _ _ _ _ _ _ _ _ _ _).
  set (stored := Detection.set_urls row (getUrlForFile E croppedID)
                   (getUrlForFile E annotatedID) mapUrl imgIDs).
  assert (Hstored : In stored (detections w3)).
  { rewrite Hd3. unfold w2, updateDetectionsDB. cbn [detections set_detections].
    rewrite map_app. apply in_or_app. right. cbn [map].
    replace (row_key cameraID timestamp row) with true; [now left|].
    symmetry. apply row_key_true. split; reflexivity. }
  destruct (activeEmails E) as [|a emails] eqn:Em.
  - cbn [List.length Nat.ltb Nat.leb bind].
    exists (set_texted
              (set_published (set_alerts w3 (alerts w3 ++ [alert]))
                 (published (set_alerts w3 (alerts w3 ++ [alert])) ++ [message]))
              (texted (set_published (set_alerts w3 (alerts w3 ++ [alert]))
                         (published (set_alerts w3 (alerts w3 ++ [alert])) ++ [message]))
               ++ map (fun phone => (phone, cameraID)) (activePhones E))),
      view, alert, message, stored.
    split; [reflexivity|].
    cbn [alerts published emailed texted detections set_texted set_published set_alerts].
    rewrite Ha3, Hp3, He3, Ht3, app_nil_r.
    repeat (split; [reflexivity|]).
    split; [exact Con|].
    repeat (split; [reflexivity|]).
    split; [exact Hstored|]. repeat split; reflexivity.
  - destruct Hmail as [Hmail|Hmail]; [discriminate|]. rewrite Hmail.
    cbn [List.length Nat.ltb Nat.leb bind].
    eexists. exists view, alert, message, stored.
    split; [reflexivity|].
    cbn [alerts published emailed texted detections set_texted set_published set_alerts
         set_emailed].
    rewrite Ha3, Hp3, He3, Ht3.
    repeat (split; [reflexivity|]).
    split; [exact Con|].
    repeat (split; [reflexivity|]).
    split; [exact Hstored|]. repeat split; reflexivity.
Qed.

Lemma passing_alert_goes_to_every_channel_witness :
  exists w' alert message,
    fireDetected (S := RectShapely) (demoEnv [940; 1000] 0) 1001 1001 emptyWorld "camA" 90
      1000 20 "img.jpg" demoSegment = Ok w' /\
    alerts w' = [alert] /\ published w' = [message] /\
    texted w' = [("5550100"%string, "camA"%string)] /\ emailed w' = [].
Proof.
  destruct (passing_alert_goes_to_every_channel (S := RectShapely) (demoEnv [940; 1000] 0)
              1001 1001 emptyWorld "camA" 90 1000 20 "img.jpg" demoSegment "map640z9.jpg"
              34 (-118) 90 20 (Some "movie"%string) (Some "annotated"%string)
              ["image"; "image"]%string 1000)
    as (w' & view & alert & message & stored & Hrun & Ha & _ & _ & _ & _ & _ & _ & Hp & _ & _
        & _ & _ & _ & He & Ht & _).
  - reflexivity.
  - reflexivity.
  - reflexivity.
  - vm_compute. reflexivity.
  - intros view polygon sourcePolygons _ _. eexists. reflexivity.
  - vm_compute. reflexivity.
  - reflexivity.
  - intros x [].
  - left. reflexivity.
  - exists w', alert, message. auto.
Defined.



(** ** Tables and channels only grow *)

Lemma same_but_urls_refl (r : Detection.row) : same_but_urls r r.
Proof. unfold same_but_urls. tauto. Qed.

Lemma same_but_urls_trans (a b c : Detection.row) :
  same_but_urls a b -> same_but_urls b c -> same_but_urls a c.
Proof. unfold same_but_urls. intuition congruence. Qed.

Lemma same_but_urls_all (rows : list Detection.row) : Forall2 same_but_urls rows rows.
Proof. induction rows; constructor; auto using same_but_urls_refl. Qed.

Lemma same_but_urls_set_urls (r : Detection.row) (cropped annotated map : string)
    (imgIDs : list string) :
  same_but_urls r (Detection.set_urls r cropped annotated map imgIDs).
Proof. unfold same_but_urls. cbn. tauto. Qed.

Lemma same_but_urls_dedup (r r' : Detection.row) :
  same_but_urls r r' -> same_dedup_columns r r'.
Proof. unfold same_but_urls, same_dedup_columns. tauto. Qed.

Lemma Forall2_trans_app {A : Type} (R : A -> A -> Prop) :
  (forall a b c, R a b -> R b c -> R a c) ->
  forall (a r1 b r2 c : list A),
    Forall2 R (a ++ r1) b -> Forall2 R (b ++ r2) c ->
    Forall2 R (a ++ r1 ++ r2) c.
Proof.
  intros Htrans a r1 b r2 c H1 H2.
  apply Forall2_app_inv_l in H2. destruct H2 as (c1 & c2 & Hb & Hr & ->).
  rewrite app_assoc. apply Forall2_app; [|exact Hr].
  clear - Htrans H1 Hb. revert c1 Hb.
  induction H1 as [|x y l l' Hxy _ IH]; intros c1 Hb.
  - inversion Hb. constructor.
  - inversion Hb as [|? z ? c1' Hyz Hrest]; subst. constructor.
    + eapply Htrans; eassumption.
    + now apply IH.
Qed.

Lemma grown_refl (w : World) : grown w w.
Proof.
  unfold grown. repeat split; exists []; rewrite app_nil_r;
    auto using same_but_urls_all.
Qed.

Lemma grown_trans (w1 w2 w3 : World) : grown w1 w2 -> grown w2 w3 -> grown w1 w3.
Proof.
  intros (D1 & A1 & P1 & M1 & E1 & T1 & C1) (D2 & A2 & P2 & M2 & E2 & T2 & C2).
  unfold grown. repeat split.
  - destruct D1 as [r1 D1], D2 as [r2 D2]. exists (r1 ++ r2).
    exact (Forall2_trans_app _ same_but_urls_trans _ _ _ _ _ D1 D2).
  - destruct A1 as [r1 A1], A2 as [r2 A2]. exists (r1 ++ r2).
    exact (Forall2_trans_app _ same_but_urls_trans _ _ _ _ _ A1 A2).
  - destruct P1 as [r1 P1], P2 as [r2 P2]. exists (r1 ++ r2).
    now rewrite P2, P1, app_assoc.
  - destruct M1 as [r1 M1], M2 as [r2 M2]. exists (r1 ++ r2).
    now rewrite M2, M1, app_assoc.
  - destruct E1 as [r1 E1], E2 as [r2 E2]. exists (r1 ++ r2).
    now rewrite E2, E1, app_assoc.
  - destruct T1 as [r1 T1], T2 as [r2 T2]. exists (r1 ++ r2).
    now rewrite T2, T1, app_assoc.
  - destruct C1 as [r1 C1], C2 as [r2 C2]. exists (r1 ++ r2).
    now rewrite C2, C1, app_assoc.
Qed.

(** A state that differs from [w] in its tables and channels as stated. *)
Lemma grown_by (w w' : World) (drows arows : list Detection.row)
    (prows : list Probable.row) (messages : list Message.t) (emails : list Email)
    (texts : list (string * string)) (counts : list (string * Z)) :
  Forall2 same_but_urls (detections w ++ drows) (detections w') ->
  Forall2 same_but_urls (alerts w ++ arows) (alerts w') ->
  probables w' = probables w ++ prows ->
  published w' = published w ++ messages ->
  emailed w' = emailed w ++ emails ->
  texted w' = texted w ++ texts ->
  ignoreCounter w' = ignoreCounter w ++ counts ->
  grown w w'.
Proof. unfold grown. intros. repeat split; eexists; eassumption. Qed.

Ltac grown_fields :=
  cbn; rewrite ?app_nil_r; try reflexivity; try apply same_but_urls_all.

Lemma Forall2_map_same_but_urls (f : Detection.row -> Detection.row)
    (rows : list Detection.row) :
  (forall r, same_but_urls r (f r)) -> Forall2 same_but_urls rows (map f rows).
Proof. intros H. induction rows; cbn; constructor; auto. Qed.

Lemma update_CroppedID_same_but_urls (cameraID : string) (timestamp : Z)
    (croppedUrl : string) (rows : list Detection.row) :
  Forall2 same_but_urls rows (update_CroppedID cameraID timestamp croppedUrl rows).
Proof.
  apply Forall2_map_same_but_urls. intros r.
  destruct (row_key cameraID timestamp r);
    [apply same_but_urls_set_urls | apply same_but_urls_refl].
Qed.

Lemma updateDBMovie_grown (w : World) (tableName : TableName) (cameraID : string)
    (timestamp : Z) (croppedUrl : string) :
  grown w (updateDBMovie w tableName cameraID timestamp croppedUrl).
Proof.
  destruct tableName;
    (eapply (grown_by _ _ [] [] [] [] [] [] []); cbn; rewrite ?app_nil_r;
     auto using same_but_urls_all, update_CroppedID_same_but_urls).
Qed.

Lemma updateDetectionsDB_grown (w : World) (cameraID : string) (timestamp : Z)
    (croppedUrl annotatedUrl mapUrl : string) (imgIDs : list string) :
  grown w (updateDetectionsDB w cameraID timestamp croppedUrl annotatedUrl mapUrl imgIDs).
Proof.
  eapply (grown_by _ _ [] [] [] [] [] [] []); grown_fields.
  apply Forall2_map_same_but_urls. intros r.
  destruct (row_key cameraID timestamp r);
    [apply same_but_urls_set_urls | apply same_but_urls_refl].
Qed.

Lemma set_fireUpdateQueue_grown (w : World) (queue : list FireUpdate.t) :
  grown w (set_fireUpdateQueue w queue).
Proof.
  eapply (grown_by _ _ [] [] [] [] [] [] []); grown_fields.
Qed.

Lemma enqueue_grown (now : Z) (w w' : World) (cameraID : string)
    (cameraHeading timestamp finalTimestamp : Z) (fireSegment : FireSegment) :
  enqueueFireUpdate now w cameraID cameraHeading timestamp finalTimestamp fireSegment = Ok w' ->
  grown w w'.
Proof.
  unfold enqueueFireUpdate. destruct (negb _); [discriminate|].
  destruct (now >? _); intros H; injection H as <-;
    [apply grown_refl | apply set_fireUpdateQueue_grown].
Qed.

Lemma insertDetectionsDB_grown (E : Env) (w w' : World) (cameraID : string) (timestamp : Z)
    (croppedUrl annotatedUrl mapUrl : string) (fireSegment : FireSegment)
    (polygon : option coords) (sourcePolygons : list (option coords))
    (imgIDs : list string) (sortId fireHeading rangeAngle : Z) :
  insertDetectionsDB E w cameraID timestamp croppedUrl annotatedUrl mapUrl fireSegment polygon
    sourcePolygons imgIDs sortId fireHeading rangeAngle = Ok w' ->
  grown w w'.
Proof.
  unfold insertDetectionsDB, detection_row.
  destruct (weatherScoreOf fireSegment); cbn [bind]; [|discriminate].
  intros H. injection H as <-.
  eapply (grown_by _ _ [_] [] [] [] [] [] []); grown_fields.
Qed.

Lemma insertAlertsDB_grown (E : Env) (w w' : World) (cameraID : string) (timestamp : Z)
    (croppedUrl annotatedUrl mapUrl : string) (fireSegment : FireSegment)
    (polygon : option coords) (sourcePolygons : list (option coords))
    (sortId fireHeading rangeAngle : Z) :
  insertAlertsDB E w cameraID timestamp croppedUrl annotatedUrl mapUrl fireSegment polygon
    sourcePolygons sortId fireHeading rangeAngle = Ok w' ->
  grown w w'.
Proof.
  unfold insertAlertsDB, detection_row.
  destruct (weatherScoreOf fireSegment); cbn [bind]; [|discriminate].
  intros H. injection H as <-.
  eapply (grown_by _ _ [] [_] [] [] [] [] []); grown_fields.
Qed.

Lemma pubsub_grown (E : Env) (w w' : World) (cameraID : string) (timestamp : Z)
    (croppedUrl annotatedUrl mapUrl : string) (fireSegment : FireSegment)
    (polygon : option coords) (sourcePolygons : list (option coords))
    (sortId fireHeading : Z) :
  pubsubFireNotification E w cameraID timestamp croppedUrl annotatedUrl mapUrl fireSegment
    polygon sourcePolygons sortId fireHeading = Ok w' ->
  grown w w'.
Proof.
  unfold pubsubFireNotification.
  destruct (weatherScoreOf fireSegment); cbn [bind]; [|discriminate].
  intros H. injection H as <-.
  eapply (grown_by _ _ [] [] [] [_] [] [] []); grown_fields.
Qed.

Lemma email_grown (E : Env) (w w' : World) (cameraID : string) (fireSegment : FireSegment) :
  emailFireNotification E w cameraID fireSegment = Ok w' -> grown w w'.
Proof.
  unfold emailFireNotification. destruct (Nat.ltb _ _).
  - destruct (googleServices E); [|discriminate]. intros H. injection H as <-.
    eapply (grown_by _ _ [] [] [] [] [_] [] []); grown_fields.
  - intros H. injection H as <-. apply grown_refl.
Qed.

Lemma sms_grown (E : Env) (w : World) (cameraID : string) :
  grown w (smsFireNotification E w cameraID).
Proof.
  apply (grown_by _ _ [] [] [] [] []
           (map (fun phone => (phone, cameraID)) (activePhones E)) []); grown_fields.
Qed.

Lemma recordProbables_grown (E : Env) (w : World) (cameraID : string)
    (heading timestamp : Z) (imgPath : string) (fireSegment : FireSegment)
    (modelId : string) (stateless : bool) (protoNum : Z) :
  grown w (recordProbables E w cameraID heading timestamp imgPath fireSegment modelId
             stateless protoNum).
Proof.
  unfold recordProbables. destruct stateless; cbn [negb]; [apply grown_refl|].
  eapply (grown_by _ _ [] [] [_] [] [] [] []); grown_fields.
Qed.

Lemma fireDetected_grown {S : Shapely} (E : Env) (now_sortId now_enqueue : Z) (w w' : World)
    (cameraID : string) (cameraHeading timestamp fov : Z) (imgPath : string)
    (fireSegment : FireSegment) :
  fireDetected E now_sortId now_enqueue w cameraID cameraHeading timestamp fov imgPath
    fireSegment = Ok w' ->
  grown w w'.
Proof.
  unfold fireDetected.
  destruct (getCameraMapLocation E cameraID) as [[mapFiles camLatitude] camLongitude].
  destruct (getHeadingRange E cameraHeading fov (MinX fireSegment) (MaxX fireSegment)
              (imageWidth E imgPath)) as [fireHeading rangeAngle].
  destruct (findIgnoredViewHeading E cameraID fireHeading rangeAngle).
  { intros H. injection H as <-.
    eapply (grown_by _ _ [] [] [] [] [] [] [_]); grown_fields. }
  destruct (intersectLand _) as [view|e]; cbn [bind]; [|discriminate].
  destruct (consensus w timestamp view) as [[polygon sourcePolygons]|e];
    cbn [bind]; [|discriminate].
  destruct (checkWeatherInfo E _ _ _ _ _ _) as [ws|e]; cbn [bind]; [|discriminate].
  destruct (insertDetectionsDB E w _ _ _ _ _ _ _ _ _ _ _ _) as [w1|e] eqn:Ins;
    cbn [bind]; [|discriminate].
  apply insertDetectionsDB_grown in Ins.
  destruct (genAnnotatedMaps E _ _ _ _ _ _) as [mapUrl|e]; cbn [bind]; [|discriminate].
  destruct (genAnnotatedImages E cameraID cameraHeading timestamp)
    as [[[croppedID imgIDs] annotatedID] finalTimestamp].
  destruct (truthy_str croppedID); cbn [negb];
    [|intros H; injection H as <-; exact Ins].
  set (w2 := updateDetectionsDB _ _ _ _ _ _ _).
  assert (G2 : grown w w2)
    by (eapply grown_trans; [exact Ins | apply updateDetectionsDB_grown]).
  destruct (enqueueFireUpdate now_enqueue w2 _ _ _ _ _) as [w3|e] eqn:Enq;
    cbn [bind]; [|discriminate].
  assert (G3 : grown w w3) by (eapply grown_trans; [exact G2 | eapply enqueue_grown, Enq]).
  destruct (publishAlert E w3 _ _ _ _ _ _ _ _);
    [|intros H; injection H as <-; exact G3].
  destruct (insertAlertsDB E w3 _ _ _ _ _ _ _ _ _ _ _) as [w4|e] eqn:Al;
    cbn [bind]; [|discriminate].
  destruct (pubsubFireNotification E w4 _ _ _ _ _ _ _ _ _ _) as [w5|e] eqn:Pub;
    cbn [bind]; [|discriminate].
  destruct (emailFireNotification E w5 cameraID _) as [w6|e] eqn:Em;
    cbn [bind]; [|discriminate].
  intros H. injection H as <-.
  eapply grown_trans; [exact G3|].
  eapply grown_trans; [eapply insertAlertsDB_grown, Al|].
  eapply grown_trans; [eapply pubsub_grown, Pub|].
  eapply grown_trans; [eapply email_grown, Em|].
  apply sms_grown.
Qed.

Lemma mainDetection_grown {S : Shapely} (E : Env) (now_sortId now_enqueue : Z) (w w' : World)
    (cameraID : string) (heading timestamp fov : Z) (imgPath : string)
    (fireSegment : option FireSegment) (modelId : string)
    (stateless useArchivedImages : bool) :
  mainDetection E now_sortId now_enqueue w cameraID heading timestamp fov imgPath fireSegment
    modelId stateless useArchivedImages = Ok w' ->
  grown w w'.
Proof.
  unfold mainDetection.
  destruct fireSegment as [fs|]; [|intros H; injection H as <-; apply grown_refl].
  destruct useArchivedImages; cbn [negb]; [intros H; injection H as <-; apply grown_refl|].
  destruct (negb _).
  - intros H. eapply grown_trans; [apply recordProbables_grown|].
    eapply fireDetected_grown, H.
  - intros H. injection H as <-. apply recordProbables_grown.
Qed.

Lemma process_grown {S : Shapely} (E : Env) (now_pop now_enqueue : Z) (w w' : World) :
  processEnqueuedUpdates E now_pop now_enqueue w = Ok w' -> grown w w'.
Proof.
  unfold processEnqueuedUpdates, constants_fireUpdateQueue.
  destruct (popFireUpdate now_pop (fireUpdateQueue w)) as [[fireEvent|] queue].
  2:{ intros H. injection H as <-. apply set_fireUpdateQueue_grown. }
  set (w0 := set_fireUpdateQueue w queue).
  assert (G0 : grown w w0) by apply set_fireUpdateQueue_grown.
  assert (Henq : forall w2 cameraID cameraHeading timestamp finalTimestamp fireSegment,
            grown w w2 ->
            enqueueFireUpdate now_enqueue w2 cameraID cameraHeading timestamp finalTimestamp
              fireSegment = Ok w' ->
            grown w w').
  { intros w2 ? ? ? ? ? G2 Enq. eapply grown_trans; [exact G2 | eapply enqueue_grown, Enq]. }
  destruct (queryDetections _ _ _) as [[detectData|]|]; cbn [bind];
    [| now apply Henq | discriminate].
  destruct (checkNewImage E _ _ _ _); [|now apply Henq].
  destruct (updateMovie E _ _ _) as [[[movieID finalTimestamp] isFinalMovie]|];
    [|discriminate].
  destruct (truthy_str movieID && truthy_int finalTimestamp).
  2:{ intros H. injection H as <-. exact G0. }
  destruct (last_opt _); [|discriminate].
  set (w1 := updateDBMovie _ detections_table _ _ _).
  assert (G1 : grown w w1) by (eapply grown_trans; [exact G0 | apply updateDBMovie_grown]).
  destruct (publishAlert E _ _ _ _ _ _ _ _ _).
  - set (w2 := updateDBMovie w1 alerts_table _ _ _).
    assert (G2 : grown w w2)
      by (eapply grown_trans; [exact G1 | apply updateDBMovie_grown]).
    destruct (pubsubFireNotification E w2 _ _ _ _ _ _ _ _ _ _) as [w3|e] eqn:Pub;
      cbn [bind]; [|discriminate].
    assert (G3 : grown w w3) by (eapply grown_trans; [exact G2 | eapply pubsub_grown, Pub]).
    destruct isFinalMovie; cbn [negb].
    + intros H. injection H as <-. exact G3.
    + apply Henq. exact G3.
  - cbn [bind]. destruct isFinalMovie; cbn [negb].
    + intros H. injection H as <-. exact G1.
    + apply Henq. exact G1.
Qed.

Lemma mainIteration_grown {S : Shapely} (E : Env) (modelId : string)
    (stateless useArchivedImages : bool) (limit : Z) (i : Loop.input) (w w' : World)
    (c c' : Loop.counters) (returned : bool) :
  mainIteration E modelId stateless useArchivedImages limit i w c = Ok (w', c', returned) ->
  grown w w'.
Proof.
  unfold mainIteration.
  destruct (processEnqueuedUpdates E _ _ w) as [w1|e] eqn:Hp; cbn [bind]; [|discriminate].
  apply process_grown in Hp.
  destruct (Loop.cameraID (Loop.fetched i)) as [cameraID|];
    [|intros H; injection H as <- _ _; exact Hp].
  destruct (negb (truthy_str (Some cameraID)));
    [intros H; injection H as <- _ _; exact Hp|].
  destruct (mainDetection E _ _ w1 _ _ _ _ _ _ _ _ _) as [w2|e] eqn:Hd;
    cbn [bind]; [|discriminate].
  apply mainDetection_grown in Hd.
  intros H. injection H as <- _ _. eapply grown_trans; eassumption.
Qed.

(** X10.  Nothing is ever deleted.  Through any number of passes of the main loop
    that do not raise, the rows of the [detections] and [alerts] tables stay
    where they are, change in nothing but the URLs of their evidence, and are
    followed by the rows added since; the probable observations, the
    published messages, the emails, the SMS and the ignore counts are those
    there were, followed by the new ones. *)
Theorem tables_and_channels_only_grow {S : Shapely} (E : Env) (modelId : string)
    (stateless useArchivedImages : bool) (limit : Z) (inputs : list Loop.input)
    (w w' : World) (c c' : Loop.counters) (returned : bool) :
  mainLoop E modelId stateless useArchivedImages limit inputs w c = Ok (w', c', returned) ->
  grown w w'.
Proof.
  revert w c. induction inputs as [|i inputs IH]; intros w c; cbn [mainLoop].
  - intros H. injection H as <- _ _. apply grown_refl.
  - destruct (mainIteration E modelId stateless useArchivedImages limit i w c)
      as [[[w1 c1] r1]|e] eqn:Hi; cbn [bind]; [|discriminate].
    apply mainIteration_grown in Hi.
    destruct r1.
    + intros H. injection H as <- _ _. exact Hi.
    + intros H. eapply grown_trans; [exact Hi | eapply IH, H].
Qed.


Lemma tables_and_channels_only_grow_witness :
  exists w' c',
    mainLoop (S := RectShapely) (demoEnv [940; 1000; 1060] 0) "always" false false 1000000000
      [demoInput 1001 "camA" 1000 (fst (DetectAlways.detect 1001));
       demoInput 1100 "camB" 1090 None]
      dedupWorld zeroCounters = Ok (w', c', false) /\
    grown dedupWorld w'.
Proof.
  let v := eval vm_compute in
    (mainLoop (S := RectShapely) (demoEnv [940; 1000; 1060] 0) "always" false false
       1000000000
       [demoInput 1001 "camA" 1000 (fst (DetectAlways.detect 1001));
        demoInput 1100 "camB" 1090 None]
       dedupWorld zeroCounters) in
  match v with
  | Ok (?w', ?c', false) =>
      exists w', c';
      assert (Hrun : mainLoop (S := RectShapely) (demoEnv [940; 1000; 1060] 0) "always"
                       false false 1000000000
                       [demoInput 1001 "camA" 1000 (fst (DetectAlways.detect 1001));
                        demoInput 1100 "camB" 1090 None]
                       dedupWorld zeroCounters = Ok (w', c', false))
        by (vm_compute; reflexivity);
      split; [exact Hrun | exact (tables_and_channels_only_grow _ _ _ _ _ _ _ _ _ _ _ Hrun)]
  end.
Defined.

(** ** The main loop *)

Lemma process_empty_queue {S : Shapely} (E : Env) (now_pop now_enqueue : Z) (w : World) :
  fireUpdateQueue w = [] -> processEnqueuedUpdates E now_pop now_enqueue w = Ok w.
Proof.
  intros Hq. unfold processEnqueuedUpdates, constants_fireUpdateQueue.
  rewrite Hq. cbn [popFireUpdate]. rewrite <- Hq. now rewrite set_fireUpdateQueue_same.
Qed.

Lemma mainDetection_stateless {S : Shapely} (E : Env) (now_sortId now_enqueue : Z) (w : World)
    (cameraID : string) (heading timestamp fov : Z) (imgPath : string)
    (fireSegment : option FireSegment) (modelId : string)
    (stateless useArchivedImages : bool) :
  stateless = true \/ useArchivedImages = true ->
  mainDetection E now_sortId now_enqueue w cameraID heading timestamp fov imgPath fireSegment
    modelId stateless useArchivedImages = Ok w.
Proof.
  intros H. unfold mainDetection. destruct fireSegment as [fs|]; [|reflexivity].
  destruct useArchivedImages; [reflexivity|]. cbn [negb].
  destruct H as [->|H]; [|discriminate].
  unfold recordProbables. cbn [negb]. now rewrite orb_true_r.
Qed.

(** X11.  A process that keeps no state changes none.  Started with [noState], or
    on archived images, the main loop passes through any inputs without
    raising and leaves the tables, the queue and every channel as they were:
    no probable is recorded, [fireDetected] is not called, and the queue,
    empty when a process starts, stays empty. *)
Theorem stateless_run_changes_nothing {S : Shapely} (E : Env) (modelId : string)
    (stateless useArchivedImages : bool) (limit : Z) (inputs : list Loop.input)
    (w : World) (c : Loop.counters) :
  stateless = true \/ useArchivedImages = true ->
  fireUpdateQueue w = [] ->
  exists c' returned,
    mainLoop E modelId stateless useArchivedImages limit inputs w c = Ok (w, c', returned) /\
    Loop.numAlerts c' = Loop.numAlerts c.
Proof.
  intros Hmode Hq. revert c. induction inputs as [|i inputs IH]; intros c; cbn [mainLoop].
  - exists c, false. split; reflexivity.
  - unfold mainIteration. rewrite process_empty_queue by exact Hq. cbn [bind].
    destruct (Loop.cameraID (Loop.fetched i)) as [cameraID|]; cbn [bind].
    2:{ destruct (IH c) as (c' & r & H & Ha). exists c', r. split; assumption. }
    destruct (negb (truthy_str (Some cameraID))); cbn [bind].
    { destruct (IH c) as (c' & r & H & Ha). exists c', r. split; assumption. }
    rewrite mainDetection_stateless by exact Hmode. cbn [bind].
    assert (Hfollowed :
              match Loop.detected i with
              | Some fireSegment =>
                  negb useArchivedImages
                  && negb (isDuplicateProbables
                             (recordProbables E w cameraID (Loop.heading (Loop.fetched i))
                                (Loop.timestamp (Loop.fetched i))
                                (Loop.imgPath (Loop.fetched i)) fireSegment modelId
                                stateless (constants_protoNum E))
                             cameraID (Loop.heading (Loop.fetched i))
                             (Loop.timestamp (Loop.fetched i)) (constants_protoNum E)
                           || stateless)
              | None => false
              end = false).
    { destruct (Loop.detected i); [|reflexivity].
      destruct Hmode as [->| ->]; [|reflexivity].
      now rewrite orb_true_r, andb_false_r. }
    rewrite Hfollowed.
    match goal with
    | |- context [if ?b then Ok (w, ?c1, true) else _] =>
        destruct b; [exists c1, true; split; reflexivity|];
        destruct (IH c1) as (c' & r & H & Ha); exists c', r; split; [exact H | exact Ha]
    end.
Qed.

Lemma stateless_run_changes_nothing_witness :
  exists c',
    mainLoop (S := RectShapely) (demoEnv [940; 1000; 1060] 0) "always" true false 1000000000
      [demoInput 1001 "camA" 1000 (fst (DetectAlways.detect 1001));
       demoInput 1100 "camB" 1090 (fst (DetectAlways.detect 1100))]
      dedupWorld zeroCounters = Ok (dedupWorld, c', false) /\
    Loop.numImages c' = 2 /\ Loop.numProbables c' = 2 /\ Loop.numAlerts c' = 0.
Proof.
  destruct (stateless_run_changes_nothing (S := RectShapely) (demoEnv [940; 1000; 1060] 0)
              "always" true false 1000000000
              [demoInput 1001 "camA" 1000 (fst (DetectAlways.detect 1001));
               demoInput 1100 "camB" 1090 (fst (DetectAlways.detect 1100))]
              dedupWorld zeroCounters) as (c' & returned & Hrun & Ha).
  - left. reflexivity.
  - reflexivity.
  - exists c'. vm_compute in Hrun. injection Hrun as <- <-. repeat split; reflexivity.
Defined.

(** What a pass does to the counters. *)
Lemma mainIteration_counters {S : Shapely} (E : Env) (modelId : string)
    (stateless useArchivedImages : bool) (limit : Z) (i : Loop.input) (w w' : World)
    (c c' : Loop.counters) (returned : bool) :
  mainIteration E modelId stateless useArchivedImages limit i w c = Ok (w', c', returned) ->
  (c' = c /\ returned = false) \/
  (Loop.numImages c' = Loop.numImages c + 1 /\
   returned = (Loop.numImages c' mod 10 =? 0) && (limit <=? Loop.numImages c') /\
   Loop.numProbables c' =
     Loop.numProbables c + match Loop.detected i with Some _ => 1 | None => 0 end /\
   Loop.numAlerts c <= Loop.numAlerts c' <=
     Loop.numAlerts c + match Loop.detected i with Some _ => 1 | None => 0 end).
Proof.
  unfold mainIteration.
  destruct (processEnqueuedUpdates E _ _ w) as [w1|e]; cbn [bind]; [|discriminate].
  destruct (Loop.cameraID (Loop.fetched i)) as [cameraID|];
    [|intros H; injection H as _ <- <-; left; split; reflexivity].
  destruct (negb (truthy_str (Some cameraID)));
    [intros H; injection H as _ <- <-; left; split; reflexivity|].
  destruct (mainDetection E _ _ w1 _ _ _ _ _ _ _ _ _) as [w2|e]; cbn [bind]; [|discriminate].
  intros H. injection H as _ <- <-. right. cbn [Loop.numImages Loop.numProbables Loop.numAlerts].
  split; [reflexivity|]. split; [reflexivity|].
  destruct (Loop.detected i) as [fs|].
  - split; [reflexivity|]. destruct (negb useArchivedImages && _); lia.
  - split; lia.
Qed.

(** X12.  The limit on the number of images is looked at after every tenth image
    only.  When [main] returns because of the limit, the number of images it
    has classified is the first positive multiple of ten that is not below
    the limit: with a limit of 25 it returns after 30 images.  The counters
    of the statistics are ordered throughout: what is counted as an alert is
    a probable handed to [fireDetected], whether or not an alert was sent,
    and there are at most as many of them as probables, and at most as many
    probables as images. *)
Theorem image_limit_is_rounded_up_to_ten {S : Shapely} (E : Env) (modelId : string)
    (stateless useArchivedImages : bool) (limit : Z) (inputs : list Loop.input)
    (w w' : World) (c' : Loop.counters) (returned : bool) :
  mainLoop E modelId stateless useArchivedImages limit inputs w zeroCounters
    = Ok (w', c', returned) ->
  0 <= Loop.numAlerts c' <= Loop.numProbables c' /\
  Loop.numProbables c' <= Loop.numImages c' /\
  (returned = true ->
   0 < Loop.numImages c' /\ Loop.numImages c' mod 10 = 0 /\ limit <= Loop.numImages c') /\
  (forall m, 0 < m <= Loop.numImages c' -> m mod 10 = 0 -> limit <= m ->
     returned = true /\ m = Loop.numImages c').
Proof.
  assert (Hgen : forall inputs w c,
            0 <= Loop.numAlerts c <= Loop.numProbables c ->
            Loop.numProbables c <= Loop.numImages c ->
            (forall m, 0 < m <= Loop.numImages c -> m mod 10 = 0 -> limit <= m -> False) ->
            mainLoop E modelId stateless useArchivedImages limit inputs w c
              = Ok (w', c', returned) ->
            0 <= Loop.numAlerts c' <= Loop.numProbables c' /\
            Loop.numProbables c' <= Loop.numImages c' /\
            (returned = true ->
             0 < Loop.numImages c' /\ Loop.numImages c' mod 10 = 0 /\
             limit <= Loop.numImages c') /\
            (forall m, 0 < m <= Loop.numImages c' -> m mod 10 = 0 -> limit <= m ->
               returned = true /\ m = Loop.numImages c')).
  { clear inputs w. induction inputs as [|i inputs IH]; intros w c Ha Hp Hno; cbn [mainLoop].
    - intros H. injection H as _ <- <-. split; [lia|]. split; [lia|]. split; [discriminate|].
      intros m Hm1 Hm2 Hm3. exfalso. eapply Hno; eassumption.
    - destruct (mainIteration E modelId stateless useArchivedImages limit i w c)
        as [[[w1 c1] r1]|e] eqn:Hi; cbn [bind]; [|discriminate].
      apply mainIteration_counters in Hi.
      destruct Hi as [[-> ->]|(Hn & Hr & Hpr & Hal)].
      + apply IH; assumption.
      + assert (Hd : 0 <= match Loop.detected i with Some _ => 1 | None => 0 end <= 1)
          by (destruct (Loop.detected i); lia).
        destruct r1.
        * intros H. injection H as _ <- <-.
          symmetry in Hr. apply andb_true_iff in Hr. destruct Hr as [Hm Hl].
          apply Z.eqb_eq in Hm. apply Z.leb_le in Hl.
          split; [lia|]. split; [lia|]. split; [intros _; lia|].
          intros m Hm1 Hm2 Hm3. split; [reflexivity|].
          destruct (Z.eq_dec m (Loop.numImages c1)) as [|Hne]; [assumption|].
          exfalso. apply (Hno m); [lia | assumption | assumption].
        * apply IH; try lia.
          intros m Hm1 Hm2 Hm3.
          destruct (Z.eq_dec m (Loop.numImages c1)) as [->|Hne].
          -- symmetry in Hr. apply andb_false_iff in Hr.
             destruct Hr as [Hr|Hr]; [apply Z.eqb_neq in Hr | apply Z.leb_gt in Hr]; lia.
          -- apply (Hno m); [lia | assumption | assumption]. }
  apply Hgen; cbn; try lia.
Qed.

Lemma image_limit_is_rounded_up_to_ten_witness :
  exists w' c',
    mainLoop (S := RectShapely) (demoEnv [] 0) "always" true false 5
      (repeat (demoInput 1001 "camA" 1000 None) 12) emptyWorld zeroCounters
    = Ok (w', c', true) /\
    Loop.numImages c' = 10.
Proof.
  let v := eval vm_compute in
    (mainLoop (S := RectShapely) (demoEnv [] 0) "always" true false 5
       (repeat (demoInput 1001 "camA" 1000 None) 12) emptyWorld zeroCounters) in
  match v with
  | Ok (?w', ?c', true) =>
      exists w', c';
      assert (Hrun : mainLoop (S := RectShapely) (demoEnv [] 0) "always" true false 5
                       (repeat (demoInput 1001 "camA" 1000 None) 12) emptyWorld zeroCounters
                     = Ok (w', c', true)) by (vm_compute; reflexivity);
      split; [exact Hrun|];
      destruct (image_limit_is_rounded_up_to_ten _ _ _ _ _ _ _ _ _ _ Hrun)
        as (_ & _ & _ & H);
      symmetry; apply (H 10); [cbn; lia | reflexivity | lia]
  end.
Defined.

(** X13.  Under the policy of [detect_always.py] every image is a probable: the
    policy returns a fire segment whatever the image, so through any passes
    of the main loop the count of probables advances with the count of
    images. *)
Theorem always_policy_counts_every_image {S : Shapely} (E : Env)
    (stateless useArchivedImages : bool) (limit : Z) (inputs : list Loop.input)
    (w w' : World) (c c' : Loop.counters) (returned : bool) :
  (forall i, In i inputs -> exists now, Loop.detected i = fst (DetectAlways.detect now)) ->
  mainLoop E DetectAlways.modelId stateless useArchivedImages limit inputs w c
    = Ok (w', c', returned) ->
  Loop.numProbables c' - Loop.numProbables c = Loop.numImages c' - Loop.numImages c.
Proof.
  revert w c. induction inputs as [|i inputs IH]; intros w c Hall; cbn [mainLoop].
  - intros H. injection H as _ <- _. lia.
  - destruct (mainIteration E DetectAlways.modelId stateless useArchivedImages limit i w c)
      as [[[w1 c1] r1]|e] eqn:Hi; cbn [bind]; [|discriminate].
    apply mainIteration_counters in Hi.
    destruct (Hall i (or_introl eq_refl)) as [now Hd].
    assert (Hstep : Loop.numProbables c1 - Loop.numProbables c
                    = Loop.numImages c1 - Loop.numImages c).
    { destruct Hi as [[-> _]|(Hn & _ & Hp & _)]; [lia|].
      rewrite Hd in Hp. cbn in Hp. lia. }
    destruct r1.
    + intros H. injection H as _ <- _. exact Hstep.
    + intros H. apply IH in H; [lia|]. intros j Hj. apply Hall. now right.
Qed.

Lemma always_policy_counts_every_image_witness :
  exists w' c',
    mainLoop (S := RectShapely) (demoEnv [940; 1000; 1060] 0) DetectAlways.modelId false false
      1000000000
      [demoInput 1001 "camA" 1000 (fst (DetectAlways.detect 1001));
       demoInput 1100 "camA" 1090 (fst (DetectAlways.detect 1100))]
      emptyWorld zeroCounters = Ok (w', c', false) /\
    Loop.numProbables c' = Loop.numImages c'.
Proof.
  let v := eval vm_compute in
    (mainLoop (S := RectShapely) (demoEnv [940; 1000; 1060] 0) DetectAlways.modelId false
       false 1000000000
       [demoInput 1001 "camA" 1000 (fst (DetectAlways.detect 1001));
        demoInput 1100 "camA" 1090 (fst (DetectAlways.detect 1100))]
       emptyWorld zeroCounters) in
  match v with
  | Ok (?w', ?c', false) =>
      exists w', c';
      assert (Hrun : mainLoop (S := RectShapely) (demoEnv [940; 1000; 1060] 0)
                       DetectAlways.modelId false false 1000000000
                       [demoInput 1001 "camA" 1000 (fst (DetectAlways.detect 1001));
                        demoInput 1100 "camA" 1090 (fst (DetectAlways.detect 1100))]
                       emptyWorld zeroCounters = Ok (w', c', false))
        by (vm_compute; reflexivity);
      split; [exact Hrun|];
      assert (Hall : forall i,
                In i [demoInput 1001 "camA" 1000 (fst (DetectAlways.detect 1001));
                      demoInput 1100 "camA" 1090 (fst (DetectAlways.detect 1100))] ->
                exists now, Loop.detected i = fst (DetectAlways.detect now))
        by (intros i [<-|[<-|[]]]; exists 0%Q; reflexivity);
      pose proof (always_policy_counts_every_image _ _ _ _ _ _ _ _ _ _ Hall Hrun) as H;
      cbn in H; cbn; lia
  end.
Defined.

(** ** The [detections] table: writing and reading back *)

Lemma json_loads_polygons_map (cs : list coords) : json_loads_polygons (map Some cs) = Ok cs.
Proof. now apply json_loads_polygons_ok. Qed.

Lemma filter_app_none {A : Type} (f : A -> bool) (l : list A) (x : A) :
  (forall y, In y l -> f y = false) -> f x = true -> filter f (l ++ [x]) = [x].
Proof.
  intros Hl Hx. rewrite filter_app, (filter_nil f l Hl). cbn. now rewrite Hx.
Qed.

(** X14.  An event that was inserted reads back.  On a table with no row for the
    camera and timestamp, [insertDetectionsDB] followed by [queryDetections]
    returns the score, URLs, polygon, source polygons, prototype number,
    weather score, sort key, heading and width that were inserted, provided
    the polygon and the source polygons are not null.  An event inserted
    with a null polygon is stored with the text of [None], which
    [json.loads] does not parse: [queryDetections] raises. *)
Theorem inserted_event_reads_back (E : Env) (w w' : World) (cameraID : string)
    (timestamp : Z) (croppedUrl annotatedUrl mapUrl : string) (fireSegment : FireSegment)
    (polygon : option coords) (sourcePolygons : list (option coords))
    (imgIDs : list string) (sortId fireHeading rangeAngle : Z) :
  (forall r, In r (detections w) -> row_key cameraID timestamp r = false) ->
  insertDetectionsDB E w cameraID timestamp croppedUrl annotatedUrl mapUrl fireSegment polygon
    sourcePolygons imgIDs sortId fireHeading rangeAngle = Ok w' ->
  (forall p sources weather,
     polygon = Some p -> sourcePolygons = map Some sources ->
     weatherScore fireSegment = Some weather ->
     queryDetections w' cameraID timestamp
     = Ok (Some {| DetectData.adjScore := imgScoreOf fireSegment;
                   DetectData.annotatedUrl := annotatedUrl;
                   DetectData.croppedUrl := croppedUrl;
                   DetectData.mapUrl := mapUrl;
                   DetectData.polygon := p;
                   DetectData.sourcePolygons := sources;
                   DetectData.isProto := int_flag (isProto (isProtoStatics E) cameraID);
                   DetectData.weatherScore := weather;
                   DetectData.sortId := sortId;
                   DetectData.fireHeading := fireHeading;
                   DetectData.angularWidth := rangeAngle |})) /\
  (polygon = None -> queryDetections w' cameraID timestamp = Raise JSONDecodeError) /\
  (forall cameraID' timestamp',
     cameraID' <> cameraID \/ timestamp' <> timestamp ->
     queryDetections w' cameraID' timestamp' = queryDetections w cameraID' timestamp').
Proof.
  intros Hnew. unfold insertDetectionsDB, detection_row.
  destruct (weatherScore fireSegment) as [ws|] eqn:Hws;
    unfold weatherScoreOf; rewrite Hws; cbn [bind]; [|discriminate].
  intros H. injection H as <-.
  set (row := Detection.Build_row _ _ _ _ _ _ _ _ _ _ _ _ _ _).
  assert (Hkey : row_key cameraID timestamp row = true)
    by (apply row_key_true; split; reflexivity).
  assert (Hq : filter (row_key cameraID timestamp) (detections w ++ [row]) = [row])
    by (apply filter_app_none; assumption).
  split; [|split].
  - intros p sources weather -> -> Hw. injection Hw as <-.
    unfold queryDetections. cbn [detections set_detections]. rewrite Hq.
    cbn [row Detection.polygon Detection.sourcePolygons json_loads_polygon bind].
    rewrite json_loads_polygons_map. reflexivity.
  - intros ->. unfold queryDetections. cbn [detections set_detections]. rewrite Hq.
    reflexivity.
  - intros cameraID' timestamp' Hdiff.
    unfold queryDetections. cbn [detections set_detections].
    rewrite filter_app. cbn [filter].
    replace (row_key cameraID' timestamp' row) with false; [now rewrite app_nil_r|].
    symmetry. destruct (row_key cameraID' timestamp' row) eqn:K; [|reflexivity].
    apply row_key_true in K. cbn in K. destruct K as [<- <-].
    destruct Hdiff; contradiction.
Qed.

Lemma inserted_event_reads_back_witness :
  exists w',
    insertDetectionsDB (demoEnv [] 0) emptyWorld "camA" 1000 "movie" "annotated" "mapurl"
      demoSegment (Some (rectangle 0 2 0 2)) [Some (rectangle 0 2 0 2)] [] 1001 90 20
    = Ok w' /\
    queryDetections w' "camA" 1000 = Ok (Some pendingDetectData).
Proof.
  eexists. split; [reflexivity|].
  refine (proj1 (inserted_event_reads_back (demoEnv [] 0) emptyWorld _ "camA" 1000 "movie"
                   "annotated" "mapurl" demoSegment (Some (rectangle 0 2 0 2))
                   [Some (rectangle 0 2 0 2)] [] 1001 90 20 _ eq_refl)
            (rectangle 0 2 0 2) [rectangle 0 2 0 2] 1%Q eq_refl eq_refl eq_refl).
  intros r [].
Defined.

Lemma filter_map_key (cameraID : string) (timestamp : Z)
    (f : Detection.row -> Detection.row) (rows : list Detection.row) :
  (forall r, Detection.CameraName (f r) = Detection.CameraName r /\
             Detection.Timestamp (f r) = Detection.Timestamp r) ->
  filter (row_key cameraID timestamp) (map f rows)
  = map f (filter (row_key cameraID timestamp) rows).
Proof.
  intros Hf. induction rows as [|r rows IH]; [reflexivity|]. cbn [map filter].
  assert (Hk : row_key cameraID timestamp (f r) = row_key cameraID timestamp r).
  { unfold row_key. destruct (Hf r) as [-> ->]. reflexivity. }
  rewrite Hk, IH. now destruct (row_key cameraID timestamp r).
Qed.

(** X15.  The URLs of an event's evidence read back.  After [updateDetectionsDB]
    the event reads back with the new movie, image and map URLs and
    everything else as before; after [updateDBMovie] on the [detections]
    table with the new movie URL alone; an update for a camera and timestamp
    that have no row changes no answer of [queryDetections], and neither
    does an update of the [alerts] table. *)
Theorem updated_urls_read_back (w : World) (cameraID : string) (timestamp : Z)
    (croppedUrl annotatedUrl mapUrl : string) (imgIDs : list string) :
  (forall detectData,
     queryDetections w cameraID timestamp = Ok (Some detectData) ->
     queryDetections
       (updateDetectionsDB w cameraID timestamp croppedUrl annotatedUrl mapUrl imgIDs)
       cameraID timestamp
     = Ok (Some {| DetectData.adjScore := DetectData.adjScore detectData;
                   DetectData.annotatedUrl := annotatedUrl;
                   DetectData.croppedUrl := croppedUrl;
                   DetectData.mapUrl := mapUrl;
                   DetectData.polygon := DetectData.polygon detectData;
                   DetectData.sourcePolygons := DetectData.sourcePolygons detectData;
                   DetectData.isProto := DetectData.isProto detectData;
                   DetectData.weatherScore := DetectData.weatherScore detectData;
                   DetectData.sortId := DetectData.sortId detectData;
                   DetectData.fireHeading := DetectData.fireHeading detectData;
                   DetectData.angularWidth := DetectData.angularWidth detectData |}) /\
     queryDetections (updateDBMovie w detections_table cameraID timestamp croppedUrl)
       cameraID timestamp
     = Ok (Some {| DetectData.adjScore := DetectData.adjScore detectData;
                   DetectData.annotatedUrl := DetectData.annotatedUrl detectData;
                   DetectData.croppedUrl := croppedUrl;
                   DetectData.mapUrl := DetectData.mapUrl detectData;
                   DetectData.polygon := DetectData.polygon detectData;
                   DetectData.sourcePolygons := DetectData.sourcePolygons detectData;
                   DetectData.isProto := DetectData.isProto detectData;
                   DetectData.weatherScore := DetectData.weatherScore detectData;
                   DetectData.sortId := DetectData.sortId detectData;
                   DetectData.fireHeading := DetectData.fireHeading detectData;
                   DetectData.angularWidth := DetectData.angularWidth detectData |})) /\
  (queryDetections w cameraID timestamp = Ok None ->
   updateDetectionsDB w cameraID timestamp croppedUrl annotatedUrl mapUrl imgIDs = w /\
   updateDBMovie w detections_table cameraID timestamp croppedUrl = w) /\
  (forall cameraID' timestamp',
     queryDetections (updateDBMovie w alerts_table cameraID timestamp croppedUrl)
       cameraID' timestamp'
     = queryDetections w cameraID' timestamp').
Proof.
  split; [|split].
  - intros detectData Hq. unfold queryDetections in *.
    unfold updateDetectionsDB, updateDBMovie, update_CroppedID.
    cbn [detections set_detections].
    rewrite !filter_map_key by (intros r; destruct (row_key cameraID timestamp r);
                                cbn; split; reflexivity).
    destruct (filter (row_key cameraID timestamp) (detections w)) as [|r rows] eqn:F;
      [discriminate|].
    assert (Hr : row_key cameraID timestamp r = true).
    { assert (Hin : In r (filter (row_key cameraID timestamp) (detections w)))
        by (rewrite F; now left).
      apply filter_In in Hin. tauto. }
    cbn [map]. rewrite Hr.
    cbn [Detection.set_urls Detection.set_CroppedID Detection.polygon
         Detection.sourcePolygons Detection.AdjScore Detection.ImageID Detection.CroppedID
         Detection.MapID Detection.IsProto Detection.WeatherScore Detection.SortId
         Detection.FireHeading Detection.AngularWidth Detection.ImgSequence].
    destruct (json_loads_polygon (Detection.polygon r)) as [p|e]; cbn [bind] in *;
      [|discriminate].
    destruct (json_loads_polygons (Detection.sourcePolygons r)) as [sp|e]; cbn [bind] in *;
      [|discriminate].
    injection Hq as <-. split; reflexivity.
  - intros Hq. unfold queryDetections in Hq.
    assert (Hnone : forall r, In r (detections w) -> row_key cameraID timestamp r = false).
    { intros r Hr. destruct (row_key cameraID timestamp r) eqn:K; [|reflexivity].
      assert (Hin : In r (filter (row_key cameraID timestamp) (detections w)))
        by (apply filter_In; split; assumption).
      destruct (filter (row_key cameraID timestamp) (detections w)) as [|r0 rows];
        [destruct Hin|].
      destruct (json_loads_polygon (Detection.polygon r0)); cbn [bind] in Hq;
        [|discriminate].
      destruct (json_loads_polygons (Detection.sourcePolygons r0)); cbn [bind] in Hq;
        discriminate. }
    assert (Hmap : forall f : Detection.row -> Detection.row,
              map (fun r => if row_key cameraID timestamp r then f r else r) (detections w)
              = detections w).
    { intros f. rewrite <- (map_id (detections w)) at 2. apply map_ext_in.
      intros r Hr. now rewrite (Hnone r Hr). }
    unfold updateDetectionsDB, updateDBMovie, update_CroppedID.
    rewrite !Hmap. destruct w; split; reflexivity.
  - intros cameraID' timestamp'. reflexivity.
Qed.

Lemma updated_urls_read_back_witness :
  queryDetections (updateDBMovie pendingWorld detections_table "camA" 1000 "movie2")
    "camA" 1000
  = Ok (Some {| DetectData.adjScore := 0.9%Q;
                DetectData.annotatedUrl := "annotated";
                DetectData.croppedUrl := "movie2";
                DetectData.mapUrl := "mapurl";
                DetectData.polygon := rectangle 0 2 0 2;
                DetectData.sourcePolygons := [rectangle 0 2 0 2];
                DetectData.isProto := 0;
                DetectData.weatherScore := 1%Q;
                DetectData.sortId := 1001;
                DetectData.fireHeading := 90;
                DetectData.angularWidth := 20 |}).
Proof.
  exact (proj2 (proj1 (updated_urls_read_back pendingWorld "camA" 1000 "movie2" "" "" [])
                  pendingDetectData eq_refl)).
Defined.

(** ** The frames of a movie *)

Lemma length_lastn {A : Type} (n : nat) (l : list A) : (List.length (lastn n l) <= n)%nat.
Proof. unfold lastn. rewrite length_skipn. lia. Qed.

Lemma length_filter_le {A : Type} (f : A -> bool) (l : list A) :
  (List.length (filter f l) <= List.length l)%nat.
Proof. induction l as [|a l IH]; cbn; [lia|]. destruct (f a); cbn; lia. Qed.

(** X16.  A movie is made of at most eight frames: up to four before the
    detection, the detection's own image, and up to three after it.
    [genMovie] reports at most three frames after the detection; it uploads
    no full image when not asked to save them, and at most eight when asked;
    asked to save them, it makes no movie for fewer than two uploaded images;
    and the final timestamp it reports is that of the last archived image
    around the detection, or the detection's when the archive has none. *)
Theorem movie_has_at_most_eight_frames (E : Env) (cameraID : string)
    (cameraHeading timestamp : Z) (saveFullImages : bool) :
  let '(movieID, imgIDs, finalTimestamp, postCount) :=
    genMovie E cameraID cameraHeading timestamp saveFullImages in
  (postCount <= 3)%nat /\
  (List.length imgIDs <= 8)%nat /\
  (saveFullImages = false -> imgIDs = []) /\
  (saveFullImages = true -> (List.length imgIDs < 2)%nat -> movieID = Some EmptyString) /\
  (saveFullImages = true -> (2 <= List.length imgIDs)%nat ->
   movieID = copyMovie E cameraID timestamp finalTimestamp) /\
  finalTimestamp =
    last (getArchiveImages E cameraID cameraHeading
            (timestamp - 4*60) (timestamp + POST_DETECTION_UPDATE_MINS*60)) timestamp.
Proof.
  unfold genMovie.
  set (archive := getArchiveImages E cameraID cameraHeading _ _).
  set (pre := lastn 4 (filter (fun t => t <? timestamp) archive)).
  set (post := firstn 3 (filter (fun t => negb (t <? timestamp) && negb (t =? timestamp))
                           archive)).
  assert (Hpost : (List.length post <= 3)%nat) by (unfold post; apply firstn_le_length).
  assert (Hpre : (List.length pre <= 4)%nat) by (unfold pre; apply length_lastn).
  destruct saveFullImages; cbn [andb].
  - set (imgIDs := map (copyImage E) _).
    assert (Hids : (List.length imgIDs <= 8)%nat).
    { unfold imgIDs. rewrite length_map.
      etransitivity; [apply length_filter_le|].
      rewrite !length_app. cbn [List.length]. lia. }
    destruct (Nat.ltb (List.length imgIDs) 2) eqn:Hlt.
    + apply Nat.ltb_lt in Hlt. repeat split; auto; try discriminate. lia.
    + apply Nat.ltb_ge in Hlt. repeat split; auto; try discriminate. lia.
  - cbn. repeat split; auto; try discriminate; lia.
Qed.

(** ** A stored event and the alerts that come after it *)

Lemma fireDetected_stores_row {S : Shapely} (E : Env) (now_sortId now_enqueue : Z)
    (w w' : World) (cameraID : string) (cameraHeading timestamp fov : Z) (imgPath : string)
    (fireSegment : FireSegment) (mapFiles : string) (camLatitude camLongitude : Q)
    (fireHeading rangeAngle : Z) :
  getCameraMapLocation E cameraID = (mapFiles, camLatitude, camLongitude) ->
  getHeadingRange E cameraHeading fov (MinX fireSegment) (MaxX fireSegment)
    (imageWidth E imgPath) = (fireHeading, rangeAngle) ->
  findIgnoredViewHeading E cameraID fireHeading rangeAngle = None ->
  fireDetected E now_sortId now_enqueue w cameraID cameraHeading timestamp fov imgPath
    fireSegment = Ok w' ->
  exists row,
    In row (detections w') /\
    Detection.CameraName row = cameraID /\ Detection.Timestamp row = timestamp /\
    Detection.IsProto row = int_flag (isProto (isProtoStatics E) cameraID) /\
    Detection.FireHeading row = fireHeading /\ Detection.AngularWidth row = rangeAngle.
Proof.
  intros Hloc Hrange Haccept. unfold fireDetected. rewrite Hloc, Hrange, Haccept.
  destruct (intersectLand _) as [view|e]; cbn [bind]; [|discriminate].
  destruct (consensus w timestamp view) as [[polygon sourcePolygons]|e];
    cbn [bind]; [|discriminate].
  destruct (checkWeatherInfo E _ _ _ _ _ _) as [ws|e]; cbn [bind]; [|discriminate].
  unfold insertDetectionsDB, detection_row.
  cbn [weatherScoreOf set_weatherScore weatherScore bind].
  set (fs' := set_weatherScore fireSegment _).
  set (row := Detection.Build_row _ _ _ _ _ _ _ _ _ _ _ _ _ _).
  assert (Hgen : forall w3,
            Forall2 same_dedup_columns (detections w ++ [row]) (detections w3) ->
            exists r,
              In r (detections w3) /\
              Detection.CameraName r = cameraID /\ Detection.Timestamp r = timestamp /\
              Detection.IsProto r = int_flag (isProto (isProtoStatics E) cameraID) /\
              Detection.FireHeading r = fireHeading /\ Detection.AngularWidth r = rangeAngle).
  { intros w3 Hrel.
    destruct (Forall2_In_l _ _ _ row Hrel) as (r & Hin & Hsame);
      [apply in_or_app; right; now left|].
    exists r. split; [exact Hin|]. unfold same_dedup_columns in Hsame. cbn in Hsame. tauto. }
  destruct (genAnnotatedMaps E _ _ _ _ _ _) as [mapUrl|e]; cbn [bind]; [|discriminate].
  destruct (genAnnotatedImages E cameraID cameraHeading timestamp)
    as [[[croppedID imgIDs] annotatedID] finalTimestamp].
  destruct (truthy_str croppedID); cbn [negb].
  - set (w2 := updateDetectionsDB _ _ _ _ _ _ _).
    assert (H2 : Forall2 same_dedup_columns (detections w ++ [row]) (detections w2))
      by apply (updateDetectionsDB_columns (set_detections w (detections w ++ [row]))).
    destruct (enqueueFireUpdate now_enqueue w2 _ _ _ _ _) as [w3|e] eqn:Enq;
      cbn [bind]; [|discriminate].
    destruct (enqueue_changes_queue_only _ _ _ _ _ _ _ _ Enq) as (Hd3 & _).
    destruct (publishAlert E w3 _ _ _ _ _ _ _ _).
    + destruct (insertAlertsDB E w3 _ _ _ _ _ _ _ _ _ _ _) as [w4|e] eqn:Ins;
        cbn [bind]; [|discriminate].
      destruct (insertAlertsDB_changes_alerts_only _ _ _ _ _ _ _ _ _ _ _ _ _ _ Ins)
        as (Hd4 & _).
      destruct (pubsubFireNotification E w4 _ _ _ _ _ _ _ _ _ _) as [w5|e] eqn:Pub;
        cbn [bind]; [|discriminate].
      destruct (pubsub_changes_published_only _ _ _ _ _ _ _ _ _ _ _ _ _ Pub) as (Hd5 & _).
      destruct (emailFireNotification E w5 cameraID fs') as [w6|e] eqn:Em;
        cbn [bind]; [|discriminate].
      destruct (email_changes_emailed_only _ _ _ _ _ Em) as (Hd6 & _).
      intros H. injection H as <-. apply Hgen.
      cbn [detections smsFireNotification set_texted].
      rewrite Hd6, Hd5, Hd4, Hd3. exact H2.
    + intros H. injection H as <-. apply Hgen. rewrite Hd3. exact H2.
  - intros H. injection H as <-. apply Hgen. apply same_dedup_columns_all.
Qed.

Lemma grown_keeps_row (w w' : World) (r : Detection.row) :
  grown w w' -> In r (detections w) ->
  exists r', In r' (detections w') /\ same_dedup_columns r r'.
Proof.
  intros ([rows Hd] & _) Hin.
  destruct (Forall2_In_l _ _ _ r Hd) as (r' & Hin' & Hsame);
    [apply in_or_app; now left|].
  exists r'. split; [exact Hin' | now apply same_but_urls_dedup].
Qed.

(** X17.  An event that was stored suppresses the alerts that come after it.
    Once [fireDetected] has returned for an observation in an accepted view,
    whether or not it sent an alert, then in every later state of the
    tables, for every observation made less than two hours after it by a
    camera of the same location in a sector that overlaps its sector,
    [isDuplicateDetection] answers true and [publishAlert] false, under the
    same prototype-model number. *)
Theorem stored_event_suppresses_later_alerts {S : Shapely} (E : Env)
    (now_sortId now_enqueue : Z) (w w1 : World) (cameraID : string)
    (cameraHeading timestamp fov : Z) (imgPath : string) (fireSegment : FireSegment)
    (mapFiles : string) (camLatitude camLongitude : Q) (fireHeading rangeAngle : Z) :
  getCameraMapLocation E cameraID = (mapFiles, camLatitude, camLongitude) ->
  getHeadingRange E cameraHeading fov (MinX fireSegment) (MaxX fireSegment)
    (imageWidth E imgPath) = (fireHeading, rangeAngle) ->
  findIgnoredViewHeading E cameraID fireHeading rangeAngle = None ->
  isProto_protoNum (isProtoStatics E) = constants_protoNum E ->
  fireDetected E now_sortId now_enqueue w cameraID cameraHeading timestamp fov imgPath
    fireSegment = Ok w1 ->
  forall (w2 : World) (cameraID' : string) (fireHeading' rangeAngle' timestamp' : Z),
    grown w1 w2 ->
    timestamp < timestamp' -> timestamp' < timestamp + 7200 ->
    shares_location E cameraID' cameraID ->
    intersectsAngleRange E fireHeading rangeAngle fireHeading' rangeAngle' = true ->
    isDuplicateDetection E w2 cameraID' fireHeading' rangeAngle' timestamp'
      (constants_protoNum E) = true /\
    forall weatherScore view rxBurns,
      publishAlert E w2 cameraID' fireHeading' rangeAngle' timestamp' weatherScore view
        rxBurns (constants_protoNum E) = false.
Proof.
  intros Hloc Hrange Haccept Hnum Hrun w2 cameraID' fireHeading' rangeAngle' timestamp'
    Hgrown Hafter Hwithin Hshare Hoverlap.
  destruct (fireDetected_stores_row E now_sortId now_enqueue w w1 cameraID cameraHeading
              timestamp fov imgPath fireSegment mapFiles camLatitude camLongitude
              fireHeading rangeAngle Hloc Hrange Haccept Hrun)
    as (row & Hin & Hc & Ht & Hp & Hh & Ha).
  destruct (grown_keeps_row w1 w2 row Hgrown Hin) as (row' & Hin' & Hsame).
  unfold same_dedup_columns in Hsame. destruct Hsame as (Hc' & Ht' & Hp' & Hh' & Ha').
  assert (Hdup : isDuplicateDetection E w2 cameraID' fireHeading' rangeAngle' timestamp'
                   (constants_protoNum E) = true).
  { apply isDuplicateDetection_iff. exists row'.
    rewrite Hc', Ht', Hp', Hh', Ha', Hc, Ht, Hp, Hh, Ha.
    split; [exact Hin'|]. split; [lia|]. split; [lia|]. split; [exact Hshare|].
    split; [|exact Hoverlap].
    unfold compatible_protoNum, isProto. rewrite Hnum. unfold truthy_int.
    destruct (constants_protoNum E =? 0) eqn:P0; cbn [negb int_flag].
    - apply Z.eqb_eq in P0. split; [|lia]. intros _.
      destruct (negb _); lia.
    - apply Z.eqb_neq in P0. split; [contradiction | reflexivity]. }
  split; [exact Hdup|].
  intros weatherScore view rxBurns. unfold publishAlert. rewrite Hdup.
  destruct (truthy_flag _); [reflexivity|]. now destruct (Qltb _ _).
Qed.

Lemma stored_event_suppresses_later_alerts_witness :
  exists w1,
    fireDetected (S := RectShapely) (demoEnv [940; 1000] 0) 1001 1001 emptyWorld "camA" 90
      1000 20 "img.jpg" demoSegment = Ok w1 /\
    isDuplicateDetection (demoEnv [940; 1000] 0) w1 "camB" 100 20 1600 0 = true.
Proof.
  let v := eval vm_compute in
    (fireDetected (S := RectShapely) (demoEnv [940; 1000] 0) 1001 1001 emptyWorld "camA" 90
       1000 20 "img.jpg" demoSegment) in
  lazymatch v with
  | Ok ?w1 =>
      exists w1;
      assert (Hrun : fireDetected (S := RectShapely) (demoEnv [940; 1000] 0) 1001 1001
                       emptyWorld "camA" 90 1000 20 "img.jpg" demoSegment = Ok w1)
        by (vm_compute; reflexivity);
      split; [exact Hrun|];
      refine (proj1 (stored_event_suppresses_later_alerts (S := RectShapely)
                       (demoEnv [940; 1000] 0) 1001 1001 emptyWorld w1 "camA" 90 1000 20
                       "img.jpg" demoSegment "map640z9.jpg" 34 (-118) 90 20
                       eq_refl eq_refl eq_refl eq_refl Hrun
                       w1 "camB" 100 20 1600 (grown_refl w1) _ _ _ _));
      [ lia | lia
      | exists 1, {| Source.name := "camA"; Source.locationid := 1;
                     Source.type := Some "hpwren"%string |};
        repeat split; try reflexivity; left; reflexivity
      | reflexivity ]
  end.
Defined.

(** ** The time tracker *)

Lemma updateTimeTracker_run (times : list Q) (timeTracker : TimeTracker.t) :
  0 <= TimeTracker.numSamples timeTracker ->
  TimeTracker.numSamples timeTracker + Z.of_nat (List.length times) <= 50 ->
  let tt := fold_left updateTimeTracker times timeTracker in
  (TimeTracker.totalTime tt == TimeTracker.totalTime timeTracker + Qsum times)%Q /\
  TimeTracker.numSamples tt
    = TimeTracker.numSamples timeTracker + Z.of_nat (List.length times) /\
  TimeTracker.timePerSample tt = TimeTracker.timePerSample timeTracker.
Proof.
  revert timeTracker. induction times as [|t times IH]; intros tt0 H0 Hlen; cbn [fold_left].
  - cbn. split; [ring | split; [lia | reflexivity]].
  - cbn [List.length] in Hlen.
    assert (Hstep : updateTimeTracker tt0 t =
                    {| TimeTracker.totalTime := (TimeTracker.totalTime tt0 + t)%Q;
                       TimeTracker.numSamples := TimeTracker.numSamples tt0 + 1;
                       TimeTracker.timePerSample := TimeTracker.timePerSample tt0 |}).
    { unfold updateTimeTracker.
      replace (TimeTracker.numSamples tt0 + 1 >? 50) with false; [reflexivity|].
      symmetry. rewrite Z.gtb_ltb. apply Z.ltb_ge. lia. }
    rewrite Hstep.
    destruct (IH {| TimeTracker.totalTime := (TimeTracker.totalTime tt0 + t)%Q;
                    TimeTracker.numSamples := TimeTracker.numSamples tt0 + 1;
                    TimeTracker.timePerSample := TimeTracker.timePerSample tt0 |})
      as (Ht & Hn & Hp); cbn [TimeTracker.numSamples]; try lia.
    cbn [TimeTracker.totalTime TimeTracker.numSamples TimeTracker.timePerSample] in *.
    split; [|split].
    + rewrite Ht. cbn [Qsum fold_right]. fold (Qsum times). ring.
    + rewrite Hn. cbn [List.length]. lia.
    + exact Hp.
Qed.

(** X18.  The rate is renewed by the 51st sample.  On a tracker whose window is
    empty, as the initial one and every renewed one are, up to fifty updates
    leave the time per sample as it is and count the samples; the 51st sets
    the time per sample to the mean of the 51 processing times and empties
    the window again.  The number of samples in the window never leaves the
    range from 0 to 50. *)
Theorem rate_is_renewed_by_the_51st_sample (timeTracker : TimeTracker.t) (times : list Q) :
  TimeTracker.numSamples timeTracker = 0 ->
  (TimeTracker.totalTime timeTracker == 0)%Q ->
  let tt := fold_left updateTimeTracker times timeTracker in
  ((List.length times <= 50)%nat ->
   TimeTracker.timePerSample tt = TimeTracker.timePerSample timeTracker /\
   TimeTracker.numSamples tt = Z.of_nat (List.length times) /\
   (TimeTracker.totalTime tt == Qsum times)%Q) /\
  (List.length times = 51%nat ->
   (TimeTracker.timePerSample tt == Qsum times / 51)%Q /\
   TimeTracker.numSamples tt = 0 /\ TimeTracker.totalTime tt = 0%Q) /\
  (forall tracker processingTime,
     0 <= TimeTracker.numSamples tracker <= 50 ->
     0 <= TimeTracker.numSamples (updateTimeTracker tracker processingTime) <= 50).
Proof.
  intros Hn0 Ht0 tt. split; [|split].
  - intros Hlen.
    destruct (updateTimeTracker_run times timeTracker) as (Ht & Hn & Hp); try lia.
    fold tt in Ht, Hn, Hp. split; [exact Hp|]. split; [lia|].
    rewrite Ht, Ht0. ring.
  - intros Hlen.
    destruct (exists_last (l := times)) as (front & final & Heq);
      [intros ->; discriminate|].
    assert (Hfront : List.length front = 50%nat)
      by (rewrite Heq, length_app in Hlen; cbn in Hlen; lia).
    unfold tt. rewrite Heq, fold_left_app. cbn [fold_left].
    destruct (updateTimeTracker_run front timeTracker) as (Ht & Hn & Hp); try lia.
    cbv zeta in Ht, Hn, Hp.
    set (tt50 := fold_left updateTimeTracker front timeTracker) in *.
    unfold updateTimeTracker.
    replace (TimeTracker.numSamples tt50 + 1 >? 50) with true
      by (symmetry; rewrite Z.gtb_ltb; apply Z.ltb_lt; lia).
    cbn [TimeTracker.timePerSample TimeTracker.numSamples TimeTracker.totalTime].
    split; [|split; reflexivity].
    rewrite Ht, Ht0, Hn, Hn0, Hfront.
    assert (Hsum : (Qsum (front ++ [final]) == Qsum front + final)%Q).
    { clear. induction front as [|a front IH]; cbn [app Qsum fold_right].
      - ring.
      - fold (Qsum (front ++ [final])). fold (Qsum front). rewrite IH. ring. }
    rewrite Hsum. change (inject_Z (0 + Z.of_nat 50 + 1)) with (51%Q). field.
  - intros tracker processingTime Hrange. unfold updateTimeTracker.
    destruct (TimeTracker.numSamples tracker + 1 >? 50) eqn:G;
      cbn [TimeTracker.numSamples]; [lia|].
    rewrite Z.gtb_ltb in G. apply Z.ltb_ge in G. lia.
Qed.

Lemma rate_is_renewed_by_the_51st_sample_witness :
  let tt := fold_left updateTimeTracker (repeat 2%Q 51) initializeTimeTracker in
  (TimeTracker.timePerSample tt == 2)%Q /\ TimeTracker.numSamples tt = 0.
Proof.
  destruct (rate_is_renewed_by_the_51st_sample initializeTimeTracker (repeat 2%Q 51))
    as (_ & H & _); [reflexivity | reflexivity |].
  destruct (H eq_refl) as (Hp & Hn & _).
  cbv zeta. split; [|exact Hn]. rewrite Hp. reflexivity.
Defined.

(** ** The next image *)

Lemma list_position_in_range {A : Type} (l : list A) (i : Z) (position : nat) :
  list_position l i = Some position -> (position < List.length l)%nat.
Proof.
  unfold list_position.
  destruct ((0 <=? i) && (i <? Z.of_nat (List.length l))) eqn:E1.
  - intros H; injection H as <-. apply andb_prop in E1 as [H1 H2]. lia.
  - destruct ((- Z.of_nat (List.length l) <=? i) && (i <? 0)) eqn:E2; [|discriminate].
    intros H; injection H as <-. apply andb_prop in E2 as [H1 H2]. lia.
Qed.

Lemma list_position_of_index {A : Type} (l : list A) (i : Z) :
  0 <= i < Z.of_nat (List.length l) -> list_position l i = Some (Z.to_nat i).
Proof.
  intros H. unfold list_position.
  replace ((0 <=? i) && (i <? Z.of_nat (List.length l))) with true; [reflexivity|].
  symmetry. apply andb_true_intro. split; lia.
Qed.

Lemma Qtruncate_of_fraction (n : Z) (random : Q) :
  0 < n -> (0 <= random)%Q -> (random < 1)%Q ->
  0 <= Qtruncate (inject_Z n * random) < n.
Proof.
  intros Hn H0 H1. unfold Qtruncate.
  destruct random as [a d]. unfold Qle, Qlt in *. cbn in *.
  assert (Ha : 0 <= a) by lia. assert (Had : a < Z.pos d) by lia.
  replace (Z.pos (1 * d)) with (Z.pos d) by reflexivity.
  split.
  - apply Z.quot_pos; nia.
  - apply Z.quot_lt_upper_bound; nia.
Qed.

Lemma nextImage_check_attributes md5_of position camera f st :
  NextImage.queue (snd (nextImage_check md5_of position camera f st)) = NextImage.queue st /\
  NextImage.queueCamera (snd (nextImage_check md5_of position camera f st)) =
    NextImage.queueCamera st.
Proof.
  unfold nextImage_check.
  destruct (NextImage.imgPath f), (NextImage.heading f), (NextImage.timestamp f);
    try (split; reflexivity).
  destruct (md5_of s); [|split; reflexivity].
  destruct (NextImage.md5 st position); [destruct (String.eqb _ _)|]; split; reflexivity.
Qed.

Lemma nextImage_check_coherent cameras md5_of position camera f st :
  nextImage_coherent cameras st ->
  nextImage_coherent cameras (snd (nextImage_check md5_of position camera f st)).
Proof.
  unfold nextImage_coherent.
  destruct (nextImage_check_attributes md5_of position camera f st) as [-> ->].
  exact (fun H => H).
Qed.

Lemma nextImage_check_image md5_of position camera f st img st' :
  nextImage_check md5_of position camera f st = (Some img, st') ->
  exists imgPath heading timestamp md5,
    NextImage.imgPath f = Some imgPath /\
    NextImage.heading f = Some heading /\
    NextImage.timestamp f = Some timestamp /\
    img = (NextImage.name camera, heading, timestamp, NextImage.fov f, imgPath) /\
    md5_of imgPath = Some md5 /\
    NextImage.md5 st position <> Some md5 /\
    NextImage.md5 st' position = Some md5 /\
    (forall other, other <> position -> NextImage.md5 st' other = NextImage.md5 st other).
Proof.
  unfold nextImage_check.
  destruct (NextImage.imgPath f) as [p|]; [|discriminate].
  destruct (NextImage.heading f) as [h|]; [|discriminate].
  destruct (NextImage.timestamp f) as [t|]; [|discriminate].
  destruct (md5_of p) as [m|] eqn:Em; [|discriminate].
  assert (Hset : forall old : NextImage.statics,
             (Some (NextImage.name camera, h, t, NextImage.fov f, p),
              {| NextImage.queue := NextImage.queue old;
                 NextImage.queueCamera := NextImage.queueCamera old;
                 NextImage.md5 := fun q => if Nat.eqb q position then Some m
                                           else NextImage.md5 st q |}) = (Some img, st') ->
             NextImage.md5 st position <> Some m ->
             exists imgPath heading timestamp md5,
               Some p = Some imgPath /\ Some h = Some heading /\ Some t = Some timestamp /\
               img = (NextImage.name camera, heading, timestamp, NextImage.fov f, imgPath) /\
               md5_of imgPath = Some md5 /\
               NextImage.md5 st position <> Some md5 /\
               NextImage.md5 st' position = Some md5 /\
               (forall other, other <> position ->
                  NextImage.md5 st' other = NextImage.md5 st other)).
  { intros old H Hne. injection H as <- <-. exists p, h, t, m. cbn.
    rewrite Nat.eqb_refl. repeat split; try assumption.
    intros other Ho. apply Nat.eqb_neq in Ho. rewrite Ho. reflexivity. }
  destruct (NextImage.md5 st position) as [old|] eqn:Eold.
  - destruct (String.eqb old m) eqn:Eq; [discriminate|].
    intros H. apply (Hset st H). intros Heq. injection Heq as ->.
    rewrite String.eqb_refl in Eq. discriminate Eq.
  - intros H. apply (Hset st H). discriminate.
Qed.

(** X19.  With a camera in the list and [random.random()] in its range, a call
    returns, whatever the fetch does, and it leaves the queue and its camera
    as the function keeps them: the queue holds images only while
    [queueCamera] names a camera of the list.  The attributes start that
    way.  Without a camera the call raises before its [try]: IndexError
    when stateless, ZeroDivisionError otherwise. *)
Theorem getNextImage_returns_with_a_camera :
  forall fetchImageAndMeta md5_of,
    (forall cameras, nextImage_coherent cameras NextImage.pristine) /\
    (forall cameras stateless random counterValue st,
       cameras <> [] -> (0 <= random)%Q -> (random < 1)%Q ->
       nextImage_coherent cameras st ->
       exists img st',
         getNextImage fetchImageAndMeta md5_of cameras stateless random counterValue st =
           NextImage.Returns (img, st') /\
         nextImage_coherent cameras st') /\
    (forall random counterValue,
       getNextImage fetchImageAndMeta md5_of [] true random counterValue NextImage.pristine =
         NextImage.Raises_IndexError /\
       getNextImage fetchImageAndMeta md5_of [] false random counterValue NextImage.pristine =
         NextImage.Raises_ZeroDivisionError).
Proof.
  intros F M. split; [|split].
  - intros cameras. reflexivity.
  - intros cameras stateless random counterValue st Hne H0 H1 Hco.
    assert (Hn : 0 < Z.of_nat (List.length cameras)).
    { destruct cameras; [contradiction|]. cbn [List.length]. lia. }
    assert (Hsel : exists position camera,
               nth_error cameras position = Some camera /\
               (position < List.length cameras)%nat /\
               (match NextImage.queueCamera st, NextImage.queue st with
                | Some position, _ :: _ => NextImage.Returns position
                | _, _ =>
                    if stateless then
                      match list_position cameras
                              (Qtruncate (inject_Z (Z.of_nat (List.length cameras)) * random)) with
                      | Some position => NextImage.Returns position
                      | None => NextImage.Raises_IndexError
                      end
                    else if Z.of_nat (List.length cameras) =? 0
                         then NextImage.Raises_ZeroDivisionError
                    else
                      match list_position cameras
                              (counterValue mod Z.of_nat (List.length cameras)) with
                      | Some position => NextImage.Returns position
                      | None => NextImage.Raises_IndexError
                      end
                end) = NextImage.Returns position).
    { assert (Hfresh : exists position camera,
                 nth_error cameras position = Some camera /\
                 (position < List.length cameras)%nat /\
                 (if stateless then
                    match list_position cameras
                            (Qtruncate (inject_Z (Z.of_nat (List.length cameras)) * random)) with
                    | Some position => NextImage.Returns position
                    | None => NextImage.Raises_IndexError
                    end
                  else if Z.of_nat (List.length cameras) =? 0
                       then NextImage.Raises_ZeroDivisionError
                  else
                    match list_position cameras
                            (counterValue mod Z.of_nat (List.length cameras)) with
                    | Some position => NextImage.Returns position
                    | None => NextImage.Raises_IndexError
                    end) = NextImage.Returns position).
      { destruct stateless.
        - pose proof (Qtruncate_of_fraction _ random Hn H0 H1) as Hr.
          rewrite (list_position_of_index cameras _ Hr).
          set (i := Qtruncate (inject_Z (Z.of_nat (List.length cameras)) * random)) in *.
          destruct (nth_error cameras (Z.to_nat i)) as [camera|] eqn:En.
          + exists (Z.to_nat i), camera.
            split; [exact En|]. split; [lia|reflexivity].
          + apply nth_error_None in En. lia.
        - replace (Z.of_nat (List.length cameras) =? 0) with false by (symmetry; lia).
          pose proof (Z.mod_pos_bound counterValue _ Hn) as Hr.
          rewrite (list_position_of_index cameras _ Hr).
          set (i := counterValue mod Z.of_nat (List.length cameras)) in *.
          destruct (nth_error cameras (Z.to_nat i)) as [camera|] eqn:En.
          + exists (Z.to_nat i), camera.
            split; [exact En|]. split; [lia|reflexivity].
          + apply nth_error_None in En. lia. }
      unfold nextImage_coherent in Hco.
      destruct (NextImage.queue st) as [|f q].
      - rewrite Hco. exact Hfresh.
      - destruct Hco as [position [-> Hlt]].
        destruct (nth_error cameras position) as [camera|] eqn:En.
        + exists position, camera. repeat split; assumption.
        + apply nth_error_None in En. lia. }
    destruct Hsel as [position [camera [En [Hlt Hsel]]]].
    unfold getNextImage. cbv zeta. rewrite Hsel, En.
    destruct (NextImage.queue st) as [|f q] eqn:Eq.
    + destruct (F camera) as [f|[|f fs]|].
      * destruct (nextImage_check M position camera f st) as [img st'] eqn:Ec.
        exists img, st'. split; [reflexivity|].
        change st' with (snd (img, st')). rewrite <- Ec.
        apply nextImage_check_coherent. exact Hco.
      * exists None, st. split; [reflexivity|exact Hco].
      * match goal with
        | |- context [nextImage_check M position camera f ?s] =>
            destruct (nextImage_check M position camera f s) as [img st'] eqn:Ec;
            exists img, st'; split; [reflexivity|];
            change st' with (snd (img, st')); rewrite <- Ec;
            apply nextImage_check_coherent
        end.
        destruct fs as [|g gs]; [exact Hco|].
        unfold nextImage_coherent. cbn. exists position. split; [reflexivity|exact Hlt].
      * exists None, st. split; [reflexivity|exact Hco].
    + match goal with
      | |- context [nextImage_check M position camera f ?s] =>
          destruct (nextImage_check M position camera f s) as [img st'] eqn:Ec;
          exists img, st'; split; [reflexivity|];
          change st' with (snd (img, st')); rewrite <- Ec;
          apply nextImage_check_coherent
      end.
      unfold nextImage_coherent in *. rewrite Eq in Hco. cbn.
      destruct q as [|g gs]; [reflexivity|]. exact Hco.
  - intros random counterValue. split; reflexivity.
Qed.

Lemma nextImage_check_served md5_of position camera f st :
  served_from camera f (fst (nextImage_check md5_of position camera f st)).
Proof.
  destruct (nextImage_check md5_of position camera f st) as [[img|] st'] eqn:Ec;
    [|exact I].
  destruct (nextImage_check_image _ _ _ _ _ _ _ Ec)
    as [p [h [t [m [Hp [Hh [Ht [-> _]]]]]]]].
  cbn. repeat split; assumption.
Qed.

Lemma getNextImage_from_queue fetchImageAndMeta md5_of cameras stateless random counterValue
    st f q position camera :
  NextImage.queue st = f :: q ->
  NextImage.queueCamera st = Some position ->
  nth_error cameras position = Some camera ->
  getNextImage fetchImageAndMeta md5_of cameras stateless random counterValue st =
    NextImage.Returns
      (nextImage_check md5_of position camera f
         {| NextImage.queue := q;
            NextImage.queueCamera := match q with [] => None | _ :: _ => Some position end;
            NextImage.md5 := NextImage.md5 st |}).
Proof.
  intros Hq Hc En. unfold getNextImage. cbv zeta. rewrite Hq, Hc, En. reflexivity.
Qed.

(** X20.  Images that one fetch returned together are handed out by the calls
    that follow, in their order and under the name of the camera they came
    from, before any camera is chosen or fetched again: with images in the
    queue, as many calls as there are images return, whatever the mode, the
    random number, the counter and the fetch of each call; they answer the
    queued tuples one by one, and leave the queue empty and no queue
    camera. *)
Theorem fetched_together_are_served_in_order :
  forall md5_of cameras calls st position camera,
    NextImage.queue st <> [] ->
    NextImage.queueCamera st = Some position ->
    nth_error cameras position = Some camera ->
    List.length calls = List.length (NextImage.queue st) ->
    exists imgs st',
      nextImages md5_of cameras calls st = NextImage.Returns (imgs, st') /\
      Forall2 (served_from camera) (NextImage.queue st) imgs /\
      NextImage.queue st' = [] /\
      NextImage.queueCamera st' = None.
Proof.
  intros M cameras calls st position camera Hne Hc En Hlen.
  remember (NextImage.queue st) as queue eqn:Hq.
  revert calls st Hne Hc Hlen Hq.
  induction queue as [|f q IH]; intros calls st Hne Hc Hlen Hq; [contradiction|].
  destruct calls as [|[[[F stateless] random] counterValue] calls]; [discriminate Hlen|].
  cbn [nextImages].
  rewrite (getNextImage_from_queue F M cameras stateless random counterValue
             st f q position camera (eq_sym Hq) Hc En).
  match goal with
  | |- context [nextImage_check M position camera f ?s] =>
      pose proof (nextImage_check_served M position camera f s) as Hserved;
      pose proof (nextImage_check_attributes M position camera f s) as [Hq1 Hc1];
      destruct (nextImage_check M position camera f s) as [img st1]
  end.
  cbn [fst snd NextImage.queue NextImage.queueCamera] in Hserved, Hq1, Hc1.
  destruct q as [|g q].
  - destruct calls; [|discriminate Hlen]. cbn [nextImages].
    exists [img], st1. repeat split; try assumption.
    constructor; [exact Hserved|constructor].
  - destruct (IH calls st1) as [imgs [st' [Hrun [Hall [Hq' Hc']]]]].
    + discriminate.
    + exact Hc1.
    + cbn [List.length] in Hlen |- *. lia.
    + symmetry. exact Hq1.
    + rewrite Hrun. exists (img :: imgs), st'. repeat split; try assumption.
      constructor; assumption.
Qed.

Lemma fetched_together_are_served_in_order_witness :
  exists st',
    nextImages demoDigest demoCameras
      [ (fun _ => NextImage.Fails, false, 0%Q, 0);
        (fun _ => NextImage.One (demoFetch "other.jpg" 5 50), true, (1 # 2)%Q, 7) ]
      {| NextImage.queue := [demoFetch "a.jpg" 90 100; demoFetch "b.jpg" 180 101];
         NextImage.queueCamera := Some 1%nat;
         NextImage.md5 := fun _ => None |} =
      NextImage.Returns
        ([Some ("cam-south"%string, 90, 100, Some 110, "a.jpg"%string);
          Some ("cam-south"%string, 180, 101, Some 110, "b.jpg"%string)], st') /\
    NextImage.queue st' = [] /\
    NextImage.queueCamera st' = None.
Proof.
  destruct (fetched_together_are_served_in_order demoDigest demoCameras
              [ (fun _ => NextImage.Fails, false, 0%Q, 0);
                (fun _ => NextImage.One (demoFetch "other.jpg" 5 50), true, (1 # 2)%Q, 7) ]
              {| NextImage.queue := [demoFetch "a.jpg" 90 100; demoFetch "b.jpg" 180 101];
                 NextImage.queueCamera := Some 1%nat;
                 NextImage.md5 := fun _ => None |}
              1%nat
              {| NextImage.name := "cam-south"; NextImage.url := "http://south" |})
    as [imgs [st' [Hrun [_ [Hq Hc]]]]].
  - discriminate.
  - reflexivity.
  - reflexivity.
  - reflexivity.
  - exists st'. split; [|split; assumption].
    rewrite Hrun. cbn in Hrun. injection Hrun as <- _. reflexivity.
Defined.

(** X21.  A picture that has not changed is handed out once.  When a call
    without queue returns an image, the camera it chose holds the digest of
    that file, which it did not hold before, and no other camera's digest
    changes; and the next call that comes to the same camera through the
    counter and fetches a file of the same digest returns the five [None]
    and leaves the attributes as they are. *)
Theorem unchanged_picture_is_handed_out_once :
  forall fetchImageAndMeta md5_of cameras random counterValue st
         name heading timestamp fov imgPath st',
    NextImage.queue st = [] ->
    getNextImage fetchImageAndMeta md5_of cameras false random counterValue st =
      NextImage.Returns (Some (name, heading, timestamp, fov, imgPath), st') ->
    exists position camera md5,
      nth_error cameras position = Some camera /\
      name = NextImage.name camera /\
      md5_of imgPath = Some md5 /\
      NextImage.md5 st position <> Some md5 /\
      NextImage.md5 st' position = Some md5 /\
      (forall other, other <> position -> NextImage.md5 st' other = NextImage.md5 st other) /\
      (NextImage.queue st' = [] ->
       forall fetchAgain f random' rounds,
         fetchAgain camera = NextImage.One f \/ fetchAgain camera = NextImage.Many [f] ->
         (exists again,
            NextImage.imgPath f = Some again /\ md5_of again = Some md5) ->
         getNextImage fetchAgain md5_of cameras false random'
           (counterValue + rounds * Z.of_nat (List.length cameras)) st' =
           NextImage.Returns (None, st')).
Proof.
  intros F M cameras random counterValue st name heading timestamp fov imgPath st' Hq Hrun.
  unfold getNextImage in Hrun. cbv zeta in Hrun. rewrite Hq in Hrun.
  assert (Hsel0 : match NextImage.queueCamera st with
                  | Some _ | _ =>
                      if Z.of_nat (List.length cameras) =? 0
                      then NextImage.Raises_ZeroDivisionError
                      else
                        match list_position cameras
                                (counterValue mod Z.of_nat (List.length cameras)) with
                        | Some position => NextImage.Returns position
                        | None => @NextImage.Raises_IndexError nat
                        end
                  end =
                  if Z.of_nat (List.length cameras) =? 0
                  then NextImage.Raises_ZeroDivisionError
                  else
                    match list_position cameras
                            (counterValue mod Z.of_nat (List.length cameras)) with
                    | Some position => NextImage.Returns position
                    | None => NextImage.Raises_IndexError
                    end)
    by (destruct (NextImage.queueCamera st); reflexivity).
  cbv beta iota in Hrun.
  assert (Hsel : forall c : option nat,
             match c with
             | Some position =>
                 match @nil NextImage.fetch with
                 | [] =>
                     if Z.of_nat (List.length cameras) =? 0
                     then NextImage.Raises_ZeroDivisionError
                     else
                       match list_position cameras
                               (counterValue mod Z.of_nat (List.length cameras)) with
                       | Some position => NextImage.Returns position
                       | None => @NextImage.Raises_IndexError nat
                       end
                 | _ :: _ => NextImage.Returns position
                 end
             | None =>
                 if Z.of_nat (List.length cameras) =? 0
                 then NextImage.Raises_ZeroDivisionError
                 else
                   match list_position cameras
                           (counterValue mod Z.of_nat (List.length cameras)) with
                   | Some position => NextImage.Returns position
                   | None => NextImage.Raises_IndexError
                   end
             end =
             if Z.of_nat (List.length cameras) =? 0
             then NextImage.Raises_ZeroDivisionError
             else
               match list_position cameras
                       (counterValue mod Z.of_nat (List.length cameras)) with
               | Some position => NextImage.Returns position
               | None => NextImage.Raises_IndexError
               end)
    by (intros [c|]; reflexivity).
  clear Hsel0.
  rewrite Hsel in Hrun.
  destruct (Z.of_nat (List.length cameras) =? 0) eqn:En0; [discriminate Hrun|].
  destruct (list_position cameras (counterValue mod Z.of_nat (List.length cameras)))
    as [position|] eqn:Epos; [|discriminate Hrun].
  destruct (nth_error cameras position) as [camera|] eqn:En; [|discriminate Hrun].
  assert (Hcheck : exists f st0,
             nextImage_check M position camera f st0 =
               (Some (name, heading, timestamp, fov, imgPath), st') /\
             NextImage.md5 st0 = NextImage.md5 st).
  { destruct (F camera) as [f|[|f fs]|].
    - injection Hrun as Hrun. exists f, st. split; [exact Hrun|reflexivity].
    - discriminate Hrun.
    - injection Hrun as Hrun. eexists f, _. split; [exact Hrun|].
      destruct fs; reflexivity.
    - discriminate Hrun. }
  destruct Hcheck as [f [st0 [Hcheck Hmd5]]].
  destruct (nextImage_check_image _ _ _ _ _ _ _ Hcheck)
    as [p [h [t [m [Hp [Hh [Ht [Himg [Hm [Hold [Hnew Hother]]]]]]]]]]].
  injection Himg as -> -> -> -> ->.
  rewrite Hmd5 in Hold, Hother.
  exists position, camera, m. repeat split; try assumption.
  intros Hq' fetchAgain f' random' rounds Hfetch [again [Hagain Hsame]].
  unfold getNextImage. cbv zeta. rewrite Hq'. cbv beta iota.
  assert (Hsel' : forall c : option nat,
             match c with
             | Some position =>
                 match @nil NextImage.fetch with
                 | [] =>
                     if Z.of_nat (List.length cameras) =? 0
                     then NextImage.Raises_ZeroDivisionError
                     else
                       match list_position cameras
                               ((counterValue + rounds * Z.of_nat (List.length cameras))
                                mod Z.of_nat (List.length cameras)) with
                       | Some position => NextImage.Returns position
                       | None => @NextImage.Raises_IndexError nat
                       end
                 | _ :: _ => NextImage.Returns position
                 end
             | None =>
                 if Z.of_nat (List.length cameras) =? 0
                 then NextImage.Raises_ZeroDivisionError
                 else
                   match list_position cameras
                           ((counterValue + rounds * Z.of_nat (List.length cameras))
                            mod Z.of_nat (List.length cameras)) with
                   | Some position => NextImage.Returns position
                   | None => NextImage.Raises_IndexError
                   end
             end = NextImage.Returns position).
  { intros c. rewrite Z.mod_add by lia. rewrite En0, Epos. destruct c; reflexivity. }
  rewrite Hsel', En.
  assert (Hskip : nextImage_check M position camera f' st' = (None, st')).
  { unfold nextImage_check. rewrite Hagain.
    destruct (NextImage.heading f'); [|reflexivity].
    destruct (NextImage.timestamp f'); [|reflexivity].
    rewrite Hsame, Hnew, String.eqb_refl. reflexivity. }
  destruct Hfetch as [-> | ->]; rewrite Hskip; reflexivity.
Qed.

Lemma unchanged_picture_is_handed_out_once_witness :
  exists st',
    getNextImage (fun _ => NextImage.One (demoFetch "a.jpg" 90 100)) demoDigest demoCameras
      false 0%Q 3 NextImage.pristine =
      NextImage.Returns
        (Some ("cam-south"%string, 90, 100, Some 110, "a.jpg"%string), st') /\
    NextImage.md5 st' 1%nat = Some "a.jpg"%string /\
    NextImage.md5 st' 0%nat = None /\
    getNextImage (fun _ => NextImage.Many [demoFetch "a.jpg" 90 160]) demoDigest demoCameras
      false 0%Q 5 st' =
      NextImage.Returns (None, st').
Proof.
  pose (st1 := {| NextImage.queue := [];
                  NextImage.queueCamera := None;
                  NextImage.md5 :=
                    fun p => if Nat.eqb p 1 then Some "a.jpg"%string else None |}).
  assert (Hrun : getNextImage (fun _ => NextImage.One (demoFetch "a.jpg" 90 100)) demoDigest
                   demoCameras false 0%Q 3 NextImage.pristine =
                 NextImage.Returns
                   (Some ("cam-south"%string, 90, 100, Some 110, "a.jpg"%string), st1))
    by reflexivity.
  destruct (unchanged_picture_is_handed_out_once
              (fun _ => NextImage.One (demoFetch "a.jpg" 90 100)) demoDigest demoCameras
              0%Q 3 NextImage.pristine _ _ _ _ _ st1 eq_refl Hrun)
    as [position [camera [md5 [En [Hname [Hm [Hold [Hnew [Hother Hnext]]]]]]]]].
  exists st1. split; [exact Hrun|]. split; [reflexivity|]. split; [reflexivity|].
  destruct position as [|[|position]].
  - injection En as <-. discriminate Hname.
  - injection En as <-. injection Hnew as <-.
    apply (Hnext eq_refl (fun _ => NextImage.Many [demoFetch "a.jpg" 90 160])
             (demoFetch "a.jpg" 90 160) 0%Q 1).
    + right. reflexivity.
    + exists "a.jpg"%string. split; reflexivity.
  - destruct position; discriminate En.
Defined.

(** ** The crop of the map *)

Lemma py_max_spec (a b : Q) :
  (a <= py_max a b)%Q /\ (b <= py_max a b)%Q /\ (py_max a b == a \/ py_max a b == b)%Q.
Proof.
  unfold py_max, Qltb.
  destruct (Qle_bool b a) eqn:E; cbn [negb].
  - apply Qle_bool_iff in E. repeat split; lra.
  - assert (H : ~ (b <= a)%Q) by (intros H; apply Qle_bool_iff in H; congruence).
    repeat split; lra.
Qed.

Lemma py_min_spec (a b : Q) :
  (py_min a b <= a)%Q /\ (py_min a b <= b)%Q /\ (py_min a b == a \/ py_min a b == b)%Q.
Proof.
  unfold py_min, Qltb.
  destruct (Qle_bool a b) eqn:E; cbn [negb].
  - apply Qle_bool_iff in E. repeat split; lra.
  - assert (H : ~ (a <= b)%Q) by (intros H; apply Qle_bool_iff in H; congruence).
    repeat split; lra.
Qed.

Lemma clamp_between (x lo hi : Q) :
  (lo <= hi)%Q ->
  (lo <= py_min (py_max x lo) hi)%Q /\
  (py_min (py_max x lo) hi <= hi)%Q /\
  ((lo <= x)%Q -> (x <= hi)%Q -> (py_min (py_max x lo) hi == x)%Q).
Proof.
  intros Hq.
  destruct (py_max_spec x lo) as [M1 [M2 M3]].
  destruct (py_min_spec (py_max x lo) hi) as [N1 [N2 N3]].
  set (m := py_max x lo) in *.
  set (c := py_min m hi) in *.
  clearbody c. clearbody m.
  repeat split.
  - destruct N3 as [N3|N3]; lra.
  - exact N2.
  - intros Hlo Hhi. destruct M3 as [M3|M3], N3 as [N3|N3]; lra.
Qed.

Lemma quarter_parts (size : Q) :
  (0 <= size)%Q ->
  (0 <= size / 4)%Q /\ (size / 4 <= size * 3 / 4)%Q /\
  (size / 4 + size * 3 / 4 == size)%Q /\ (size / 4 + size / 4 == size / 2)%Q.
Proof.
  intros Hs. unfold Qdiv.
  assert (H4 : (/ 4 == 1 # 4)%Q) by reflexivity.
  assert (H2 : (/ 2 == 1 # 2)%Q) by reflexivity.
  rewrite H4, H2. repeat split; lra.
Qed.

(** X22.  The box that [cropCentered] cuts out lies inside the map and has half
    its width and half its height, wherever the conversion puts the
    centroid; the box is centred on the centroid whenever such a box around
    it fits the map.  On the empty polygon of a null view the call raises
    IndexError, as [getCentroid] does. *)
Theorem crop_box_lies_inside_the_map :
  forall (S : Shapely) convertLatLongToPixels width height polygonCoords,
    0 <= width -> 0 <= height ->
    match centroid_xy (Polygon polygonCoords) with
    | None =>
        cropCentered convertLatLongToPixels (width, height) polygonCoords = Raise IndexError
    | Some centerLatLong =>
        exists left upper right lower,
          cropCentered convertLatLongToPixels (width, height) polygonCoords =
            Ok (left, upper, right, lower) /\
          (0 <= left)%Q /\ (right <= inject_Z width)%Q /\
          (0 <= upper)%Q /\ (lower <= inject_Z height)%Q /\
          (right - left == inject_Z width / 2)%Q /\
          (lower - upper == inject_Z height / 2)%Q /\
          let x := fst (convertLatLongToPixels centerLatLong) in
          let y := snd (convertLatLongToPixels centerLatLong) in
          ((inject_Z width / 4 <= x)%Q -> (x <= inject_Z width * 3 / 4)%Q ->
           ((left + right) / 2 == x)%Q) /\
          ((inject_Z height / 4 <= y)%Q -> (y <= inject_Z height * 3 / 4)%Q ->
           ((upper + lower) / 2 == y)%Q)
    end.
Proof.
  intros S conv width height polygonCoords Hw Hh.
  unfold cropCentered, getCentroid. cbv zeta.
  destruct (centroid_xy (Polygon polygonCoords)) as [c|]; [|reflexivity].
  cbn [bind fst snd].
  assert (Hwq : (0 <= inject_Z width)%Q) by (unfold Qle; cbn; lia).
  assert (Hhq : (0 <= inject_Z height)%Q) by (unfold Qle; cbn; lia).
  destruct (quarter_parts _ Hwq) as [Wa [Wb [Wc Wd]]].
  destruct (quarter_parts _ Hhq) as [Ha [Hb [Hc Hd]]].
  destruct (clamp_between (fst (conv c)) _ _ Wb) as [X1 [X2 X3]].
  destruct (clamp_between (snd (conv c)) _ _ Hb) as [Y1 [Y2 Y3]].
  eexists _, _, _, _. split; [reflexivity|].
  set (cx := py_min (py_max (fst (conv c)) (inject_Z width / 4)) (inject_Z width * 3 / 4)) in *.
  set (cy := py_min (py_max (snd (conv c)) (inject_Z height / 4))
               (inject_Z height * 3 / 4)) in *.
  set (qw := (inject_Z width / 4)%Q) in *.
  set (qh := (inject_Z height / 4)%Q) in *.
  set (tw := (inject_Z width * 3 / 4)%Q) in *.
  set (th := (inject_Z height * 3 / 4)%Q) in *.
  set (hw := (inject_Z width / 2)%Q) in *.
  set (hh := (inject_Z height / 2)%Q) in *.
  set (x := fst (conv c)) in *. set (y := snd (conv c)) in *.
  clearbody cx cy qw qh tw th hw hh x y.
  assert (H2 : forall a b : Q, ((a - b + (a + b)) / 2 == a)%Q).
  { intros a b. unfold Qdiv.
    assert (E : (/ 2 == 1 # 2)%Q) by reflexivity. rewrite E. lra. }
  repeat split; try lra.
  - intros A B. rewrite H2. apply X3; assumption.
  - intros A B. rewrite H2. apply Y3; assumption.
Qed.

Lemma crop_box_lies_inside_the_map_witness :
  exists left upper right lower,
    cropCentered (S := RectShapely) (fun latLong => (fst latLong * 100, snd latLong * 300)%Q)
      (640, 640) (Some (rectangle 0 2 0 2)) = Ok (left, upper, right, lower) /\
    (left == 0)%Q /\ (right == 320)%Q /\ (upper == 140)%Q /\ (lower == 460)%Q.
Proof.
  destruct (crop_box_lies_inside_the_map RectShapely
              (fun latLong => (fst latLong * 100, snd latLong * 300)%Q)
              640 640 (Some (rectangle 0 2 0 2)))
    as [left [upper [right [lower [Hrun _]]]]].
  - lia.
  - lia.
  - exists left, upper, right, lower. split; [exact Hrun|].
    vm_compute in Hrun. injection Hrun as <- <- <- <-.
    repeat split; reflexivity.
Defined.

(** ** Images of the archive *)

Lemma list_item_in {A : Type} (l : list A) (i : Z) (a : A) :
  list_item l i = Some a -> In a l.
Proof.
  unfold list_item. destruct (list_position l i) as [position|]; [|discriminate].
  apply nth_error_In.
Qed.

Lemma hour_range (timeDT : Z) : 0 <= hour timeDT < 24.
Proof. unfold hour. apply Z.mod_pos_bound. lia. Qed.

Lemma hour_shift (timeDT hours : Z) :
  0 <= hour timeDT + hours < 24 ->
  hour (timeDT + timedelta_hours hours) = hour timeDT + hours.
Proof.
  unfold hour, timedelta_hours. intros H.
  rewrite Z.div_add by lia.
  rewrite <- Zplus_mod_idemp_l. apply Z.mod_small. exact H.
Qed.

(** X23.  The archive is only asked for daytime: the hour of the time that
    [getArchivedImages] asks for is at least 8 and below 20, whatever start,
    range and random draw; the time is the drawn one when that is in the
    day, eight hours later when drawn before 8, four hours earlier when
    drawn from 20 on.  An answer names a camera of the list, carries what
    the first file's name parses to, and gives one and the same path as
    image and as difference image. *)
Theorem archive_is_asked_for_daytime :
  forall getHpwrenImages unixTime cached cameras startTimeDT timeRangeSeconds random1 random2,
    let drawn := startTimeDT + timedelta_seconds (random2 * timeRangeSeconds) in
    let timeDT := archiveTime startTimeDT timeRangeSeconds random2 in
    8 <= hour timeDT < 20 /\
    (8 <= hour drawn < 20 -> timeDT = drawn) /\
    (hour drawn < 8 -> timeDT = drawn + timedelta_hours 8) /\
    (20 <= hour drawn -> timeDT = drawn - timedelta_hours 4) /\
    (forall cameraID timestamp imgPath classifyImgPath,
       getArchivedImages getHpwrenImages unixTime cached cameras startTimeDT
         timeRangeSeconds random1 random2 =
         Ok (Some (cameraID, timestamp, imgPath, classifyImgPath)) ->
       classifyImgPath = imgPath /\
       unixTime imgPath = Ok timestamp /\
       (exists camera, In camera cameras /\ NextImage.name camera = cameraID) /\
       exists file files,
         getHpwrenImages cameraID timeDT = file :: files /\
         imgPath = match cached with
                   | Some destPath => destPath file
                   | None => file
                   end).
Proof.
  intros G U cached cameras start range random1 random2 drawn timeDT.
  assert (Ht : timeDT =
               if hour drawn <? 8 then drawn + timedelta_hours 8
               else if hour drawn >=? 20 then drawn - timedelta_hours 4
               else drawn) by reflexivity.
  pose proof (hour_range drawn) as Hr.
  split; [|split; [|split; [|split]]].
  - rewrite Ht. destruct (hour drawn <? 8) eqn:E8.
    + rewrite hour_shift by lia. lia.
    + destruct (hour drawn >=? 20) eqn:E20.
      * replace (drawn - timedelta_hours 4) with (drawn + timedelta_hours (-4))
          by (unfold timedelta_hours; lia).
        rewrite hour_shift by lia. lia.
      * lia.
  - intros H. rewrite Ht.
    replace (hour drawn <? 8) with false by (symmetry; lia).
    replace (hour drawn >=? 20) with false by (symmetry; lia). reflexivity.
  - intros H. rewrite Ht.
    replace (hour drawn <? 8) with true by (symmetry; lia). reflexivity.
  - intros H. rewrite Ht.
    replace (hour drawn <? 8) with false by (symmetry; lia).
    replace (hour drawn >=? 20) with true by (symmetry; lia). reflexivity.
  - intros cameraID timestamp imgPath classifyImgPath Hrun.
    unfold getArchivedImages in Hrun. cbv zeta in Hrun.
    destruct (list_item cameras _) as [camera|] eqn:Ecam; [|discriminate Hrun].
    fold timeDT in Hrun.
    destruct (G (NextImage.name camera) timeDT) as [|file files] eqn:Efiles;
      [discriminate Hrun|].
    assert (Hfirst : match cached with
                     | Some destPath => List.map destPath (file :: files)
                     | None => file :: files
                     end =
                     match cached with
                     | Some destPath => destPath file
                     | None => file
                     end ::
                     match cached with
                     | Some destPath => List.map destPath files
                     | None => files
                     end) by (destruct cached; reflexivity).
    rewrite Hfirst in Hrun.
    destruct (U _) as [t|e] eqn:EU; cbn [bind] in Hrun; [|discriminate Hrun].
    injection Hrun as <- <- <- <-.
    split; [reflexivity|]. split; [exact EU|]. split.
    + exists camera. split; [|reflexivity]. exact (list_item_in _ _ _ Ecam).
    + exists file, files. split; [exact Efiles|reflexivity].
Qed.

Lemma archive_is_asked_for_daytime_witness :
  archiveTime 0 3600 (1 # 2) = 30600000000 /\
  hour (archiveTime 0 3600 (1 # 2)) = 8 /\
  getArchivedImages (fun cameraID timeDT => if timeDT =? 30600000000 then ["a.jpg"%string] else [])
    (fun _ => Ok 1600000000) None demoCameras 0 3600 (3 # 4) (1 # 2) =
    Ok (Some ("cam-south"%string, 1600000000, "a.jpg"%string, "a.jpg"%string)).
Proof.
  destruct (archive_is_asked_for_daytime
              (fun cameraID timeDT => if timeDT =? 30600000000 then ["a.jpg"%string] else [])
              (fun _ => Ok 1600000000) None demoCameras 0 3600 (3 # 4) (1 # 2))
    as [_ [_ [Hearly _]]].
  assert (Htime : archiveTime 0 3600 (1 # 2) = 30600000000).
  { etransitivity; [apply Hearly; vm_compute; reflexivity|]. vm_compute. reflexivity. }
  split; [exact Htime|]. split; [rewrite Htime; reflexivity|].
  vm_compute. reflexivity.
Defined.

(** ** The image of a minute before *)

Lemma findPrior_fixed unixTime alignImageObj timestamp first oldImages :
  ((forall f, In f oldImages -> unixTime f = timestamp) ->
   findPrior unixTime false alignImageObj timestamp first oldImages = None) /\
  ((exists f, In f oldImages /\ unixTime f <> timestamp) ->
   findPrior unixTime false alignImageObj timestamp first oldImages =
     Some (Prior.Opened first)).
Proof.
  induction oldImages as [|filePath rest [IH1 IH2]]; cbn [findPrior].
  - split; [reflexivity|]. intros [f [[] _]].
  - destruct (unixTime filePath =? timestamp) eqn:E.
    + apply Z.eqb_eq in E. split.
      * intros H. apply IH1. intros f Hf. apply H. right. exact Hf.
      * intros [f [[<-|Hf] Hne]]; [contradiction|]. apply IH2. exists f. split; assumption.
    + apply Z.eqb_neq in E. split; [|reflexivity].
      intros H. exfalso. apply E. apply H. left. reflexivity.
Qed.

Lemma findPrior_ptz unixTime alignImageObj timestamp first oldImages :
  findPrior unixTime true alignImageObj timestamp first oldImages =
    match List.find (fun f => negb (unixTime f =? timestamp) && alignImageObj f) oldImages with
    | Some filePath => Some (Prior.Aligned filePath)
    | None => None
    end.
Proof.
  induction oldImages as [|filePath rest IH]; cbn [findPrior List.find]; [reflexivity|].
  destruct (unixTime filePath =? timestamp); cbn [negb andb]; [exact IH|].
  destruct (alignImageObj filePath); [reflexivity|exact IH].
Qed.

(** X24.  For a camera that is not PTZ the prior image is the newest file of the
    archive's answer or nothing: the newest file is opened as soon as any
    file of the answer is of another time than the image, also when the
    newest file itself is of the image's time, the one the loop passes
    over; nothing is returned only when every file is of the image's time.
    For a PTZ camera the prior image is the newest file of another time
    that aligns.  Either way every file of the answer is removed. *)
Theorem prior_image_of_a_fixed_camera_is_the_newest_file :
  forall getArchiveImages unixTime alignImageObj timestamp older newest,
    getArchiveImages (timestamp - 90) (timestamp - 31) = older ++ [newest] ->
    let fixed := fetchPriorAligned getArchiveImages unixTime false alignImageObj timestamp in
    let ptz := fetchPriorAligned getArchiveImages unixTime true alignImageObj timestamp in
    snd fixed = newest :: rev older /\
    snd ptz = newest :: rev older /\
    ((exists f, In f (older ++ [newest]) /\ unixTime f <> timestamp) ->
     fst fixed = Some (Prior.Opened newest)) /\
    ((forall f, In f (older ++ [newest]) -> unixTime f = timestamp) ->
     fst fixed = None) /\
    fst ptz =
      match List.find (fun f => negb (unixTime f =? timestamp) && alignImageObj f)
              (newest :: rev older) with
      | Some filePath => Some (Prior.Aligned filePath)
      | None => None
      end.
Proof.
  intros G U A timestamp older newest Harchive fixed ptz.
  subst fixed ptz. unfold fetchPriorAligned. cbv zeta.
  rewrite Harchive, rev_app_distr. cbn [rev app fst snd].
  destruct (findPrior_fixed U A timestamp newest (newest :: rev older)) as [Hnone Hsome].
  split; [reflexivity|]. split; [reflexivity|]. split; [|split].
  - intros [f [Hin Hne]]. apply Hsome. exists f. split; [|exact Hne].
    apply in_app_or in Hin as [Hin|[<-|[]]].
    + right. apply in_rev in Hin. exact Hin.
    + left. reflexivity.
  - intros H. apply Hnone. intros f [<-|Hin].
    + apply H. apply in_or_app. right. left. reflexivity.
    + apply H. apply in_or_app. left. apply in_rev. exact Hin.
  - apply findPrior_ptz.
Qed.

Lemma prior_image_of_a_fixed_camera_is_the_newest_file_witness :
  fetchPriorAligned
    (fun startDT endDT =>
       if (startDT =? 910) && (endDT =? 969) then ["t940.jpg"%string; "t1000.jpg"%string]
       else [])
    (fun f => if String.eqb f "t1000.jpg" then 1000 else 940)
    false (fun _ => false) 1000 =
    (Some (Prior.Opened "t1000.jpg"), ["t1000.jpg"%string; "t940.jpg"%string]).
Proof.
  destruct (prior_image_of_a_fixed_camera_is_the_newest_file
              (fun startDT endDT =>
                 if (startDT =? 910) && (endDT =? 969)
                 then ["t940.jpg"%string; "t1000.jpg"%string]
                 else [])
              (fun f => if String.eqb f "t1000.jpg" then 1000 else 940)
              (fun _ => false) 1000 ["t940.jpg"%string] "t1000.jpg"%string)
    as [Hfiles [_ [Hopened _]]].
  - reflexivity.
  - apply injective_projections.
    + apply Hopened. exists "t940.jpg"%string. split; [left; reflexivity|].
      cbn. discriminate.
    + exact Hfiles.
Defined.

(** ** The detection group *)

Lemma split_on_single (sep : ascii) (s : string) :
  occurs sep s = false -> split_on sep s = [s].
Proof.
  induction s as [|c s IH]; cbn [occurs split_on]; [reflexivity|].
  intros H. apply orb_false_elim in H as [Hc Hs].
  rewrite Hc, (IH Hs). reflexivity.
Qed.

Lemma split_on_app (sep : ascii) (prefix s : string) :
  split_on sep (prefix ++ String sep s)%string = split_on sep prefix ++ split_on sep s.
Proof.
  induction prefix as [|c prefix IH]; cbn [String.append split_on app].
  - rewrite Ascii.eqb_refl. reflexivity.
  - destruct (Ascii.eqb c sep); [rewrite IH; reflexivity|].
    rewrite IH. destruct (split_on sep prefix) as [|piece pieces] eqn:E; [|reflexivity].
    exfalso. exact (split_on_nonempty _ _ E).
Qed.

Lemma last_of_app {A : Type} (l1 l2 : list A) (d : A) :
  l2 <> [] -> List.last (l1 ++ l2) d = List.last l2 d.
Proof.
  intros Hne. induction l1 as [|a l1 IH]; [reflexivity|].
  cbn [app]. destruct (l1 ++ l2) eqn:E.
  - apply app_eq_nil in E as [_ E]. contradiction.
  - rewrite <- IH. reflexivity.
Qed.

Lemma last_path_component (prefix g : string) :
  occurs "/" g = false ->
  List.last (split_on "/" (prefix ++ String "/" g)%string) EmptyString = g /\
  List.last (split_on "/" g) EmptyString = g.
Proof.
  intros Hg. rewrite split_on_app, last_of_app by apply split_on_nonempty.
  rewrite (split_on_single _ _ Hg). split; reflexivity.
Qed.

(** X25.  A group is looked up by the last component of its path: for a name
    without slash, the configuration found for any path ending in the name
    is the one found for the name itself, whether the path comes from the
    command line or from the instance, and the command line goes before the
    instance.  With groups configured, a name that none of them bears
    raises AssertionError; a configuration returned bears the name asked
    for and is the first entry of that name. *)
Theorem group_is_found_by_its_last_path_component :
  forall instanceGroup detectGroups prefix g,
    g <> EmptyString -> occurs "/" g = false ->
    getGroupConfig instanceGroup detectGroups (Some (prefix ++ String "/" g)%string) =
      getGroupConfig None detectGroups (Some g) /\
    getGroupConfig (Some (prefix ++ String "/" g)%string) detectGroups None =
      getGroupConfig None detectGroups (Some g) /\
    (detectGroups <> [] ->
     (forall c, In c detectGroups -> Group.name c <> g) ->
     getGroupConfig None detectGroups (Some g) = Raise AssertionError) /\
    (forall params,
       getGroupConfig None detectGroups (Some g) = Ok (Some params) ->
       Group.p_name params = g /\
       exists before groupConfig after,
         detectGroups = before ++ groupConfig :: after /\
         (forall c, In c before -> Group.name c <> g) /\
         Group.name groupConfig = g /\
         Group.p_numInstances params = Group.numInstances groupConfig /\
         Group.p_counterName params = Group.counterName groupConfig /\
         Group.p_restrictType params = Group.restrictType groupConfig /\
         match Group.protoModelInfo groupConfig with
         | None => Group.p_proto params = None
         | Some protoModelInfo =>
             exists protoNum protoPolicy protoPolicyParams useWeatherModel rest,
               split_on ";" protoModelInfo =
                 protoNum :: protoPolicy :: protoPolicyParams :: useWeatherModel :: rest /\
               Group.p_proto params =
                 Some (protoNum, protoPolicy, protoPolicyParams,
                       String.eqb useWeatherModel "1")
         end).
Proof.
  intros instanceGroup detectGroups prefix g Hne Hg.
  destruct (last_path_component prefix g Hg) as [Hlast Hown].
  assert (Hpath : exists c s, (prefix ++ String "/" g)%string = String c s).
  { destruct prefix as [|c prefix]; cbn [String.append]; eauto. }
  destruct Hpath as [c0 [s0 Hpath]].
  assert (Hfind : forall detectGroup instance,
             match detectGroup with
             | Some (String c s) => Some (String c s)
             | _ => instance
             end = Some (prefix ++ String "/" g)%string ->
             getGroupConfig instance detectGroups detectGroup =
               getGroupConfig None detectGroups (Some g)).
  { intros detectGroup instance Hname. unfold getGroupConfig. cbv zeta.
    rewrite Hname. destruct g as [|cg sg]; [contradiction|].
    rewrite Hpath. rewrite <- Hpath, Hlast, Hown. reflexivity. }
  split; [|split; [|split]].
  - apply Hfind. rewrite Hpath. reflexivity.
  - apply Hfind. reflexivity.
  - intros Hgroups Hnone. unfold getGroupConfig. cbv zeta.
    destruct g as [|cg sg]; [contradiction|]. rewrite Hown.
    destruct detectGroups as [|d ds]; [contradiction|].
    destruct (List.find _ (d :: ds)) as [groupConfig|] eqn:Efind; [|reflexivity].
    apply find_some in Efind as [Hin Heq]. apply String.eqb_eq in Heq.
    exfalso. exact (Hnone _ Hin Heq).
  - intros params Hrun. unfold getGroupConfig in Hrun. cbv zeta in Hrun.
    destruct g as [|cg sg]; [contradiction|]. rewrite Hown in Hrun.
    destruct detectGroups as [|d ds]; [discriminate Hrun|].
    set (g := String cg sg) in *.
    assert (Hsplit : forall l found,
               List.find (fun x => String.eqb (Group.name x) g) l = Some found ->
               exists before after,
                 l = before ++ found :: after /\
                 (forall c, In c before -> Group.name c <> g) /\
                 Group.name found = g).
    { induction l as [|x l IH]; cbn [List.find]; [discriminate|].
      intros found. destruct (String.eqb (Group.name x) g) eqn:E.
      - intros H. injection H as <-. exists [], l. apply String.eqb_eq in E.
        split; [reflexivity|]. split; [intros c []|exact E].
      - intros H. destruct (IH _ H) as [before [after [-> [Hb Hn]]]].
        exists (x :: before), after. split; [reflexivity|]. split; [|exact Hn].
        intros c [<-|Hc]; [apply String.eqb_neq; exact E|exact (Hb _ Hc)]. }
    destruct (List.find _ (d :: ds)) as [groupConfig|] eqn:Efind; [|discriminate Hrun].
    destruct (Hsplit _ _ Efind) as [before [after [Hlist [Hbefore Hname]]]].
    destruct (Group.protoModelInfo groupConfig) as [info|] eqn:Einfo.
    + destruct (split_on ";" info) as [|p0 [|p1 [|p2 [|p3 rest]]]] eqn:Eparts;
        try discriminate Hrun.
      injection Hrun as <-. cbn. split; [exact Hname|].
      exists before, groupConfig, after. rewrite Einfo.
      repeat split; try assumption; try reflexivity.
      exists p0, p1, p2, p3, rest. split; [exact Eparts|reflexivity].
    + injection Hrun as <-. cbn. split; [exact Hname|].
      exists before, groupConfig, after. rewrite Einfo.
      repeat split; try assumption; reflexivity.
Qed.

Lemma group_is_found_by_its_last_path_component_witness :
  getGroupConfig (Some "detect-prod"%string) demoGroups
    (Some "zones/us-west1-b/instanceGroups/detect-proto"%string) =
    Ok (Some {| Group.p_name := "detect-proto";
                Group.p_numInstances := 1;
                Group.p_counterName := "proto";
                Group.p_restrictType := "test";
                Group.p_proto :=
                  Some ("2"%string, "always"%string, "protoModel"%string, true) |}) /\
  getGroupConfig None demoGroups (Some "zones/detect-old"%string) = Raise AssertionError.
Proof.
  split.
  - destruct (group_is_found_by_its_last_path_component (Some "detect-prod"%string) demoGroups
                "zones/us-west1-b/instanceGroups"%string "detect-proto"%string)
      as [Hpath _].
    + discriminate.
    + reflexivity.
    + etransitivity; [exact Hpath|]. vm_compute. reflexivity.
  - destruct (group_is_found_by_its_last_path_component None demoGroups
                "zones"%string "detect-old"%string)
      as [Hpath [_ [Hunknown _]]].
    + discriminate.
    + reflexivity.
    + etransitivity; [exact Hpath|]. apply Hunknown; [discriminate|].
      intros c [<-|[<-|[]]]; discriminate.
Defined.

(** ** The annotated maps *)

Lemma getMapSize_known settings mapImgGCS mapHeightLat mapWidthLong zoom :
  getMapSize settings mapImgGCS = Some (mapHeightLat, mapWidthLong, zoom) ->
  Maps.MAP_ZOOM_MIN settings <= zoom <= Maps.MAP_ZOOM_MAX settings /\
  (mapHeightLat ==
     Maps.MAP_LAT_DIFF settings / inject_Z (2 ^ (zoom - Maps.MAP_ZOOM_MIN settings)))%Q /\
  (mapWidthLong ==
     Maps.MAP_LONG_DIFF settings / inject_Z (2 ^ (zoom - Maps.MAP_ZOOM_MIN settings)))%Q /\
  exists digits, findall_zoom mapImgGCS = [digits] /\ zoom = int_of_digits digits.
Proof.
  unfold getMapSize.
  destruct (findall_zoom mapImgGCS) as [|digits [|more rest]]; try discriminate.
  cbv zeta.
  destruct ((int_of_digits digits <? Maps.MAP_ZOOM_MIN settings) ||
            (int_of_digits digits >? Maps.MAP_ZOOM_MAX settings)) eqn:Erange;
    [discriminate|].
  apply orb_false_elim in Erange as [Hmin Hmax].
  destruct (int_of_digits digits - Maps.MAP_ZOOM_MIN settings =? 0) eqn:Ediff;
    intros H; injection H as <- <- <-.
  - apply Z.eqb_eq in Ediff. rewrite Ediff. cbn [Z.pow].
    split; [lia|]. split; [|split; [|exists digits; split; reflexivity]].
    + unfold Qdiv. assert (E : (/ inject_Z 1 == 1)%Q) by reflexivity. rewrite E. ring.
    + unfold Qdiv. assert (E : (/ inject_Z 1 == 1)%Q) by reflexivity. rewrite E. ring.
  - split; [lia|]. split; [reflexivity|]. split; [reflexivity|].
    exists digits. split; reflexivity.
Qed.

Lemma drawSources_drawn {S : Shapely} convert left right top bottom n sourcePolygons :
  forall i drawn,
    drawSources convert left right top bottom n i sourcePolygons = Ok drawn ->
    List.length drawn = List.length sourcePolygons /\
    (forall sourcePolygon, In sourcePolygon sourcePolygons ->
       exists ring,
         getPolygonIntersection sourcePolygon (Some (mapRectangle left right top bottom)) =
           Ok (Some ring)) /\
    Forall (fun d => Maps.fillColor d = Maps.lightRed) drawn /\
    (forall k d, nth_error drawn k = Some d ->
       Maps.outlined d = (i + Z.of_nat k =? n - 1)).
Proof.
  induction sourcePolygons as [|sp sps IH]; intros i drawn; cbn [drawSources].
  - intros H. injection H as <-. split; [reflexivity|]. split; [intros ? []|].
    split; [constructor|]. intros [|k] d; discriminate.
  - unfold drawPolyLatLong at 1.
    destruct (getPolygonIntersection sp _) as [[ring|]|e] eqn:Ecut; cbn [bind];
      try discriminate.
    destruct (drawSources convert left right top bottom n (i + 1) sps) as [ds|e] eqn:Erest;
      cbn [bind]; [|discriminate].
    intros H. injection H as <-.
    destruct (IH _ _ Erest) as [Hlen [Hall [Hred Hout]]].
    split; [cbn [List.length]; congruence|]. split; [|split].
    + intros sourcePolygon [<-|Hin]; [exists ring; exact Ecut|exact (Hall _ Hin)].
    + constructor; [reflexivity|exact Hred].
    + intros [|k] d Hd.
      * injection Hd as <-. cbn. rewrite Z.add_0_r. reflexivity.
      * cbn [nth_error] in Hd. rewrite (Hout _ _ Hd). f_equal. lia.
Qed.

Lemma drawSources_off_the_map {S : Shapely} convert left right top bottom n sourcePolygons :
  forall i,
    (forall sourcePolygon, In sourcePolygon sourcePolygons ->
       exists cut,
         getPolygonIntersection sourcePolygon (Some (mapRectangle left right top bottom)) =
           Ok cut) ->
    (exists sourcePolygon,
       In sourcePolygon sourcePolygons /\
       getPolygonIntersection sourcePolygon (Some (mapRectangle left right top bottom)) =
         Ok None) ->
    drawSources convert left right top bottom n i sourcePolygons = Raise TypeError.
Proof.
  induction sourcePolygons as [|sp sps IH]; intros i Hall [off [Hin Hoff]]; [destruct Hin|].
  cbn [drawSources]. unfold drawPolyLatLong at 1.
  destruct (Hall sp (or_introl eq_refl)) as [[ring|] Hcut]; rewrite Hcut; cbn [bind];
    [|reflexivity].
  rewrite IH; [reflexivity| |].
  - intros sourcePolygon H. apply Hall. right. exact H.
  - destruct Hin as [<-|Hin]; [congruence|]. exists off. split; assumption.
Qed.

(** X26.  A map is annotated only when all of it can be drawn.  When
    [genAnnotatedMap] returns a map, the file's name gave a zoom level
    within the settings' range, the map's extents are those of the lowest
    level halved once per level above it, every source polygon has an area
    in common with the map, and so has the fire's polygon if there are
    several sources; the source polygons are drawn in their order in light
    red, only the last one outlined, then the fire's polygon in light blue
    if there are several sources, and the crop is the one of
    [cropCentered] around the fire's polygon. *)
Theorem annotated_map_shows_every_source :
  forall (S : Shapely) settings size convertLatLongToPixels pointInArea mapImgGCS
         camLatitude camLongitude polygon sourcePolygons rxBurns m,
    genAnnotatedMap settings size convertLatLongToPixels pointInArea mapImgGCS
      camLatitude camLongitude polygon sourcePolygons rxBurns = Ok (Some m) ->
    exists mapHeightLat mapWidthLong,
      getMapSize settings mapImgGCS = Some (mapHeightLat, mapWidthLong, Maps.zoom m) /\
      Maps.MAP_ZOOM_MIN settings <= Maps.zoom m <= Maps.MAP_ZOOM_MAX settings /\
      (mapHeightLat ==
         Maps.MAP_LAT_DIFF settings /
         inject_Z (2 ^ (Maps.zoom m - Maps.MAP_ZOOM_MIN settings)))%Q /\
      (mapWidthLong ==
         Maps.MAP_LONG_DIFF settings /
         inject_Z (2 ^ (Maps.zoom m - Maps.MAP_ZOOM_MIN settings)))%Q /\
      let leftLongitude := (camLongitude - mapWidthLong / 2)%Q in
      let rightLongitude := (camLongitude + mapWidthLong / 2)%Q in
      let bottomLatitude := (camLatitude - mapHeightLat / 2)%Q in
      let topLatitude := (camLatitude + mapHeightLat / 2)%Q in
      let map := mapRectangle leftLongitude rightLongitude topLatitude bottomLatitude in
      let several := (1 <? List.length sourcePolygons)%nat in
      (forall sourcePolygon, In sourcePolygon sourcePolygons ->
         exists ring, getPolygonIntersection sourcePolygon (Some map) = Ok (Some ring)) /\
      (several = true ->
         exists ring, getPolygonIntersection polygon (Some map) = Ok (Some ring)) /\
      List.length (Maps.drawings m) =
        (List.length sourcePolygons + if several then 1 else 0)%nat /\
      (forall k d, nth_error (Maps.drawings m) k = Some d ->
         (k < List.length sourcePolygons)%nat ->
         Maps.fillColor d = Maps.lightRed /\
         Maps.outlined d = Nat.eqb (Datatypes.S k) (List.length sourcePolygons)) /\
      (forall d, nth_error (Maps.drawings m) (List.length sourcePolygons) = Some d ->
         Maps.fillColor d = Maps.lightBlue /\ Maps.outlined d = false) /\
      cropCentered
        (convertLatLongToPixels leftLongitude rightLongitude topLatitude bottomLatitude)
        (size mapImgGCS) polygon = Ok (Maps.crop m).
Proof.
  intros S settings size conv pia f camLat camLong polygon sps burns m Hrun.
  unfold genAnnotatedMap in Hrun.
  destruct (getMapSize settings f) as [[[h w] z]|] eqn:Esize; [|discriminate Hrun].
  destruct (Qeq_bool h 0 || Qeq_bool w 0 || (z =? 0)); [discriminate Hrun|].
  cbv zeta in Hrun.
  destruct (drawSources _ _ _ _ _ _ _ sps) as [sources|e] eqn:Esources;
    cbn [bind] in Hrun; [|discriminate Hrun].
  destruct (drawSources_drawn _ _ _ _ _ _ _ _ _ Esources) as [Hlen [Hall [Hred Hout]]].
  assert (Hseveral : (Z.of_nat (List.length sps) >? 1) = (1 <? List.length sps)%nat).
  { destruct (1 <? List.length sps)%nat eqn:E.
    - apply Nat.ltb_lt in E. lia.
    - apply Nat.ltb_ge in E. lia. }
  rewrite Hseveral in Hrun.
  exists h, w.
  destruct (getMapSize_known _ _ _ _ _ Esize) as [Hrange [Hh [Hw _]]].
  destruct (1 <? List.length sps)%nat eqn:Eseveral.
  - unfold drawPolyLatLong in Hrun.
    destruct (getPolygonIntersection polygon _) as [[ring|]|e] eqn:Ecut;
      cbn [bind] in Hrun; try discriminate Hrun.
    destruct (cropCentered _ _ polygon) as [box|e] eqn:Ecrop; cbn [bind] in Hrun;
      [|discriminate Hrun].
    injection Hrun as <-. cbn [Maps.zoom Maps.drawings Maps.crop].
    split; [reflexivity|]. split; [exact Hrange|]. split; [exact Hh|]. split; [exact Hw|].
    cbv zeta. split; [exact Hall|]. split; [intros _; exists ring; exact Ecut|].
    split; [rewrite length_app, Hlen; reflexivity|]. split; [|split].
    + intros k d Hd Hk. rewrite nth_error_app1 in Hd by lia. split.
      * rewrite Forall_forall in Hred. apply Hred. exact (nth_error_In _ _ Hd).
      * rewrite (Hout _ _ Hd). destruct (Nat.eqb (Datatypes.S k) (List.length sps)) eqn:E.
        -- apply Nat.eqb_eq in E. lia.
        -- apply Nat.eqb_neq in E. lia.
    + intros d Hd. rewrite nth_error_app2 in Hd by lia.
      rewrite <- Hlen, Nat.sub_diag in Hd. injection Hd as <-. split; reflexivity.
    + exact Ecrop.
  - cbn [bind] in Hrun.
    destruct (cropCentered _ _ polygon) as [box|e] eqn:Ecrop; cbn [bind] in Hrun;
      [|discriminate Hrun].
    injection Hrun as <-. cbn [Maps.zoom Maps.drawings Maps.crop].
    split; [reflexivity|]. split; [exact Hrange|]. split; [exact Hh|]. split; [exact Hw|].
    cbv zeta. split; [exact Hall|]. split; [discriminate|].
    split; [rewrite length_app, Hlen; cbn; lia|]. split; [|split].
    + intros k d Hd Hk. rewrite nth_error_app1 in Hd by lia. split.
      * rewrite Forall_forall in Hred. apply Hred. exact (nth_error_In _ _ Hd).
      * rewrite (Hout _ _ Hd). destruct (Nat.eqb (Datatypes.S k) (List.length sps)) eqn:E.
        -- apply Nat.eqb_eq in E. lia.
        -- apply Nat.eqb_neq in E. lia.
    + intros d Hd. rewrite nth_error_app2 in Hd by lia.
      rewrite <- Hlen, Nat.sub_diag in Hd. discriminate Hd.
    + exact Ecrop.
Qed.

Lemma annotated_map_shows_every_source_witness :
  exists m,
    genAnnotatedMap (S := RectShapely) demoMapSettings (fun _ => (640, 640)) demoPixels
      (fun _ _ _ _ _ => true) "gs://maps/north_map640z10.jpg" 33 (-117)
      (Some (rectangle (332 # 10) (335 # 10) (-117) (-1166 # 10)))
      [ Some (rectangle 33 (335 # 10) (-117) (-1165 # 10));
        Some (rectangle (332 # 10) (336 # 10) (-117) (-1166 # 10)) ]
      [] = Ok (Some m) /\
    Maps.zoom m = 10 /\
    List.length (Maps.drawings m) = 3%nat.
Proof.
  destruct (genAnnotatedMap (S := RectShapely) demoMapSettings (fun _ => (640, 640)) demoPixels
              (fun _ _ _ _ _ => true) "gs://maps/north_map640z10.jpg" 33 (-117)
              (Some (rectangle (332 # 10) (335 # 10) (-117) (-1166 # 10)))
              [ Some (rectangle 33 (335 # 10) (-117) (-1165 # 10));
                Some (rectangle (332 # 10) (336 # 10) (-117) (-1166 # 10)) ]
              []) as [[m|]|e] eqn:Hrun.
  - exists m. split; [reflexivity|].
    destruct (annotated_map_shows_every_source _ _ _ _ _ _ _ _ _ _ _ _ Hrun)
      as [h [w [Hsize [_ [_ [_ Hrest]]]]]].
    cbv zeta in Hrest. destruct Hrest as [_ [_ [Hlen _]]].
    split; [|exact Hlen].
    vm_compute in Hsize. injection Hsize as _ _ Hzoom. symmetry. exact Hzoom.
  - vm_compute in Hrun. discriminate Hrun.
  - vm_compute in Hrun. discriminate Hrun.
Defined.

Lemma annotate_without_size {S : Shapely} settings size convert pointInArea files
    camLatitude camLongitude polygon sourcePolygons rxBurns :
  Forall (fun mapImgGCS => getMapSize settings mapImgGCS = None) files ->
  Render.annotate settings size convert pointInArea files camLatitude camLongitude polygon
    sourcePolygons rxBurns = Ok [].
Proof.
  induction 1 as [|f files Hf _ IH]; cbn [Render.annotate]; [reflexivity|].
  unfold genAnnotatedMap. rewrite Hf. cbn [bind]. rewrite IH. reflexivity.
Qed.

(** X27.  The maps fail as a whole on an area off the first map, and are empty
    without a usable file name.  When no name in [mapFiles] gives a map
    size, [genAnnotatedMaps] returns the empty string whatever the
    polygons are.  When the first name gives a size and one of the source
    polygons has no area in common with that map, as a null polygon has
    not, the call raises TypeError, and no URL of any map is returned. *)
Theorem area_off_the_map_raises :
  forall (S : Shapely) settings size convertLatLongToPixels pointInArea mapUrl mapFiles
         camLatitude camLongitude polygon sourcePolygons rxBurns,
    (Forall (fun mapImgGCS => getMapSize settings mapImgGCS = None)
       (split_on "," mapFiles) ->
     Render.genAnnotatedMaps settings size convertLatLongToPixels pointInArea mapUrl mapFiles
       camLatitude camLongitude polygon sourcePolygons rxBurns = Ok EmptyString) /\
    (forall mapImgGCS files mapHeightLat mapWidthLong zoom,
       split_on "," mapFiles = mapImgGCS :: files ->
       getMapSize settings mapImgGCS = Some (mapHeightLat, mapWidthLong, zoom) ->
       ~ (mapHeightLat == 0)%Q -> ~ (mapWidthLong == 0)%Q -> zoom <> 0 ->
       let map :=
         mapRectangle (camLongitude - mapWidthLong / 2) (camLongitude + mapWidthLong / 2)
           (camLatitude + mapHeightLat / 2) (camLatitude - mapHeightLat / 2) in
       (forall sourcePolygon, In sourcePolygon sourcePolygons ->
          exists cut, getPolygonIntersection sourcePolygon (Some map) = Ok cut) ->
       (exists sourcePolygon,
          In sourcePolygon sourcePolygons /\
          getPolygonIntersection sourcePolygon (Some map) = Ok None) ->
       Render.genAnnotatedMaps settings size convertLatLongToPixels pointInArea mapUrl mapFiles
         camLatitude camLongitude polygon sourcePolygons rxBurns = Raise TypeError).
Proof.
  intros S settings size conv pia mapUrl mapFiles camLat camLong polygon sps burns. split.
  - intros Hnone. unfold Render.genAnnotatedMaps.
    rewrite (annotate_without_size _ _ _ _ _ _ _ _ _ _ Hnone). reflexivity.
  - intros f files h w z Hfiles Hsize Hh Hw Hz map Hall Hoff.
    unfold Render.genAnnotatedMaps. rewrite Hfiles. cbn [Render.annotate].
    unfold genAnnotatedMap. rewrite Hsize.
    replace (Qeq_bool h 0) with false
      by (symmetry; apply not_true_is_false; intros E; apply Hh, Qeq_bool_iff, E).
    replace (Qeq_bool w 0) with false
      by (symmetry; apply not_true_is_false; intros E; apply Hw, Qeq_bool_iff, E).
    replace (z =? 0) with false by (symmetry; apply Z.eqb_neq; exact Hz).
    cbn [orb]. cbv zeta.
    rewrite (drawSources_off_the_map _ _ _ _ _ _ _ _ Hall Hoff). reflexivity.
Qed.

Lemma area_off_the_map_raises_witness :
  Render.genAnnotatedMaps (S := RectShapely) demoMapSettings (fun _ => (640, 640)) demoPixels
    (fun _ _ _ _ _ => true) (fun _ => "url"%string)
    "gs://maps/north_map640z11.jpg,gs://maps/north_map640z9.jpg" 33 (-117)
    (Some (rectangle 33 (335 # 10) (-117) (-1165 # 10)))
    [ None; Some (rectangle 33 (335 # 10) (-117) (-1165 # 10)) ] [] = Raise TypeError /\
  Render.genAnnotatedMaps (S := RectShapely) demoMapSettings (fun _ => (640, 640)) demoPixels
    (fun _ _ _ _ _ => true) (fun _ => "url"%string)
    "gs://maps/north_map640z12.jpg,gs://maps/north.jpg" 33 (-117)
    None [ None ] [] = Ok EmptyString.
Proof.
  split.
  - destruct (area_off_the_map_raises RectShapely demoMapSettings (fun _ => (640, 640))
                demoPixels (fun _ _ _ _ _ => true) (fun _ => "url"%string)
                "gs://maps/north_map640z11.jpg,gs://maps/north_map640z9.jpg" 33 (-117)
                (Some (rectangle 33 (335 # 10) (-117) (-1165 # 10)))
                [ None; Some (rectangle 33 (335 # 10) (-117) (-1165 # 10)) ] [])
      as [_ Hraise].
    apply (Hraise "gs://maps/north_map640z11.jpg"%string ["gs://maps/north_map640z9.jpg"%string]
             (4 # 4)%Q (4 # 4)%Q 11).
    + vm_compute. reflexivity.
    + vm_compute. reflexivity.
    + intros H. vm_compute in H. discriminate H.
    + intros H. vm_compute in H. discriminate H.
    + discriminate.
    + intros sourcePolygon [<-|[<-|[]]]; eexists; vm_compute; reflexivity.
    + exists None. split; [left; reflexivity|]. vm_compute. reflexivity.
  - destruct (area_off_the_map_raises RectShapely demoMapSettings (fun _ => (640, 640))
                demoPixels (fun _ _ _ _ _ => true) (fun _ => "url"%string)
                "gs://maps/north_map640z12.jpg,gs://maps/north.jpg" 33 (-117)
                None [ None ] [])
      as [Hempty _].
    apply Hempty. vm_compute. repeat constructor.
Defined.

(** ** Cameras marked on a map *)

Lemma Qltb_lt (a b : Q) : Qltb a b = true <-> (a < b)%Q.
Proof.
  unfold Qltb. split.
  - intros H. apply negb_true_iff in H. apply Qnot_le_lt. intros Hle.
    apply Qle_bool_iff in Hle. congruence.
  - intros H. apply negb_true_iff. apply not_true_is_false. intros Hle.
    apply Qle_bool_iff in Hle. apply Qlt_not_le in H. contradiction.
Qed.

Lemma share_of_extent (v lo hi extent : Q) :
  (lo < hi)%Q -> (0 <= extent)%Q ->
  ((lo <= v)%Q -> (v <= hi)%Q ->
   (0 <= (v - lo) / (hi - lo) * extent)%Q /\ ((v - lo) / (hi - lo) * extent <= extent)%Q) /\
  ((v == lo)%Q -> ((v - lo) / (hi - lo) * extent == 0)%Q) /\
  ((v == hi)%Q -> ((v - lo) / (hi - lo) * extent == extent)%Q).
Proof.
  intros Hlt He.
  assert (Hd : (0 < hi - lo)%Q) by lra.
  assert (Hd0 : ~ (hi - lo == 0)%Q) by lra.
  split; [|split].
  - intros H1 H2.
    assert (F0 : (0 <= (v - lo) / (hi - lo))%Q).
    { apply Qle_shift_div_l; [exact Hd|]. lra. }
    assert (F1 : ((v - lo) / (hi - lo) <= 1)%Q).
    { apply Qle_shift_div_r; [exact Hd|]. lra. }
    split.
    + apply Qmult_le_0_compat; assumption.
    + setoid_replace extent with (1 * extent)%Q at 2 by ring.
      apply Qmult_le_compat_r; assumption.
  - intros ->. field. exact Hd0.
  - intros ->. field. exact Hd0.
Qed.

(** X28.  A camera is marked where it lies on the map.  When the script gets to
    draw, the borders are in order and there is a location; the circles are
    those of the locations in their order; a camera between the left and
    right border is marked between the left and right edge of the image,
    one between the bottom and top border between the image's lower and
    upper edge, with the top border on the image's row 0.  Borders out of
    order raise AssertionError, whatever the locations; with borders in
    order, an empty answer of the database raises TypeError. *)
Theorem camera_on_the_map_is_marked_inside_the_image :
  forall dbResult width height leftLongitude rightLongitude topLatitude bottomLatitude,
    0 <= width -> 0 <= height ->
    (forall circles,
       Mark.main dbResult (width, height) leftLongitude rightLongitude topLatitude
         bottomLatitude = Ok circles ->
       (leftLongitude < rightLongitude)%Q /\ (bottomLatitude < topLatitude)%Q /\
       dbResult <> [] /\
       Forall2
         (fun location circle =>
            ((leftLongitude <= Mark.longitude location)%Q ->
             (Mark.longitude location <= rightLongitude)%Q ->
             (0 <= Mark.centerX circle)%Q /\ (Mark.centerX circle <= inject_Z width)%Q) /\
            ((bottomLatitude <= Mark.latitude location)%Q ->
             (Mark.latitude location <= topLatitude)%Q ->
             (0 <= Mark.centerY circle)%Q /\ (Mark.centerY circle <= inject_Z height)%Q) /\
            ((Mark.latitude location == topLatitude)%Q -> (Mark.centerY circle == 0)%Q) /\
            ((Mark.latitude location == bottomLatitude)%Q ->
             (Mark.centerY circle == inject_Z height)%Q) /\
            ((Mark.longitude location == leftLongitude)%Q -> (Mark.centerX circle == 0)%Q) /\
            ((Mark.longitude location == rightLongitude)%Q ->
             (Mark.centerX circle == inject_Z width)%Q))
         dbResult circles) /\
    (~ (leftLongitude < rightLongitude)%Q \/ ~ (bottomLatitude < topLatitude)%Q ->
     Mark.main dbResult (width, height) leftLongitude rightLongitude topLatitude
       bottomLatitude = Raise AssertionError) /\
    ((leftLongitude < rightLongitude)%Q -> (bottomLatitude < topLatitude)%Q ->
     Mark.main [] (width, height) leftLongitude rightLongitude topLatitude bottomLatitude =
       Raise TypeError).
Proof.
  intros dbResult width height left right top bottom Hw Hh.
  assert (Hwq : (0 <= inject_Z width)%Q) by (unfold Qle; cbn; lia).
  assert (Hhq : (0 <= inject_Z height)%Q) by (unfold Qle; cbn; lia).
  split; [|split].
  - intros circles Hrun. unfold Mark.main in Hrun. cbv zeta in Hrun.
    destruct (Qltb left right) eqn:Elr; cbn [negb] in Hrun; [|discriminate Hrun].
    destruct (Qltb bottom top) eqn:Ebt; cbn [negb] in Hrun; [|discriminate Hrun].
    apply Qltb_lt in Elr. apply Qltb_lt in Ebt.
    destruct dbResult as [|l ls]; [discriminate Hrun|].
    assert (Hsome : l :: ls <> []) by discriminate.
    set (locations := l :: ls) in *.
    change (Mark.getCameraLocations locations) with (Some locations) in Hrun.
    cbv beta iota in Hrun. cbn [fst snd] in Hrun. clearbody locations.
    injection Hrun as <-.
    split; [exact Elr|]. split; [exact Ebt|]. split; [exact Hsome|].
    clear Hsome.
    induction locations as [|location locations IH]; cbn [List.map]; constructor;
      [|exact IH].
    cbn [Mark.centerX Mark.centerY].
    destruct (share_of_extent (Mark.longitude location) left right _ Elr Hwq)
      as [Xin [Xlo Xhi]].
    destruct (share_of_extent (Mark.latitude location) bottom top _ Ebt Hhq)
      as [Yin [Ylo Yhi]].
    split; [exact Xin|]. split; [|split; [|split; [|split]]].
    + intros H1 H2. destruct (Yin H1 H2) as [Y0 Y1]. split; lra.
    + intros H. rewrite (Yhi H). ring.
    + intros H. rewrite (Ylo H). ring.
    + exact Xlo.
    + exact Xhi.
  - intros Hbad. unfold Mark.main. cbv zeta.
    destruct (Qltb left right) eqn:Elr; cbn [negb]; [|reflexivity].
    destruct (Qltb bottom top) eqn:Ebt; cbn [negb]; [|reflexivity].
    apply Qltb_lt in Elr. apply Qltb_lt in Ebt. destruct Hbad; contradiction.
  - intros Hlr Hbt. unfold Mark.main. cbv zeta.
    apply Qltb_lt in Hlr. apply Qltb_lt in Hbt. rewrite Hlr, Hbt. reflexivity.
Qed.

Lemma camera_on_the_map_is_marked_inside_the_image_witness :
  exists circle,
    Mark.main [ {| Mark.latitude := 33; Mark.longitude := -117 |} ] (640, 480)
      (-118) (-116) 34 32 = Ok [circle] /\
    (0 <= Mark.centerX circle)%Q /\ (Mark.centerX circle <= 640)%Q /\
    (0 <= Mark.centerY circle)%Q /\ (Mark.centerY circle <= 480)%Q.
Proof.
  destruct (camera_on_the_map_is_marked_inside_the_image
              [ {| Mark.latitude := 33; Mark.longitude := -117 |} ] 640 480
              (-118) (-116) 34 32) as [Hdrawn _].
  - lia.
  - lia.
  - eexists. split; [reflexivity|].
    destruct (Hdrawn _ eq_refl) as [_ [_ [_ Hall]]].
    inversion Hall as [|location circle locations circles [Hx [Hy _]] _]; subst.
    destruct Hx as [X0 X1]; [cbn; lra|cbn; lra|].
    destruct Hy as [Y0 Y1]; [cbn; lra|cbn; lra|].
    repeat split; assumption.
Defined.
